(** * tech-stack-analyzer: version systems and lockfile parsers

    A shallow embedding of the dependency core of the analyzer:
    the [semver] package (npm, PyPI and Maven version systems, their
    comparison, [Normalize] and the helpers), the [parsers] package
    (package-lock.json, Gemfile, Gemfile.lock, yarn.lock, the keys and
    versions of pnpm-lock.yaml and the Maven dependency list) and the
    [license] package, followed by the properties established about
    them.

    Go strings are byte sequences; they are modelled as [list ascii].
    Go's [int] is the 64-bit signed integer; it is modelled as [Z] and
    the only place where its range matters, [strconv.Atoi], checks it
    explicitly.  Functions of the [strings] package are embedded for
    ASCII input, which is where their Go definitions are byte-wise. *)

From Stdlib Require Import String Ascii ZArith Lia Bool Arith List Permutation.
Import ListNotations.

#[local] Open Scope string_scope.
#[local] Open Scope list_scope.
#[local] Open Scope Z_scope.

(** A string literal stands for its list of bytes. *)
Coercion list_ascii_of_string : string >-> list.

(* ================================================================= *)
(** ** The [strings] and [strconv] functions the code uses *)

Module GoStr.

Definition gostring := list ascii.

Definition eqs (a b : gostring) : bool :=
  if list_eq_dec ascii_dec a b then true else false.

Definition is_ascii (s : gostring) : Prop :=
  Forall (fun c => (nat_of_ascii c < 128)%nat) s.

(** [s[i:]] and [s[:i]] for an index the code has just computed. *)
Definition from (s : gostring) (i : Z) : gostring := skipn (Z.to_nat i) s.
Definition upto (s : gostring) (i : Z) : gostring := firstn (Z.to_nat i) s.
Definition len (s : gostring) : Z := Z.of_nat (length s).

Fixpoint HasPrefix (s p : gostring) : bool :=
  match p, s with
  | [], _ => true
  | _ :: _, [] => false
  | a :: p', b :: s' => Ascii.eqb a b && HasPrefix s' p'
  end.

Definition TrimPrefix (s p : gostring) : gostring :=
  if HasPrefix s p then skipn (length p) s else s.

(** [strings.Index]: position of the first occurrence, or -1. *)
Fixpoint Index (s sub : gostring) : Z :=
  if HasPrefix s sub then 0
  else match s with
       | [] => -1
       | _ :: s' => let i := Index s' sub in if i <? 0 then -1 else i + 1
       end.

Definition IndexByte (s : gostring) (c : ascii) : Z := Index s [c].

Definition Contains (s sub : gostring) : bool := 0 <=? Index s sub.

(** [strings.LastIndexByte]. *)
Fixpoint LastIndexByte (s : gostring) (c : ascii) : Z :=
  match s with
  | [] => -1
  | b :: s' =>
      let i := LastIndexByte s' c in
      if 0 <=? i then i + 1 else if Ascii.eqb b c then 0 else -1
  end.

(** [strings.Split] and [strings.Count] for a non-empty separator:
    occurrences are taken left to right and do not overlap.  [skip]
    counts the bytes of a separator that has just been recognised. *)
Fixpoint SplitFrom (sep : gostring) (skip : nat) (cur s : gostring)
  : list gostring :=
  match s with
  | [] => [cur]
  | c :: s' =>
      match skip with
      | S k => SplitFrom sep k cur s'
      | O => if HasPrefix s sep
             then cur :: SplitFrom sep (length sep - 1)%nat [] s'
             else SplitFrom sep 0 (cur ++ [c]) s'
      end
  end.

Definition Split (s sep : gostring) : list gostring := SplitFrom sep 0 [] s.

Fixpoint CountFrom (sep : gostring) (skip : nat) (s : gostring) : Z :=
  match s with
  | [] => 0
  | _ :: s' =>
      match skip with
      | S k => CountFrom sep k s'
      | O => if HasPrefix s sep
             then 1 + CountFrom sep (length sep - 1)%nat s'
             else CountFrom sep 0 s'
      end
  end.

Definition Count (s sep : gostring) : Z := CountFrom sep 0 s.

Fixpoint Join (l : list gostring) (sep : gostring) : gostring :=
  match l with
  | [] => []
  | [x] => x
  | x :: l' => x ++ sep ++ Join l' sep
  end.

(** White space as [strings.TrimSpace] and [strings.Fields] see it in
    ASCII: tab, line feed, vertical tab, form feed, carriage return,
    space. *)
Definition isSpace (c : ascii) : bool :=
  let n := nat_of_ascii c in
  ((9 <=? n) && (n <=? 13) || (n =? 32))%nat.

Fixpoint dropWhile (f : ascii -> bool) (s : gostring) : gostring :=
  match s with
  | [] => []
  | c :: s' => if f c then dropWhile f s' else s
  end.

Definition dropWhileEnd (f : ascii -> bool) (s : gostring) : gostring :=
  rev (dropWhile f (rev s)).

Definition TrimSpace (s : gostring) : gostring :=
  dropWhileEnd isSpace (dropWhile isSpace s).

Definition inCutset (cutset : gostring) (c : ascii) : bool :=
  existsb (Ascii.eqb c) cutset.

Definition TrimRight (s cutset : gostring) : gostring :=
  dropWhileEnd (inCutset cutset) s.

Definition Trim (s cutset : gostring) : gostring :=
  dropWhileEnd (inCutset cutset) (dropWhile (inCutset cutset) s).

Definition lowerByte (c : ascii) : ascii :=
  let n := nat_of_ascii c in
  if ((65 <=? n) && (n <=? 90))%nat then ascii_of_nat (n + 32) else c.

Definition ToLower (s : gostring) : gostring := map lowerByte s.

(** [strings.FieldsFunc]: maximal runs of bytes that are not
    separators; no empty field is produced. *)
Fixpoint FieldsFrom (f : ascii -> bool) (cur s : gostring) : list gostring :=
  match s with
  | [] => match cur with [] => [] | _ => [cur] end
  | c :: s' =>
      if f c
      then match cur with
           | [] => FieldsFrom f [] s'
           | _ => cur :: FieldsFrom f [] s'
           end
      else FieldsFrom f (cur ++ [c]) s'
  end.

Definition FieldsFunc (s : gostring) (f : ascii -> bool) : list gostring :=
  FieldsFrom f [] s.

Definition Fields (s : gostring) : list gostring := FieldsFunc s isSpace.

(** *** strconv *)

Definition isDigit (c : ascii) : bool :=
  let n := nat_of_ascii c in ((48 <=? n) && (n <=? 57))%nat.

Definition isLetter (c : ascii) : bool :=
  let n := nat_of_ascii c in
  ((97 <=? n) && (n <=? 122) || (65 <=? n) && (n <=? 90))%nat.

Definition isAllDigits (s : gostring) : bool :=
  forallb isDigit s && negb (eqs s []).

Definition maxInt : Z := 9223372036854775807.
Definition minInt : Z := -9223372036854775808.

Definition digitVal (c : ascii) : Z := Z.of_nat (nat_of_ascii c) - 48.

Fixpoint digitsVal (acc : Z) (s : gostring) : option Z :=
  match s with
  | [] => Some acc
  | c :: s' => if isDigit c then digitsVal (acc * 10 + digitVal c) s' else None
  end.

Definition inInt (v : Z) : bool := (minInt <=? v) && (v <=? maxInt).

(** [strconv.Atoi]: an optional sign, then one or more decimal digits,
    and the value must fit [int]; [None] is the error. *)
Definition Atoi (s : gostring) : option Z :=
  let '(neg, ds) :=
    match s with
    | c :: r => if Ascii.eqb c "+" then (false, r)
                else if Ascii.eqb c "-" then (true, r)
                else (false, s)
    | [] => (false, s)
    end in
  match ds with
  | [] => None
  | _ => match digitsVal 0 ds with
         | None => None
         | Some n => let v := if neg then - n else n in
                     if inInt v then Some v else None
         end
  end.

Definition digitChar (d : Z) : ascii := ascii_of_nat (Z.to_nat d + 48)%nat.

Fixpoint digitsOf (fuel : nat) (n : Z) : gostring :=
  match fuel with
  | O => [digitChar (n mod 10)]
  | S f => if n <? 10 then [digitChar n]
           else digitsOf f (n / 10) ++ [digitChar (n mod 10)]
  end.

(** [strconv.Itoa]. *)
Definition Itoa (n : Z) : gostring :=
  if n <? 0 then "-"%char :: digitsOf (Z.to_nat (Z.log2 (- n))) (- n)
  else digitsOf (Z.to_nat (Z.log2 n)) n.

End GoStr.

(* ================================================================= *)
(** ** Regular expressions

    The parsers are written with Go's [regexp] package.  Its matches
    are the ones a backtracking matcher finds first (leftmost, every
    operator greedy, alternatives tried left to right), and a capture
    group inside a repetition keeps the text of its last iteration.
    The matcher below is that backtracking matcher, written in
    continuation-passing style over the bytes of the input. *)

Module Regex.
Import GoStr.

Inductive regex : Type :=
| Eps : regex
| Chr : (ascii -> bool) -> regex
| Seq : regex -> regex -> regex
| Alt : regex -> regex -> regex
| Star : regex -> regex
| Grp : nat -> regex -> regex
| Bol : regex
| Eol : regex.

(** Derived forms. *)
Definition Plus (r : regex) : regex := Seq r (Star r).
Definition Opt (r : regex) : regex := Alt r Eps.
Fixpoint Rep (n : nat) (r : regex) : regex :=
  match n with O => Eps | S k => Seq r (Rep k r) end.
Fixpoint Lit (s : gostring) : regex :=
  match s with [] => Eps | c :: s' => Seq (Chr (Ascii.eqb c)) (Lit s') end.
Fixpoint Cat (l : list regex) : regex :=
  match l with [] => Eps | [r] => r | r :: l' => Seq r (Cat l') end.

(** Character classes. *)
Definition cls_s (c : ascii) : bool :=
  let n := nat_of_ascii c in
  ((n =? 9) || (n =? 10) || (n =? 12) || (n =? 13) || (n =? 32))%nat.
Definition cls_S (c : ascii) : bool := negb (cls_s c).
Definition cls_d (c : ascii) : bool := isDigit c.
Definition cls_w (c : ascii) : bool :=
  isDigit c || isLetter c || Ascii.eqb c "_".
Definition oneOf (set : gostring) (c : ascii) : bool := existsb (Ascii.eqb c) set.
Definition noneOf (set : gostring) (c : ascii) : bool := negb (oneOf set c).

(** Matcher state: bytes consumed so far, bytes left, and the text of
    each capture group (the empty string while a group has not taken
    part, which is what [FindStringSubmatch] reports for it). *)
Record mstate : Type := MState {
  pos : nat;
  rest : gostring;
  caps : list gostring
}.

Fixpoint setCap (n : nat) (v : gostring) (l : list gostring) : list gostring :=
  match n, l with
  | _, [] => []
  | O, _ :: l' => v :: l'
  | S k, x :: l' => x :: setCap k v l'
  end.

(** The greedy loop of a repetition: one more iteration if the body
    matches and consumes input, otherwise (or when that fails further
    on) the continuation.  The fuel is the number of bytes left when
    the repetition is entered; every iteration consumes at least one. *)
Fixpoint starLoop (body : (mstate -> option mstate) -> mstate -> option mstate)
  (k : mstate -> option mstate) (fuel : nat) (st0 : mstate) : option mstate :=
  match fuel with
  | O => k st0
  | S fuel' =>
      match body (fun st1 => if (pos st0 <? pos st1)%nat
                             then starLoop body k fuel' st1 else None) st0 with
      | Some res => Some res
      | None => k st0
      end
  end.

Definition capture (n : nat) (st st1 : mstate) : mstate :=
  MState (pos st1) (rest st1)
    (setCap n (firstn (pos st1 - pos st) (rest st)) (caps st1)).

Fixpoint run (r : regex) (k : mstate -> option mstate) (st : mstate)
  {struct r} : option mstate :=
  match r with
  | Eps => k st
  | Chr p =>
      match rest st with
      | c :: s' => if p c then k (MState (S (pos st)) s' (caps st)) else None
      | [] => None
      end
  | Seq r1 r2 => run r1 (run r2 k) st
  | Alt r1 r2 =>
      match run r1 k st with
      | Some res => Some res
      | None => run r2 k st
      end
  | Star r1 => starLoop (run r1) k (length (rest st)) st
  | Grp n r1 => run r1 (fun st1 => k (capture n st st1)) st
  | Bol => if (pos st =? 0)%nat then k st else None
  | Eol => match rest st with [] => k st | _ => None end
  end.

(** One attempt at a given start position; the whole match is group 0. *)
Definition matchAt (r : regex) (ngroups : nat) (p : nat) (s : gostring)
  : option (list gostring) :=
  match run (Grp 0 r) Some (MState p (skipn p s) (repeat [] (S ngroups))) with
  | Some st => Some (caps st)
  | None => None
  end.

Fixpoint searchFrom (r : regex) (ngroups : nat) (s : gostring)
  (p fuel : nat) : option (list gostring) :=
  match matchAt r ngroups p s with
  | Some m => Some m
  | None => match fuel with
            | O => None
            | S f => searchFrom r ngroups s (S p) f
            end
  end.

(** [Regexp.FindStringSubmatch]: [None] is Go's nil slice; otherwise
    the whole match followed by the groups. *)
Definition FindStringSubmatch (r : regex) (ngroups : nat) (s : gostring)
  : option (list gostring) :=
  searchFrom r ngroups s 0 (length s).

Definition MatchString (r : regex) (ngroups : nat) (s : gostring) : bool :=
  match FindStringSubmatch r ngroups s with Some _ => true | None => false end.

(** [m[i]] on a match. *)
Definition sub (m : list gostring) (i : nat) : gostring := nth i m [].

End Regex.

(* ================================================================= *)
(** ** Package [semver] *)

Module Semver.
Import GoStr Regex.

(** [ParseError] and the [(value, error)] pair a parser returns. *)
Record ParseError : Type := mkParseError {
  errSystem : gostring;
  errVersion : gostring;
  errReason : gostring
}.

Definition parseError (system version reason : gostring) : ParseError :=
  mkParseError system version reason.

Inductive result (A : Type) : Type :=
| Ok : A -> result A
| Err : ParseError -> result A.
Arguments Ok {A} _.
Arguments Err {A} _.

Definition bind {A B} (r : result A) (f : A -> result B) : result B :=
  match r with Ok a => f a | Err e => Err e end.

Notation "'do' x <- r ; k" := (bind r (fun x => k))
  (at level 10, x pattern, r at level 100, k at level 200).

Definition compareInt (a b : Z) : Z :=
  if a <? b then -1 else if b <? a then 1 else 0.

(** *** npm *)

Record NPMVersion : Type := mkNPM {
  npm_original : gostring;
  major : Z;
  minor : Z;
  patch : Z;
  prerelease : list gostring;
  build : list gostring
}.

(** The [+build] and [-prerelease] parts are cut off in the same way:
    at the first occurrence of the byte, and the dot-separated list is
    only stored when the text after the byte is not empty. *)
Definition cutDotted (s : gostring) (c : ascii) : list gostring * gostring :=
  let idx := IndexByte s c in
  if 0 <=? idx
  then let str := from s (idx + 1) in
       ((if eqs str [] then [] else Split str "."), upto s idx)
  else ([], s).

Definition parseNPMVersion (version : gostring) : result NPMVersion :=
  if eqs version [] then Err (parseError "npm" version "empty version string")
  else
    let s := TrimSpace version in
    let s := TrimPrefix s "v" in
    let s := TrimPrefix s "V" in
    let s := TrimPrefix s "=" in
    let '(build, s) := cutDotted s "+" in
    let '(prerelease, s) := cutDotted s "-" in
    let parts := Split s "." in
    if ((length parts <? 1) || (3 <? length parts))%nat
    then Err (parseError "npm" version "invalid version format")
    else
      match Atoi (nth 0 parts []) with
      | None => Err (parseError "npm" version
                       ("invalid major version: " ++ nth 0 parts []))
      | Some major =>
          do minor <-
             (if (2 <=? length parts)%nat
              then match Atoi (nth 1 parts []) with
                   | None => Err (parseError "npm" version
                                    ("invalid minor version: " ++ nth 1 parts []))
                   | Some m => Ok m
                   end
              else Ok 0);
          do patch <-
             (if (3 <=? length parts)%nat
              then match Atoi (nth 2 parts []) with
                   | None => Err (parseError "npm" version
                                    ("invalid patch version: " ++ nth 2 parts []))
                   | Some p => Ok p
                   end
              else Ok 0);
          Ok (mkNPM version major minor patch prerelease build)
      end.

Definition npmCanon (v : NPMVersion) (includeEpoch : bool) : gostring :=
  Itoa (major v) ++ "." ++ Itoa (minor v) ++ "." ++ Itoa (patch v)
  ++ (match prerelease v with [] => [] | l => "-" ++ Join l "." end)
  ++ (match build v with [] => [] | l => "+" ++ Join l "." end).

Definition compareCoreVersion (v o : NPMVersion) : Z :=
  let cmp := compareInt (major v) (major o) in
  if negb (cmp =? 0) then cmp
  else let cmp := compareInt (minor v) (minor o) in
       if negb (cmp =? 0) then cmp
       else compareInt (patch v) (patch o).

(** Go's [<] on strings: byte-wise lexicographic order. *)
Fixpoint strLt (a b : gostring) : bool :=
  match a, b with
  | _, [] => false
  | [], _ :: _ => true
  | x :: a', y :: b' =>
      if (nat_of_ascii x <? nat_of_ascii y)%nat then true
      else if (nat_of_ascii y <? nat_of_ascii x)%nat then false
      else strLt a' b'
  end.

Definition comparePrereleaseIdentifier (vPart oPart : gostring) : Z :=
  match Atoi vPart, Atoi oPart with
  | Some vNum, Some oNum => compareInt vNum oNum
  | Some _, None => -1
  | None, Some _ => 1
  | None, None =>
      if strLt vPart oPart then -1
      else if strLt oPart vPart then 1
      else 0
  end.

(** The loop over the first [minLen] identifiers of both lists. *)
Fixpoint comparePrereleaseLoop (vp op : list gostring) : Z :=
  match vp, op with
  | x :: vp', y :: op' =>
      let cmp := comparePrereleaseIdentifier x y in
      if negb (cmp =? 0) then cmp else comparePrereleaseLoop vp' op'
  | _, _ => 0
  end.

Definition comparePrereleaseIdentifiers (v o : NPMVersion) : Z :=
  let cmp := comparePrereleaseLoop (prerelease v) (prerelease o) in
  if negb (cmp =? 0) then cmp
  else compareInt (Z.of_nat (length (prerelease v)))
                  (Z.of_nat (length (prerelease o))).

Definition comparePrerelease (v o : NPMVersion) : Z :=
  let lv := length (prerelease v) in
  let lo := length (prerelease o) in
  if ((lv =? 0) && (0 <? lo))%nat then 1
  else if ((0 <? lv) && (lo =? 0))%nat then -1
  else if ((lv =? 0) && (lo =? 0))%nat then 0
  else comparePrereleaseIdentifiers v o.

Definition npmCompare (v o : NPMVersion) : Z :=
  let cmp := compareCoreVersion v o in
  if negb (cmp =? 0) then cmp else comparePrerelease v o.

(** *** PyPI (PEP 440) *)

Record preRelease : Type := mkPre {
  phase : gostring;
  number : Z
}.

Record PyPIVersion : Type := mkPyPI {
  pypi_original : gostring;
  epoch : Z;
  release : list Z;
  pre : option preRelease;
  post : option Z;
  dev : option Z;
  local : gostring
}.

(** The number after a [dev] or [post] marker: absent means 0, and a
    text that [Atoi] rejects is a parse error. *)
Definition markerNumber (version what str : gostring) : result Z :=
  if eqs str [] then Ok 0
  else match Atoi str with
       | None => Err (parseError "PyPI" version ("invalid " ++ what ++ " number: " ++ str))
       | Some n => Ok n
       end.

Definition parseEpoch (version s : gostring) : result (Z * gostring) :=
  let idx := IndexByte s "!" in
  if 0 <? idx
  then let epochStr := upto s idx in
       match Atoi epochStr with
       | None => Err (parseError "PyPI" version ("invalid epoch: " ++ epochStr))
       | Some e => Ok (e, from s (idx + 1))
       end
  else Ok (0, s).

Definition parseLocal (s : gostring) : gostring * gostring :=
  let idx := IndexByte s "+" in
  if 0 <=? idx then (from s (idx + 1), upto s idx) else ([], s).

Definition parseDev (version s : gostring) : result (option Z * gostring) :=
  let idx := Index s ".dev" in
  if 0 <=? idx
  then do d <- markerNumber version "dev" (from s (idx + 4));
       Ok (Some d, upto s idx)
  else
    let idx := Index s "dev" in
    if 0 <=? idx
    then do d <- markerNumber version "dev" (from s (idx + 3));
         Ok (Some d, upto s idx)
    else Ok (None, s).

Definition parsePost (version s : gostring) : result (option Z * gostring) :=
  let idx := Index s ".post" in
  if 0 <=? idx
  then do p <- markerNumber version "post" (from s (idx + 5));
       Ok (Some p, upto s idx)
  else
    let idx := Index s "post" in
    if 0 <=? idx
    then do p <- markerNumber version "post" (from s (idx + 4));
         Ok (Some p, upto s idx)
    else
      let idx := LastIndexByte s "-" in
      if 0 <=? idx
      then let postStr := from s (idx + 1) in
           if negb (eqs postStr []) && isAllDigits postStr
           then match Atoi postStr with
                | Some p => Ok (Some p, upto s idx)
                | None => Ok (None, s)
                end
           else Ok (None, s)
      else Ok (None, s).

Definition phases : list gostring :=
  map list_ascii_of_string ["rc"; "c"; "beta"; "b"; "alpha"; "a"]%string.

(** The loop that keeps the phase token occurring earliest in [s]:
    its body, and the loop over the six tokens. *)
Definition phaseStep (s : gostring) (best : Z * gostring) (ph : gostring)
  : Z * gostring :=
  let '(preIdx, prePhase) := best in
  let idx := Index s ph in
  if (0 <=? idx) && ((preIdx =? -1) || (idx <? preIdx))
  then (idx, ph) else (preIdx, prePhase).

Definition earliestPhase (s : gostring) : Z * gostring :=
  fold_left (phaseStep s) phases (-1, []).

Definition normalizePhase (prePhase : gostring) : gostring :=
  if eqs prePhase "alpha" || eqs prePhase "a" then "a"
  else if eqs prePhase "beta" || eqs prePhase "b" then "b"
  else if eqs prePhase "c" || eqs prePhase "rc" then "rc"
  else prePhase.

Definition parsePre (version s : gostring)
  : result (option preRelease * gostring) :=
  let '(preIdx, prePhase) := earliestPhase s in
  if 0 <=? preIdx
  then
    let preNumStr := from s (preIdx + len prePhase) in
    let s' := upto s preIdx in
    let ph := normalizePhase prePhase in
    if eqs preNumStr [] then Ok (Some (mkPre ph 0), s')
    else match Atoi preNumStr with
         | None => Err (parseError "PyPI" version
                          ("invalid pre-release number: " ++ preNumStr))
         | Some n => Ok (Some (mkPre ph n), s')
         end
  else Ok (None, s).

Definition isReleaseSep (c : ascii) : bool :=
  Ascii.eqb c "." || Ascii.eqb c "_" || Ascii.eqb c "-".

Fixpoint releaseNumbers (version : gostring) (parts : list gostring)
  : result (list Z) :=
  match parts with
  | [] => Ok []
  | part :: parts' =>
      if eqs part [] then releaseNumbers version parts'
      else match Atoi part with
           | None => Err (parseError "PyPI" version
                            ("invalid release number: " ++ part))
           | Some num => do l <- releaseNumbers version parts'; Ok (num :: l)
           end
  end.

Definition parseRelease (version s : gostring) : result (list Z) :=
  let s := TrimRight s "." in
  if eqs s [] then Err (parseError "PyPI" version "no release numbers found")
  else
    do rel <- releaseNumbers version (FieldsFunc s isReleaseSep);
    if (length rel =? 0)%nat
    then Err (parseError "PyPI" version "no valid release numbers")
    else Ok rel.

Definition parsePyPIVersion (version : gostring) : result PyPIVersion :=
  if eqs version [] then Err (parseError "PyPI" version "empty version string")
  else
    let s := ToLower (TrimSpace version) in
    do (epoch, s) <- parseEpoch version s;
    let '(local, s) := parseLocal s in
    do (dev, s) <- parseDev version s;
    do (post, s) <- parsePost version s;
    do (pre, s) <- parsePre version s;
    do rel <- parseRelease version s;
    Ok (mkPyPI version epoch rel pre post dev local).

Definition pypiCanon (v : PyPIVersion) (includeEpoch : bool) : gostring :=
  (if includeEpoch && (0 <? epoch v) then Itoa (epoch v) ++ "!" else [])
  ++ Join (map Itoa (release v)) "."
  ++ (match pre v with Some p => phase p ++ Itoa (number p) | None => [] end)
  ++ (match post v with Some p => ".post" ++ Itoa p | None => [] end)
  ++ (match dev v with Some d => ".dev" ++ Itoa d | None => [] end)
  ++ (if eqs (local v) [] then [] else "+" ++ local v).

(** *** Maven *)

Record MavenVersion : Type := mkMaven {
  maven_original : gostring;
  maven_version : gostring;
  isRange : bool
}.

Definition digits1 : regex := Plus (Chr cls_d).

(** Digit runs separated by single dots: what the patterns write as
    one-or-more digits followed by any number of dot-and-digits. *)
Definition dottedNumber : regex := Seq digits1 (Star (Seq (Lit ".") digits1)).

(** [mavenRangeRegex], anchored at both ends: an opening bracket or
    parenthesis; group 1, any bytes other than a comma and a closing
    bracket; a comma; group 2, any bytes other than a closing bracket
    and a closing parenthesis; a closing bracket or parenthesis. *)
Definition mavenRangeRegex : regex :=
  Cat [Bol; Chr (oneOf "[(");
       Grp 1 (Star (Chr (noneOf ",]"))); Lit ",";
       Grp 2 (Star (Chr (noneOf "])")));
       Chr (oneOf "])"); Eol].

(** [mavenQualifierRegex], anchored at both ends: group 1, a dotted
    number; then optionally an optional dash or dot and group 2, one of
    RELEASE, FINAL, SNAPSHOT, GA, BUILD, SP, RC, M with digits, PRE
    (tried in this order). *)
Definition mavenQualifierRegex : regex :=
  Cat [Bol; Grp 1 dottedNumber;
       Opt (Seq (Opt (Chr (oneOf "-.")))
                (Grp 2 (Alt (Lit "RELEASE") (Alt (Lit "FINAL") (Alt (Lit "SNAPSHOT")
                       (Alt (Lit "GA") (Alt (Lit "BUILD") (Alt (Lit "SP") (Alt (Lit "RC")
                       (Alt (Seq (Lit "M") digits1) (Lit "PRE")))))))))));
       Eol].

(** [mavenBuildRegex], anchored at both ends: group 1, a dotted
    number; then optionally an optional dash or dot, group 2 (eight
    digits, a dot, six digits), a dash and group 3 (digits). *)
Definition mavenBuildRegex : regex :=
  Cat [Bol; Grp 1 dottedNumber;
       Opt (Cat [Opt (Chr (oneOf "-."));
                 Grp 2 (Cat [Rep 8 (Chr cls_d); Lit "."; Rep 6 (Chr cls_d)]);
                 Lit "-"; Grp 3 digits1]);
       Eol].

Definition isMavenVersionRange (version : gostring) : bool :=
  MatchString mavenRangeRegex 2 version.

Definition isSimpleNumericVersion (version : gostring) : bool :=
  let parts := Split version "." in
  forallb (fun part => match Atoi part with Some _ => true | None => false end) parts
  && (0 <? length parts)%nat.

Definition qualifiedMavenVersion (m : list gostring) : gostring :=
  let base := sub m 1 in
  let qualifier := sub m 2 in
  if eqs qualifier "RELEASE" || eqs qualifier "FINAL" || eqs qualifier "GA"
  then base
  else if eqs qualifier "SNAPSHOT" then base ++ "-snapshot"
  else if eqs qualifier "BUILD" then base ++ "-build"
  else if eqs qualifier [] then base
  else base ++ "-" ++ ToLower qualifier.

Definition canonicalizeMavenVersion (version : gostring) : gostring :=
  match FindStringSubmatch mavenBuildRegex 3 version with
  | Some m =>
      (* a match always has its four entries *)
      let base := sub m 1 in
      let timestamp := sub m 2 in
      let buildNum := sub m 3 in
      if negb (eqs timestamp []) && negb (eqs buildNum [])
      then base ++ "-build." ++ buildNum
      else base
  | None =>
      match FindStringSubmatch mavenQualifierRegex 2 version with
      | Some m => qualifiedMavenVersion m
      | None =>
          if isSimpleNumericVersion version then version else version
      end
  end.

Definition canonicalizeMavenRange (rangeStr : gostring) : gostring :=
  match FindStringSubmatch mavenRangeRegex 2 rangeStr with
  | None => rangeStr
  | Some m =>
      let lower := TrimSpace (sub m 1) in
      let upper := TrimSpace (sub m 2) in
      let lower := if eqs lower [] then lower else canonicalizeMavenVersion lower in
      let upper := if eqs upper [] then upper else canonicalizeMavenVersion upper in
      if eqs lower [] && eqs upper [] then "*"
      else if eqs lower [] then "<=" ++ upper
      else if eqs upper [] then ">=" ++ lower
      else lower ++ "-" ++ upper
  end.

Definition parseMavenVersion (version : gostring) : result MavenVersion :=
  if eqs version [] then Err (parseError "Maven" version "empty version string")
  else if isMavenVersionRange version
       then Ok (mkMaven version (canonicalizeMavenRange version) true)
       else Ok (mkMaven version (canonicalizeMavenVersion version) false).

Definition mavenCanon (v : MavenVersion) (includeEpoch : bool) : gostring :=
  maven_version v.

(** *** The [System] and [Version] interfaces

    The implementations of [System] are [pypiSystem], [npmSystem],
    [cargoSystem] and [mavenSystem]; those of [Version] are the three
    version records. *)

Inductive System : Type := PyPI | NPM | Cargo | Maven.

Inductive Version : Type :=
| VPyPI : PyPIVersion -> Version
| VNPM : NPMVersion -> Version
| VMaven : MavenVersion -> Version.

Definition mapResult {A B} (f : A -> B) (r : result A) : result B :=
  match r with Ok a => Ok (f a) | Err e => Err e end.

Definition Parse (s : System) (version : gostring) : result Version :=
  match s with
  | PyPI => mapResult VPyPI (parsePyPIVersion version)
  | NPM => mapResult VNPM (parseNPMVersion version)
  | Cargo => Err (parseError "cargo" version "not yet implemented")
  | Maven => mapResult VMaven (parseMavenVersion version)
  end.

Definition Canon (v : Version) (includeEpoch : bool) : gostring :=
  match v with
  | VPyPI p => pypiCanon p includeEpoch
  | VNPM n => npmCanon n includeEpoch
  | VMaven m => mavenCanon m includeEpoch
  end.

Definition String_ (v : Version) : gostring :=
  match v with
  | VPyPI p => pypi_original p
  | VNPM n => npm_original n
  | VMaven m => maven_original m
  end.

(** [Normalize]: the canonical form, or the input itself when it does
    not parse. *)
Definition Normalize (system : System) (version : gostring) : gostring :=
  match Parse system version with
  | Err _ => version
  | Ok v => Canon v true
  end.

(** *** Comparison of PyPI versions *)

Fixpoint compareReleaseLoop (vr orel : list Z) : Z :=
  match vr, orel with
  | x :: vr', y :: orel' =>
      let cmp := compareInt x y in
      if negb (cmp =? 0) then cmp else compareReleaseLoop vr' orel'
  | _, _ => 0
  end.

Definition compareRelease (v o : PyPIVersion) : Z :=
  let cmp := compareReleaseLoop (release v) (release o) in
  if negb (cmp =? 0) then cmp
  else compareInt (Z.of_nat (length (release v))) (Z.of_nat (length (release o))).

(** The [phaseOrder] map; a phase that is not a key reads as 0. *)
Definition phaseOrder (ph : gostring) : Z :=
  if eqs ph "a" then 1
  else if eqs ph "b" then 2
  else if eqs ph "rc" then 3
  else 0.

Definition comparePreRelease (v o : preRelease) : Z :=
  let cmp := compareInt (phaseOrder (phase v)) (phaseOrder (phase o)) in
  if negb (cmp =? 0) then cmp
  else compareInt (number v) (number o).

Definition comparePreReleasePart (v o : PyPIVersion) : Z :=
  match pre v, pre o with
  | None, Some _ => 1
  | Some _, None => -1
  | Some pv, Some op => comparePreRelease pv op
  | None, None => 0
  end.

Definition comparePostRelease (v o : PyPIVersion) : Z :=
  match post v, post o with
  | None, Some _ => -1
  | Some _, None => 1
  | Some pv, Some op => compareInt pv op
  | None, None => 0
  end.

Definition compareDevRelease (v o : PyPIVersion) : Z :=
  match dev v, dev o with
  | None, Some _ => 1
  | Some _, None => -1
  | Some dv, Some od => compareInt dv od
  | None, None => 0
  end.

Definition pypiCompare (v o : PyPIVersion) : Z :=
  let cmp := compareInt (epoch v) (epoch o) in
  if negb (cmp =? 0) then cmp
  else let cmp := compareRelease v o in
       if negb (cmp =? 0) then cmp
       else let cmp := comparePreReleasePart v o in
            if negb (cmp =? 0) then cmp
            else let cmp := comparePostRelease v o in
                 if negb (cmp =? 0) then cmp
                 else compareDevRelease v o.

(** *** Comparison of Maven versions *)

(** [strings.Compare]. *)
Definition stringsCompare (a b : gostring) : Z :=
  if eqs a b then 0
  else if strLt a b then -1
  else 1.

Definition mavenCompare (v o : MavenVersion) : Z :=
  stringsCompare (maven_version v) (maven_version o).

(** *** [Version.Compare]: a version of another system compares as 0 *)

Definition Compare (v other : Version) : Z :=
  match v, other with
  | VPyPI p, VPyPI o => pypiCompare p o
  | VNPM n, VNPM o => npmCompare n o
  | VMaven m, VMaven o => mavenCompare m o
  | _, _ => 0
  end.

(** [NormalizeNPMVersion]. *)
Definition NormalizeNPMVersion (version : gostring) : gostring :=
  let version := TrimSpace version in
  if HasPrefix version "workspace:" then "workspace"
  else if HasPrefix version "file:" then "local"
  else if HasPrefix version "npm:" then TrimPrefix version "npm:"
  else if HasPrefix version "git:" || HasPrefix version "git+" then version
  else if HasPrefix version "github:" then version
  else if HasPrefix version "http:" || HasPrefix version "https:" then version
  else if HasPrefix version "link:" then "link"
  else if eqs version [] || eqs version "*" || eqs version "latest" then "latest"
  else match Parse NPM version with
       | Err _ => version
       | Ok v => Canon v true
       end.

(** *** Helpers of the package *)

(** Go's [int] arithmetic wraps around at 64 bits. *)
Definition wrapInt (z : Z) : Z := (z + 2 ^ 63) mod 2 ^ 64 - 2 ^ 63.

(** [parseInt], for a start index that is not negative (a negative one
    makes the Go code panic): the loop over the digits, and the
    function. *)
Fixpoint parseIntLoop (s : gostring) (val : Z) (pos : nat) : Z * nat :=
  match s with
  | c :: s' =>
      if isDigit c
      then parseIntLoop s' (wrapInt (val * 10 + digitVal c)) (S pos)
      else (val, pos)
  | [] => (val, pos)
  end.

Definition parseInt (s : gostring) (start : nat) : Z * nat :=
  match skipn start s with
  | [] => (0, start)
  | c :: _ => if isDigit c then parseIntLoop (skipn start s) 0 start else (0, start)
  end.

(** [splitSegments]; Go's nil slice is the empty list. *)
Definition splitSegments (s : gostring) : list gostring :=
  if eqs s [] then [] else Split s ".".

End Semver.

(* ================================================================= *)
(** ** Package [parsers] *)

Module Parsers.
Import GoStr Regex.

Definition nl : ascii := "010"%char.
Definition dquote : ascii := "034"%char.
Definition quotes : gostring := ["'"%char; dquote].

(** Modelled from the spec: the record [types.Dependency], the
    constructor [types.NewMetadata] and the scope, type and source
    constants, whose declarations are not among the sources.  The
    fields are those of section 3 of the specification, which are also
    the ones the parsers fill; a field a parser does not mention has
    Go's zero value.  A Go map used as [Metadata] is an association
    list here. *)
Inductive MetaValue : Type :=
| MStr : gostring -> MetaValue
| MBool : bool -> MetaValue
| MList : list gostring -> MetaValue.

Definition Metadata_t := list (gostring * MetaValue).

Record Dependency : Type := mkDependency {
  Type_ : gostring;
  Name : gostring;
  Version : gostring;
  Scope : gostring;
  Direct : bool;
  SourceFile : gostring;
  Metadata : Metadata_t
}.

Fixpoint setMeta (k : gostring) (v : MetaValue) (m : Metadata_t) : Metadata_t :=
  match m with
  | [] => [(k, v)]
  | (k', v') :: m' => if eqs k k' then (k, v) :: m' else (k', v') :: setMeta k v m'
  end.

Definition NewMetadata (source : gostring) : Metadata_t := [("source" : gostring, MStr source)].

Definition ScopeProd : gostring := "prod".
Definition ScopeDev : gostring := "dev".
Definition DependencyTypeRuby : gostring := "ruby".
Definition MetadataSourceGemfile : gostring := "Gemfile".
Definition MetadataSourceGemfileLock : gostring := "Gemfile.lock".

(** A [map[string]bool] that only ever receives [true]: the set of its keys. *)
Definition has (set : list gostring) (name : gostring) : bool :=
  existsb (eqs name) set.

(** *** package-lock.json *)

(** A [map[string]PackageInfo] is the list of its entries in the order
    the [range] loop visits them (Go leaves that order unspecified);
    the keys of a map are pairwise distinct. *)
#[warnings="-register-all"]
Inductive PackageInfo : Type :=
  mkPackageInfo {
    pkgVersion : gostring;
    Resolved : gostring;
    Link : bool;
    Dev : bool;
    Optional : bool;
    Bundled : bool;
    pkgDependencies : list (gostring * PackageInfo)
  }.

Record PackageLockJSON : Type := mkPackageLockJSON {
  lockName : gostring;
  lockVersion : gostring;
  LockfileVersion : Z;
  Packages : list (gostring * PackageInfo);
  Dependencies : list (gostring * PackageInfo)
}.

(** [PackageJSON] and [PackageJSONEnhanced]: only the dependency maps
    are read, and of those only the keys. *)
Record PackageJSON : Type := mkPackageJSON {
  pjName : gostring;
  pjDependencies : list (gostring * gostring);
  pjDevDependencies : list (gostring * gostring)
}.

Record PackageJSONEnhanced : Type := mkPackageJSONEnhanced {
  PeerDependencies : list (gostring * gostring);
  OptionalDependencies : list (gostring * gostring)
}.

(** The lockfile bytes as the two [json.Unmarshal] calls see them;
    [None] is a decoding error. *)
Record LockContent : Type := mkLockContent {
  asPackageLock : option PackageLockJSON;
  asEnhanced : option PackageJSONEnhanced
}.

Record ParsePackageLockOptions : Type := mkOptions {
  IncludeTransitive : bool
}.

Definition extractNameFromNodeModulesPath (path : gostring) : gostring :=
  let segments := Split path "node_modules/" in
  if (length segments <? 2)%nat then []
  else
    let lastSegment := TrimSpace (last segments []) in
    if eqs lastSegment [] then []
    else
      let parts := Split lastSegment "/" in
      if HasPrefix lastSegment "@" && (2 <=? length parts)%nat
      then Join (firstn 2 parts) "/"
      else if (0 <? length parts)%nat then nth 0 parts []
           else lastSegment.

Record DeclaredSets : Type := mkSets {
  prodDeps : list gostring;
  devDeps : list gostring;
  peerDeps : list gostring;
  optionalDeps : list gostring
}.

Definition determineScopeFromLockfile (name : gostring) (pkg : PackageInfo)
  (sets : DeclaredSets) : gostring :=
  if has (peerDeps sets) name then "peer"
  else if has (optionalDeps sets) name || Optional pkg then "optional"
  else if has (devDeps sets) name || Dev pkg then "dev"
  else if has (prodDeps sets) name then "prod"
  else "prod".

Definition npmDependency (name version scope : gostring) : Dependency :=
  mkDependency "npm" name version scope false "package-lock.json" [].

(** [parseDependenciesV2]: the recursive walk of the v2 tree.  The
    accumulated [path] only serves the recursion. *)
Fixpoint parseDependencyV2 (name : gostring) (dep : PackageInfo)
  (path : gostring) (sets : DeclaredSets) {struct dep} : list Dependency :=
  if Bundled dep then []
  else
    npmDependency name (pkgVersion dep) (determineScopeFromLockfile name dep sets)
    :: (if (0 <? length (pkgDependencies dep))%nat
        then
          let nestedPath := path ++ "node_modules/" ++ name ++ "/" in
          (fix range (deps : list (gostring * PackageInfo)) : list Dependency :=
             match deps with
             | [] => []
             | (n, d) :: deps' => parseDependencyV2 n d nestedPath sets ++ range deps'
             end) (pkgDependencies dep)
        else []).

Fixpoint parseDependenciesV2 (deps : list (gostring * PackageInfo))
  (path : gostring) (sets : DeclaredSets) : list Dependency :=
  match deps with
  | [] => []
  | (name, dep) :: deps' =>
      parseDependencyV2 name dep path sets ++ parseDependenciesV2 deps' path sets
  end.

(** The body of the loop over [lockfile.Packages]: [None] stands for
    [continue]. *)
Definition packageEntry (options : ParsePackageLockOptions)
  (sets : DeclaredSets) (path : gostring) (pkg : PackageInfo)
  : option Dependency :=
  if eqs path [] then None
  else
    let name := extractNameFromNodeModulesPath path in
    if eqs name [] then None
    else if Bundled pkg then None
    else if negb (IncludeTransitive options)
            && negb (Count path "node_modules/" =? 1) then None
    else Some (npmDependency name (pkgVersion pkg)
                 (determineScopeFromLockfile name pkg sets)).

Fixpoint rangePackages (options : ParsePackageLockOptions)
  (sets : DeclaredSets) (entries : list (gostring * PackageInfo))
  (dependencies : list Dependency) : list Dependency :=
  match entries with
  | [] => dependencies
  | (path, pkg) :: entries' =>
      match packageEntry options sets path pkg with
      | None => rangePackages options sets entries' dependencies
      | Some d => rangePackages options sets entries' (dependencies ++ [d])
      end
  end.

(** The loop over the top level of [lockfile.Dependencies]. *)
Fixpoint rangeTopLevel (sets : DeclaredSets)
  (entries : list (gostring * PackageInfo))
  (dependencies : list Dependency) : list Dependency :=
  match entries with
  | [] => dependencies
  | (name, dep) :: entries' =>
      if Bundled dep then rangeTopLevel sets entries' dependencies
      else
        let scope :=
          determineScopeFromLockfile name
            (mkPackageInfo [] [] false (Dev dep) (Optional dep) false []) sets in
        rangeTopLevel sets entries'
          (dependencies ++ [npmDependency name (pkgVersion dep) scope])
  end.

Definition declaredSets (content : LockContent) (packageJSON : option PackageJSON)
  : DeclaredSets :=
  match packageJSON with
  | None => mkSets [] [] [] []
  | Some pj =>
      let prod := map fst (pjDependencies pj) in
      let dev := map fst (pjDevDependencies pj) in
      match asEnhanced content with
      | Some e => mkSets prod dev (map fst (PeerDependencies e))
                         (map fst (OptionalDependencies e))
      | None => mkSets prod dev [] []
      end
  end.

Definition ParsePackageLockWithOptions (content : LockContent)
  (packageJSON : option PackageJSON) (options : ParsePackageLockOptions)
  : list Dependency :=
  match asPackageLock content with
  | None => []
  | Some lockfile =>
      let sets := declaredSets content packageJSON in
      if (0 <? length (Packages lockfile))%nat
      then rangePackages options sets (Packages lockfile) []
      else if (0 <? length (Dependencies lockfile))%nat
      then if IncludeTransitive options
           then parseDependenciesV2 (Dependencies lockfile) [] sets
           else rangeTopLevel sets (Dependencies lockfile) []
      else []
  end.

Definition ParsePackageLock (content : LockContent)
  (packageJSON : option PackageJSON) : list Dependency :=
  ParsePackageLockWithOptions content packageJSON (mkOptions false).

(** *** Gemfile.lock *)

(** [gemLockSpecRegex], anchored at the start: exactly four white-space
    bytes, group 1 (one or more bytes that are not white space), white
    space, an opening parenthesis, group 2 (one or more bytes other
    than a closing parenthesis), a closing parenthesis. *)
Definition gemLockSpecRegex : regex :=
  Cat [Bol; Rep 4 (Chr cls_s); Grp 1 (Plus (Chr cls_S)); Plus (Chr cls_s);
       Lit "("; Grp 2 (Plus (Chr (noneOf ")"))); Lit ")"].

Record ParseGemfileLockOptions : Type := mkGemfileLockOptions {
  gemIncludeTransitive : bool
}.

(** [parseDirectDependencies]: the loop state is the set built so far
    and the [inDepsSection] flag. *)
Fixpoint directDepsLoop (lines : list gostring) (directDeps : list gostring)
  (inDepsSection : bool) : list gostring :=
  match lines with
  | [] => directDeps
  | line :: lines' =>
      let trimmedLine := TrimSpace line in
      if eqs trimmedLine "DEPENDENCIES"
      then directDepsLoop lines' directDeps true
      else if inDepsSection
                && (eqs trimmedLine "BUNDLED WITH" || eqs trimmedLine "PLATFORMS"
                    || eqs trimmedLine [])
      then directDepsLoop lines' directDeps
             (if negb (eqs trimmedLine []) then false else inDepsSection)
      else if negb inDepsSection
      then directDepsLoop lines' directDeps inDepsSection
      else
        match Fields trimmedLine with
        | gemName :: _ => directDepsLoop lines' (directDeps ++ [gemName]) inDepsSection
        | [] => directDepsLoop lines' directDeps inDepsSection
        end
  end.

Definition parseDirectDependencies (lines : list gostring) : list gostring :=
  directDepsLoop lines [] false.

Definition gemLockDependency (gemName version : gostring) (isDirect : bool)
  : Dependency :=
  mkDependency DependencyTypeRuby gemName version ScopeProd isDirect []
    (setMeta "direct" (MBool isDirect) (NewMetadata MetadataSourceGemfileLock)).

Fixpoint gemSpecsLoop (options : ParseGemfileLockOptions)
  (directDeps : list gostring) (lines : list gostring)
  (inGemSection : bool) (dependencies : list Dependency) : list Dependency :=
  match lines with
  | [] => dependencies
  | line :: lines' =>
      let trimmedLine := TrimSpace line in
      if eqs trimmedLine "GEM"
      then gemSpecsLoop options directDeps lines' true dependencies
      else if eqs trimmedLine "PLATFORMS" || eqs trimmedLine "DEPENDENCIES"
      then gemSpecsLoop options directDeps lines' false dependencies
      else if negb inGemSection
      then gemSpecsLoop options directDeps lines' inGemSection dependencies
      else if HasPrefix line "  remote:" || eqs trimmedLine []
              || eqs trimmedLine "specs:"
      then gemSpecsLoop options directDeps lines' inGemSection dependencies
      else
        match FindStringSubmatch gemLockSpecRegex 2 line with
        | Some m =>
            let gemName := sub m 1 in
            let version := sub m 2 in
            let isDirect := has directDeps gemName in
            if negb (gemIncludeTransitive options) && negb isDirect
            then gemSpecsLoop options directDeps lines' inGemSection dependencies
            else gemSpecsLoop options directDeps lines' inGemSection
                   (dependencies ++ [gemLockDependency gemName version isDirect])
        | None => gemSpecsLoop options directDeps lines' inGemSection dependencies
        end
  end.

Definition ParseGemfileLockWithOptions (content : gostring)
  (options : ParseGemfileLockOptions) : list Dependency :=
  let lines := Split content [nl] in
  let directDeps := parseDirectDependencies lines in
  gemSpecsLoop options directDeps lines false [].

Definition ParseGemfileLock (content : gostring) : list Dependency :=
  ParseGemfileLockWithOptions content (mkGemfileLockOptions false).

(** *** Gemfile *)

Definition quote : regex := Chr (oneOf quotes).
Definition quoted (n : nat) : regex :=
  Cat [quote; Grp n (Plus (Chr (noneOf quotes))); quote].
Definition spaces0 : regex := Star (Chr cls_s).
Definition spaces1 : regex := Plus (Chr cls_s).
Definition word : regex := Plus (Chr cls_w).

(** [gem], a space, and the quoted name as group 1. *)
Definition rubyDepRegexNoVersion : regex := Cat [Lit "gem "; quoted 1].

(** The same, then a comma, optional white space and the quoted
    version as group 2. *)
Definition rubyDepRegexWithVersion : regex :=
  Cat [Lit "gem "; quoted 1; Lit ","; spaces0; quoted 2].

(** [group], white space, an optional colon and a word (group 1); then
    any number of times: a comma between optional white space, an
    optional colon and a word (group 2, the same group at every
    repetition); then white space and [do]. *)
Definition rubyGroupRegex : regex :=
  Cat [Lit "group"; spaces1; Opt (Lit ":"); Grp 1 word;
       Star (Cat [spaces0; Lit ","; spaces0; Opt (Lit ":"); Grp 2 word]);
       spaces1; Lit "do"].

Definition rubyGitRegex : regex := Cat [Lit "git:"; spaces0; quoted 1].
Definition rubyBranchRegex : regex := Cat [Lit "branch:"; spaces0; quoted 1].
Definition rubyPathRegex : regex := Cat [Lit "path:"; spaces0; quoted 1].

(** [platform], an optional [s], a colon, optional white space, and
    between brackets group 1, one or more bytes other than a closing
    bracket. *)
Definition rubyPlatformsRegex : regex :=
  Cat [Lit "platform"; Opt (Lit "s"); Lit ":"; spaces0; Lit "[";
       Grp 1 (Plus (Chr (noneOf "]"))); Lit "]"].

Definition mapGemfileGroupToScope (groups : list gostring) : gostring :=
  if (length groups =? 0)%nat then ScopeProd
  else if existsb (fun group => eqs group "test") groups then ScopeDev
  else if existsb (fun group => eqs group "development") groups then ScopeDev
  else ScopeProd.

Definition addGroupsToMetadata (metadata : Metadata_t) (groups : list gostring)
  : Metadata_t :=
  if (0 <? length groups)%nat then setMeta "groups" (MList groups) metadata
  else metadata.

Definition addCaptureToMetadata (r : regex) (key : gostring)
  (metadata : Metadata_t) (line : gostring) : Metadata_t :=
  match FindStringSubmatch r 1 line with
  | Some m => setMeta key (MStr (sub m 1)) metadata
  | None => metadata
  end.

Definition addRequireFlagToMetadata (metadata : Metadata_t) (line : gostring)
  : Metadata_t :=
  if Contains line "require: false" || Contains line "require:false"
  then setMeta "require" (MBool false) metadata
  else metadata.

Definition cleanPlatform (p : gostring) : gostring :=
  Trim (Trim (TrimSpace p) ":") quotes.

Definition addPlatformsToMetadata (metadata : Metadata_t) (line : gostring)
  : Metadata_t :=
  match FindStringSubmatch rubyPlatformsRegex 1 line with
  | Some m =>
      let cleanPlatforms :=
        filter (fun p => negb (eqs p [])) (map cleanPlatform (Split (sub m 1) ",")) in
      if (0 <? length cleanPlatforms)%nat
      then setMeta "platforms" (MList cleanPlatforms) metadata
      else metadata
  | None => metadata
  end.

Definition buildRubyMetadata (line : gostring) (groups : list gostring)
  : Metadata_t :=
  let metadata := NewMetadata MetadataSourceGemfile in
  let metadata := addGroupsToMetadata metadata groups in
  let metadata := addCaptureToMetadata rubyGitRegex "git" metadata line in
  let metadata := addCaptureToMetadata rubyBranchRegex "branch" metadata line in
  let metadata := addCaptureToMetadata rubyPathRegex "path" metadata line in
  let metadata := addRequireFlagToMetadata metadata line in
  addPlatformsToMetadata metadata line.

(** The name and version a [gem] line declares, if it is one. *)
Definition gemOfLine (trimmedLine : gostring) : option (gostring * gostring) :=
  match FindStringSubmatch rubyDepRegexWithVersion 2 trimmedLine with
  | Some m => Some (sub m 1, sub m 2)
  | None =>
      match FindStringSubmatch rubyDepRegexNoVersion 1 trimmedLine with
      | Some m => Some (sub m 1, "latest" : gostring)
      | None => None
      end
  end.

Fixpoint gemfileLoop (lines : list gostring) (currentGroups : list gostring)
  (groupDepth : Z) (dependencies : list Dependency) : list Dependency :=
  match lines with
  | [] => dependencies
  | line :: lines' =>
      let trimmedLine := TrimSpace line in
      match FindStringSubmatch rubyGroupRegex 2 trimmedLine with
      | Some groupMatch =>
          gemfileLoop lines'
            (filter (fun g => negb (eqs g [])) (tl groupMatch))
            (groupDepth + 1) dependencies
      | None =>
          if eqs trimmedLine "end" && (0 <? groupDepth)
          then gemfileLoop lines'
                 (if groupDepth - 1 =? 0 then [] else currentGroups)
                 (groupDepth - 1) dependencies
          else if eqs trimmedLine [] || HasPrefix trimmedLine "#"
          then gemfileLoop lines' currentGroups groupDepth dependencies
          else
            match gemOfLine trimmedLine with
            | None => gemfileLoop lines' currentGroups groupDepth dependencies
            | Some (gemName, version) =>
                if eqs gemName []
                then gemfileLoop lines' currentGroups groupDepth dependencies
                else
                  gemfileLoop lines' currentGroups groupDepth
                    (dependencies ++
                     [mkDependency DependencyTypeRuby gemName version
                        (mapGemfileGroupToScope currentGroups) true []
                        (buildRubyMetadata trimmedLine currentGroups)])
            end
      end
  end.

Definition ParseGemfile (content : gostring) : list Dependency :=
  gemfileLoop (Split content [nl]) [] 0 [].

(** *** yarn.lock *)

Definition parseYarnVersion (version specType resolution : gostring) : gostring :=
  let version := TrimSpace version in
  if eqs specType "workspace"
  then (if Contains resolution "workspace:" then "workspace" else "workspace")
  else if eqs specType "patch" then "patch"
  else if eqs specType "npm"
  then (if eqs version [] || eqs version "*" then "latest" else version)
  else if eqs specType "git"
  then (if negb (eqs resolution []) then "git:" ++ resolution else "git")
  else if eqs specType "file" then "local"
  else if eqs specType "tarball"
  then (if HasPrefix resolution "file:" then "local" else "tarball")
  else if eqs version [] || eqs version "*" then "latest"
  else version.

(** *** yarn.lock, Berry format

    The dependency filter ([NewDependencyFilter],
    [AddDirectDependenciesFromMaps], [CreateAndAppendDependency]) is
    not among the sources; the loop takes the filter's append operation
    as a parameter: dependency type, name, version, source file and the
    slice built so far. *)

Definition notQuoteNorSpace (c : ascii) : bool :=
  negb (Ascii.eqb c dquote) && negb (cls_s c).

(** [berryPackagePattern], anchored at the start: a double quote;
    group 1, an optional scope (an at sign, bytes other than a slash, a
    slash) and bytes other than an at sign; an at sign; group 2, bytes
    other than a colon; a colon; group 3, bytes other than a double
    quote; a double quote. *)
Definition berryPackagePattern : regex :=
  Cat [Bol; Chr (Ascii.eqb dquote);
       Grp 1 (Seq (Opt (Cat [Lit "@"; Plus (Chr (noneOf "/")); Lit "/"]))
                  (Plus (Chr (noneOf "@"))));
       Lit "@"; Grp 2 (Plus (Chr (noneOf ":"))); Lit ":";
       Grp 3 (Plus (Chr (noneOf [dquote]))); Chr (Ascii.eqb dquote)].

(** [berryVersionPattern], anchored at the start: white space,
    [version:], white space, an optional double quote, group 1 (bytes
    that are neither a double quote nor white space), an optional
    double quote. *)
Definition berryVersionPattern : regex :=
  Cat [Bol; spaces1; Lit "version:"; spaces1; Opt (Chr (Ascii.eqb dquote));
       Grp 1 (Plus (Chr notQuoteNorSpace)); Opt (Chr (Ascii.eqb dquote))].

(** [berryResolutionPattern], anchored at the start: white space,
    [resolution:], white space, and between double quotes group 1. *)
Definition berryResolutionPattern : regex :=
  Cat [Bol; spaces1; Lit "resolution:"; spaces1; Chr (Ascii.eqb dquote);
       Grp 1 (Plus (Chr (noneOf [dquote]))); Chr (Ascii.eqb dquote)].

Definition Appender : Type :=
  gostring -> gostring -> gostring -> gostring -> list Dependency -> list Dependency.

Fixpoint berryLoop (createAndAppend : Appender) (lines : list gostring)
  (currentPackage currentSpecType currentResolution : gostring)
  (dependencies : list Dependency) : list Dependency :=
  match lines with
  | [] => dependencies
  | line :: lines' =>
      let line := TrimSpace line in
      match FindStringSubmatch berryPackagePattern 3 line with
      | Some m =>
          berryLoop createAndAppend lines' (sub m 1) (sub m 2) [] dependencies
      | None =>
          match (if negb (eqs currentPackage [])
                 then FindStringSubmatch berryVersionPattern 1 line else None) with
          | Some m =>
              let version := parseYarnVersion (sub m 1) currentSpecType currentResolution in
              berryLoop createAndAppend lines' [] currentSpecType currentResolution
                (createAndAppend "npm" currentPackage version "yarn.lock" dependencies)
          | None =>
              match (if negb (eqs currentPackage [])
                     then FindStringSubmatch berryResolutionPattern 1 line
                     else None) with
              | Some m =>
                  berryLoop createAndAppend lines' currentPackage currentSpecType
                    (sub m 1) dependencies
              | None =>
                  berryLoop createAndAppend lines' currentPackage currentSpecType
                    currentResolution dependencies
              end
          end
      end
  end.

Definition parseYarnLockBerryWithOptions (createAndAppend : Appender)
  (lockContent : gostring) : list Dependency :=
  berryLoop createAndAppend (Split lockContent [nl]) [] [] [] [].

(** [parsePlatforms]: the loop state is the list built so far and the
    [inPlatformsSection] flag. *)
Fixpoint platformsLoop (lines : list gostring) (platforms : list gostring)
  (inPlatformsSection : bool) : list gostring :=
  match lines with
  | [] => platforms
  | line :: lines' =>
      let trimmedLine := TrimSpace line in
      if eqs trimmedLine "PLATFORMS"
      then platformsLoop lines' platforms true
      else if inPlatformsSection
                && (eqs trimmedLine "DEPENDENCIES" || eqs trimmedLine "BUNDLED WITH"
                    || eqs trimmedLine [])
      then platformsLoop lines' platforms
             (if negb (eqs trimmedLine []) then false else inPlatformsSection)
      else if inPlatformsSection && negb (eqs trimmedLine [])
      then platformsLoop lines' (platforms ++ [trimmedLine]) inPlatformsSection
      else platformsLoop lines' platforms inPlatformsSection
  end.

Definition parsePlatforms (lines : list gostring) : list gostring :=
  platformsLoop lines [] false.

(** [parseBundlerVersion]: the loop returns from inside; the state is
    the [inBundledSection] flag. *)
Fixpoint bundlerLoop (lines : list gostring) (inBundledSection : bool) : gostring :=
  match lines with
  | [] => []
  | line :: lines' =>
      let trimmedLine := TrimSpace line in
      if eqs trimmedLine "BUNDLED WITH"
      then bundlerLoop lines' true
      else if inBundledSection && negb (eqs trimmedLine [])
      then trimmedLine
      else bundlerLoop lines' inBundledSection
  end.

Definition parseBundlerVersion (lines : list gostring) : gostring :=
  bundlerLoop lines false.

Definition ParseGemfileLockWithMetadataAndOptions (content : gostring)
  (options : ParseGemfileLockOptions) : list Dependency * Metadata_t :=
  let dependencies := ParseGemfileLockWithOptions content options in
  let metadata : Metadata_t := [] in
  let lines := Split content [nl] in
  let platforms := parsePlatforms lines in
  let metadata :=
    if (0 <? length platforms)%nat
    then setMeta "platforms" (MList platforms) metadata else metadata in
  let bundlerVersion := parseBundlerVersion lines in
  let metadata :=
    if negb (eqs bundlerVersion [])
    then setMeta "bundler_version" (MStr bundlerVersion) metadata else metadata in
  (dependencies, metadata).

Definition ParseGemfileLockWithMetadata (content : gostring)
  : list Dependency * Metadata_t :=
  ParseGemfileLockWithMetadataAndOptions content (mkGemfileLockOptions false).

(** *** yarn.lock, classic format and format detection *)

(** [DetectYarnVersion]. *)
Definition DetectYarnVersion (content : gostring) : gostring :=
  if Contains content (dquote :: "@npm:") && negb (Contains content "__metadata:")
  then "classic"
  else if Contains content "__metadata:" || Contains content "specifiers"
          || Contains content "@workspace:" || Contains content "@patch:"
  then "berry"
  else "classic".

(** [determineYarnScope]. *)
Definition determineYarnScope (name : gostring) (sets : DeclaredSets) : gostring :=
  if has (peerDeps sets) name then "peer"
  else if has (optionalDeps sets) name then "optional"
  else if has (devDeps sets) name then "dev"
  else if has (prodDeps sets) name then "prod"
  else [].

(** The classic package pattern, anchored at the start: a double quote;
    group 1, an optional scope (an at sign, bytes other than a slash, a
    slash) and bytes that are neither an at sign nor a double quote; an
    at sign; bytes other than a double quote; a double quote and a
    colon. *)
Definition classicPackagePattern : regex :=
  Cat [Bol; Chr (Ascii.eqb dquote);
       Grp 1 (Seq (Opt (Cat [Lit "@"; Plus (Chr (noneOf "/")); Lit "/"]))
                  (Plus (Chr (noneOf ("@"%char :: [dquote])))));
       Lit "@"; Star (Chr (noneOf [dquote])); Chr (Ascii.eqb dquote); Lit ":"].

(** The classic version pattern, anchored at the start: [version:],
    white space, an optional double quote, group 1 (bytes that are
    neither a double quote nor white space), an optional double quote. *)
Definition classicVersionPattern : regex :=
  Cat [Bol; Lit "version:"; spaces1; Opt (Chr (Ascii.eqb dquote));
       Grp 1 (Plus (Chr notQuoteNorSpace)); Opt (Chr (Ascii.eqb dquote))].

Fixpoint classicLoop (createAndAppend : Appender) (lines : list gostring)
  (currentPackage : gostring) (dependencies : list Dependency) : list Dependency :=
  match lines with
  | [] => dependencies
  | line :: lines' =>
      let line := TrimSpace line in
      match FindStringSubmatch classicPackagePattern 1 line with
      | Some m => classicLoop createAndAppend lines' (sub m 1) dependencies
      | None =>
          match (if negb (eqs currentPackage [])
                 then FindStringSubmatch classicVersionPattern 1 line else None) with
          | Some m =>
              classicLoop createAndAppend lines' []
                (createAndAppend "npm" currentPackage (sub m 1) "yarn.lock" dependencies)
          | None => classicLoop createAndAppend lines' currentPackage dependencies
          end
      end
  end.

(** The yarn.lock bytes: as text, and as the [json.Unmarshal] call of
    [parseEnhancedPackageJSON] sees them ([None] is a decoding error). *)
Record YarnLockContent : Type := mkYarnLockContent {
  yarnText : gostring;
  yarnAsEnhanced : option PackageJSONEnhanced
}.

Section YarnLock.

(** [NPMLockFileOptions] and the filter are not among the sources.
    [newFilter options sets] stands for [NewDependencyFilter(options)]
    followed by [AddDirectDependenciesFromMaps] with the four name sets,
    and is the append operation of the filter so built. *)
Variable NPMLockFileOptions : Type.
Variable zeroOptions : NPMLockFileOptions.
Variable newFilter : NPMLockFileOptions -> DeclaredSets -> Appender.

Definition parseYarnLockClassicWithOptions (lockContent : YarnLockContent)
  (packageJSON : option PackageJSON) (options : NPMLockFileOptions)
  : list Dependency :=
  match packageJSON with
  | None => []
  | Some pj =>
      let filter :=
        newFilter options
          (mkSets (map fst (pjDependencies pj)) (map fst (pjDevDependencies pj)) [] []) in
      classicLoop filter (Split (yarnText lockContent) [nl]) [] []
  end.

(** The Berry parser with the filter it builds from the manifest and,
    when the lockfile bytes decode as JSON, their peer and optional
    maps. *)
Definition berryFilter (lockContent : YarnLockContent) (pj : PackageJSON)
  (options : NPMLockFileOptions) : Appender :=
  newFilter options
    (match yarnAsEnhanced lockContent with
     | Some e => mkSets (map fst (pjDependencies pj)) (map fst (pjDevDependencies pj))
                   (map fst (PeerDependencies e)) (map fst (OptionalDependencies e))
     | None => mkSets (map fst (pjDependencies pj)) (map fst (pjDevDependencies pj)) [] []
     end).

Definition ParseYarnLockWithOptions (lockContent : YarnLockContent)
  (packageJSON : option PackageJSON) (options : NPMLockFileOptions)
  : list Dependency :=
  match packageJSON with
  | None => []
  | Some pj =>
      if eqs (DetectYarnVersion (yarnText lockContent)) "berry"
      then parseYarnLockBerryWithOptions (berryFilter lockContent pj options)
             (yarnText lockContent)
      else parseYarnLockClassicWithOptions lockContent packageJSON options
  end.

Definition ParseYarnLock (lockContent : YarnLockContent)
  (packageJSON : option PackageJSON) : list Dependency :=
  ParseYarnLockWithOptions lockContent packageJSON zeroOptions.

End YarnLock.

Arguments parseYarnLockClassicWithOptions {NPMLockFileOptions} newFilter lockContent packageJSON options.
Arguments berryFilter {NPMLockFileOptions} newFilter lockContent pj options.
Arguments ParseYarnLockWithOptions {NPMLockFileOptions} newFilter lockContent packageJSON options.
Arguments ParseYarnLock {NPMLockFileOptions} zeroOptions newFilter lockContent packageJSON.

(** *** pnpm-lock.yaml *)

Record PnpmResolution : Type := mkPnpmResolution {
  Directory : gostring;
  Tarball : gostring;
  Git : gostring
}.

Record PnpmPackage : Type := mkPnpmPackage {
  pnpmResolution : PnpmResolution;
  pnpmName : gostring;
  pnpmVersion : gostring;
  pnpmDev : bool;
  pnpmOptional : bool
}.

(** The loop over the parts of a workspace path: the part that follows
    the first part equal to [packages] and having a successor. *)
Fixpoint packagesSegment (parts : list gostring) : option gostring :=
  match parts with
  | part :: ((next :: _) as parts') =>
      if eqs part "packages" then Some next else packagesSegment parts'
  | _ => None
  end.

Definition extractPackageNameFromPnpmPath (path : gostring) : gostring :=
  if HasPrefix path "."
  then match packagesSegment (Split path "/") with
       | Some name => name
       | None => []
       end
  else
    let parts := Split path "/" in
    if (0 <? length parts)%nat
    then if HasPrefix (nth 0 parts []) "@" && (1 <? length parts)%nat
         then nth 0 parts [] ++ "/" ++ nth 1 parts []
         else nth 0 parts []
    else [].

Definition parsePnpmVersion (version : gostring) (resolution : PnpmResolution)
  : gostring :=
  if negb (eqs (Directory resolution) []) then "workspace"
  else if negb (eqs (Git resolution) []) then "git:" ++ Git resolution
  else if negb (eqs (Tarball resolution) [])
  then (if HasPrefix (Tarball resolution) "file:" then "local" else "tarball")
  else
    let version := TrimSpace version in
    if eqs version [] || eqs version "*" then "latest" else version.

Definition determinePnpmScope (pkg : PnpmPackage) : gostring :=
  if pnpmOptional pkg then "optional"
  else if pnpmDev pkg then "dev"
  else "prod".

(** *** Maven dependency list *)

(** Modelled from the spec: the type and scope constants of the [types]
    package that the Maven list parser names. *)
Definition DependencyTypeMaven : gostring := "maven".
Definition ScopeSystem : gostring := "system".
Definition ScopeImport : gostring := "import".

Definition notSpaceNorBracket (c : ascii) : bool :=
  negb (cls_s c) && negb (Ascii.eqb c "[").

Definition field : regex := Plus (Chr (noneOf ":")).

(** The dependency pattern, anchored at the start: white space, then
    four groups of bytes other than a colon, each followed by a colon,
    then group 5, bytes that are neither white space nor an opening
    bracket. *)
Definition depPattern : regex :=
  Cat [Bol; spaces1; Grp 1 field; Lit ":"; Grp 2 field; Lit ":"; Grp 3 field; Lit ":";
       Grp 4 field; Lit ":"; Grp 5 (Plus (Chr notSpaceNorBracket))].

Definition mapMavenListScope (scope : gostring) : gostring :=
  if eqs scope "test" then ScopeDev
  else if eqs scope "provided" || eqs scope "runtime" || eqs scope "compile"
  then ScopeProd
  else if eqs scope "system" then ScopeSystem
  else if eqs scope "import" then ScopeImport
  else ScopeProd.

(** The record of one matched line; [None] stands for [continue]. *)
Definition dependencyOfMatch (matches : list gostring) : option Dependency :=
  let groupId := TrimSpace (sub matches 1) in
  let artifactId := TrimSpace (sub matches 2) in
  let depType := TrimSpace (sub matches 3) in
  let version := TrimSpace (sub matches 4) in
  let scope := TrimSpace (sub matches 5) in
  if eqs groupId [] || eqs artifactId [] then None
  else
    let metadata : Metadata_t := [] in
    let metadata :=
      if negb (eqs depType []) && negb (eqs depType "jar")
      then setMeta "type" (MStr depType) metadata else metadata in
    let metadata := setMeta "source" (MStr "dependency-list") metadata in
    Some (mkDependency DependencyTypeMaven (groupId ++ ":" ++ artifactId) version
            (mapMavenListScope scope) false [] metadata).

Fixpoint dependencyListLoop (lines : list gostring) (dependencies : list Dependency)
  : list Dependency :=
  match lines with
  | [] => dependencies
  | line :: lines' =>
      if eqs (TrimSpace line) []
         || Contains line "The following files have been resolved:"
      then dependencyListLoop lines' dependencies
      else
        match FindStringSubmatch depPattern 5 line with
        | None => dependencyListLoop lines' dependencies
        | Some matches =>
            match dependencyOfMatch matches with
            | None => dependencyListLoop lines' dependencies
            | Some dep => dependencyListLoop lines' (dependencies ++ [dep])
            end
        end
  end.

Definition ParseDependencyList (content : gostring) (includeTransitive : bool)
  : list Dependency :=
  dependencyListLoop (Split content [nl]) [].

End Parsers.

(* ================================================================= *)
(** ** Package [license] *)

Module License.
Import GoStr Parsers.

(** [strings.HasSuffix]. *)
Definition HasSuffix (s suffix : gostring) : bool := HasPrefix (rev s) (rev suffix).

Definition upperByte (c : ascii) : ascii :=
  let n := nat_of_ascii c in
  if ((97 <=? n) && (n <=? 122))%nat then ascii_of_nat (n - 32) else c.

Definition ToUpper (s : gostring) : gostring := map upperByte s.

(** [strings.ReplaceAll] for an [old] and a [new] of one byte. *)
Definition ReplaceAll (s : gostring) (old new : ascii) : gostring :=
  map (fun c => if Ascii.eqb c old then new else c) s.

(** The [mappings] of [NewNormalizer].  The Go map is only read by key
    and by ranging over its values to test membership, so the order of
    the entries plays no part. *)
Definition mappings : list (gostring * gostring) :=
  map (fun kv => (list_ascii_of_string (fst kv), list_ascii_of_string (snd kv)))
  [ ("mit", "MIT"); ("MIT", "MIT"); ("mit license", "MIT"); ("expat", "MIT");
    ("expat license", "MIT");
    ("apache", "Apache-2.0"); ("apache-2.0", "Apache-2.0");
    ("apache 2.0", "Apache-2.0"); ("apache2", "Apache-2.0");
    ("apache-2", "Apache-2.0"); ("apache license 2.0", "Apache-2.0");
    ("Apache-2.0", "Apache-2.0");
    ("gpl", "GPL-3.0"); ("gpl-3.0", "GPL-3.0"); ("gplv3", "GPL-3.0");
    ("gpl v3", "GPL-3.0"); ("GPL-3.0", "GPL-3.0"); ("gpl-2.0", "GPL-2.0");
    ("gplv2", "GPL-2.0"); ("gpl v2", "GPL-2.0"); ("GPL-2.0", "GPL-2.0");
    ("lgpl", "LGPL-3.0"); ("lgpl-3.0", "LGPL-3.0"); ("lgplv3", "LGPL-3.0");
    ("lgpl v3", "LGPL-3.0"); ("LGPL-3.0", "LGPL-3.0"); ("lgpl-2.1", "LGPL-2.1");
    ("lgplv2.1", "LGPL-2.1"); ("lgpl v2.1", "LGPL-2.1"); ("LGPL-2.1", "LGPL-2.1");
    ("bsd", "BSD-3-Clause"); ("bsd-3-clause", "BSD-3-Clause");
    ("bsd 3 clause", "BSD-3-Clause"); ("bsd-2-clause", "BSD-2-Clause");
    ("bsd 2 clause", "BSD-2-Clause"); ("bsd-4-clause", "BSD-4-Clause");
    ("bsd 4 clause", "BSD-4-Clause"); ("BSD-3-Clause", "BSD-3-Clause");
    ("BSD-2-Clause", "BSD-2-Clause"); ("BSD-4-Clause", "BSD-4-Clause");
    ("isc", "ISC"); ("ISC", "ISC"); ("unlicense", "Unlicense");
    ("cc0", "CC0-1.0"); ("cc0-1.0", "CC0-1.0"); ("mpl", "MPL-2.0");
    ("mpl-2.0", "MPL-2.0"); ("mozilla public license", "MPL-2.0");
    ("MPL-2.0", "MPL-2.0");
    ("proprietary", "Proprietary"); ("commercial", "Proprietary");
    ("closed source", "Proprietary") ]%string.

(** [n.mappings[key]] with its [exists] flag. *)
Fixpoint lookup (m : list (gostring * gostring)) (key : gostring) : option gostring :=
  match m with
  | [] => None
  | (k, v) :: m' => if eqs k key then Some v else lookup m' key
  end.

Definition Normalize (license : gostring) : gostring :=
  if eqs license [] then []
  else
    let license := TrimSpace license in
    let license := Trim license (dquote :: "'") in
    let lowerLicense := ToLower license in
    match lookup mappings license with
    | Some spdx => spdx
    | None =>
        match lookup mappings lowerLicense with
        | Some spdx => spdx
        | None => license
        end
    end.

Section TOML.

(** [jsonText bytes] stands for the [json.Unmarshal] call of
    [ParseTOMLLicense] and the two checks after it: the string under
    the key [text] of the object the bytes decode to, when they decode
    to an object that has one. *)
Variable jsonText : gostring -> option gostring.

(** The fallback of the object format: the text after the first [text]
    and the first equals sign behind it. *)
Definition textFallback (licenseStr : gostring) : option gostring :=
  if Contains licenseStr "text"
  then
    let parts := Split licenseStr "text" in
    if (1 <? length parts)%nat
    then
      let textPart := Split (nth 1 parts []) "=" in
      if (1 <? length textPart)%nat
      then
        let license := TrimSpace (nth 1 textPart []) in
        Some (Trim license (dquote :: "',}"))
      else None
    else None
  else None.

Definition ParseTOMLLicense (licenseStr : gostring) : gostring :=
  if eqs licenseStr [] then []
  else
    let licenseStr := TrimSpace licenseStr in
    if HasPrefix licenseStr [dquote] && HasSuffix licenseStr [dquote]
    then Normalize (Trim licenseStr [dquote])
    else if HasPrefix licenseStr "'" && HasSuffix licenseStr "'"
    then Normalize (Trim licenseStr "'")
    else
      let plain := Normalize (Trim licenseStr (dquote :: "'")) in
      if Contains licenseStr "{" && Contains licenseStr "}"
      then
        match jsonText (ReplaceAll licenseStr "=" ":") with
        | Some textStr => Normalize textStr
        | None =>
            match textFallback licenseStr with
            | Some license => Normalize license
            | None => plain
            end
        end
      else plain.

(** The loop of [NormalizeMultiple]; [seen] holds the keys of the map
    of that name. *)
Fixpoint normalizeLoop (licenses seen normalized : list gostring) : list gostring :=
  match licenses with
  | [] => normalized
  | license :: licenses' =>
      let normalizedLicense := ParseTOMLLicense license in
      let normalizedLicense :=
        if eqs normalizedLicense [] then Normalize license else normalizedLicense in
      if negb (eqs normalizedLicense []) && negb (has seen normalizedLicense)
      then normalizeLoop licenses' (normalizedLicense :: seen)
             (normalized ++ [normalizedLicense])
      else normalizeLoop licenses' seen normalized
  end.

(** Go's nil slice is the empty list. *)
Definition NormalizeMultiple (licenses : list gostring) : list gostring :=
  if (length licenses =? 0)%nat then [] else normalizeLoop licenses [] [].

End TOML.

Definition operators : list gostring :=
  map list_ascii_of_string [" OR "; " AND "; " or "; " and "; "||"; "&&"]%string.

Definition operatorTokens : list gostring :=
  map list_ascii_of_string ["OR"; "AND"; "||"; "&&"]%string.

(** The loop over the parts of a split expression. *)
Fixpoint appendNormalized (parts licenses : list gostring) : list gostring :=
  match parts with
  | [] => licenses
  | part :: parts' =>
      let normalized := Normalize (TrimSpace part) in
      appendNormalized parts'
        (if negb (eqs normalized []) then licenses ++ [normalized] else licenses)
  end.

Definition ParseLicenseExpression (expr : gostring) : list gostring :=
  if eqs expr [] then []
  else
    let expr := TrimSpace expr in
    match find (fun op => Contains expr op) operators with
    | Some op => appendNormalized (Split expr op) []
    | None =>
        if existsb (fun token => eqs (ToUpper expr) token) operatorTokens then []
        else
          let normalized := Normalize expr in
          if negb (eqs normalized []) then [normalized] else []
    end.

Definition IsSPDXValid (license : gostring) : bool :=
  if eqs license [] then false
  else
    let normalized := Normalize license in
    if existsb (fun kv => eqs (snd kv) normalized) mappings then true
    else if Contains normalized "-"
            && (HasSuffix normalized ".0" || Contains normalized "-Clause"
                || Contains normalized "-Only" || Contains normalized "-Or-Later")
    then negb (Contains (ToLower normalized) "unknown")
         && negb (Contains (ToLower normalized) "custom")
    else false.

(** [GetSupportedLicenses] returns a copy of the map. *)
Definition GetSupportedLicenses : list (gostring * gostring) := mappings.

End License.

(* ================================================================= *)
(** ** Statements taken from the specification's wording

    Two functions written from the specification's sentences rather
    than from the code, for comparison with the code. *)

Module Specified.
Import GoStr Parsers.

(** The Yarn Berry version rule as the specification words it: file and
    tarball entries share one rule, decided by the resolution. *)
Definition specYarnVersion (version specType resolution : gostring) : gostring :=
  if eqs specType "workspace" then "workspace"
  else if eqs specType "patch" then "patch"
  else if eqs specType "npm"
  then (if eqs version [] || eqs version "*" then "latest" else version)
  else if eqs specType "git"
  then (if eqs resolution [] then "git" else "git:" ++ resolution)
  else if eqs specType "file" || eqs specType "tarball"
  then (if HasPrefix resolution "file:" then "local" else "tarball")
  else version.

(** At most one record per [(Type, Name)] pair. *)
Definition onePerTypeName (deps : list Dependency) : Prop :=
  NoDup (map (fun d => (Type_ d, Name d)) deps).

(** The idempotence of the PyPI canonical form at one input, as the
    specification states it for every input that parses. *)
Definition canonIdempotentAt (x : gostring) : Prop :=
  forall v, Semver.parsePyPIVersion x = Semver.Ok v ->
  exists v', Semver.parsePyPIVersion (Semver.pypiCanon v true) = Semver.Ok v'
             /\ Semver.pypiCanon v' true = Semver.pypiCanon v true.

(** A semver 2.0.0 numeric identifier consists of digits only. *)
Definition semverNumeric (identifier : gostring) : bool := isAllDigits identifier.

End Specified.

(* ================================================================= *)
(** ** Inputs used in the examples *)

Module Fixtures.
Import GoStr Parsers.

Definition gemfileThreeGroups : gostring :=
  "group :staging, :test, :production do
  gem 'rspec'
end".

Definition gemfileNestedGroups : gostring :=
  "group :test do
  group :staging do
    gem 'rubocop'
  end
  gem 'rspec'
end".

Definition plainPackage (version : gostring) : PackageInfo :=
  mkPackageInfo version [] false false false false [].

Definition expressPath : gostring := "node_modules/express".
Definition acceptsPath : gostring := "node_modules/express/node_modules/accepts".

(** The lockfile of the transitive-dependency test, without its third
    package, and the manifest declaring express. *)
Definition expressLock : LockContent :=
  mkLockContent
    (Some (mkPackageLockJSON "test-project" "1.0.0" 2
             [([], plainPackage "1.0.0");
              (expressPath, plainPackage "4.18.2");
              (acceptsPath, plainPackage "1.3.8")]
             []))
    (Some (mkPackageJSONEnhanced [] [])).

Definition expressManifest : PackageJSON :=
  mkPackageJSON "test-project" [("express" : gostring, "^4.18.0" : gostring)] [].

(** Two packages that each carry their own copy of a third one: v3+
    paths and the v2 tree. *)
Definition sharedNameLockV3 : LockContent :=
  mkLockContent
    (Some (mkPackageLockJSON "app" "1.0.0" 3
             [("node_modules/a" : gostring, plainPackage "1.0.0");
              ("node_modules/a/node_modules/x" : gostring, plainPackage "1.0.0");
              ("node_modules/b" : gostring, plainPackage "1.0.0");
              ("node_modules/b/node_modules/x" : gostring, plainPackage "2.0.0")]
             []))
    None.

Definition sharedNameLockV2 : LockContent :=
  mkLockContent
    (Some (mkPackageLockJSON "app" "1.0.0" 1 []
             [("a" : gostring,
               mkPackageInfo "1.0.0" [] false false false false
                 [("x" : gostring, plainPackage "1.0.0")]);
              ("b" : gostring,
               mkPackageInfo "1.0.0" [] false false false false
                 [("x" : gostring, plainPackage "2.0.0")])]))
    None.

(** A v2 lockfile with two top-level packages. *)
Definition flatLockV2 : LockContent :=
  mkLockContent
    (Some (mkPackageLockJSON "app" "1.0.0" 1 []
             [("a" : gostring, plainPackage "1.0.0");
              ("b" : gostring, plainPackage "2.0.0")]))
    None.

(** rails and pg are direct; actionpack appears only on a sub-line of
    rails, six spaces deep. *)
Definition gemLockNestedOnly : gostring :=
  "GEM
  remote: https://rubygems.org/
  specs:
    rails (7.1.0)
      actionpack (= 7.1.0)
    pg (1.5.4)

PLATFORMS
  ruby

DEPENDENCIES
  rails (= 7.1.0)
  pg (~> 1.5)

BUNDLED WITH
   2.4.10
".

(** The same, with actionpack also listed as a resolved gem of its own,
    as Bundler writes it. *)
Definition gemLockListed : gostring :=
  "GEM
  remote: https://rubygems.org/
  specs:
    rails (7.1.0)
      actionpack (= 7.1.0)
    actionpack (7.1.0)
    pg (1.5.4)

PLATFORMS
  ruby

DEPENDENCIES
  rails (= 7.1.0)
  pg (~> 1.5)

BUNDLED WITH
   2.4.10
".

Definition nameDirect (d : Dependency) : gostring * bool := (Name d, Direct d).

(** The lines of a file, written as string literals. *)
Definition textLines (l : list string) : list gostring := map list_ascii_of_string l.

(** A filter that keeps every entry, for the examples. *)
Definition keepAll : Appender :=
  fun type name version source dependencies =>
    dependencies ++ [mkDependency type name version [] false source []].

(** A quoted package header followed by its version line. *)
Definition yarnQuotedEntry : gostring :=
  dquote :: "express@npm:^4.18.0" ++ dquote :: ":" ++ nl :: "  version: 4.18.2".

Definition yarnBerryLock : YarnLockContent :=
  mkYarnLockContent
    ("__metadata:" ++ nl :: "  version: 6" ++ nl :: nl :: yarnQuotedEntry) None.

(** An entry as Yarn 1 writes it: the header is not quoted and the
    version line has no colon. *)
Definition yarnV1Lock : YarnLockContent :=
  mkYarnLockContent
    ("# yarn lockfile v1" ++ nl :: nl :: "express@^4.18.0:" ++ nl ::
     "  version " ++ dquote :: "4.18.2" ++ dquote :: [nl]) None.

Definition yarnQuotedLock : YarnLockContent := mkYarnLockContent yarnQuotedEntry None.

Definition someManifest : PackageJSON :=
  mkPackageJSON "app" [("express" : gostring, "^4.18.0" : gostring)] [].

(** A Berry lockfile with one npm entry, as Yarn 3 writes it. *)
Definition yarnBerryExpress : YarnLockContent :=
  mkYarnLockContent
    ("__metadata:" ++ nl :: "  version: 6" ++ nl :: "  cacheKey: 8" ++ nl :: nl ::
     dquote :: "express@npm:^4.18.0" ++ dquote :: ":" ++ nl ::
     "  version: 4.18.2" ++ nl ::
     "  resolution: " ++ dquote :: "express@npm:4.18.2" ++ dquote :: nl ::
     "  languageName: node" ++ nl ::
     "  linkType: hard" ++ [nl]) None.

End Fixtures.

(* ================================================================= *)
(** ** Definitions used by the proofs *)

Module Auxiliary.
Import GoStr Regex Semver Parsers.

(** *** package-lock.json: what one map entry contributes *)

Definition entryRecords (options : ParsePackageLockOptions) (sets : DeclaredSets)
  (entry : gostring * PackageInfo) : list Dependency :=
  match packageEntry options sets (fst entry) (snd entry) with
  | Some d => [d]
  | None => []
  end.

Definition topLevelRecords (sets : DeclaredSets) (entry : gostring * PackageInfo)
  : list Dependency :=
  if Bundled (snd entry) then []
  else [npmDependency (fst entry) (pkgVersion (snd entry))
          (determineScopeFromLockfile (fst entry)
             (mkPackageInfo [] [] false (Dev (snd entry)) (Optional (snd entry)) false [])
             sets)].

(** *** The matcher: groups a pattern can set, bytes it consumes at least *)

Fixpoint mentions (i : nat) (r : regex) : bool :=
  match r with
  | Seq r1 r2 | Alt r1 r2 => mentions i r1 || mentions i r2
  | Star r1 => mentions i r1
  | Grp n r1 => (n =? i)%nat || mentions i r1
  | _ => false
  end.

Fixpoint minlen (r : regex) : nat :=
  match r with
  | Chr _ => 1
  | Seq r1 r2 => minlen r1 + minlen r2
  | Alt r1 r2 => Nat.min (minlen r1) (minlen r2)
  | Grp _ r1 => minlen r1
  | _ => 0
  end.

(** What a successful run of [r] from [st] guarantees about the state
    [st'] its continuation was entered with. *)
Definition advanced (r : regex) (st st' : mstate) : Prop :=
  (pos st + minlen r <= pos st')%nat
  /\ length (rest st) = (pos st' - pos st + length (rest st'))%nat
  /\ length (caps st') = length (caps st)
  /\ forall i, mentions i r = false -> nth i (caps st') [] = nth i (caps st) [].

(** *** Maven ranges *)

Definition isOpen (c : ascii) : Prop := c = "["%char \/ c = "("%char.

Definition isClose (c : ascii) : Prop := c = "]"%char \/ c = ")"%char.

(** The rendering of a range from its two trimmed bounds. *)
Definition renderMavenRange (lower upper : gostring) : gostring :=
  match lower, upper with
  | [], [] => "*"
  | [], _ => "<=" ++ canonicalizeMavenVersion upper
  | _, [] => ">=" ++ canonicalizeMavenVersion lower
  | _, _ => canonicalizeMavenVersion lower ++ "-" ++ canonicalizeMavenVersion upper
  end.

(** *** PyPI: the parts of a canonical form *)

Definition digitsOfZ (n : Z) : gostring := digitsOf (Z.to_nat (Z.log2 n)) n.

Definition canonEpoch (v : PyPIVersion) : gostring :=
  if 0 <? epoch v then Itoa (epoch v) ++ "!" else [].

Definition canonRelease (v : PyPIVersion) : gostring :=
  Join (map Itoa (release v)) ".".

Definition canonPre (v : PyPIVersion) : gostring :=
  match pre v with Some p => phase p ++ Itoa (number p) | None => [] end.

Definition canonPost (v : PyPIVersion) : gostring :=
  match post v with Some p => ".post" ++ Itoa p | None => [] end.

Definition canonDev (v : PyPIVersion) : gostring :=
  match dev v with Some d => ".dev" ++ Itoa d | None => [] end.

Definition canonLocal (v : PyPIVersion) : gostring :=
  if eqs (local v) [] then [] else "+" ++ local v.

Definition canonCore (v : PyPIVersion) : gostring :=
  canonRelease v ++ canonPre v ++ canonPost v ++ canonDev v.

(** The epoch as the canonical form shows it: a non-positive epoch is
    not written and reads back as 0. *)
Definition normalEpoch (v : PyPIVersion) : Z := if 0 <? epoch v then epoch v else 0.

(** What every successfully parsed version satisfies.  Numbers are in
    the range of [int]; release numbers are not negative (a dash
    separates them); a negative pre-release number needs a dash after
    the phase, which the post-release rule takes as a post-release
    unless a post-release marker is present or the digits overflow. *)
Record wellFormed (v : PyPIVersion) : Prop := mkWellFormed {
  wf_epoch : inInt (epoch v) = true;
  wf_release_nonempty : release v <> [];
  wf_release : Forall (fun n => 0 <= n /\ inInt n = true) (release v);
  wf_pre : forall p, pre v = Some p ->
             (phase p = "a" \/ phase p = "b" \/ phase p = "rc")
             /\ inInt (number p) = true
             /\ (number p < 0 -> post v <> None \/ number p = minInt);
  wf_post : forall n, post v = Some n -> inInt n = true;
  wf_dev : forall n, dev v = Some n -> inInt n = true;
  wf_local_lower : Forall (fun c => lowerByte c = c) (local v);
  wf_local_end : forall l c, local v = l ++ [c] -> isSpace c = false
}.

(** Classes of bytes: of a release, of a number, of everything up to
    the pre-release, up to the post-release and up to the dev release. *)
Definition relc (c : ascii) : bool := isDigit c || Ascii.eqb c ".".

Definition numc (c : ascii) : bool := isDigit c || Ascii.eqb c "-".

Definition corec (c : ascii) : bool := isDigit c || oneOf ".-abrc" c.

Definition postc (c : ascii) : bool := corec c || oneOf "post" c.

Definition devc (c : ascii) : bool := postc c || oneOf "dev" c.

Definition allIn (cls : ascii -> bool) (s : gostring) : Prop :=
  Forall (fun c => cls c = true) s.

(** *** The matcher: the words a pattern consumes and what its groups hold *)

(** The words a pattern can consume; an anchor consumes nothing. *)
Fixpoint lang (r : regex) (w : gostring) : Prop :=
  match r with
  | Eps | Bol | Eol => w = []
  | Chr p => exists c, w = [c] /\ p c = true
  | Seq r1 r2 => exists u v, w = u ++ v /\ lang r1 u /\ lang r2 v
  | Alt r1 r2 => lang r1 w \/ lang r2 w
  | Star r1 => exists ws, w = concat ws /\ Forall (lang r1) ws
  | Grp _ r1 => lang r1 w
  end.

(** [P i] holds of every word group [i] can capture. *)
Fixpoint groupsOK (P : nat -> gostring -> Prop) (r : regex) : Prop :=
  match r with
  | Seq r1 r2 | Alt r1 r2 => groupsOK P r1 /\ groupsOK P r2
  | Star r1 => groupsOK P r1
  | Grp n r1 => (forall w, lang r1 w -> P n w) /\ groupsOK P r1
  | _ => True
  end.

(** Group [i] takes part in every match of the pattern. *)
Fixpoint mandatory (i : nat) (r : regex) : bool :=
  match r with
  | Seq r1 r2 => mandatory i r1 || mandatory i r2
  | Alt r1 r2 => mandatory i r1 && mandatory i r2
  | Grp n r1 => (n =? i)%nat || mandatory i r1
  | _ => false
  end.

(** What a successful run of [r] from [st] guarantees about the state
    [st'] its continuation was entered with: the word consumed and the
    content of the groups. *)
Definition matched (P : nat -> gostring -> Prop) (r : regex) (st st' : mstate)
  : Prop :=
  (exists w, rest st = w ++ rest st' /\ pos st' = (pos st + length w)%nat /\ lang r w)
  /\ length (caps st') = length (caps st)
  /\ forall i,
       (mentions i r = false -> nth i (caps st') [] = nth i (caps st) [])
       /\ (nth i (caps st') [] = nth i (caps st) [] \/ P i (nth i (caps st') []))
       /\ (mandatory i r = true -> (i < length (caps st))%nat -> P i (nth i (caps st') [])).

(** *** Gemfile.lock: the lines of a section *)

(** A line that is one of the section headers the readers look for. *)
Definition isSectionHeader (line : gostring) : bool :=
  eqs (TrimSpace line) "DEPENDENCIES" || eqs (TrimSpace line) "BUNDLED WITH"
  || eqs (TrimSpace line) "PLATFORMS".

(** The first white-space separated field of every line that has one. *)
Definition firstFields (lines : list gostring) : list gostring :=
  flat_map (fun line => match Fields (TrimSpace line) with
                        | f :: _ => [f]
                        | [] => []
                        end) lines.

(** The trimmed lines that are not blank. *)
Definition nonBlank (lines : list gostring) : list gostring :=
  filter (fun l => negb (eqs l [])) (map TrimSpace lines).

(** What the two groups of a Gemfile.lock spec line hold. *)
Definition specGroups (i : nat) (w : gostring) : Prop :=
  match i with
  | 1%nat => w <> [] /\ Forall (fun c => cls_s c = false) w
  | 2%nat => w <> [] /\ ~ In ")"%char w
  | _ => True
  end.

(** What a quoted group of a Gemfile pattern holds. *)
Definition quoteFree (i : nat) (w : gostring) : Prop :=
  w <> [] /\ Forall (fun c => noneOf quotes c = true) w.

(** What the groups of the classic yarn.lock patterns hold: group 1 of
    both is not empty, and a version has neither a double quote nor
    white space. *)
Definition classicGroups (i : nat) (w : gostring) : Prop :=
  w <> [].

Definition versionGroup (i : nat) (w : gostring) : Prop :=
  w <> [] /\ Forall (fun c => notQuoteNorSpace c = true) w.

(** *** Maven dependency list: what one line contributes *)

Definition listLineRecords (line : gostring) : list Dependency :=
  dependencyListLoop [line] [].

(** A field without white space and without the given byte. *)
Definition plainField (stop : ascii) (x : gostring) : Prop :=
  x <> [] /\ Forall (fun c => isSpace c = false /\ c <> stop) x.

(** What the groups of the dependency pattern hold. *)
Definition depGroups (i : nat) (w : gostring) : Prop :=
  match i with
  | 5%nat => w <> [] /\ Forall (fun c => notSpaceNorBracket c = true) w
  | _ => w <> [] /\ ~ In ":"%char w
  end.

(** The metadata of a record of the list. *)
Definition listMetadata (depType : gostring) : Metadata_t :=
  if eqs depType "jar"
  then [("source" : gostring, MStr "dependency-list")]
  else [("type" : gostring, MStr depType); ("source" : gostring, MStr "dependency-list")].

Definition listHeader : gostring := "The following files have been resolved:".

(** *** pnpm: the kind of entry a resolution stands for, in yarn's terms *)

Definition pnpmSpecType (resolution : PnpmResolution) : gostring :=
  if negb (eqs (Directory resolution) []) then "workspace"
  else if negb (eqs (Git resolution) []) then "git"
  else if negb (eqs (Tarball resolution) []) then "tarball"
  else [].

Definition pnpmResolutionText (resolution : PnpmResolution) : gostring :=
  if negb (eqs (Directory resolution) []) then Directory resolution
  else if negb (eqs (Git resolution) []) then Git resolution
  else Tarball resolution.

(** *** Comparison functions as orders *)

(** A three-way comparison that is reflexive, antisymmetric and
    transitive: a total preorder. *)
Definition isOrder {A : Type} (cmp : A -> A -> Z) : Prop :=
  (forall a b, cmp a b = -1 \/ cmp a b = 0 \/ cmp a b = 1)
  /\ (forall a, cmp a a = 0)
  /\ (forall a b, cmp b a = - cmp a b)
  /\ (forall a b c, cmp a b <= 0 -> cmp b c <= 0 -> cmp a c <= 0).

(** First [f], and [g] where [f] sees no difference. *)
Definition lexCmp {A : Type} (f g : A -> A -> Z) (a b : A) : Z :=
  let cmp := f a b in if negb (cmp =? 0) then cmp else g a b.

(** Lists compared element by element, a proper prefix first. *)
Fixpoint listCmp {A : Type} (f : A -> A -> Z) (l1 l2 : list A) : Z :=
  match l1, l2 with
  | [], [] => 0
  | [], _ :: _ => -1
  | _ :: _, [] => 1
  | x :: l1', y :: l2' =>
      let cmp := f x y in if negb (cmp =? 0) then cmp else listCmp f l1' l2'
  end.

(** An absent value above ([true]) or below ([false]) every present one. *)
Definition optCmp {A : Type} (noneHigh : bool) (f : A -> A -> Z) (a b : option A) : Z :=
  match a, b with
  | None, None => 0
  | None, Some _ => if noneHigh then 1 else -1
  | Some _, None => if noneHigh then -1 else 1
  | Some x, Some y => f x y
  end.

(** Bytes by their code, strings byte by byte. *)
Definition byteCmp (x y : ascii) : Z :=
  compareInt (Z.of_nat (nat_of_ascii x)) (Z.of_nat (nat_of_ascii y)).

Definition strCmp (a b : gostring) : Z := listCmp byteCmp a b.

(** A pre-release identifier as npm compares it: a number when [Atoi]
    accepts it, and a number below every other identifier. *)
Definition identifierKey (x : gostring) : Z + gostring :=
  match Atoi x with Some n => inl n | None => inr x end.

Definition sumCmp {A B : Type} (f : A -> A -> Z) (g : B -> B -> Z) (a b : A + B) : Z :=
  match a, b with
  | inl x, inl y => f x y
  | inl _, inr _ => -1
  | inr _, inl _ => 1
  | inr x, inr y => g x y
  end.

(** The pre-release lists of npm: the empty list above all others. *)
Definition prereleaseCmp (l1 l2 : list gostring) : Z :=
  match l1, l2 with
  | [], [] => 0
  | [], _ :: _ => 1
  | _ :: _, [] => -1
  | _, _ => listCmp comparePrereleaseIdentifier l1 l2
  end.

(** *** npm: a version written as numbers, pre-release and build text *)

Definition npmSuffix (mark : ascii) (text : gostring) : gostring :=
  match text with [] => [] | _ => mark :: text end.

Definition dotted (text : gostring) : list gostring :=
  if eqs text [] then [] else Split text ".".

(** The first three numbers, absent ones read as 0. *)
Definition padded (nums : list Z) : list Z :=
  [nth 0 nums 0; nth 1 nums 0; nth 2 nums 0].

Definition noSpace (s : gostring) : Prop := Forall (fun c => isSpace c = false) s.

(** The prefixes [NormalizeNPMVersion] looks for before it parses. *)
Definition npmProtocols : list gostring :=
  map list_ascii_of_string
    ["workspace:"; "file:"; "npm:"; "git:"; "git+"; "github:"; "http:"; "https:";
     "link:"]%string.

(** *** Gemfile.lock: the lines of the GEM section *)

(** A line of the GEM section as Bundler writes it: a resolved gem on
    four spaces, or any other line (the remote, [specs:], the
    requirements nested under a gem, a blank line). *)
Inductive gemLine : Type :=
| SpecLine (name version : gostring)
| OtherLine (text : gostring).

Definition gemLineText (l : gemLine) : gostring :=
  match l with
  | SpecLine name version => "    " ++ name ++ " (" ++ version ++ ")"
  | OtherLine text => text
  end.

(** Exactly four white-space bytes, then a byte that is none. *)
Definition specIndented (line : gostring) : bool :=
  match line with
  | a :: b :: c :: d :: e :: _ =>
      cls_s a && cls_s b && cls_s c && cls_s d && negb (cls_s e)
  | _ => false
  end.

(** A resolved gem has a name without white space and a version without
    closing parenthesis; another line is not indented as a resolved gem
    is, and is no header that ends the section. *)
Definition gemLineOK (l : gemLine) : Prop :=
  match l with
  | SpecLine name version =>
      name <> [] /\ Forall (fun c => cls_s c = false) name
      /\ version <> [] /\ ~ In ")"%char version
  | OtherLine text =>
      specIndented text = false
      /\ TrimSpace text <> "PLATFORMS" /\ TrimSpace text <> "DEPENDENCIES"
  end.

(** The resolved gems of a section, in file order. *)
Definition gemSpecs (body : list gemLine) : list (gostring * gostring) :=
  flat_map (fun l => match l with
                     | SpecLine name version => [(name, version)]
                     | OtherLine _ => []
                     end) body.

(** A line that is neither the GEM nor the DEPENDENCIES header. *)
Definition plainLine (line : gostring) : Prop :=
  TrimSpace line <> "GEM" /\ TrimSpace line <> "DEPENDENCIES".

(** What follows the lines of the DEPENDENCIES section: nothing, or a
    BUNDLED WITH or PLATFORMS header and lines that open no section the
    parser reads. *)
Definition sectionEnd (ending : list gostring) : Prop :=
  match ending with
  | [] => True
  | closing :: after =>
      (TrimSpace closing = "BUNDLED WITH" \/ TrimSpace closing = "PLATFORMS")
      /\ Forall plainLine after
  end.

(** The records of the resolved gems: a gem is direct when the
    DEPENDENCIES section names it, and the default mode keeps the
    direct ones only. *)
Definition gemRecords (options : ParseGemfileLockOptions) (direct : list gostring)
  (specs : list (gostring * gostring)) : list Dependency :=
  filter (fun d => gemIncludeTransitive options || Direct d)
    (map (fun nv => gemLockDependency (fst nv) (snd nv) (has direct (fst nv))) specs).

(** *** Maven: the texts of a plain version *)

(** A run of digits. *)
Definition isNumber (n : gostring) : Prop :=
  n <> [] /\ Forall (fun c => isDigit c = true) n.

(** The qualifiers of the vocabulary, M with a number apart, and what
    each adds to the numeric base. *)
Definition mavenQualifiers : list (gostring * gostring) :=
  map (fun qs => (list_ascii_of_string (fst qs), list_ascii_of_string (snd qs)))
    [("RELEASE", ""); ("FINAL", ""); ("GA", ""); ("SNAPSHOT", "-snapshot");
     ("BUILD", "-build"); ("SP", "-sp"); ("RC", "-rc"); ("PRE", "-pre")]%string.

(** What may stand between the base and the qualifier. *)
Definition mavenSeparators : list gostring :=
  map list_ascii_of_string ["-"; "."; ""]%string.

(** [Parse] reads the text as a plain version with this canonical form. *)
Definition plainCanon (text canonical : gostring) : Prop :=
  exists v, parseMavenVersion text = Ok v
            /\ isRange v = false /\ mavenCanon v false = canonical.

(** Every byte class of the pattern lies within [Q]. *)
Fixpoint classesIn (Q : ascii -> bool) (r : regex) : Prop :=
  match r with
  | Chr p => forall c, p c = true -> Q c = true
  | Seq r1 r2 | Alt r1 r2 => classesIn Q r1 /\ classesIn Q r2
  | Star r1 | Grp _ r1 => classesIn Q r1
  | _ => True
  end.

(** The bytes the build pattern can read. *)
Definition buildByte (c : ascii) : bool :=
  isDigit c || Ascii.eqb c "." || Ascii.eqb c "-".

(** What may follow a dotted number for the greedy reading to stop
    there: no digit, and no dot before a digit. *)
Definition endsNumber (rest0 : gostring) : Prop :=
  match rest0 with
  | [] => True
  | c :: r =>
      isDigit c = false
      /\ (c = "."%char -> match r with [] => True | d :: _ => isDigit d = false end)
  end.

(** The alternatives of the qualifier pattern, in its order. *)
Definition qualifierWord : regex :=
  Alt (Lit "RELEASE") (Alt (Lit "FINAL") (Alt (Lit "SNAPSHOT")
  (Alt (Lit "GA") (Alt (Lit "BUILD") (Alt (Lit "SP") (Alt (Lit "RC")
  (Alt (Seq (Lit "M") digits1) (Lit "PRE")))))))).

(** A qualifier: a word of the vocabulary, or M and a number. *)
Definition isQualifier (q : gostring) : Prop :=
  (exists suffix, In (q, suffix) mavenQualifiers)
  \/ (exists ds, isNumber ds /\ q = "M" ++ ds).

(** The text after the first number of a dotted number. *)
Definition furtherNumbers (nums : list gostring) : gostring :=
  concat (map (fun n => "." ++ n) nums).

Import License.

(** *** License normalization *)

(** A license text as [Normalize] looks it up: trimmed of white space,
    then of quotes. *)
Definition cleaned (license : gostring) : gostring :=
  Trim (TrimSpace license) (dquote :: "'").

(** The identifiers the table maps to. *)
Definition spdxIdentifiers : list gostring := map snd mappings.

(** A text the table knows, as it is or in lower case. *)
Definition known (license : gostring) : Prop :=
  lookup mappings (cleaned license) <> None
  \/ lookup mappings (ToLower (cleaned license)) <> None.

(** What [NormalizeMultiple] makes of one entry. *)
Definition normalizedEntry (jsonText : gostring -> option gostring)
  (license : gostring) : gostring :=
  if eqs (ParseTOMLLicense jsonText license) [] then Normalize license
  else ParseTOMLLicense jsonText license.

End Auxiliary.

(* ================================================================= *)
(** ** Properties *)

Import GoStr Regex Semver Parsers Specified Fixtures Auxiliary.

(** *** Normalize *)

(** C7.  For every version system and every input, [Normalize] is the
    canonical form with the epoch of the parsed version when [Parse]
    succeeds, and the input itself when [Parse] fails; being a total
    function it has no third outcome. *)
Theorem Normalize_canon_or_raw : forall (system : System) (raw : gostring),
  (exists v, Parse system raw = Ok v /\ Normalize system raw = Canon v true)
  \/ (exists e, Parse system raw = Err e /\ Normalize system raw = raw).
Proof.
  intros system raw. unfold Normalize.
  destruct (Parse system raw) as [v|e].
  - left. exists v. split; reflexivity.
  - right. exists e. split; reflexivity.
Qed.

(** The placeholder system rejects everything, so [Normalize] is the
    identity on it. *)
Lemma Normalize_Cargo : forall raw, Normalize Cargo raw = raw.
Proof. reflexivity. Qed.

(** *** npm precedence *)

Lemma compareInt_refl : forall a, compareInt a a = 0.
Proof. intros a. unfold compareInt. rewrite Z.ltb_irrefl. reflexivity. Qed.

(** With equal core versions, a version without prerelease identifiers
    is greater than one with them. *)
Lemma npmCompare_release_gt_prerelease : forall v o,
  major v = major o -> minor v = minor o -> patch v = patch o ->
  prerelease v = [] -> prerelease o <> [] ->
  npmCompare v o = 1.
Proof.
  intros v o Hma Hmi Hpa Hv Ho.
  unfold npmCompare, compareCoreVersion. rewrite Hma, Hmi, Hpa.
  rewrite !compareInt_refl. simpl.
  unfold comparePrerelease. rewrite Hv.
  destruct (prerelease o); [contradiction|reflexivity].
Qed.

Lemma npmCompare_release_gt_prerelease_witness :
  npmCompare (mkNPM "1.0.0" 1 0 0 [] [])
             (mkNPM "1.0.0-alpha" 1 0 0 ["alpha" : gostring] []) = 1.
Proof.
  apply npmCompare_release_gt_prerelease;
    [reflexivity|reflexivity|reflexivity|reflexivity|discriminate].
Defined.

(** Build metadata is never read by the comparison. *)
Lemma npmCompare_ignores_build : forall v o b1 b2,
  npmCompare (mkNPM (npm_original v) (major v) (minor v) (patch v) (prerelease v) b1)
             (mkNPM (npm_original o) (major o) (minor o) (patch o) (prerelease o) b2)
  = npmCompare v o.
Proof. reflexivity. Qed.

(** C5.  The two comparisons the specification lists come out as it
    says, but the identifier test is [strconv.Atoi], which also accepts
    a sign: for the valid semver versions 1.0.0-3 and 1.0.0--5 the
    identifier "-5" is not numeric in semver 2.0.0 (it is not all
    digits), so 1.0.0-3 must be the lower one, and [Compare] answers 1. *)
Theorem npmCompare_signed_identifier :
  exists v o a p,
    parseNPMVersion "1.0.0-3" = Ok v /\ parseNPMVersion "1.0.0--5" = Ok o /\
    parseNPMVersion "1.0.0-alpha" = Ok a /\ parseNPMVersion "1.0.0" = Ok p /\
    npmCompare p a = 1 /\
    prerelease v = ["3" : gostring] /\ prerelease o = ["-5" : gostring] /\
    semverNumeric "3" = true /\ semverNumeric "-5" = false /\
    npmCompare v a = -1 /\
    npmCompare v o = 1.
Proof.
  do 4 eexists. repeat split; vm_compute; reflexivity.
Qed.

(** *** Gemfile *)

(** C9.  A header naming three groups loses the middle one: the
    repeated capture group keeps its last iteration only, so inside
    [group :staging, :test, :production do] the active groups are
    staging and production and the gem gets scope prod although test
    is named.  (A gem line without a version does get "latest".)  The
    second input shows the nested case: after the inner [end] the
    active groups are still those of the inner header. *)
Theorem ParseGemfile_three_group_header :
  map (fun d => (Name d, Version d, Scope d)) (ParseGemfile gemfileThreeGroups)
  = [("rspec" : gostring, "latest" : gostring, "prod" : gostring)]
  /\ FindStringSubmatch rubyGroupRegex 2 "group :staging, :test, :production do"
     = Some ["group :staging, :test, :production do" : gostring;
             "staging" : gostring; "production" : gostring]
  /\ map (fun d => (Name d, Scope d)) (ParseGemfile gemfileNestedGroups)
     = [("rubocop" : gostring, "prod" : gostring);
        ("rspec" : gostring, "prod" : gostring)].
Proof. repeat split; vm_compute; reflexivity. Qed.

(** *** package-lock.json *)

(** The loop appends, in iteration order, the record of every entry
    that is not skipped. *)
Lemma rangePackages_flat_map : forall options sets entries acc,
  rangePackages options sets entries acc
  = acc ++ flat_map (entryRecords options sets) entries.
Proof.
  intros options sets entries.
  induction entries as [|[path pkg] entries IH]; intros acc; simpl.
  - now rewrite app_nil_r.
  - unfold entryRecords at 1; simpl.
    destruct (packageEntry options sets path pkg) as [d|]; rewrite IH.
    + now rewrite <- app_assoc.
    + reflexivity.
Qed.

(** With a populated [packages] map the result is that of the loop. *)
Lemma ParsePackageLock_v3 : forall content packageJSON options lockfile,
  asPackageLock content = Some lockfile ->
  Packages lockfile <> [] ->
  ParsePackageLockWithOptions content packageJSON options
  = flat_map (entryRecords options (declaredSets content packageJSON))
      (Packages lockfile).
Proof.
  intros content packageJSON options lockfile Hlock Hne.
  unfold ParsePackageLockWithOptions. rewrite Hlock.
  destruct (Packages lockfile) as [|entry entries]; [contradiction|].
  cbn [length Nat.ltb Nat.leb]. now rewrite rangePackages_flat_map.
Qed.

Lemma packageEntry_Some : forall options sets path pkg d,
  packageEntry options sets path pkg = Some d ->
  path <> [] /\ Name d = extractNameFromNodeModulesPath path /\ Name d <> []
  /\ Direct d = false /\ Type_ d = "npm" /\ Bundled pkg = false.
Proof.
  intros options sets path pkg d. unfold packageEntry.
  unfold eqs at 1. destruct (list_eq_dec ascii_dec path []) as [->|Hp]; [discriminate|].
  unfold eqs at 1.
  destruct (list_eq_dec ascii_dec (extractNameFromNodeModulesPath path) []) as [|Hn];
    [discriminate|].
  destruct (Bundled pkg); [discriminate|].
  destruct (negb (IncludeTransitive options) && negb (Count path "node_modules/" =? 1));
    [discriminate|].
  intros H. injection H as <-. simpl. repeat split; auto.
Qed.

Lemma rangeTopLevel_flat_map : forall sets entries acc,
  rangeTopLevel sets entries acc = acc ++ flat_map (topLevelRecords sets) entries.
Proof.
  intros sets entries.
  induction entries as [|[name dep] entries IH]; intros acc; simpl.
  - now rewrite app_nil_r.
  - unfold topLevelRecords at 1; simpl.
    destruct (Bundled dep); rewrite IH.
    + reflexivity.
    + now rewrite <- app_assoc.
Qed.

Lemma topLevel_keys : forall sets entries t n,
  In (t, n) (map (fun d => (Type_ d, Name d)) (flat_map (topLevelRecords sets) entries)) ->
  In n (map fst entries).
Proof.
  intros sets entries t n. induction entries as [|[name dep] entries IH]; simpl.
  - auto.
  - rewrite map_app, in_app_iff. intros [H|H].
    + unfold topLevelRecords in H. simpl in H.
      destruct (Bundled dep); simpl in H; [contradiction|].
      destruct H as [H|[]]. injection H as _ <-. now left.
    + right. auto.
Qed.

Lemma topLevel_NoDup : forall sets entries,
  NoDup (map fst entries) ->
  NoDup (map (fun d => (Type_ d, Name d)) (flat_map (topLevelRecords sets) entries)).
Proof.
  intros sets entries. induction entries as [|[name dep] entries IH]; simpl; intros Hnd.
  - constructor.
  - inversion Hnd as [|? ? Hnotin Hnd']; subst.
    rewrite map_app. unfold topLevelRecords at 1. simpl.
    destruct (Bundled dep); simpl.
    + auto.
    + constructor; auto.
      intros Hin. apply Hnotin. eapply topLevel_keys. exact Hin.
Qed.

(** C1, as stated, fails on the express record: the parser fills
    Type, Name, Version, SourceFile and Scope only, so [Direct] keeps
    its zero value. *)
Lemma ParsePackageLock_express_not_direct :
  ~ (exists d, ParsePackageLock expressLock (Some expressManifest) = [d]
               /\ Name d = "express" /\ Direct d = true).
Proof.
  intros [d [H [_ HD]]]. vm_compute in H. injection H as <-. discriminate HD.
Qed.

(** C1, amended.  For a [packages] map holding node_modules/express
    and node_modules/express/node_modules/accepts, neither bundled,
    with or without the root entry and in whatever order the map is
    visited: the default mode returns exactly the express record, the
    transitive mode returns the express and the accepts record, and
    [Direct] is false on every record, the parser not setting it. *)
Theorem ParsePackageLock_express_accepts :
  forall (e a r : PackageInfo) (entries deps : list (gostring * PackageInfo))
         (enhanced : option PackageJSONEnhanced) (packageJSON : option PackageJSON)
         (name version : gostring) (lockv : Z),
  Bundled e = false -> Bundled a = false ->
  Permutation entries [(expressPath, e); (acceptsPath, a)]
  \/ Permutation entries [([], r); (expressPath, e); (acceptsPath, a)] ->
  let content :=
    mkLockContent (Some (mkPackageLockJSON name version lockv entries deps)) enhanced in
  let sets := declaredSets content packageJSON in
  let express :=
    npmDependency "express" (pkgVersion e) (determineScopeFromLockfile "express" e sets) in
  let accepts :=
    npmDependency "accepts" (pkgVersion a) (determineScopeFromLockfile "accepts" a sets) in
  ParsePackageLockWithOptions content packageJSON (mkOptions false) = [express]
  /\ Permutation (ParsePackageLockWithOptions content packageJSON (mkOptions true))
       [express; accepts]
  /\ Direct express = false /\ Direct accepts = false.
Proof.
  intros e a r entries deps enhanced packageJSON name version lockv He Ha Hperm
         content sets express accepts.
  assert (Hne : entries <> []).
  { intros ->. destruct Hperm as [H|H]; apply Permutation_nil in H; discriminate. }
  assert (Hflat : forall options,
             Permutation (flat_map (entryRecords options sets) entries)
               (flat_map (entryRecords options sets)
                  [(expressPath, e); (acceptsPath, a)])).
  { intros options. destruct Hperm as [H|H].
    - apply Permutation_flat_map. exact H.
    - etransitivity; [apply Permutation_flat_map; exact H|]. reflexivity. }
  assert (Hfalse : flat_map (entryRecords (mkOptions false) sets)
                     [(expressPath, e); (acceptsPath, a)] = [express]).
  { cbn [flat_map]. unfold entryRecords. cbn [fst snd]. unfold packageEntry.
    rewrite He, Ha. vm_compute. reflexivity. }
  assert (Htrue : flat_map (entryRecords (mkOptions true) sets)
                    [(expressPath, e); (acceptsPath, a)] = [express; accepts]).
  { cbn [flat_map]. unfold entryRecords. cbn [fst snd]. unfold packageEntry.
    rewrite He, Ha. vm_compute. reflexivity. }
  rewrite !(ParsePackageLock_v3 content packageJSON _ _ eq_refl Hne).
  cbn [Packages]. fold sets.
  repeat split.
  - specialize (Hflat (mkOptions false)). rewrite Hfalse in Hflat.
    apply Permutation_sym, Permutation_length_1_inv in Hflat. exact Hflat.
  - rewrite <- Htrue. apply Hflat.
Qed.

Lemma ParsePackageLock_express_accepts_witness :
  ParsePackageLockWithOptions expressLock (Some expressManifest) (mkOptions false)
  = [npmDependency "express" "4.18.2" "prod"]
  /\ Permutation
       (ParsePackageLockWithOptions expressLock (Some expressManifest) (mkOptions true))
       [npmDependency "express" "4.18.2" "prod"; npmDependency "accepts" "1.3.8" "prod"]
  /\ Direct (npmDependency "express" "4.18.2" "prod") = false
  /\ Direct (npmDependency "accepts" "1.3.8" "prod") = false.
Proof.
  apply (ParsePackageLock_express_accepts
           (plainPackage "4.18.2") (plainPackage "1.3.8") (plainPackage "1.0.0")
           [([], plainPackage "1.0.0"); (expressPath, plainPackage "4.18.2");
            (acceptsPath, plainPackage "1.3.8")]
           [] (Some (mkPackageJSONEnhanced [] [])) (Some expressManifest)
           "test-project" "1.0.0" 2).
  - reflexivity.
  - reflexivity.
  - right. apply Permutation_refl.
Defined.

(** C2, as stated, fails in both transitive modes: two packages that
    each nest their own copy of a package [x] give two records named
    [x], in the v3+ path walk and in the recursive v2 walk alike. *)
Lemma ParsePackageLock_repeats_a_name :
  ~ onePerTypeName
      (ParsePackageLockWithOptions sharedNameLockV3 None (mkOptions true))
  /\ ~ onePerTypeName
        (ParsePackageLockWithOptions sharedNameLockV2 None (mkOptions true)).
Proof.
  split; intros H; vm_compute in H.
  - inversion H as [|? ? _ H1]; subst.
    inversion H1 as [|? ? Hnotin _]; subst.
    apply Hnotin. right. left. reflexivity.
  - inversion H as [|? ? _ H1]; subst.
    inversion H1 as [|? ? Hnotin _]; subst.
    apply Hnotin. right. left. reflexivity.
Qed.

(** C2, amended.  The package-lock parser never merges records: with a
    populated [packages] map it returns, in iteration order, one record
    for every entry it does not skip, whatever names they share.  At
    most one record per (Type, Name) pair is what it does guarantee in
    the v2 default mode, where the names are the keys of the top-level
    [dependencies] map. *)
Theorem ParsePackageLock_one_record_per_entry :
  forall content packageJSON options lockfile,
  asPackageLock content = Some lockfile ->
  NoDup (map fst (Dependencies lockfile)) ->
  (Packages lockfile <> [] ->
   ParsePackageLockWithOptions content packageJSON options
   = flat_map (entryRecords options (declaredSets content packageJSON))
       (Packages lockfile))
  /\ (Packages lockfile = [] -> IncludeTransitive options = false ->
      onePerTypeName (ParsePackageLockWithOptions content packageJSON options)).
Proof.
  intros content packageJSON options lockfile Hlock Hnd. split.
  - intros Hne. now apply ParsePackageLock_v3.
  - intros Hnil Hopt. unfold ParsePackageLockWithOptions, onePerTypeName.
    rewrite Hlock, Hnil, Hopt. change (0 <? length (@nil (gostring * PackageInfo)))%nat with false.
    cbv iota.
    destruct (0 <? length (Dependencies lockfile))%nat.
    + rewrite rangeTopLevel_flat_map. cbn [app]. now apply topLevel_NoDup.
    + constructor.
Qed.

Lemma ParsePackageLock_one_record_per_entry_witness :
  onePerTypeName (ParsePackageLockWithOptions flatLockV2 None (mkOptions false)).
Proof.
  refine (proj2 (ParsePackageLock_one_record_per_entry flatLockV2 None
                   (mkOptions false) _ eq_refl _) eq_refl eq_refl).
  cbn [Dependencies map fst].
  constructor.
  - intros [H|[]]. discriminate H.
  - constructor; [intros []|constructor].
Defined.

(** C10.  With a populated [packages] map and either option setting,
    the entry keyed by the empty path is skipped, so is every entry
    whose path gives an empty name, and therefore every record returned
    has a non-empty name extracted from a non-empty path of the map. *)
Theorem ParsePackageLock_skips_root :
  forall content packageJSON options lockfile,
  asPackageLock content = Some lockfile ->
  Packages lockfile <> [] ->
  (forall sets pkg, packageEntry options sets [] pkg = None)
  /\ (forall sets path pkg,
        extractNameFromNodeModulesPath path = [] ->
        packageEntry options sets path pkg = None)
  /\ (forall d,
        In d (ParsePackageLockWithOptions content packageJSON options) ->
        Name d <> []
        /\ exists path pkg,
             In (path, pkg) (Packages lockfile) /\ path <> []
             /\ extractNameFromNodeModulesPath path = Name d).
Proof.
  intros content packageJSON options lockfile Hlock Hne. repeat split.
  - intros sets path pkg Hname. unfold packageEntry. rewrite Hname.
    destruct (eqs path []); reflexivity.
  - rewrite (ParsePackageLock_v3 _ _ _ _ Hlock Hne) in H.
    apply in_flat_map in H. destruct H as [[path pkg] [_ Hd]].
    unfold entryRecords in Hd. cbn [fst snd] in Hd.
    destruct (packageEntry options (declaredSets content packageJSON) path pkg)
      as [d'|] eqn:E; [|contradiction].
    destruct Hd as [<-|[]]. apply packageEntry_Some in E. tauto.
  - rewrite (ParsePackageLock_v3 _ _ _ _ Hlock Hne) in H.
    apply in_flat_map in H. destruct H as [[path pkg] [Hin Hd]].
    unfold entryRecords in Hd. cbn [fst snd] in Hd.
    destruct (packageEntry options (declaredSets content packageJSON) path pkg)
      as [d'|] eqn:E; [|contradiction].
    destruct Hd as [<-|[]]. apply packageEntry_Some in E.
    exists path, pkg. intuition congruence.
Qed.

Lemma ParsePackageLock_skips_root_witness :
  Name (npmDependency "express" "4.18.2" "prod") <> []
  /\ exists path pkg,
       In (path, pkg)
          [([], plainPackage "1.0.0"); (expressPath, plainPackage "4.18.2");
           (acceptsPath, plainPackage "1.3.8")]
       /\ path <> []
       /\ extractNameFromNodeModulesPath path
          = Name (npmDependency "express" "4.18.2" "prod").
Proof.
  refine (proj2 (proj2 (ParsePackageLock_skips_root expressLock (Some expressManifest)
                          (mkOptions true) _ eq_refl _)) _ _).
  - discriminate.
  - vm_compute. left. reflexivity.
Defined.

(** *** The matcher, one operator at a time *)

Lemma run_Chr : forall p k st,
  run (Chr p) k st
  = match rest st with
    | c :: s' => if p c then k (MState (S (pos st)) s' (caps st)) else None
    | [] => None
    end.
Proof. reflexivity. Qed.

Lemma run_Seq : forall r1 r2 k st, run (Seq r1 r2) k st = run r1 (run r2 k) st.
Proof. reflexivity. Qed.

Lemma run_Grp : forall n r k st,
  run (Grp n r) k st = run r (fun st1 => k (capture n st st1)) st.
Proof. reflexivity. Qed.

Lemma run_Bol : forall k st,
  run Bol k st = if (pos st =? 0)%nat then k st else None.
Proof. reflexivity. Qed.

Lemma run_Eol : forall k st,
  run Eol k st = match rest st with [] => k st | _ => None end.
Proof. reflexivity. Qed.

Lemma run_Eps : forall k st, run Eps k st = k st.
Proof. reflexivity. Qed.

(** A pattern anchored at the start matches at position 0 or nowhere. *)
Lemma anchored_later : forall R n s fuel p,
  searchFrom (Seq Bol R) n s (S p) fuel = None.
Proof.
  intros R n s. induction fuel as [|fuel IH]; intros p; cbn [searchFrom];
    unfold matchAt; rewrite run_Grp, run_Seq, run_Bol; cbn [pos Nat.eqb]; auto.
Qed.

(** *** Gemfile.lock *)

(** A spec line has exactly four leading white-space bytes: with five
    the pattern finds nothing. *)
Lemma deeper_indented_no_spec : forall a b c d e rest0,
  cls_s a = true -> cls_s b = true -> cls_s c = true -> cls_s d = true ->
  cls_s e = true ->
  FindStringSubmatch gemLockSpecRegex 2 (a :: b :: c :: d :: e :: rest0) = None.
Proof.
  intros a b c d e rest0 Ha Hb Hc Hd He.
  unfold FindStringSubmatch, gemLockSpecRegex. cbn [Cat length searchFrom].
  rewrite anchored_later.
  unfold matchAt. rewrite run_Grp, run_Seq, run_Bol. cbn [pos Nat.eqb skipn Rep].
  rewrite ?run_Seq, run_Chr. cbn [rest pos caps]. rewrite Ha.
  rewrite ?run_Seq, run_Chr. cbn [rest pos caps]. rewrite Hb.
  rewrite ?run_Seq, run_Chr. cbn [rest pos caps]. rewrite Hc.
  rewrite ?run_Seq, run_Chr. cbn [rest pos caps]. rewrite Hd.
  rewrite ?run_Seq, run_Eps, ?run_Seq, run_Grp. unfold Plus.
  rewrite ?run_Seq, run_Chr. cbn [rest].
  unfold cls_S. rewrite He. reflexivity.
Qed.

(** Every record the loop adds is built by [gemLockDependency] from a
    name that is direct or, in transitive mode, from any name. *)
Lemma gemSpecsLoop_records : forall (P : Dependency -> Prop) options directDeps,
  (forall name version,
     gemIncludeTransitive options = true \/ has directDeps name = true ->
     P (gemLockDependency name version (has directDeps name))) ->
  forall lines inGemSection acc,
    Forall P acc -> Forall P (gemSpecsLoop options directDeps lines inGemSection acc).
Proof.
  intros P options directDeps HP. induction lines as [|line lines IH];
    intros inGemSection acc Hacc; cbn [gemSpecsLoop]; [exact Hacc|].
  repeat match goal with
         | |- Forall P (if ?b then _ else _) => destruct b eqn:?
         | |- Forall P (match ?o with Some _ => _ | None => _ end) => destruct o eqn:?
         end; try (apply IH; exact Hacc).
  apply IH. apply Forall_app. split; [exact Hacc|]. constructor; [|constructor].
  apply HP.
  match goal with
  | H : negb (gemIncludeTransitive options) && negb _ = false |- _ =>
      apply andb_false_iff in H; destruct H as [H|H]; apply negb_false_iff in H; auto
  end.
Qed.

(** C3, as stated, fails in transitive mode: a gem that appears only
    on a deeper-indented sub-line is not a spec line, so actionpack is
    not returned at all. *)
Lemma ParseGemfileLock_nested_only_not_returned :
  ~ (exists d,
       In d (ParseGemfileLockWithOptions gemLockNestedOnly (mkGemfileLockOptions true))
       /\ Name d = "actionpack" /\ Direct d = false).
Proof.
  intros [d [Hin [Hname _]]]. vm_compute in Hin.
  destruct Hin as [<-|[<-|[]]]; discriminate Hname.
Qed.

(** *** Facts about the matcher *)

(** A repetition of a character class followed by a continuation that
    accepts right after the longest run: that is the match found. *)
Lemma starLoop_chr_greedy : forall p k l1 rest0 res fuel n cs,
  Forall (fun c => p c = true) l1 ->
  match rest0 with [] => True | c :: _ => p c = false end ->
  (length l1 <= fuel)%nat ->
  k (MState (n + length l1) rest0 cs) = Some res ->
  starLoop (run (Chr p)) k fuel (MState n (l1 ++ rest0) cs) = Some res.
Proof.
  intros p k l1 rest0 res. set (body := run (Chr p)).
  induction l1 as [|c l1 IH]; intros fuel n cs Hall Hstop Hfuel Hk.
  - cbn [length] in Hk. rewrite Nat.add_0_r in Hk. cbn [app].
    destruct fuel as [|fuel]; cbn [starLoop]; [exact Hk|].
    unfold body at 1. rewrite run_Chr. cbn [rest].
    destruct rest0 as [|c0 rest0]; [exact Hk|].
    rewrite Hstop. exact Hk.
  - destruct fuel as [|fuel]; [cbn in Hfuel; lia|].
    inversion Hall as [|? ? Hc Hall']; subst.
    cbn [starLoop app]. unfold body at 1. rewrite run_Chr.
    cbn [rest pos caps]. rewrite Hc.
    replace (n <? S n)%nat with true by (symmetry; apply Nat.ltb_lt; lia).
    rewrite (IH fuel (S n) cs); auto.
    + cbn in Hfuel. lia.
    + cbn [length] in Hk. now rewrite Nat.add_succ_r in Hk.
Qed.

Lemma run_star_chr_greedy : forall p k l1 rest0 res n cs,
  Forall (fun c => p c = true) l1 ->
  match rest0 with [] => True | c :: _ => p c = false end ->
  k (MState (n + length l1) rest0 cs) = Some res ->
  run (Star (Chr p)) k (MState n (l1 ++ rest0) cs) = Some res.
Proof.
  intros. cbn [run rest]. apply starLoop_chr_greedy; auto.
  rewrite length_app. lia.
Qed.

Lemma setCap_length : forall n v l, length (setCap n v l) = length l.
Proof.
  induction n as [|n IH]; intros v [|x l]; cbn; auto.
Qed.

Lemma setCap_other : forall n v l i, n <> i -> nth i (setCap n v l) [] = nth i l [].
Proof.
  induction n as [|n IH]; intros v [|x l] [|i] Hne; cbn; auto; try congruence.
Qed.

Lemma setCap_same : forall n v l, (n < length l)%nat -> nth n (setCap n v l) [] = v.
Proof.
  induction n as [|n IH]; intros v [|x l] Hlt; cbn in *; try lia; auto.
  apply IH. lia.
Qed.

Lemma advanced_refl : forall r st, minlen r = 0%nat -> advanced r st st.
Proof.
  intros r st H. unfold advanced. rewrite H. repeat split; auto; lia.
Qed.

Lemma advanced_trans : forall r1 r2 r st st1 st2,
  advanced r1 st st1 -> advanced r2 st1 st2 ->
  (minlen r <= minlen r1 + minlen r2)%nat ->
  (forall i, mentions i r = false -> mentions i r1 = false /\ mentions i r2 = false) ->
  advanced r st st2.
Proof.
  intros r1 r2 r st st1 st2 (Hp1 & Hl1 & Hc1 & Hf1) (Hp2 & Hl2 & Hc2 & Hf2) Hmin Hm.
  unfold advanced. repeat split; try lia.
  intros i Hi. destruct (Hm i Hi) as [Hi1 Hi2].
  rewrite Hf2, Hf1; auto.
Qed.

Lemma starLoop_advanced : forall r1,
  (forall k st res, run r1 k st = Some res ->
                    exists st', k st' = Some res /\ advanced r1 st st') ->
  forall fuel k st res,
    starLoop (run r1) k fuel st = Some res ->
    exists st', k st' = Some res /\ advanced (Star r1) st st'.
Proof.
  intros r1 IHr. induction fuel as [|fuel IH]; intros k st res H; cbn [starLoop] in H.
  - exists st. split; [exact H|]. now apply advanced_refl.
  - destruct (run r1 _ st) as [res'|] eqn:E.
    + injection H as ->. apply IHr in E. destruct E as [st1 [Hk Hadv]].
      destruct (pos st <? pos st1)%nat; [|discriminate].
      apply IH in Hk. destruct Hk as [st2 [Hk2 Hadv2]].
      exists st2. split; [exact Hk2|].
      eapply advanced_trans; eauto; cbn; try lia; auto.
    + exists st. split; [exact H|]. now apply advanced_refl.
Qed.

Lemma run_advanced : forall r k st res,
  run r k st = Some res ->
  exists st', k st' = Some res /\ advanced r st st'.
Proof.
  induction r as [|p|r1 IH1 r2 IH2|r1 IH1 r2 IH2|r1 IH1|n r1 IH1| |];
    intros k st res H; cbn [run] in H.
  - exists st. split; [exact H|]. now apply advanced_refl.
  - destruct st as [n0 [|c s'] cs]; cbn [rest pos caps] in H; [discriminate|].
    destruct (p c); [|discriminate].
    eexists. split; [exact H|]. unfold advanced. cbn [pos rest caps minlen length].
    repeat split; auto; lia.
  - apply IH1 in H. destruct H as [st1 [H Ha1]].
    apply IH2 in H. destruct H as [st2 [H Ha2]].
    exists st2. split; [exact H|].
    eapply advanced_trans; eauto; cbn; try lia.
    intros i Hi. now apply orb_false_elim in Hi.
  - destruct (run r1 k st) as [res'|] eqn:E.
    + injection H as ->. apply IH1 in E. destruct E as [st1 [Hk (Hp & Hl & Hc & Hf)]].
      exists st1. split; [exact Hk|]. unfold advanced. cbn. repeat split; try lia.
      intros i Hi. apply orb_false_elim in Hi. apply Hf. tauto.
    + apply IH2 in H. destruct H as [st1 [Hk (Hp & Hl & Hc & Hf)]].
      exists st1. split; [exact Hk|]. unfold advanced. cbn. repeat split; try lia.
      intros i Hi. apply orb_false_elim in Hi. apply Hf. tauto.
  - eapply starLoop_advanced; eauto.
  - apply IH1 in H. destruct H as [st1 [Hk (Hp & Hl & Hc & Hf)]].
    exists (capture n st st1). split; [exact Hk|].
    unfold advanced, capture. cbn [pos rest caps minlen mentions].
    repeat split; try lia.
    + now rewrite setCap_length.
    + intros i Hi. apply orb_false_elim in Hi. destruct Hi as [Hn Hi].
      apply Nat.eqb_neq in Hn. rewrite setCap_other; auto.
  - destruct (pos st =? 0)%nat; [|discriminate].
    exists st. split; [exact H|]. now apply advanced_refl.
  - destruct (rest st); [|discriminate].
    exists st. split; [exact H|]. now apply advanced_refl.
Qed.

Lemma searchFrom_Some : forall r n s fuel p m,
  searchFrom r n s p fuel = Some m -> exists q, matchAt r n q s = Some m.
Proof.
  intros r n s. induction fuel as [|fuel IH]; intros p m H; cbn [searchFrom] in H.
  - destruct (matchAt r n p s) eqn:E; [|discriminate]. injection H as ->. eauto.
  - destruct (matchAt r n p s) eqn:E.
    + injection H as ->. eauto.
    + eauto.
Qed.

(** In a pattern that starts with group 1 around a dotted number, and
    whose remainder does not set group 1, a match has a non-empty
    group 1. *)
Lemma leading_number_nonempty : forall R n s m,
  mentions 1 R = false ->
  FindStringSubmatch (Cat [Bol; Grp 1 dottedNumber; R; Eol]) (S n) s = Some m ->
  sub m 1 <> [].
Proof.
  intros R n s m HR H. apply searchFrom_Some in H. destruct H as [q H].
  unfold matchAt in H.
  destruct (run _ Some _) as [st|] eqn:E; [|discriminate]. injection H as <-.
  set (st0 := MState q (skipn q s) (repeat [] (S (S n)))) in *.
  cbn [Cat run] in E.
  destruct (pos st0 =? 0)%nat; [|discriminate].
  change (run dottedNumber
            (fun st1 => run R (run Eol (fun st2 => Some (capture 0 st0 st2)))
                          (capture 1 st0 st1)) st0 = Some st) in E.
  apply run_advanced in E. destruct E as [st1 [E (Hp1 & Hl1 & Hc1 & _)]].
  apply (run_advanced (Seq R Eol)) in E. destruct E as [st2 [E (_ & _ & Hc2 & Hf2)]].
  injection E as <-. unfold sub, capture. cbn [caps].
  rewrite setCap_other by discriminate.
  rewrite Hf2 by (cbn; now rewrite HR).
  cbn [capture caps]. rewrite setCap_same.
  - intros Hnil. apply (f_equal (@length ascii)) in Hnil.
    rewrite length_firstn in Hnil.
    change (minlen dottedNumber) with 1%nat in Hp1.
    subst st0. cbn [pos rest length] in *. lia.
  - rewrite Hc1. subst st0. cbn [caps]. rewrite repeat_length. lia.
Qed.

(** *** Maven *)

Lemma eqs_refl : forall a, eqs a a = true.
Proof. intros a. unfold eqs. destruct (list_eq_dec ascii_dec a a); congruence. Qed.

Lemma eqs_neq : forall a b, a <> b -> eqs a b = false.
Proof. intros a b H. unfold eqs. destruct (list_eq_dec ascii_dec a b); congruence. Qed.

Lemma eqs_eq : forall a b, eqs a b = true -> a = b.
Proof. intros a b. unfold eqs. destruct (list_eq_dec ascii_dec a b); congruence. Qed.

Lemma canonicalizeMavenVersion_nonempty : forall version,
  version <> [] -> canonicalizeMavenVersion version <> [].
Proof.
  intros version Hne. unfold canonicalizeMavenVersion.
  destruct (FindStringSubmatch mavenBuildRegex 3 version) as [m|] eqn:Eb.
  - apply (leading_number_nonempty _ 2) in Eb; [|reflexivity].
    destruct (sub m 1) as [|c base]; [contradiction|].
    destruct (negb (eqs (sub m 2) []) && negb (eqs (sub m 3) [])); discriminate.
  - destruct (FindStringSubmatch mavenQualifierRegex 2 version) as [m|] eqn:Eq.
    + apply (leading_number_nonempty _ 1) in Eq; [|reflexivity].
      unfold qualifiedMavenVersion.
      destruct (sub m 1) as [|c base]; [contradiction|].
      repeat match goal with |- context [if ?b then _ else _] => destruct b end;
        discriminate.
    + destruct (isSimpleNumericVersion version); exact Hne.
Qed.

Lemma oneOf_open : forall o, isOpen o -> oneOf "[(" o = true.
Proof. intros o [->| ->]; reflexivity. Qed.

Lemma oneOf_close : forall c, isClose c -> oneOf "])" c = true.
Proof. intros c [->| ->]; reflexivity. Qed.

Lemma firstn_length_app : forall (A : Type) (l1 l2 : list A),
  firstn (length l1) (l1 ++ l2) = l1.
Proof.
  intros A l1 l2. rewrite firstn_app, Nat.sub_diag, firstn_all. cbn. apply app_nil_r.
Qed.

Lemma mavenRangeRegex_match : forall o c lo up,
  isOpen o -> isClose c ->
  Forall (fun x => noneOf ",]" x = true) lo ->
  Forall (fun x => noneOf "])" x = true) up ->
  FindStringSubmatch mavenRangeRegex 2 (o :: lo ++ "," ++ up ++ [c])
  = Some [o :: lo ++ "," ++ up ++ [c]; lo; up].
Proof.
  intros o c lo up Ho Hc Hlo Hup.
  assert (H : matchAt mavenRangeRegex 2 0 (o :: lo ++ "," ++ up ++ [c])
              = Some [o :: lo ++ "," ++ up ++ [c]; lo; up]).
  { unfold matchAt. cbn [skipn repeat].
    set (s := o :: lo ++ "," ++ up ++ [c]).
    assert (E : run (Grp 0 mavenRangeRegex) Some (MState 0 s [[]; []; []])
                = Some (MState (length s) [] [s; lo; up])).
    { unfold mavenRangeRegex. cbn [Cat].
      rewrite run_Grp, run_Seq, run_Bol. cbn [pos Nat.eqb].
      rewrite run_Seq, run_Chr. unfold s at 1. cbn [rest pos caps].
      rewrite (oneOf_open o Ho).
      rewrite run_Seq, run_Grp.
      apply run_star_chr_greedy; [exact Hlo|reflexivity|].
      cbv beta. rewrite run_Seq.
      cbn [list_ascii_of_string Lit app capture rest pos caps].
      rewrite run_Seq, run_Chr. unfold capture at 1. cbn [rest pos caps].
      change (Ascii.eqb "," ",") with true. cbv iota. rewrite run_Eps.
      rewrite run_Seq, run_Grp.
      apply run_star_chr_greedy; [exact Hup| |].
      { change (negb (oneOf "])" c) = false). now rewrite (oneOf_close c Hc). }
      cbv beta. rewrite run_Seq, run_Chr. cbn [capture rest pos caps app].
      change (oneOf ["]"%char; ")"%char] c) with (oneOf "])" c).
      rewrite (oneOf_close c Hc). rewrite run_Eol. cbn [rest capture pos caps].
      unfold capture. cbn [pos rest caps setCap].
      assert (Hlen : length s = S (S (1 + length lo) + length up)).
      { unfold s. cbn [list_ascii_of_string app length].
        rewrite !length_app. cbn [length]. rewrite !length_app. cbn [length]. lia. }
      rewrite Nat.sub_0_r, <- Hlen, firstn_all.
      replace (1 + length lo - 1)%nat with (length lo) by lia.
      rewrite firstn_length_app.
      replace (S (1 + length lo) + length up - S (1 + length lo))%nat
        with (length up) by lia.
      rewrite firstn_length_app. reflexivity. }
    rewrite E. reflexivity. }
  unfold FindStringSubmatch.
  destruct (length (o :: lo ++ "," ++ up ++ [c])); cbn [searchFrom]; now rewrite H.
Qed.

(** The two range examples of the specification, evaluated. *)
Lemma mavenCanon_examples :
  Normalize Maven "[1.0,2.0)" = "1.0-2.0"
  /\ Normalize Maven "1.0.0-RELEASE" = "1.0.0"
  /\ Normalize Maven "(,)" = "*"
  /\ Normalize Maven "[1.0,]" = ">=1.0"
  /\ Normalize Maven "(,2.0]" = "<=2.0"
  /\ renderMavenRange "1.0" "2.0" = "1.0-2.0".
Proof. repeat split; vm_compute; reflexivity. Qed.

(** *** Facts about the string functions *)

Lemma HasPrefix_app : forall p s, HasPrefix (p ++ s) p = true.
Proof.
  induction p as [|a p IH]; intros s; cbn.
  - destruct s; reflexivity.
  - now rewrite Ascii.eqb_refl, IH.
Qed.

Lemma HasPrefix_nth : forall p s k c,
  HasPrefix s p = true -> nth_error p k = Some c -> nth_error s k = Some c.
Proof.
  induction p as [|a p IH]; intros s k c H Hk.
  - destruct k; discriminate.
  - destruct s as [|b s]; [discriminate|]. cbn in H.
    apply andb_true_iff in H. destruct H as [Hab H].
    apply Ascii.eqb_eq in Hab. subst b.
    destruct k as [|k]; cbn in *; [exact Hk|]. eauto.
Qed.

Lemma Index_unfold : forall s sub,
  Index s sub
  = if HasPrefix s sub then 0
    else match s with
         | [] => -1
         | _ :: s' => let i := Index s' sub in if i <? 0 then -1 else i + 1
         end.
Proof. intros [|a s] sub; reflexivity. Qed.

Lemma Index_prefix : forall s sub, HasPrefix s sub = true -> Index s sub = 0.
Proof. intros s sub H. rewrite Index_unfold, H. reflexivity. Qed.

Lemma Index_range : forall s sub, -1 <= Index s sub.
Proof.
  induction s as [|a s IH]; intros sub; rewrite Index_unfold.
  - destruct (HasPrefix [] sub); lia.
  - destruct (HasPrefix (a :: s) sub); [lia|]. cbv zeta.
    specialize (IH sub). destruct (Index s sub <? 0) eqn:E; [lia|].
    apply Z.ltb_ge in E. lia.
Qed.

(** A byte of the needle that does not occur where an earlier match
    would need it: the search skips [A]. *)
Lemma Index_app_skip : forall sub k c A rest0,
  nth_error sub k = Some c ->
  ~ In c A -> ~ In c (firstn k rest0) ->
  Index (A ++ rest0) sub
  = if Index rest0 sub <? 0 then -1 else len A + Index rest0 sub.
Proof.
  intros sub k c A rest0 Hk HA Hr. induction A as [|a A IH].
  - cbn [app]. unfold len. cbn [length]. pose proof (Index_range rest0 sub).
    destruct (Index rest0 sub <? 0) eqn:E; [|reflexivity].
    apply Z.ltb_lt in E. lia.
  - cbn [app]. rewrite Index_unfold.
    destruct (HasPrefix (a :: A ++ rest0) sub) eqn:E.
    + exfalso. pose proof (HasPrefix_nth _ _ _ _ E Hk) as Hn.
      change (a :: A ++ rest0) with ((a :: A) ++ rest0) in Hn.
      destruct (Nat.lt_ge_cases k (length (a :: A))) as [Hlt|Hge].
      * rewrite nth_error_app1 in Hn by exact Hlt.
        apply nth_error_In in Hn. contradiction.
      * rewrite nth_error_app2 in Hn by exact Hge.
        apply Hr. apply nth_error_In with (n := (k - length (a :: A))%nat).
        rewrite nth_error_firstn.
        replace (k - length (a :: A) <? k)%nat with true; [exact Hn|].
        symmetry. apply Nat.ltb_lt. cbn [length] in *. lia.
    + cbv zeta. rewrite IH by (intros H; apply HA; now right).
      unfold len. cbn [length]. pose proof (Index_range rest0 sub).
      destruct (Index rest0 sub <? 0) eqn:E'; [reflexivity|].
      apply Z.ltb_ge in E'.
      replace (Z.of_nat (length A) + Index rest0 sub <? 0) with false
        by (symmetry; apply Z.ltb_ge; lia).
      lia.
Qed.

Lemma Index_absent : forall sub k c s,
  nth_error sub k = Some c -> ~ In c s -> Index s sub = -1.
Proof.
  intros sub k c s Hk Hs.
  pose proof (Index_app_skip sub k c s [] Hk Hs) as H.
  rewrite app_nil_r in H. rewrite H.
  - rewrite Index_unfold.
    destruct (HasPrefix [] sub) eqn:E; [|reflexivity].
    pose proof (HasPrefix_nth _ _ _ _ E Hk) as Hn. destruct k; discriminate.
  - destruct k; cbn; auto.
Qed.

Lemma Index_app_found : forall sub k c A B,
  nth_error sub k = Some c ->
  ~ In c A -> ~ In c (firstn k sub) ->
  Index (A ++ sub ++ B) sub = len A.
Proof.
  intros sub k c A B Hk HA Hs.
  rewrite (Index_app_skip sub k c A (sub ++ B) Hk HA).
  - rewrite (Index_prefix (sub ++ B) sub) by apply HasPrefix_app. cbn. lia.
  - rewrite firstn_app. intros H. apply in_app_or in H. destruct H as [H|H]; [auto|].
    assert (k < length sub)%nat by (apply nth_error_Some; congruence).
    replace (k - length sub)%nat with 0%nat in H by lia. cbn in H. exact H.
Qed.

Lemma LastIndexByte_absent : forall s c, ~ In c s -> LastIndexByte s c = -1.
Proof.
  induction s as [|b s IH]; intros c H; cbn; [reflexivity|].
  rewrite IH by (intros Hin; apply H; now right). cbn.
  destruct (Ascii.eqb b c) eqn:E; [|reflexivity].
  apply Ascii.eqb_eq in E. subst. exfalso. apply H. now left.
Qed.

Lemma LastIndexByte_last : forall A c B,
  ~ In c B -> LastIndexByte (A ++ c :: B) c = len A.
Proof.
  induction A as [|a A IH]; intros c B H; cbn [app LastIndexByte].
  - rewrite (LastIndexByte_absent B c H). cbn. now rewrite Ascii.eqb_refl.
  - rewrite (IH c B H). unfold len. cbn [length].
    replace (0 <=? Z.of_nat (length A)) with true by (symmetry; apply Z.leb_le; lia).
    lia.
Qed.

Lemma upto_app : forall A B, upto (A ++ B) (len A) = A.
Proof.
  intros A B. unfold upto, len. rewrite Nat2Z.id.
  rewrite firstn_app, Nat.sub_diag, firstn_all. cbn. apply app_nil_r.
Qed.

Lemma from_app : forall A B k, 0 <= k -> from (A ++ B) (len A + k) = from B k.
Proof.
  intros A B k Hk. unfold from, len.
  rewrite Z2Nat.inj_add by lia. rewrite Nat2Z.id.
  rewrite skipn_app. rewrite skipn_all2 by lia. cbn [app]. f_equal; lia.
Qed.

Lemma from_len : forall A B, from (A ++ B) (len A) = B.
Proof.
  intros A B. rewrite <- (Z.add_0_r (len A)), from_app by lia. reflexivity.
Qed.

Lemma upto_from : forall s i, upto s i ++ from s i = s.
Proof. intros s i. apply firstn_skipn. Qed.

Lemma len_app : forall A B, len (A ++ B) = len A + len B.
Proof. intros. unfold len. rewrite length_app. lia. Qed.

Lemma len_nonneg : forall A, 0 <= len A.
Proof. intros. unfold len. lia. Qed.

(** *** strconv round trip *)

Lemma digitChar_spec : forall d, 0 <= d < 10 ->
  isDigit (digitChar d) = true /\ digitVal (digitChar d) = d.
Proof.
  intros d H.
  assert (d = 0 \/ d = 1 \/ d = 2 \/ d = 3 \/ d = 4 \/ d = 5 \/ d = 6 \/ d = 7
          \/ d = 8 \/ d = 9) as Hd by lia.
  repeat (destruct Hd as [->|Hd]); try subst d; split; reflexivity.
Qed.

Lemma digitsVal_app : forall l acc c,
  digitsVal acc (l ++ [c])
  = match digitsVal acc l with
    | Some v => if isDigit c then Some (v * 10 + digitVal c) else None
    | None => None
    end.
Proof.
  induction l as [|a l IH]; intros acc c; cbn [app digitsVal]; [reflexivity|].
  destruct (isDigit a); [apply IH|reflexivity].
Qed.

Lemma digitsOf_val : forall fuel n,
  0 <= n < 10 ^ Z.of_nat (S fuel) ->
  digitsVal 0 (digitsOf fuel n) = Some n.
Proof.
  induction fuel as [|fuel IH]; intros n Hn.
  - change (10 ^ Z.of_nat 1) with 10 in Hn. cbn [digitsOf digitsVal].
    rewrite Z.mod_small by lia.
    destruct (digitChar_spec n Hn) as [-> ->]. f_equal; lia.
  - cbn [digitsOf]. destruct (n <? 10) eqn:E.
    + apply Z.ltb_lt in E. cbn [digitsVal].
      destruct (digitChar_spec n ltac:(lia)) as [-> ->]. f_equal; lia.
    + apply Z.ltb_ge in E. rewrite digitsVal_app.
      rewrite IH.
      * destruct (digitChar_spec (n mod 10)) as [-> ->].
        { apply Z.mod_pos_bound. lia. }
        f_equal; pose proof (Z.div_mod n 10); lia.
      * split; [apply Z.div_pos; lia|].
        apply Z.div_lt_upper_bound; [lia|].
        replace (Z.of_nat (S (S fuel))) with (1 + Z.of_nat (S fuel)) in Hn by lia.
        rewrite Z.pow_add_r in Hn by lia. change (10 ^ 1) with 10 in Hn. lia.
Qed.

Lemma digitsOf_digits : forall fuel n, 0 <= n ->
  Forall (fun c => isDigit c = true) (digitsOf fuel n) /\ digitsOf fuel n <> [].
Proof.
  induction fuel as [|fuel IH]; intros n Hn; cbn [digitsOf].
  - split; [|discriminate]. constructor; [|constructor].
    apply digitChar_spec. apply Z.mod_pos_bound. lia.
  - destruct (n <? 10) eqn:E.
    + apply Z.ltb_lt in E. split; [|discriminate]. constructor; [|constructor].
      apply digitChar_spec. lia.
    + destruct (IH (n / 10)) as [H1 H2]; [apply Z.div_pos; lia|]. split.
      * apply Forall_app. split; [exact H1|]. constructor; [|constructor].
        apply digitChar_spec. apply Z.mod_pos_bound. lia.
      * destruct (digitsOf fuel (n / 10)); [contradiction|discriminate].
Qed.

Lemma log2_fuel : forall n, 0 <= n -> n < 10 ^ Z.of_nat (S (Z.to_nat (Z.log2 n))).
Proof.
  intros n Hn. destruct (Z.eq_dec n 0) as [->|Hne]; [reflexivity|].
  pose proof (Z.log2_nonneg n) as Hl.
  pose proof (Z.log2_spec n ltac:(lia)) as [_ Hs].
  rewrite Nat2Z.inj_succ, Z2Nat.id by lia.
  eapply Z.lt_le_trans; [exact Hs|].
  apply Z.pow_le_mono_l. lia.
Qed.

Lemma Itoa_nonneg : forall n, 0 <= n -> Itoa n = digitsOfZ n.
Proof.
  intros n H. unfold Itoa. replace (n <? 0) with false; [reflexivity|].
  symmetry. apply Z.ltb_ge. lia.
Qed.

Lemma Itoa_neg : forall n, n < 0 -> Itoa n = "-"%char :: digitsOfZ (- n).
Proof.
  intros n H. unfold Itoa. replace (n <? 0) with true; [reflexivity|].
  symmetry. apply Z.ltb_lt. lia.
Qed.

Lemma digitsOfZ_spec : forall n, 0 <= n ->
  Forall (fun c => isDigit c = true) (digitsOfZ n) /\ digitsOfZ n <> []
  /\ digitsVal 0 (digitsOfZ n) = Some n.
Proof.
  intros n H. unfold digitsOfZ.
  destruct (digitsOf_digits (Z.to_nat (Z.log2 n)) n H) as [H1 H2].
  repeat split; auto. apply digitsOf_val. split; [lia|]. now apply log2_fuel.
Qed.

Lemma isDigit_not_sign : forall c, isDigit c = true ->
  Ascii.eqb c "+" = false /\ Ascii.eqb c "-" = false.
Proof.
  intros c H. split; apply Ascii.eqb_neq; intros ->; discriminate H.
Qed.

(** [Atoi] on an unsigned digit string and on a minus sign followed by
    one. *)
Lemma Atoi_digits : forall ds,
  Forall (fun c => isDigit c = true) ds -> ds <> [] ->
  Atoi ds = match digitsVal 0 ds with
            | Some n => if inInt n then Some n else None
            | None => None
            end.
Proof.
  intros [|c ds] Hall Hne; [contradiction|].
  inversion Hall as [|? ? Hc _]; subst.
  unfold Atoi. destruct (isDigit_not_sign c Hc) as [-> ->]. reflexivity.
Qed.

Lemma Atoi_minus : forall ds,
  ds <> [] ->
  Atoi ("-"%char :: ds)
  = match digitsVal 0 ds with
    | Some n => if inInt (- n) then Some (- n) else None
    | None => None
    end.
Proof.
  intros [|c ds] Hne; [contradiction|]. reflexivity.
Qed.

Lemma Atoi_Itoa : forall n, inInt n = true -> Atoi (Itoa n) = Some n.
Proof.
  intros n Hn. destruct (Z.lt_ge_cases n 0) as [Hneg|Hpos].
  - rewrite Itoa_neg by exact Hneg.
    destruct (digitsOfZ_spec (- n) ltac:(lia)) as (_ & Hne & Hv).
    rewrite Atoi_minus by exact Hne. rewrite Hv.
    replace (- - n) with n by lia. now rewrite Hn.
  - rewrite Itoa_nonneg by exact Hpos.
    destruct (digitsOfZ_spec n Hpos) as (Hd & Hne & Hv).
    rewrite Atoi_digits by assumption. rewrite Hv. now rewrite Hn.
Qed.

(** *** PyPI: the canonical form and what parsing guarantees *)

Lemma pypiCanon_parts : forall v,
  pypiCanon v true
  = canonEpoch v ++ canonRelease v ++ canonPre v ++ canonPost v
    ++ canonDev v ++ canonLocal v.
Proof. reflexivity. Qed.

Lemma allIn_app : forall cls a b, allIn cls a -> allIn cls b -> allIn cls (a ++ b).
Proof. intros. apply Forall_app. now split. Qed.

Lemma allIn_sub : forall (c1 c2 : ascii -> bool) s,
  (forall c, c1 c = true -> c2 c = true) -> allIn c1 s -> allIn c2 s.
Proof. intros c1 c2 s H. apply Forall_impl. exact H. Qed.

Lemma allIn_notin : forall cls s c, allIn cls s -> cls c = false -> ~ In c s.
Proof.
  intros cls s c Hall Hc Hin. unfold allIn in Hall. rewrite Forall_forall in Hall.
  apply Hall in Hin. congruence.
Qed.

Lemma digits_numc : forall c, isDigit c = true -> numc c = true.
Proof. intros c H. unfold numc. now rewrite H. Qed.

Lemma digits_relc : forall c, isDigit c = true -> relc c = true.
Proof. intros c H. unfold relc. now rewrite H. Qed.

Lemma relc_corec : forall c, relc c = true -> corec c = true.
Proof.
  intros c H. unfold relc, corec in *. apply orb_true_iff in H.
  destruct H as [->|H]; [reflexivity|]. apply Ascii.eqb_eq in H. subst.
  reflexivity.
Qed.

Lemma numc_corec : forall c, numc c = true -> corec c = true.
Proof.
  intros c H. unfold numc, corec in *. apply orb_true_iff in H.
  destruct H as [->|H]; [reflexivity|]. apply Ascii.eqb_eq in H. subst.
  reflexivity.
Qed.

Lemma corec_postc : forall c, corec c = true -> postc c = true.
Proof. intros c H. unfold postc. now rewrite H. Qed.

Lemma postc_devc : forall c, postc c = true -> devc c = true.
Proof. intros c H. unfold devc. now rewrite H. Qed.

Lemma numc_postc : forall c, numc c = true -> postc c = true.
Proof. intros. now apply corec_postc, numc_corec. Qed.

Lemma numc_devc : forall c, numc c = true -> devc c = true.
Proof. intros. now apply postc_devc, numc_postc. Qed.

Lemma digitsOfZ_numc : forall n, 0 <= n -> allIn numc (digitsOfZ n).
Proof.
  intros n H. destruct (digitsOfZ_spec n H) as [Hd _].
  eapply allIn_sub; [apply digits_numc|exact Hd].
Qed.

Lemma Itoa_numc : forall n, allIn numc (Itoa n).
Proof.
  intros n. destruct (Z.lt_ge_cases n 0) as [Hneg|Hpos].
  - rewrite Itoa_neg by exact Hneg. constructor; [reflexivity|].
    apply digitsOfZ_numc. lia.
  - rewrite Itoa_nonneg by exact Hpos. now apply digitsOfZ_numc.
Qed.

Lemma Itoa_nonempty : forall n, Itoa n <> [].
Proof.
  intros n. destruct (Z.lt_ge_cases n 0) as [Hneg|Hpos].
  - rewrite Itoa_neg by exact Hneg. discriminate.
  - rewrite Itoa_nonneg by exact Hpos. now apply digitsOfZ_spec.
Qed.

Lemma Itoa_digits : forall n, 0 <= n -> allIn isDigit (Itoa n).
Proof. intros n H. rewrite Itoa_nonneg by exact H. now apply digitsOfZ_spec. Qed.

(** The release part: digit runs joined by dots. *)
Lemma Join_cons2 : forall (x y : gostring) l sep,
  Join (x :: y :: l) sep = x ++ sep ++ Join (y :: l) sep.
Proof. reflexivity. Qed.

Lemma canonRelease_relc : forall rel,
  Forall (fun n => 0 <= n /\ inInt n = true) rel ->
  allIn relc (Join (map Itoa rel) ".").
Proof.
  induction rel as [|n rel IH]; intros H; [constructor|].
  inversion H as [|? ? [Hn _] Hrest]; subst.
  assert (Hd : allIn relc (Itoa n)).
  { eapply allIn_sub; [apply digits_relc|now apply Itoa_digits]. }
  destruct rel as [|m rel]; [exact Hd|].
  cbn [map]. rewrite Join_cons2. apply allIn_app; [exact Hd|].
  apply allIn_app; [repeat constructor|]. apply IH. exact Hrest.
Qed.

Lemma Join_Itoa_head : forall n rel,
  0 <= n -> exists c s, Join (map Itoa (n :: rel)) "." = c :: s /\ isDigit c = true.
Proof.
  intros n rel Hn. pose proof (Itoa_digits n Hn) as Hd.
  pose proof (Itoa_nonempty n) as Hne.
  destruct (Itoa n) as [|c s] eqn:E; [contradiction|].
  inversion Hd; subst.
  destruct rel as [|m rel]; cbn [map].
  - cbn [Join]. rewrite E. eauto.
  - rewrite Join_cons2, E. cbn [app]. eauto.
Qed.

Lemma digits_last : forall s, allIn isDigit s -> s <> [] ->
  exists l c, s = l ++ [c] /\ isDigit c = true.
Proof.
  intros s Hd Hne. destruct (exists_last Hne) as [l [c ->]].
  exists l, c. split; [reflexivity|].
  unfold allIn in Hd. rewrite Forall_app in Hd. destruct Hd as [_ Hd].
  now inversion Hd.
Qed.

Lemma Join_Itoa_last : forall rel,
  rel <> [] -> Forall (fun n => 0 <= n /\ inInt n = true) rel ->
  exists l c, Join (map Itoa rel) "." = l ++ [c] /\ isDigit c = true.
Proof.
  induction rel as [|n rel IH]; intros Hne H; [contradiction|].
  inversion H as [|? ? [Hn _] Hrest]; subst.
  destruct rel as [|m rel].
  - cbn [map Join]. apply digits_last; [now apply Itoa_digits|apply Itoa_nonempty].
  - destruct (IH ltac:(discriminate) Hrest) as [l [c [E Hc]]].
    cbn [map]. rewrite Join_cons2. cbn [map] in E. rewrite E.
    exists (Itoa n ++ "." ++ l), c. split; [|exact Hc].
    now rewrite <- !app_assoc.
Qed.

(** *** PyPI: parsing a canonical form, stage by stage *)

Lemma dropWhile_head : forall f c s, f c = false -> dropWhile f (c :: s) = c :: s.
Proof. intros f c s H. cbn. now rewrite H. Qed.

Lemma dropWhileEnd_last : forall f l c,
  f c = false -> dropWhileEnd f (l ++ [c]) = l ++ [c].
Proof.
  intros f l c H. unfold dropWhileEnd. rewrite rev_app_distr. cbn [rev app].
  rewrite dropWhile_head by exact H.
  change (rev (c :: rev l)) with (rev (rev l) ++ [c]). now rewrite rev_involutive.
Qed.

Lemma FieldsFrom_run : forall f ds cur r,
  Forall (fun c => f c = false) ds ->
  FieldsFrom f cur (ds ++ r) = FieldsFrom f (cur ++ ds) r.
Proof.
  intros f. induction ds as [|d ds IH]; intros cur r H; cbn [app].
  - now rewrite app_nil_r.
  - inversion H as [|? ? Hd Hds]; subst. cbn [FieldsFrom]. rewrite Hd.
    rewrite IH by exact Hds. now rewrite <- app_assoc.
Qed.

Lemma FieldsFrom_join : forall parts,
  parts <> [] ->
  Forall (fun p => p <> [] /\ Forall (fun c => isReleaseSep c = false) p) parts ->
  FieldsFrom isReleaseSep [] (Join parts ".") = parts.
Proof.
  induction parts as [|x parts IH]; intros Hne H; [contradiction|].
  inversion H as [|? ? [Hx Hxs] Hrest]; subst.
  destruct parts as [|y parts].
  - cbn [Join]. rewrite <- (app_nil_r x) at 1. rewrite FieldsFrom_run by exact Hxs.
    cbn [app FieldsFrom]. destruct x; [contradiction|reflexivity].
  - rewrite Join_cons2. rewrite FieldsFrom_run by exact Hxs.
    change ("." ++ Join (y :: parts) ".") with ("."%char :: Join (y :: parts) ".").
    destruct x as [|x0 xs]; [contradiction|].
    change (FieldsFrom isReleaseSep ([] ++ x0 :: xs) ("."%char :: Join (y :: parts) "."))
      with ((x0 :: xs) :: FieldsFrom isReleaseSep [] (Join (y :: parts) ".")).
    now rewrite IH by (discriminate || exact Hrest).
Qed.

Lemma isDigit_not_sep : forall c, isDigit c = true -> isReleaseSep c = false.
Proof.
  intros c H. unfold isReleaseSep.
  assert (Ascii.eqb c "." = false) as -> by (apply Ascii.eqb_neq; intros ->; discriminate).
  assert (Ascii.eqb c "_" = false) as -> by (apply Ascii.eqb_neq; intros ->; discriminate).
  assert (Ascii.eqb c "-" = false) as -> by (apply Ascii.eqb_neq; intros ->; discriminate).
  reflexivity.
Qed.

Lemma releaseNumbers_Itoa : forall version rel,
  Forall (fun n => 0 <= n /\ inInt n = true) rel ->
  releaseNumbers version (map Itoa rel) = Ok rel.
Proof.
  intros version. induction rel as [|n rel IH]; intros H; [reflexivity|].
  inversion H as [|? ? [Hn Hin] Hrest]; subst. cbn [map releaseNumbers].
  rewrite (eqs_neq _ [] (Itoa_nonempty n)). rewrite Atoi_Itoa by exact Hin.
  rewrite IH by exact Hrest. reflexivity.
Qed.

Lemma Itoa_parts : forall rel,
  Forall (fun n => 0 <= n /\ inInt n = true) rel ->
  Forall (fun p => p <> [] /\ Forall (fun c => isReleaseSep c = false) p)
    (map Itoa rel).
Proof.
  intros rel H. induction H as [|n rel [Hn _] _ IH]; cbn [map]; constructor.
  - split; [apply Itoa_nonempty|].
    eapply Forall_impl; [apply isDigit_not_sep|now apply Itoa_digits].
  - exact IH.
Qed.

Lemma reparse_release : forall version v,
  wellFormed v -> parseRelease version (canonRelease v) = Ok (release v).
Proof.
  intros version v Hwf. unfold parseRelease, canonRelease.
  destruct (Join_Itoa_last (release v) (wf_release_nonempty v Hwf) (wf_release v Hwf))
    as [l [c [E Hc]]].
  assert (Htrim : TrimRight (Join (map Itoa (release v)) ".") "."
                  = Join (map Itoa (release v)) ".").
  { rewrite E. unfold TrimRight. apply dropWhileEnd_last.
    unfold inCutset. cbn [existsb list_ascii_of_string].
    assert (Ascii.eqb c "." = false) as ->; [|reflexivity].
    apply Ascii.eqb_neq. intros ->. discriminate. }
  rewrite Htrim.
  rewrite eqs_neq by (rewrite E; destruct l; discriminate).
  unfold FieldsFunc. rewrite FieldsFrom_join.
  - rewrite releaseNumbers_Itoa by apply (wf_release v Hwf). cbn [bind].
    pose proof (wf_release_nonempty v Hwf).
    destruct (release v); [contradiction|reflexivity].
  - pose proof (wf_release_nonempty v Hwf).
    destruct (release v); [contradiction|discriminate].
  - apply Itoa_parts. apply (wf_release v Hwf).
Qed.

(** The phase search on a release followed by a phase and a number. *)
Lemma canonRelease_class : forall v, wellFormed v -> allIn relc (canonRelease v).
Proof. intros v Hwf. apply canonRelease_relc. apply (wf_release v Hwf). Qed.

Lemma relc_numc_notin : forall R N c,
  allIn relc R -> allIn numc N -> relc c = false -> numc c = false ->
  ~ In c (R ++ N).
Proof.
  intros R N c HR HN Hr Hn Hin. apply in_app_or in Hin. destruct Hin as [H|H].
  - exact (allIn_notin _ _ _ HR Hr H).
  - exact (allIn_notin _ _ _ HN Hn H).
Qed.

Lemma len_pos_leb : forall A, (0 <=? len A) = true.
Proof. intros. apply Z.leb_le. apply len_nonneg. Qed.

Lemma phaseStep_absent : forall s best ph,
  Index s ph = -1 -> phaseStep s best ph = best.
Proof. intros s [i p] ph H. unfold phaseStep. rewrite H. reflexivity. Qed.

Lemma phaseStep_first : forall s ph i,
  Index s ph = i -> 0 <= i -> phaseStep s (-1, []) ph = (i, ph).
Proof.
  intros s ph i H Hi. unfold phaseStep. rewrite H.
  replace (0 <=? i) with true by (symmetry; now apply Z.leb_le). reflexivity.
Qed.

Lemma phaseStep_later : forall s best ph i,
  Index s ph = i -> 0 <= fst best <= i -> phaseStep s best ph = best.
Proof.
  intros s [j p] ph i H Hi. cbn [fst] in Hi. unfold phaseStep. rewrite H.
  replace (j =? -1) with false by (symmetry; apply Z.eqb_neq; lia).
  replace (i <? j) with false by (symmetry; apply Z.ltb_ge; lia).
  now rewrite andb_false_r.
Qed.

Lemma earliestPhase_unfold : forall s,
  earliestPhase s
  = phaseStep s (phaseStep s (phaseStep s (phaseStep s (phaseStep s
      (phaseStep s (-1, []) "rc") "c") "beta") "b") "alpha") "a".
Proof. reflexivity. Qed.

Lemma earliestPhase_none : forall R, allIn relc R -> earliestPhase R = (-1, []).
Proof.
  intros R HR. rewrite earliestPhase_unfold.
  rewrite !phaseStep_absent; try reflexivity.
  all: match goal with
       | |- Index _ ?ph = _ =>
           first [ apply (Index_absent ph 0 "r"); [reflexivity|]
                 | apply (Index_absent ph 0 "c"); [reflexivity|]
                 | apply (Index_absent ph 0 "b"); [reflexivity|]
                 | apply (Index_absent ph 0 "a"); [reflexivity|] ]
       end; apply (allIn_notin _ _ _ HR); reflexivity.
Qed.

Lemma notin_phase_number : forall R ph N c,
  allIn relc R -> allIn numc N ->
  relc c = false -> numc c = false -> ~ In c ph ->
  ~ In c (R ++ ph ++ N).
Proof.
  intros R ph N c HR HN H1 H2 H3 Hin.
  apply in_app_or in Hin. destruct Hin as [H|H].
  - exact (allIn_notin _ _ _ HR H1 H).
  - apply in_app_or in H. destruct H as [H|H]; [contradiction|].
    exact (allIn_notin _ _ _ HN H2 H).
Qed.

Ltac absent_by k c :=
  apply (Index_absent _ k c); [reflexivity|];
  apply notin_phase_number; [assumption|assumption|reflexivity|reflexivity|];
  cbn; intuition discriminate.

Lemma earliestPhase_a : forall R N, allIn relc R -> allIn numc N ->
  earliestPhase (R ++ "a" ++ N) = (len R, "a" : gostring).
Proof.
  intros R N HR HN. rewrite earliestPhase_unfold.
  rewrite (phaseStep_absent _ _ "rc") by absent_by 0%nat "r"%char.
  rewrite (phaseStep_absent _ _ "c") by absent_by 0%nat "c"%char.
  rewrite (phaseStep_absent _ _ "beta") by absent_by 0%nat "b"%char.
  rewrite (phaseStep_absent _ _ "b") by absent_by 0%nat "b"%char.
  rewrite (phaseStep_absent _ _ "alpha") by absent_by 1%nat "l"%char.
  apply phaseStep_first; [|apply len_nonneg].
  apply (Index_app_found "a" 0 "a" R N); [reflexivity| |cbn; tauto].
  apply (allIn_notin _ _ _ HR); reflexivity.
Qed.

Lemma earliestPhase_b : forall R N, allIn relc R -> allIn numc N ->
  earliestPhase (R ++ "b" ++ N) = (len R, "b" : gostring).
Proof.
  intros R N HR HN. rewrite earliestPhase_unfold.
  rewrite (phaseStep_absent _ _ "rc") by absent_by 0%nat "r"%char.
  rewrite (phaseStep_absent _ _ "c") by absent_by 0%nat "c"%char.
  rewrite (phaseStep_absent _ _ "beta") by absent_by 1%nat "e"%char.
  rewrite (phaseStep_first _ "b" (len R)).
  - rewrite (phaseStep_absent _ _ "alpha") by absent_by 0%nat "a"%char.
    rewrite (phaseStep_absent _ _ "a") by absent_by 0%nat "a"%char.
    reflexivity.
  - apply (Index_app_found "b" 0 "b" R N); [reflexivity| |cbn; tauto].
    apply (allIn_notin _ _ _ HR); reflexivity.
  - apply len_nonneg.
Qed.

Lemma earliestPhase_rc : forall R N, allIn relc R -> allIn numc N ->
  earliestPhase (R ++ "rc" ++ N) = (len R, "rc" : gostring).
Proof.
  intros R N HR HN. rewrite earliestPhase_unfold.
  rewrite (phaseStep_first _ "rc" (len R)).
  - rewrite (phaseStep_later _ _ "c" (len R + 1)).
    + rewrite (phaseStep_absent _ _ "beta") by absent_by 0%nat "b"%char.
      rewrite (phaseStep_absent _ _ "b") by absent_by 0%nat "b"%char.
      rewrite (phaseStep_absent _ _ "alpha") by absent_by 0%nat "a"%char.
      rewrite (phaseStep_absent _ _ "a") by absent_by 0%nat "a"%char.
      reflexivity.
    + change (R ++ "rc" ++ N) with (R ++ ["r"%char] ++ "c" ++ N).
      rewrite app_assoc.
      rewrite (Index_app_found "c" 0 "c" (R ++ ["r"%char]) N).
      * rewrite len_app. reflexivity.
      * reflexivity.
      * intros Hin. apply in_app_or in Hin. destruct Hin as [H|[H|[]]];
          [|discriminate].
        revert H. apply (allIn_notin _ _ _ HR). reflexivity.
      * cbn; tauto.
    + cbn [fst]. pose proof (len_nonneg R). lia.
  - apply (Index_app_found "rc" 0 "r" R N); [reflexivity| |cbn; tauto].
    apply (allIn_notin _ _ _ HR); reflexivity.
  - apply len_nonneg.
Qed.

Lemma from_lit : forall (lit B : gostring), from (lit ++ B) (len lit) = B.
Proof. intros. apply from_len. Qed.

Lemma markerNumber_Itoa : forall version what n,
  inInt n = true -> markerNumber version what (Itoa n) = Ok n.
Proof.
  intros version what n H. unfold markerNumber.
  rewrite (eqs_neq _ [] (Itoa_nonempty n)). now rewrite Atoi_Itoa.
Qed.

Lemma reparse_pre : forall version v,
  wellFormed v ->
  parsePre version (canonRelease v ++ canonPre v) = Ok (pre v, canonRelease v).
Proof.
  intros version v Hwf. pose proof (canonRelease_class v Hwf) as HR.
  unfold parsePre, canonPre. destruct (pre v) as [[ph n]|] eqn:Epre.
  - destruct (wf_pre v Hwf _ Epre) as (Hph & Hn & _). cbn [phase number] in *.
    pose proof (Itoa_numc n) as HN.
    assert (Hgen : forall lit : gostring,
               earliestPhase (canonRelease v ++ lit ++ Itoa n)
               = (len (canonRelease v), lit) ->
               normalizePhase lit = lit ->
               (let '(preIdx, prePhase) :=
                  earliestPhase (canonRelease v ++ lit ++ Itoa n) in
                if 0 <=? preIdx
                then
                  let preNumStr :=
                    from (canonRelease v ++ lit ++ Itoa n) (preIdx + len prePhase) in
                  let s' := upto (canonRelease v ++ lit ++ Itoa n) preIdx in
                  let ph := normalizePhase prePhase in
                  if eqs preNumStr [] then Ok (Some (mkPre ph 0), s')
                  else match Atoi preNumStr with
                       | None => Err (parseError "PyPI" version
                                        ("invalid pre-release number: " ++ preNumStr))
                       | Some n => Ok (Some (mkPre ph n), s')
                       end
                else Ok (None, canonRelease v ++ lit ++ Itoa n))
               = Ok (Some (mkPre lit n), canonRelease v)).
    { intros lit He Hnorm. rewrite He. rewrite len_pos_leb. cbv zeta.
      rewrite from_app by apply len_nonneg. rewrite from_lit.
      rewrite upto_app. rewrite Hnorm.
      rewrite (eqs_neq _ [] (Itoa_nonempty n)). now rewrite Atoi_Itoa. }
    destruct Hph as [->|[->| ->]]; apply Hgen;
      auto using earliestPhase_a, earliestPhase_b, earliestPhase_rc.
  - rewrite app_nil_r. now rewrite earliestPhase_none.
Qed.

(** The text before the post-release marker. *)
Lemma canonPre_corec : forall v, wellFormed v -> allIn corec (canonPre v).
Proof.
  intros v Hwf. unfold canonPre. destruct (pre v) as [[ph n]|] eqn:E; [|constructor].
  destruct (wf_pre v Hwf _ E) as (Hph & _). cbn [phase number] in *.
  apply allIn_app.
  - destruct Hph as [->|[->| ->]]; repeat constructor.
  - eapply allIn_sub; [apply numc_corec|apply Itoa_numc].
Qed.

Lemma core_corec : forall v, wellFormed v ->
  allIn corec (canonRelease v ++ canonPre v).
Proof.
  intros v Hwf. apply allIn_app; [|now apply canonPre_corec].
  eapply allIn_sub; [apply relc_corec|now apply canonRelease_class].
Qed.

Lemma digitsVal_nonneg : forall s acc n,
  0 <= acc -> digitsVal acc s = Some n -> 0 <= n.
Proof.
  induction s as [|c s IH]; intros acc n Hacc H; cbn in H.
  - injection H as <-. exact Hacc.
  - destruct (isDigit c) eqn:E; [|discriminate].
    apply IH in H; [exact H|].
    unfold digitVal. unfold isDigit in E. apply andb_true_iff in E.
    destruct E as [E _]. apply Nat.leb_le in E. lia.
Qed.

(** Without a post-release the text before it ends the string, and the
    dash rule finds nothing to take. *)
Lemma reparse_post_none : forall version v,
  wellFormed v -> post v = None ->
  parsePost version (canonRelease v ++ canonPre v)
  = Ok (None, canonRelease v ++ canonPre v).
Proof.
  intros version v Hwf Hpost. pose proof (core_corec v Hwf) as HA.
  unfold parsePost.
  rewrite (Index_absent ".post" 1 "p") by (reflexivity || (apply (allIn_notin _ _ _ HA); reflexivity)).
  rewrite (Index_absent "post" 0 "p") by (reflexivity || (apply (allIn_notin _ _ _ HA); reflexivity)).
  cbn [Z.leb Z.compare].
  pose proof (canonRelease_class v Hwf) as HR.
  unfold canonPre in *. destruct (pre v) as [[ph n]|] eqn:Epre.
  - destruct (wf_pre v Hwf _ Epre) as (Hph & Hn & Hneg). cbn [phase number] in *.
    destruct (Z.lt_ge_cases n 0) as [Hlt|Hge].
    + destruct (Hneg Hlt) as [Hp| ->]; [congruence|].
      change (Itoa minInt) with ("-"%char :: list_ascii_of_string "9223372036854775808").
      replace (canonRelease v ++ ph ++ "-"%char :: list_ascii_of_string "9223372036854775808")
        with ((canonRelease v ++ ph) ++ "-"%char :: list_ascii_of_string "9223372036854775808")
        by (now rewrite <- app_assoc).
      rewrite LastIndexByte_last by (cbn; intuition discriminate).
      rewrite len_pos_leb.
      change ("-"%char :: list_ascii_of_string "9223372036854775808")
        with (["-"%char] ++ list_ascii_of_string "9223372036854775808").
      rewrite app_assoc.
      replace (len (canonRelease v ++ ph) + 1) with (len ((canonRelease v ++ ph) ++ ["-"%char]))
        by (rewrite (len_app _ ["-"%char]); reflexivity).
      rewrite from_len. reflexivity.
    + rewrite LastIndexByte_absent; [reflexivity|].
      intros Hin. apply in_app_or in Hin. destruct Hin as [H|H].
      * revert H. apply (allIn_notin _ _ _ HR). reflexivity.
      * apply in_app_or in H. destruct H as [H|H].
        -- destruct Hph as [->|[->| ->]]; cbn in H; intuition discriminate.
        -- revert H. apply (allIn_notin isDigit); [now apply Itoa_digits|reflexivity].
  - rewrite app_nil_r. rewrite LastIndexByte_absent; [reflexivity|].
    apply (allIn_notin _ _ _ HR). reflexivity.
Qed.

Lemma reparse_post : forall version v,
  wellFormed v ->
  parsePost version (canonRelease v ++ canonPre v ++ canonPost v)
  = Ok (post v, canonRelease v ++ canonPre v).
Proof.
  intros version v Hwf. pose proof (core_corec v Hwf) as HA.
  unfold canonPost. destruct (post v) as [p|] eqn:Epost.
  - rewrite app_assoc. unfold parsePost.
    rewrite (Index_app_found ".post" 1 "p")
      by (reflexivity || (apply (allIn_notin _ _ _ HA); reflexivity)
          || (cbn; intuition discriminate)).
    rewrite len_pos_leb.
    rewrite from_app by lia. rewrite (from_lit ".post").
    rewrite markerNumber_Itoa by (now apply (wf_post v Hwf)).
    cbn [bind]. now rewrite upto_app.
  - rewrite !app_nil_r. now apply reparse_post_none.
Qed.

Lemma canonPost_postc : forall v, allIn postc (canonPost v).
Proof.
  intros v. unfold canonPost. destruct (post v) as [p|]; [|constructor].
  apply allIn_app; [repeat constructor|].
  eapply allIn_sub; [apply numc_postc|apply Itoa_numc].
Qed.

Lemma upToPost_postc : forall v, wellFormed v ->
  allIn postc (canonRelease v ++ canonPre v ++ canonPost v).
Proof.
  intros v Hwf. rewrite app_assoc. apply allIn_app; [|apply canonPost_postc].
  eapply allIn_sub; [apply corec_postc|now apply core_corec].
Qed.

Lemma reparse_dev : forall version v,
  wellFormed v ->
  parseDev version (canonRelease v ++ canonPre v ++ canonPost v ++ canonDev v)
  = Ok (dev v, canonRelease v ++ canonPre v ++ canonPost v).
Proof.
  intros version v Hwf. pose proof (upToPost_postc v Hwf) as HA.
  replace (canonRelease v ++ canonPre v ++ canonPost v ++ canonDev v)
    with ((canonRelease v ++ canonPre v ++ canonPost v) ++ canonDev v)
    by (now rewrite <- !app_assoc).
  unfold canonDev. destruct (dev v) as [d|] eqn:Edev; unfold parseDev.
  - rewrite (Index_app_found ".dev" 1 "d")
      by (reflexivity || (apply (allIn_notin _ _ _ HA); reflexivity)
          || (cbn; intuition discriminate)).
    rewrite len_pos_leb.
    rewrite from_app by lia. rewrite (from_lit ".dev").
    rewrite markerNumber_Itoa by (now apply (wf_dev v Hwf)).
    cbn [bind]. now rewrite upto_app.
  - rewrite app_nil_r.
    rewrite (Index_absent ".dev" 1 "d")
      by (reflexivity || (apply (allIn_notin _ _ _ HA); reflexivity)).
    rewrite (Index_absent "dev" 0 "d")
      by (reflexivity || (apply (allIn_notin _ _ _ HA); reflexivity)).
    reflexivity.
Qed.

Lemma canonDev_devc : forall v, allIn devc (canonDev v).
Proof.
  intros v. unfold canonDev. destruct (dev v) as [d|]; [|constructor].
  apply allIn_app; [repeat constructor|].
  eapply allIn_sub; [apply numc_devc|apply Itoa_numc].
Qed.

Lemma upToDev_devc : forall v, wellFormed v ->
  allIn devc (canonRelease v ++ canonPre v ++ canonPost v ++ canonDev v).
Proof.
  intros v Hwf.
  replace (canonRelease v ++ canonPre v ++ canonPost v ++ canonDev v)
    with ((canonRelease v ++ canonPre v ++ canonPost v) ++ canonDev v)
    by (now rewrite <- !app_assoc).
  apply allIn_app; [|apply canonDev_devc].
  eapply allIn_sub; [apply postc_devc|now apply upToPost_postc].
Qed.

Lemma reparse_local : forall v A,
  allIn devc A ->
  parseLocal (A ++ canonLocal v) = (local v, A).
Proof.
  intros v A HA. unfold canonLocal, parseLocal, IndexByte.
  destruct (local v) as [|c l] eqn:E.
  - rewrite eqs_refl, app_nil_r.
    rewrite (Index_absent ["+"%char] 0 "+")
      by (reflexivity || (apply (allIn_notin _ _ _ HA); reflexivity)).
    reflexivity.
  - rewrite eqs_neq by discriminate.
    rewrite (Index_app_found "+" 0 "+")
      by (reflexivity || (apply (allIn_notin _ _ _ HA); reflexivity) || (cbn; tauto)).
    rewrite len_pos_leb.
    rewrite from_app by lia. rewrite (from_lit "+"). now rewrite upto_app.
Qed.

Lemma reparse_epoch : forall version v body,
  wellFormed v ->
  (0 < epoch v \/ ~ In "!"%char body) ->
  parseEpoch version (canonEpoch v ++ body)
  = Ok ((if 0 <? epoch v then epoch v else 0), body).
Proof.
  intros version v body Hwf Hbang. unfold canonEpoch, parseEpoch, IndexByte.
  destruct (0 <? epoch v) eqn:E.
  - apply Z.ltb_lt in E. rewrite <- app_assoc.
    rewrite (Index_app_found "!" 0 "!");
      [|reflexivity| |cbn; tauto].
    + replace (0 <? len (Itoa (epoch v))) with true.
      * rewrite upto_app. rewrite Atoi_Itoa by apply (wf_epoch v Hwf).
        rewrite from_app by lia. now rewrite (from_lit "!").
      * symmetry. apply Z.ltb_lt. unfold len.
        pose proof (Itoa_nonempty (epoch v)). destruct (Itoa (epoch v)); [contradiction|].
        cbn [length]. lia.
    + apply (allIn_notin isDigit); [apply Itoa_digits; lia|reflexivity].
  - apply Z.ltb_ge in E. destruct Hbang as [H|H]; [lia|]. cbn [app].
    rewrite (Index_absent ["!"%char] 0 "!") by (reflexivity || exact H).
    reflexivity.
Qed.

(** *** PyPI: the canonical form survives trimming and lower-casing *)

Lemma isDigit_range : forall c, isDigit c = true ->
  (48 <= nat_of_ascii c <= 57)%nat.
Proof.
  intros c H. unfold isDigit in H. apply andb_true_iff in H.
  destruct H as [H1 H2]. apply Nat.leb_le in H1, H2. lia.
Qed.

Lemma isDigit_not_space : forall c, isDigit c = true -> isSpace c = false.
Proof.
  intros c H. apply isDigit_range in H. unfold isSpace.
  replace (nat_of_ascii c <=? 13)%nat with false by (symmetry; apply Nat.leb_gt; lia).
  replace (nat_of_ascii c =? 32)%nat with false by (symmetry; apply Nat.eqb_neq; lia).
  now rewrite andb_false_r.
Qed.

Lemma isDigit_lower : forall c, isDigit c = true -> lowerByte c = c.
Proof.
  intros c H. apply isDigit_range in H. unfold lowerByte.
  replace (65 <=? nat_of_ascii c)%nat with false by (symmetry; apply Nat.leb_gt; lia).
  reflexivity.
Qed.

Lemma devc_not_space : forall c, devc c = true -> isSpace c = false.
Proof.
  intros c H. unfold devc, postc, corec, oneOf in H. cbn [existsb list_ascii_of_string] in H.
  repeat (apply orb_true_iff in H; destruct H as [H|H]);
    try discriminate H;
    try (apply Ascii.eqb_eq in H; subst; reflexivity).
  now apply isDigit_not_space.
Qed.

Lemma devc_lower : forall c, devc c = true -> lowerByte c = c.
Proof.
  intros c H. unfold devc, postc, corec, oneOf in H. cbn [existsb list_ascii_of_string] in H.
  repeat (apply orb_true_iff in H; destruct H as [H|H]);
    try discriminate H;
    try (apply Ascii.eqb_eq in H; subst; reflexivity).
  now apply isDigit_lower.
Qed.

Lemma lowerByte_idem : forall c, lowerByte (lowerByte c) = lowerByte c.
Proof.
  intros c. unfold lowerByte at 2 3.
  destruct ((65 <=? nat_of_ascii c) && (nat_of_ascii c <=? 90))%nat eqn:E.
  - apply andb_true_iff in E. destruct E as [E1 E2].
    apply Nat.leb_le in E1, E2. unfold lowerByte.
    rewrite nat_ascii_embedding by lia.
    replace (nat_of_ascii c + 32 <=? 90)%nat with false
      by (symmetry; apply Nat.leb_gt; lia).
    now rewrite andb_false_r.
  - unfold lowerByte. now rewrite E.
Qed.

Lemma map_fixed : forall (f : ascii -> ascii) s,
  Forall (fun c => f c = c) s -> map f s = s.
Proof.
  intros f s H. induction H as [|c s Hc _ IH]; cbn; [reflexivity|].
  now rewrite Hc, IH.
Qed.

Lemma allIn_last : forall cls s, allIn cls s -> s <> [] ->
  exists l c, s = l ++ [c] /\ cls c = true.
Proof.
  intros cls s Hd Hne. destruct (exists_last Hne) as [l [c ->]].
  exists l, c. split; [reflexivity|].
  unfold allIn in Hd. rewrite Forall_app in Hd. destruct Hd as [_ Hd].
  now inversion Hd.
Qed.

Lemma pypiCanon_core : forall v,
  pypiCanon v true = canonEpoch v ++ canonCore v ++ canonLocal v.
Proof.
  intros v. rewrite pypiCanon_parts. unfold canonCore. now rewrite <- !app_assoc.
Qed.

Lemma canonRelease_head : forall v, wellFormed v ->
  exists c s, canonRelease v = c :: s /\ isDigit c = true.
Proof.
  intros v Hwf. unfold canonRelease.
  pose proof (wf_release_nonempty v Hwf) as Hne.
  pose proof (wf_release v Hwf) as Hr.
  destruct (release v) as [|n rel]; [contradiction|].
  inversion Hr as [|? ? [Hn _] _]; subst. now apply Join_Itoa_head.
Qed.

Lemma canon_head : forall v, wellFormed v ->
  exists c s, pypiCanon v true = c :: s /\ isDigit c = true.
Proof.
  intros v Hwf. rewrite pypiCanon_core. unfold canonEpoch, canonCore.
  destruct (0 <? epoch v) eqn:E.
  - apply Z.ltb_lt in E.
    pose proof (Itoa_digits (epoch v) ltac:(lia)) as Hd.
    pose proof (Itoa_nonempty (epoch v)) as Hne.
    destruct (Itoa (epoch v)) as [|c s]; [contradiction|].
    inversion Hd; subst. cbn [app]. eauto.
  - destruct (canonRelease_head v Hwf) as [c [s [-> Hc]]]. cbn [app]. eauto.
Qed.

Lemma canon_last : forall v, wellFormed v ->
  exists l c, pypiCanon v true = l ++ [c] /\ isSpace c = false.
Proof.
  intros v Hwf. rewrite pypiCanon_core. unfold canonLocal.
  destruct (local v) as [|c0 loc] eqn:E.
  - rewrite eqs_refl, app_nil_r.
    destruct (allIn_last devc (canonCore v)) as [l [c [El Hc]]].
    + now apply upToDev_devc.
    + unfold canonCore. destruct (canonRelease_head v Hwf) as [c [s [-> _]]]. discriminate.
    + rewrite El. exists (canonEpoch v ++ l), c. split; [now rewrite app_assoc|].
      now apply devc_not_space.
  - rewrite eqs_neq by discriminate.
    destruct (@exists_last _ (c0 :: loc)) as [l [c El]]; [discriminate|].
    rewrite El. exists (canonEpoch v ++ canonCore v ++ "+" ++ l), c. split.
    + now rewrite <- !app_assoc.
    + apply (wf_local_end v Hwf l). now rewrite E.
Qed.

Lemma canon_trimmed : forall v, wellFormed v ->
  TrimSpace (pypiCanon v true) = pypiCanon v true.
Proof.
  intros v Hwf. unfold TrimSpace.
  destruct (canon_head v Hwf) as [c [s [E Hc]]].
  rewrite E at 1. rewrite dropWhile_head by (now apply isDigit_not_space).
  rewrite <- E.
  destruct (canon_last v Hwf) as [l [cl [El Hcl]]].
  rewrite El. now apply dropWhileEnd_last.
Qed.

Lemma canon_lower : forall v, wellFormed v ->
  ToLower (pypiCanon v true) = pypiCanon v true.
Proof.
  intros v Hwf. unfold ToLower. apply map_fixed.
  rewrite pypiCanon_core. apply Forall_app. split; [|apply Forall_app; split].
  - unfold canonEpoch. destruct (0 <? epoch v); [|constructor].
    apply Forall_app. split; [|repeat constructor].
    eapply Forall_impl; [|apply (Itoa_numc (epoch v))].
    intros c H. apply devc_lower. now apply numc_devc.
  - eapply Forall_impl; [|apply (upToDev_devc v Hwf)]. apply devc_lower.
  - unfold canonLocal. destruct (eqs (local v) []); [constructor|].
    constructor; [reflexivity|]. apply (wf_local_lower v Hwf).
Qed.

Lemma canon_nonempty : forall v, wellFormed v -> pypiCanon v true <> [].
Proof.
  intros v Hwf. destruct (canon_head v Hwf) as [c [s [-> _]]]. discriminate.
Qed.

(** *** PyPI: parsing a canonical form *)

Lemma reparse_canon : forall v,
  wellFormed v ->
  (0 < epoch v \/ ~ In "!"%char (local v)) ->
  parsePyPIVersion (pypiCanon v true)
  = Ok (mkPyPI (pypiCanon v true) (normalEpoch v) (release v) (pre v) (post v)
          (dev v) (local v)).
Proof.
  intros v Hwf Hbang. unfold parsePyPIVersion.
  rewrite (eqs_neq _ [] (canon_nonempty v Hwf)).
  rewrite canon_trimmed, canon_lower by exact Hwf.
  rewrite pypiCanon_core at 2.
  rewrite reparse_epoch; [|exact Hwf|].
  - cbn [bind]. rewrite reparse_local by (now apply upToDev_devc).
    unfold canonCore. rewrite reparse_dev by exact Hwf. cbn [bind].
    rewrite reparse_post by exact Hwf. cbn [bind].
    rewrite reparse_pre by exact Hwf. cbn [bind].
    rewrite reparse_release by exact Hwf. reflexivity.
  - destruct Hbang as [H|H]; [now left|right].
    intros Hin. apply in_app_or in Hin. destruct Hin as [Hin|Hin].
    + revert Hin. apply (allIn_notin devc); [now apply upToDev_devc|reflexivity].
    + unfold canonLocal in Hin. destruct (eqs (local v) []); [contradiction|].
      destruct Hin as [Hin|Hin]; [discriminate|contradiction].
Qed.

Lemma canon_of_reparsed : forall v original,
  pypiCanon (mkPyPI original (normalEpoch v) (release v) (pre v) (post v)
               (dev v) (local v)) true
  = pypiCanon v true.
Proof.
  intros v original. unfold pypiCanon, normalEpoch. cbn [epoch release pre post dev local].
  destruct (0 <? epoch v) eqn:E; cbn [andb]; [now rewrite E|reflexivity].
Qed.

(** *** PyPI: what a successful parse guarantees *)

Lemma inInt_0 : inInt 0 = true.
Proof. reflexivity. Qed.

Lemma digitsVal_digits : forall s acc n,
  digitsVal acc s = Some n -> allIn isDigit s.
Proof.
  induction s as [|c s IH]; intros acc n H; [constructor|].
  cbn in H. destruct (isDigit c) eqn:E; [|discriminate].
  constructor; [exact E|]. eapply IH. exact H.
Qed.

Lemma Atoi_cases : forall s n,
  Atoi s = Some n ->
  inInt n = true
  /\ ((0 <= n /\ (~ In "-"%char s -> True))
      \/ exists ds, s = "-"%char :: ds /\ ds <> [] /\ digitsVal 0 ds = Some (- n)).
Proof.
  intros s n H. unfold Atoi in H.
  destruct s as [|c r]; [discriminate|].
  destruct (Ascii.eqb c "+") eqn:Ep.
  - destruct r as [|c' r']; [discriminate|].
    destruct (digitsVal 0 (c' :: r')) as [m|] eqn:Ed; [|discriminate].
    destruct (inInt m) eqn:Ei; [|discriminate]. injection H as <-.
    split; [exact Ei|]. left. split; [|auto].
    eapply digitsVal_nonneg; [|exact Ed]. lia.
  - destruct (Ascii.eqb c "-") eqn:Em.
    + apply Ascii.eqb_eq in Em. subst c.
      destruct r as [|c' r']; [discriminate|].
      destruct (digitsVal 0 (c' :: r')) as [m|] eqn:Ed; [|discriminate].
      destruct (inInt (- m)) eqn:Ei; [|discriminate]. injection H as <-.
      split; [exact Ei|]. right. exists (c' :: r'). repeat split; [discriminate|].
      rewrite Ed. f_equal. lia.
    + destruct (digitsVal 0 (c :: r)) as [m|] eqn:Ed; [|discriminate].
      destruct (inInt m) eqn:Ei; [|discriminate]. injection H as <-.
      split; [exact Ei|]. left. split; [|auto].
      eapply digitsVal_nonneg; [|exact Ed]. lia.
Qed.

Lemma Atoi_inInt : forall s n, Atoi s = Some n -> inInt n = true.
Proof. intros s n H. now apply Atoi_cases in H. Qed.

Lemma Atoi_nonneg : forall s n, Atoi s = Some n -> ~ In "-"%char s -> 0 <= n.
Proof.
  intros s n H Hno. apply Atoi_cases in H. destruct H as [_ [[H _]|[ds [-> _]]]].
  - exact H.
  - exfalso. apply Hno. now left.
Qed.

Lemma Atoi_negative : forall s n,
  Atoi s = Some n -> n < 0 ->
  exists ds, s = "-"%char :: ds /\ ds <> [] /\ allIn isDigit ds
             /\ digitsVal 0 ds = Some (- n).
Proof.
  intros s n H Hn. apply Atoi_cases in H. destruct H as [_ [[H _]|[ds [-> [Hne Hd]]]]].
  - lia.
  - exists ds. repeat split; auto. eapply digitsVal_digits. exact Hd.
Qed.

Lemma markerNumber_inInt : forall version what str n,
  markerNumber version what str = Ok n -> inInt n = true.
Proof.
  intros version what str n H. unfold markerNumber in H.
  destruct (eqs str []); [injection H as <-; reflexivity|].
  destruct (Atoi str) as [m|] eqn:E; [|discriminate].
  injection H as <-. eapply Atoi_inInt. exact E.
Qed.

Lemma parseEpoch_inv : forall version s e s1,
  parseEpoch version s = Ok (e, s1) ->
  inInt e = true /\ exists front, s = front ++ s1.
Proof.
  intros version s e s1 H. unfold parseEpoch in H.
  destruct (0 <? IndexByte s "!").
  - destruct (Atoi (upto s (IndexByte s "!"))) as [m|] eqn:E; [|discriminate].
    injection H as <- <-. split; [eapply Atoi_inInt; exact E|].
    exists (upto s (IndexByte s "!" + 1)). symmetry. apply upto_from.
  - injection H as <- <-. split; [reflexivity|]. now exists [].
Qed.

Lemma parseLocal_inv : forall s loc s2,
  parseLocal s = (loc, s2) -> loc = [] \/ exists front, s = front ++ loc.
Proof.
  intros s loc s2 H. unfold parseLocal in H.
  destruct (0 <=? IndexByte s "+"); injection H as <- <-.
  - right. exists (upto s (IndexByte s "+" + 1)). symmetry. apply upto_from.
  - now left.
Qed.

Lemma parseDev_inv : forall version s d s3,
  parseDev version s = Ok (d, s3) -> forall n, d = Some n -> inInt n = true.
Proof.
  intros version s d s3 H n Hd. subst d. unfold parseDev in H.
  destruct (0 <=? Index s ".dev").
  - destruct (markerNumber version "dev" (from s (Index s ".dev" + 4))) as [m|] eqn:E;
      [|discriminate]. cbn [bind] in H. injection H as <- _.
    eapply markerNumber_inInt. exact E.
  - destruct (0 <=? Index s "dev"); [|discriminate].
    destruct (markerNumber version "dev" (from s (Index s "dev" + 3))) as [m|] eqn:E;
      [|discriminate]. cbn [bind] in H. injection H as <- _.
    eapply markerNumber_inInt. exact E.
Qed.

Lemma isAllDigits_true : forall s, allIn isDigit s -> s <> [] -> isAllDigits s = true.
Proof.
  intros s Hd Hne. unfold isAllDigits. rewrite (eqs_neq _ _ Hne).
  rewrite andb_true_r. apply forallb_forall. unfold allIn in Hd.
  now rewrite Forall_forall in Hd.
Qed.

Lemma parsePost_inv : forall version s p s4,
  parsePost version s = Ok (p, s4) ->
  (forall n, p = Some n -> inInt n = true)
  /\ (p = None ->
      s4 = s
      /\ forall A ds, s = A ++ "-"%char :: ds -> allIn isDigit ds -> ds <> [] ->
                      Atoi ds = None).
Proof.
  intros version s p s4 H. unfold parsePost in H.
  destruct (0 <=? Index s ".post").
  { destruct (markerNumber version "post" (from s (Index s ".post" + 5))) as [m|] eqn:E;
      [|discriminate]. cbn [bind] in H. injection H as <- _. split.
    - intros n Hn. injection Hn as <-. eapply markerNumber_inInt. exact E.
    - discriminate. }
  destruct (0 <=? Index s "post").
  { destruct (markerNumber version "post" (from s (Index s "post" + 4))) as [m|] eqn:E;
      [|discriminate]. cbn [bind] in H. injection H as <- _. split.
    - intros n Hn. injection Hn as <-. eapply markerNumber_inInt. exact E.
    - discriminate. }
  assert (Hdash : forall A ds, s = A ++ "-"%char :: ds -> allIn isDigit ds -> ds <> [] ->
            LastIndexByte s "-" = len A /\ from s (LastIndexByte s "-" + 1) = ds).
  { intros A ds -> Hd Hne.
    assert (Hl : LastIndexByte (A ++ "-"%char :: ds) "-" = len A).
    { apply LastIndexByte_last. apply (allIn_notin _ _ _ Hd). reflexivity. }
    split; [exact Hl|]. rewrite Hl.
    change (A ++ "-"%char :: ds) with (A ++ ["-"%char] ++ ds). rewrite app_assoc.
    replace (len A + 1) with (len (A ++ ["-"%char])) by (rewrite len_app; reflexivity).
    apply from_len. }
  destruct (0 <=? LastIndexByte s "-") eqn:El.
  - destruct (negb (eqs (from s (LastIndexByte s "-" + 1)) [])
              && isAllDigits (from s (LastIndexByte s "-" + 1))) eqn:Ec.
    + destruct (Atoi (from s (LastIndexByte s "-" + 1))) as [m|] eqn:Ea.
      * injection H as <- _. split; [|discriminate].
        intros n Hn. injection Hn as <-. eapply Atoi_inInt. exact Ea.
      * injection H as <- <-. split; [discriminate|]. intros _. split; [reflexivity|].
        intros A ds Hs Hd Hne. destruct (Hdash A ds Hs Hd Hne) as [_ Hf].
        now rewrite Hf in Ea.
    + injection H as <- <-. split; [discriminate|]. intros _. split; [reflexivity|].
      intros A ds Hs Hd Hne. destruct (Hdash A ds Hs Hd Hne) as [_ Hf].
      rewrite Hf in Ec. rewrite (eqs_neq _ _ Hne) in Ec.
      rewrite (isAllDigits_true ds Hd Hne) in Ec. discriminate.
  - injection H as <- <-. split; [discriminate|]. intros _. split; [reflexivity|].
    intros A ds Hs Hd Hne. destruct (Hdash A ds Hs Hd Hne) as [Hl _].
    rewrite Hl in El. pose proof (len_nonneg A). apply Z.leb_gt in El. lia.
Qed.

Lemma phaseStep_inv : forall s best ph,
  (fst best = -1 \/ 0 <= fst best /\ In (snd best) phases) -> In ph phases ->
  fst (phaseStep s best ph) = -1
  \/ 0 <= fst (phaseStep s best ph) /\ In (snd (phaseStep s best ph)) phases.
Proof.
  intros s [i p] ph Hbest Hph. unfold phaseStep. cbn [fst snd] in *.
  destruct ((0 <=? Index s ph) && ((i =? -1) || (Index s ph <? i))) eqn:E.
  - apply andb_true_iff in E. destruct E as [E _]. apply Z.leb_le in E.
    cbn [fst snd]. right. split; assumption.
  - exact Hbest.
Qed.

Lemma earliestPhase_inv : forall s i ph,
  earliestPhase s = (i, ph) -> 0 <= i -> In ph phases.
Proof.
  intros s i ph H Hi.
  assert (Hinv : fst (earliestPhase s) = -1
                 \/ 0 <= fst (earliestPhase s) /\ In (snd (earliestPhase s)) phases).
  { rewrite earliestPhase_unfold.
    repeat (apply phaseStep_inv; [|cbn; tauto]). left. reflexivity. }
  rewrite H in Hinv. cbn [fst snd] in Hinv. destruct Hinv as [Hinv|[_ Hinv]]; [lia|exact Hinv].
Qed.

Lemma normalizePhase_phases : forall ph, In ph phases ->
  normalizePhase ph = "a" \/ normalizePhase ph = "b" \/ normalizePhase ph = "rc".
Proof.
  intros ph H. cbn in H.
  repeat (destruct H as [<-|H]; [cbn; tauto|]). contradiction.
Qed.

Lemma parsePre_inv : forall version s p s5,
  parsePre version s = Ok (Some p, s5) ->
  (phase p = "a" \/ phase p = "b" \/ phase p = "rc")
  /\ inInt (number p) = true
  /\ (number p < 0 ->
      exists A ds, s = A ++ "-"%char :: ds /\ ds <> [] /\ allIn isDigit ds
                   /\ digitsVal 0 ds = Some (- number p)).
Proof.
  intros version s p s5 H. unfold parsePre in H.
  destruct (earliestPhase s) as [preIdx prePhase] eqn:Ee.
  destruct (0 <=? preIdx) eqn:Ei; [|discriminate].
  apply Z.leb_le in Ei.
  pose proof (normalizePhase_phases _ (earliestPhase_inv _ _ _ Ee Ei)) as Hph.
  cbv zeta in H.
  destruct (eqs (from s (preIdx + len prePhase)) []).
  - injection H as <- _. cbn [phase number]. repeat split; auto. lia.
  - destruct (Atoi (from s (preIdx + len prePhase))) as [n|] eqn:Ea; [|discriminate].
    injection H as <- _. cbn [phase number]. split; [exact Hph|].
    split; [eapply Atoi_inInt; exact Ea|].
    intros Hn. destruct (Atoi_negative _ _ Ea Hn) as [ds (Hs & Hne & Hd & Hv)].
    exists (upto s (preIdx + len prePhase)), ds. repeat split; auto.
    rewrite <- Hs. symmetry. apply upto_from.
Qed.

Lemma FieldsFrom_nosep : forall f s cur,
  Forall (fun c => f c = false) cur ->
  Forall (Forall (fun c => f c = false)) (FieldsFrom f cur s).
Proof.
  intros f. induction s as [|c s IH]; intros cur Hcur; cbn [FieldsFrom].
  - destruct cur; [constructor|]. constructor; [exact Hcur|constructor].
  - destruct (f c) eqn:E.
    + destruct cur; [apply IH; constructor|].
      constructor; [exact Hcur|]. apply IH. constructor.
    + apply IH. apply Forall_app. split; [exact Hcur|]. now constructor.
Qed.

Lemma releaseNumbers_inv : forall version parts rel,
  Forall (Forall (fun c => isReleaseSep c = false)) parts ->
  releaseNumbers version parts = Ok rel ->
  Forall (fun n => 0 <= n /\ inInt n = true) rel.
Proof.
  intros version. induction parts as [|part parts IH]; intros rel Hp H; cbn in H.
  - injection H as <-. constructor.
  - inversion Hp as [|? ? Hpart Hparts]; subst.
    destruct (eqs part []); [now apply IH|].
    destruct (Atoi part) as [n|] eqn:Ea; [|discriminate].
    destruct (releaseNumbers version parts) as [l|] eqn:El; [|discriminate].
    cbn [bind] in H. injection H as <-. constructor; [|now apply IH].
    split; [|eapply Atoi_inInt; exact Ea].
    eapply Atoi_nonneg; [exact Ea|].
    intros Hin. rewrite Forall_forall in Hpart. apply Hpart in Hin. discriminate.
Qed.

Lemma parseRelease_inv : forall version s rel,
  parseRelease version s = Ok rel ->
  rel <> [] /\ Forall (fun n => 0 <= n /\ inInt n = true) rel.
Proof.
  intros version s rel H. unfold parseRelease in H.
  destruct (eqs (TrimRight s ".") []); [discriminate|].
  destruct (releaseNumbers version (FieldsFunc (TrimRight s ".") isReleaseSep))
    as [l|] eqn:El; [|discriminate].
  cbn [bind] in H. destruct l as [|n l]; [discriminate|].
  injection H as <-. split; [discriminate|].
  eapply releaseNumbers_inv; [|exact El].
  unfold FieldsFunc. apply FieldsFrom_nosep. constructor.
Qed.

Lemma dropWhile_result : forall f s,
  dropWhile f s = [] \/ exists c t, dropWhile f s = c :: t /\ f c = false.
Proof.
  intros f. induction s as [|c s IH]; cbn; [now left|].
  destruct (f c) eqn:E; [exact IH|]. right. eauto.
Qed.

Lemma dropWhileEnd_last_inv : forall f s l c,
  dropWhileEnd f s = l ++ [c] -> f c = false.
Proof.
  intros f s l c H. unfold dropWhileEnd in H.
  destruct (dropWhile_result f (rev s)) as [E|[c0 [t [E Hc]]]]; rewrite E in H.
  - cbn in H. destruct l; discriminate.
  - cbn [rev] in H. apply app_inj_tail in H. destruct H as [_ <-]. exact Hc.
Qed.

Lemma lowerByte_not_space : forall c, isSpace c = false -> isSpace (lowerByte c) = false.
Proof.
  intros c H. unfold lowerByte.
  destruct ((65 <=? nat_of_ascii c) && (nat_of_ascii c <=? 90))%nat eqn:E; [|exact H].
  apply andb_true_iff in E. destruct E as [E1 E2]. apply Nat.leb_le in E1, E2.
  unfold isSpace. rewrite nat_ascii_embedding by lia.
  replace (nat_of_ascii c + 32 <=? 13)%nat with false by (symmetry; apply Nat.leb_gt; lia).
  replace (nat_of_ascii c + 32 =? 32)%nat with false by (symmetry; apply Nat.eqb_neq; lia).
  now rewrite andb_false_r.
Qed.

Lemma normalized_input : forall x,
  Forall (fun c => lowerByte c = c) (ToLower (TrimSpace x))
  /\ forall l c, ToLower (TrimSpace x) = l ++ [c] -> isSpace c = false.
Proof.
  intros x. split.
  - unfold ToLower. apply Forall_forall. intros c Hin. apply in_map_iff in Hin.
    destruct Hin as [c0 [<- _]]. apply lowerByte_idem.
  - intros l c H. unfold ToLower in H.
    destruct (@exists_last _ (TrimSpace x)) as [l0 [c0 E]].
    { intros E. rewrite E in H. destruct l; discriminate. }
    rewrite E, map_app in H. cbn [map] in H. apply app_inj_tail in H.
    destruct H as [_ <-]. apply lowerByte_not_space.
    unfold TrimSpace in E. eapply dropWhileEnd_last_inv. exact E.
Qed.

Lemma suffix_properties : forall (s front loc : gostring),
  s = front ++ loc ->
  Forall (fun c => lowerByte c = c) s ->
  (forall l c, s = l ++ [c] -> isSpace c = false) ->
  Forall (fun c => lowerByte c = c) loc
  /\ forall l c, loc = l ++ [c] -> isSpace c = false.
Proof.
  intros s front loc -> Hlow Hend. split.
  - apply Forall_app in Hlow. tauto.
  - intros l c ->. apply (Hend (front ++ l) c). now rewrite app_assoc.
Qed.

Theorem parse_wellFormed : forall x v,
  parsePyPIVersion x = Ok v -> wellFormed v.
Proof.
  intros x v H. unfold parsePyPIVersion in H.
  destruct (eqs x []); [discriminate|].
  destruct (normalized_input x) as [Hlow Hend].
  set (s0 := ToLower (TrimSpace x)) in *.
  destruct (parseEpoch x s0) as [[e s1]|] eqn:Ee; [|discriminate]. cbn [bind] in H.
  destruct (parseLocal s1) as [loc s2] eqn:El.
  destruct (parseDev x s2) as [[d s3]|] eqn:Ed; [|discriminate]. cbn [bind] in H.
  destruct (parsePost x s3) as [[p s4]|] eqn:Ep; [|discriminate]. cbn [bind] in H.
  destruct (parsePre x s4) as [[q s5]|] eqn:Eq; [|discriminate]. cbn [bind] in H.
  destruct (parseRelease x s5) as [rel|] eqn:Er; [|discriminate]. cbn [bind] in H.
  injection H as <-.
  destruct (parseEpoch_inv _ _ _ _ Ee) as [He [front Hs1]].
  destruct (parseRelease_inv _ _ _ Er) as [Hrne Hrel].
  destruct (parsePost_inv _ _ _ _ Ep) as [Hp Hpnone].
  assert (Hloc : Forall (fun c => lowerByte c = c) loc
                 /\ forall l c, loc = l ++ [c] -> isSpace c = false).
  { destruct (parseLocal_inv _ _ _ El) as [->|[front' Hs]].
    - split; [constructor|]. intros l c E. destruct l; discriminate.
    - apply (suffix_properties s0 (front ++ front') loc); auto.
      rewrite Hs1, Hs. now rewrite app_assoc. }
  constructor; cbn [epoch release pre post dev local]; try tauto.
  - intros q0 ->. destruct (parsePre_inv _ _ _ _ Eq) as (Hph & Hn & Hneg).
    repeat split; auto. intros Hlt.
    destruct p as [n|]; [left; discriminate|right].
    destruct (Hpnone eq_refl) as [-> Hdash].
    destruct (Hneg Hlt) as [A [ds (Hs & Hne & Hd & Hv)]].
    pose proof (Hdash A ds Hs Hd Hne) as Ha.
    rewrite Atoi_digits in Ha by assumption. rewrite Hv in Ha.
    destruct (inInt (- number q0)) eqn:E; [discriminate|].
    unfold inInt in *. apply andb_true_iff in Hn. destruct Hn as [Hn1 Hn2].
    apply Z.leb_le in Hn1, Hn2. apply andb_false_iff in E.
    unfold minInt, maxInt in *.
    destruct E as [E|E]; [apply Z.leb_gt in E|apply Z.leb_gt in E]; lia.
  - eapply parseDev_inv. exact Ed.
Qed.

(** C4, as stated, fails: Parse accepts 0!1+! (epoch 0, release 1,
    local segment "!"), the canonical form drops the zero epoch and is
    1+!, and on that string the epoch rule finds the exclamation mark
    of the local segment and rejects "1+" as an epoch. *)
Lemma pypiCanon_not_reparsed :
  ~ canonIdempotentAt "0!1+!".
Proof.
  intros H. destruct (H _ eq_refl) as [v' [Hv' _]].
  vm_compute in Hv'. discriminate Hv'.
Qed.

(** C4, amended.  For every ASCII string on which Parse succeeds with a
    positive epoch or with a local segment free of exclamation marks
    (every valid PEP 440 string is such a string), Parse succeeds on
    the canonical form with epoch, and the canonical form of the result
    is that same string. *)
Theorem pypiCanon_idempotent : forall (x : gostring) (v : PyPIVersion),
  is_ascii x ->
  parsePyPIVersion x = Ok v ->
  0 < epoch v \/ ~ In "!"%char (local v) ->
  exists v', parsePyPIVersion (pypiCanon v true) = Ok v'
             /\ pypiCanon v' true = pypiCanon v true.
Proof.
  intros x v _ Hparse Hbang.
  pose proof (parse_wellFormed x v Hparse) as Hwf.
  eexists. split.
  - apply reparse_canon; assumption.
  - apply canon_of_reparsed.
Qed.

Lemma pypiCanon_idempotent_witness :
  exists v', parsePyPIVersion "1.0.0.post1" = Ok v'
             /\ pypiCanon v' true = "1.0.0.post1".
Proof.
  refine (pypiCanon_idempotent "1.0.0-1"
            (mkPyPI "1.0.0-1" 0 [1; 0; 0] None (Some 1) None []) _ _ _).
  - repeat constructor.
  - reflexivity.
  - right. intros [].
Defined.

(** *** yarn.lock, Berry format *)

Lemma dropWhile_app_last : forall f l c,
  f c = false -> exists l', dropWhile f (l ++ [c]) = l' ++ [c].
Proof.
  intros f l c Hc. induction l as [|a l IH]; cbn.
  - rewrite Hc. now exists [].
  - destruct (f a); [exact IH|]. now exists (a :: l).
Qed.

Lemma TrimSpace_head : forall s,
  TrimSpace s = [] \/ exists c t, TrimSpace s = c :: t /\ isSpace c = false.
Proof.
  intros s. unfold TrimSpace, dropWhileEnd.
  destruct (dropWhile_result isSpace s) as [->|[c [t [-> Hc]]]]; [now left|].
  right. cbn [rev].
  destruct (dropWhile_app_last isSpace (rev t) c Hc) as [l' ->].
  rewrite rev_app_distr. cbn [rev app]. eauto.
Qed.

Lemma cls_s_isSpace : forall c, cls_s c = true -> isSpace c = true.
Proof.
  intros c H. unfold cls_s in H. unfold isSpace.
  repeat (apply orb_true_iff in H; destruct H as [H|H]);
    apply Nat.eqb_eq in H; rewrite H; reflexivity.
Qed.

(** A pattern anchored at the start that begins with white space finds
    nothing in a line that [TrimSpace] has trimmed. *)
Lemma leading_space_pattern_on_trimmed : forall R n line,
  FindStringSubmatch (Seq Bol (Seq spaces1 R)) n (TrimSpace line) = None.
Proof.
  intros R n line. unfold FindStringSubmatch.
  assert (Hfirst : matchAt (Seq Bol (Seq spaces1 R)) n 0 (TrimSpace line) = None).
  { unfold matchAt. rewrite run_Grp, run_Seq, run_Bol. cbn [pos Nat.eqb skipn].
    unfold spaces1, Plus. rewrite !run_Seq, run_Chr. cbn [rest].
    destruct (TrimSpace_head line) as [->|[c [t [-> Hc]]]]; [reflexivity|].
    destruct (cls_s c) eqn:E; [|reflexivity].
    apply cls_s_isSpace in E. congruence. }
  destruct (length (TrimSpace line)); cbn [searchFrom]; rewrite Hfirst;
    [reflexivity|apply anchored_later].
Qed.

(** The Berry loop trims every line before it applies the version and
    resolution patterns, which both require leading white space: no
    version line is ever recognised, the filter is never called, and
    the slice stays as it was. *)
Lemma berryLoop_never_appends : forall createAndAppend lines pkg specType resolution deps,
  berryLoop createAndAppend lines pkg specType resolution deps = deps.
Proof.
  intros createAndAppend. induction lines as [|line lines IH];
    intros pkg specType resolution deps; cbn [berryLoop]; [reflexivity|].
  destruct (FindStringSubmatch berryPackagePattern 3 (TrimSpace line)); [apply IH|].
  change berryVersionPattern
    with (Seq Bol (Seq spaces1
            (Cat [Lit "version:"; spaces1; Opt (Chr (Ascii.eqb dquote));
                  Grp 1 (Plus (Chr notQuoteNorSpace)); Opt (Chr (Ascii.eqb dquote))]))).
  change berryResolutionPattern
    with (Seq Bol (Seq spaces1
            (Cat [Lit "resolution:"; spaces1; Chr (Ascii.eqb dquote);
                  Grp 1 (Plus (Chr (noneOf [dquote]))); Chr (Ascii.eqb dquote)]))).
  rewrite !leading_space_pattern_on_trimmed.
  destruct (negb (eqs pkg [])); apply IH.
Qed.

Lemma matched_refl : forall P r st,
  lang r [] -> (forall i, mandatory i r = false) -> matched P r st st.
Proof.
  intros P r st Hl Hm. split; [|split].
  - exists []. cbn. split; [reflexivity|]. split; [lia|exact Hl].
  - reflexivity.
  - intros i. split; [auto|]. split; [auto|]. rewrite Hm. discriminate.
Qed.

Lemma matched_trans : forall P r1 r2 r st st1 st2,
  matched P r1 st st1 -> matched P r2 st1 st2 ->
  (forall u v, lang r1 u -> lang r2 v -> lang r (u ++ v)) ->
  (forall i, mentions i r = false -> mentions i r1 = false /\ mentions i r2 = false) ->
  (forall i, mandatory i r = true -> mandatory i r1 = true \/ mandatory i r2 = true) ->
  matched P r st st2.
Proof.
  intros P r1 r2 r st st1 st2 [[u [Hu [Hpu Hlu]]] [Hc1 H1]] [[v [Hv [Hpv Hlv]]] [Hc2 H2]]
    Hlang Hment Hmand.
  split; [|split].
  - exists (u ++ v). rewrite Hu, Hv, <- app_assoc. split; [reflexivity|].
    split; [rewrite length_app; lia|]. now apply Hlang.
  - congruence.
  - intros i. destruct (H1 i) as [Ha1 [Hb1 Hd1]]. destruct (H2 i) as [Ha2 [Hb2 Hd2]].
    split; [|split].
    + intros Hi. apply Hment in Hi. destruct Hi as [Hi1 Hi2].
      rewrite Ha2, Ha1; auto.
    + destruct Hb2 as [Hb2|Hb2]; [|now right].
      rewrite Hb2. exact Hb1.
    + intros Hi Hlen. apply Hmand in Hi. destruct Hi as [Hi|Hi].
      * destruct Hb2 as [Hb2|Hb2]; [|exact Hb2]. rewrite Hb2. now apply Hd1.
      * apply Hd2; [exact Hi|]. now rewrite Hc1.
Qed.

Lemma starLoop_sound : forall P r1,
  (forall k st res, run r1 k st = Some res ->
                    exists st', k st' = Some res /\ matched P r1 st st') ->
  forall fuel k st res,
    starLoop (run r1) k fuel st = Some res ->
    exists st', k st' = Some res /\ matched P (Star r1) st st'.
Proof.
  intros P r1 IHr.
  assert (Hnil : lang (Star r1) []) by (exists []; split; [reflexivity|constructor]).
  induction fuel as [|fuel IH]; intros k st res H; cbn [starLoop] in H.
  - exists st. split; [exact H|]. now apply matched_refl.
  - destruct (run r1 _ st) as [res'|] eqn:E.
    + injection H as ->. apply IHr in E. destruct E as [st1 [Hk Hm1]].
      destruct (pos st <? pos st1)%nat; [|discriminate].
      apply IH in Hk. destruct Hk as [st2 [Hk2 Hm2]].
      exists st2. split; [exact Hk2|].
      apply (matched_trans P r1 (Star r1) (Star r1) st st1 st2 Hm1 Hm2).
      * intros u v Hu [ws [-> Hws]]. exists (u :: ws). split; [reflexivity|].
        now constructor.
      * cbn. intros i Hi. now split.
      * cbn. discriminate.
    + exists st. split; [exact H|]. now apply matched_refl.
Qed.

Lemma run_sound : forall P r, groupsOK P r ->
  forall k st res, run r k st = Some res ->
  exists st', k st' = Some res /\ matched P r st st'.
Proof.
  intros P.
  induction r as [|p|r1 IH1 r2 IH2|r1 IH1 r2 IH2|r1 IH1|n r1 IH1| |];
    intros HG k st res H; cbn [run] in H; cbn [groupsOK] in HG.
  - exists st. split; [exact H|]. now apply matched_refl.
  - destruct st as [n0 [|c s'] cs]; cbn [rest pos caps] in H; [discriminate|].
    destruct (p c) eqn:Hp; [|discriminate].
    eexists. split; [exact H|]. unfold matched. cbn [pos rest caps mandatory].
    split; [|split].
    + exists [c]. cbn. split; [reflexivity|]. split; [lia|]. eauto.
    + reflexivity.
    + intros i. split; [auto|]. split; [auto|discriminate].
  - destruct HG as [HG1 HG2].
    apply IH1 in H; [|exact HG1]. destruct H as [st1 [H Hm1]].
    apply IH2 in H; [|exact HG2]. destruct H as [st2 [H Hm2]].
    exists st2. split; [exact H|].
    apply (matched_trans P r1 r2 (Seq r1 r2) st st1 st2 Hm1 Hm2).
    + intros u v Hu Hv. exists u, v. auto.
    + cbn. intros i Hi. now apply orb_false_elim in Hi.
    + cbn. intros i Hi. now apply orb_prop in Hi.
  - destruct HG as [HG1 HG2].
    destruct (run r1 k st) as [res'|] eqn:E.
    + injection H as ->. apply IH1 in E; [|exact HG1].
      destruct E as [st1 [Hk [[w [Hw [Hp Hl]]] [Hc Hf]]]].
      exists st1. split; [exact Hk|]. split; [|split].
      * exists w. cbn. auto.
      * exact Hc.
      * intros i. destruct (Hf i) as [Ha [Hb Hd]]. cbn. split; [|split].
        -- intros Hi. apply orb_false_elim in Hi. apply Ha. tauto.
        -- exact Hb.
        -- intros Hi. apply andb_prop in Hi. apply Hd. tauto.
    + apply IH2 in H; [|exact HG2].
      destruct H as [st1 [Hk [[w [Hw [Hp Hl]]] [Hc Hf]]]].
      exists st1. split; [exact Hk|]. split; [|split].
      * exists w. cbn. auto.
      * exact Hc.
      * intros i. destruct (Hf i) as [Ha [Hb Hd]]. cbn. split; [|split].
        -- intros Hi. apply orb_false_elim in Hi. apply Ha. tauto.
        -- exact Hb.
        -- intros Hi. apply andb_prop in Hi. apply Hd. tauto.
  - eapply starLoop_sound; eauto.
  - destruct HG as [HGn HG1].
    apply IH1 in H; [|exact HG1].
    destruct H as [st1 [Hk [[w [Hw [Hp Hl]]] [Hc Hf]]]].
    exists (capture n st st1). split; [exact Hk|].
    assert (Hcap : firstn (pos st1 - pos st) (rest st) = w).
    { rewrite Hw, Hp. replace (pos st + length w - pos st)%nat with (length w) by lia.
      apply firstn_length_app. }
    unfold matched, capture. cbn [pos rest caps]. rewrite Hcap.
    split; [|split].
    + exists w. cbn. auto.
    + now rewrite setCap_length.
    + intros i. destruct (Hf i) as [Ha [Hb Hd]]. cbn [mentions mandatory].
      destruct (Nat.eq_dec n i) as [->|Hni].
      * destruct (Nat.lt_ge_cases i (length (caps st1))) as [Hlt|Hge].
        -- rewrite setCap_same by exact Hlt. rewrite Nat.eqb_refl. cbn.
           split; [discriminate|]. split; [right; now apply HGn|].
           intros _ _. now apply HGn.
        -- assert (Hs : nth i (setCap i w (caps st1)) [] = nth i (caps st) []).
           { rewrite !nth_overflow; [reflexivity|lia|rewrite setCap_length; lia]. }
           rewrite Hs, Nat.eqb_refl. cbn.
           split; [discriminate|]. split; [now left|]. intros _ Hlt. lia.
      * rewrite setCap_other by exact Hni.
        apply Nat.eqb_neq in Hni. rewrite Hni. cbn. auto.
  - destruct (pos st =? 0)%nat; [|discriminate].
    exists st. split; [exact H|]. now apply matched_refl.
  - destruct (rest st); [|discriminate].
    exists st. split; [exact H|]. now apply matched_refl.
Qed.

(** A match reported by [FindStringSubmatch]: it has one entry per
    group and the whole match; the whole match is a word of the pattern
    occurring in the input; a group holds the empty string or a word it
    can capture, and the latter when it takes part in every match. *)
Lemma FindStringSubmatch_sound : forall P r n s m,
  groupsOK P r ->
  FindStringSubmatch r n s = Some m ->
  length m = S n
  /\ (exists before after, s = before ++ sub m 0 ++ after /\ lang r (sub m 0))
  /\ forall i, (1 <= i)%nat ->
       (sub m i = [] \/ P i (sub m i))
       /\ (mandatory i r = true -> (i <= n)%nat -> P i (sub m i)).
Proof.
  intros P r n s m HG H. unfold FindStringSubmatch in H.
  apply searchFrom_Some in H. destruct H as [q H]. unfold matchAt in H.
  destruct (run _ Some _) as [st|] eqn:E; [|discriminate]. injection H as <-.
  rewrite run_Grp in E. apply (run_sound P r HG) in E.
  destruct E as [st1 [Hk [[w [Hw [Hp Hl]]] [Hc Hf]]]].
  injection Hk as <-. cbn [pos rest caps] in *.
  unfold capture. cbn [pos rest caps].
  assert (Hcap : firstn (pos st1 - q) (skipn q s) = w).
  { rewrite Hw, Hp. replace (q + length w - q)%nat with (length w) by lia.
    apply firstn_length_app. }
  rewrite Hcap. rewrite repeat_length in Hc.
  split; [|split].
  - rewrite setCap_length. exact Hc.
  - exists (firstn q s), (rest st1). unfold sub.
    rewrite setCap_same by lia. split; [|exact Hl].
    rewrite <- Hw. symmetry. apply firstn_skipn.
  - intros i Hi. unfold sub. rewrite setCap_other by lia.
    destruct (Hf i) as [Ha [Hb Hd]].
    assert (Hrep : nth i (repeat (@nil ascii) (S n)) [] = []).
    { destruct (Nat.lt_ge_cases i (S n)) as [Hlt|Hge].
      - apply nth_repeat_lt. exact Hlt.
      - apply nth_overflow. rewrite repeat_length. lia. }
    split; [destruct Hb as [Hb|Hb]; [left; rewrite Hb; exact Hrep|right; exact Hb]|].
    intros Hm Hle. apply Hd; [exact Hm|]. rewrite repeat_length. lia.
Qed.

Lemma is_ascii_check : forall s,
  forallb (fun c => (nat_of_ascii c <? 128)%nat) s = true -> is_ascii s.
Proof.
  intros s H. unfold is_ascii. rewrite forallb_forall in H. apply Forall_forall.
  intros c Hc. apply H in Hc. now apply Nat.ltb_lt in Hc.
Qed.

Lemma is_ascii_lines_check : forall lines,
  forallb (forallb (fun c => (nat_of_ascii c <? 128)%nat)) lines = true ->
  Forall is_ascii lines.
Proof.
  intros lines H. rewrite forallb_forall in H. apply Forall_forall.
  intros l Hl. apply is_ascii_check. now apply H.
Qed.

(** *** Gemfile.lock: the default result is the direct part of the full one *)

Lemma gemSpecsLoop_filter : forall directDeps lines inGemSection acc,
  gemSpecsLoop (mkGemfileLockOptions false) directDeps lines inGemSection
    (filter Direct acc)
  = filter Direct
      (gemSpecsLoop (mkGemfileLockOptions true) directDeps lines inGemSection acc).
Proof.
  intros directDeps. induction lines as [|line lines IH]; intros b acc;
    cbn [gemSpecsLoop]; [reflexivity|].
  destruct (eqs (TrimSpace line) "GEM"); [apply IH|].
  destruct (eqs (TrimSpace line) "PLATFORMS" || eqs (TrimSpace line) "DEPENDENCIES");
    [apply IH|].
  destruct (negb b); [apply IH|].
  destruct (HasPrefix line "  remote:" || eqs (TrimSpace line) []
            || eqs (TrimSpace line) "specs:"); [apply IH|].
  destruct (FindStringSubmatch gemLockSpecRegex 2 line) as [m|]; [|apply IH].
  cbn [gemIncludeTransitive negb andb].
  destruct (has directDeps (sub m 1)) eqn:Hd; cbn [negb].
  - rewrite <- IH. rewrite filter_app. cbn [filter gemLockDependency Direct]. reflexivity.
  - rewrite <- IH. rewrite filter_app. cbn [filter gemLockDependency Direct].
    now rewrite app_nil_r.
Qed.

(** For an ASCII file, the default mode returns the records of the
    transitive mode that are marked direct, in the same order. *)
Theorem ParseGemfileLock_direct_part : forall content,
  is_ascii content ->
  ParseGemfileLock content
  = filter Direct (ParseGemfileLockWithOptions content (mkGemfileLockOptions true)).
Proof.
  intros content _. unfold ParseGemfileLock, ParseGemfileLockWithOptions.
  rewrite <- gemSpecsLoop_filter. reflexivity.
Qed.

Lemma ParseGemfileLock_direct_part_witness :
  ParseGemfileLock gemLockListed
  = filter Direct (ParseGemfileLockWithOptions gemLockListed (mkGemfileLockOptions true))
  /\ map nameDirect (ParseGemfileLockWithOptions gemLockListed (mkGemfileLockOptions true))
     <> map nameDirect (ParseGemfileLock gemLockListed).
Proof.
  split.
  - apply (ParseGemfileLock_direct_part gemLockListed).
    apply is_ascii_check. reflexivity.
  - intros H. vm_compute in H. discriminate H.
Defined.

(** *** Gemfile.lock: where a record comes from *)

Lemma gemSpecsLoop_origin : forall options directDeps lines inGemSection acc d,
  In d (gemSpecsLoop options directDeps lines inGemSection acc) ->
  In d acc
  \/ exists line m, In line lines
       /\ FindStringSubmatch gemLockSpecRegex 2 line = Some m
       /\ d = gemLockDependency (sub m 1) (sub m 2) (has directDeps (sub m 1)).
Proof.
  intros options directDeps. induction lines as [|line lines IH]; intros b acc d H;
    cbn [gemSpecsLoop] in H; [now left|].
  assert (Hskip : forall b', In d (gemSpecsLoop options directDeps lines b' acc) ->
     In d acc \/ exists line0 m, In line0 (line :: lines)
       /\ FindStringSubmatch gemLockSpecRegex 2 line0 = Some m
       /\ d = gemLockDependency (sub m 1) (sub m 2) (has directDeps (sub m 1))).
  { intros b' H'. apply IH in H'. destruct H' as [H'|[l0 [m [Hin Hm]]]]; [now left|].
    right. exists l0, m. split; [now right|exact Hm]. }
  destruct (eqs (TrimSpace line) "GEM"); [now apply Hskip in H|].
  destruct (eqs (TrimSpace line) "PLATFORMS" || eqs (TrimSpace line) "DEPENDENCIES");
    [now apply Hskip in H|].
  destruct (negb b); [now apply Hskip in H|].
  destruct (HasPrefix line "  remote:" || eqs (TrimSpace line) []
            || eqs (TrimSpace line) "specs:"); [now apply Hskip in H|].
  destruct (FindStringSubmatch gemLockSpecRegex 2 line) as [m|] eqn:Em;
    [|now apply Hskip in H].
  destruct (negb (gemIncludeTransitive options) && negb (has directDeps (sub m 1)));
    [now apply Hskip in H|].
  apply IH in H. destruct H as [H|[l0 [m0 [Hin Hm]]]].
  - apply in_app_or in H. destruct H as [H|[<-|[]]]; [now left|].
    right. exists line, m. split; [now left|]. split; [exact Em|reflexivity].
  - right. exists l0, m0. split; [now right|exact Hm].
Qed.

Lemma lang_Plus_Chr : forall p w,
  lang (Plus (Chr p)) w -> w <> [] /\ Forall (fun c => p c = true) w.
Proof.
  intros p w [u [v [-> [[c [-> Hc]] [ws [-> Hws]]]]]]. split; [discriminate|].
  constructor; [exact Hc|].
  induction Hws as [|x ws [c' [-> Hc']] _ IH]; cbn; [constructor|].
  now constructor.
Qed.

Lemma lang_Star_Chr : forall p w,
  lang (Star (Chr p)) w -> Forall (fun c => p c = true) w.
Proof.
  intros p w [ws [-> Hws]].
  induction Hws as [|x ws [c' [-> Hc']] _ IH]; cbn; [constructor|].
  now constructor.
Qed.

Lemma gemLockSpecRegex_groups : forall line m,
  FindStringSubmatch gemLockSpecRegex 2 line = Some m ->
  specGroups 1 (sub m 1) /\ specGroups 2 (sub m 2).
Proof.
  intros line m H.
  apply (FindStringSubmatch_sound specGroups) in H.
  - destruct H as [_ [_ H]]. split.
    + apply (H 1%nat); [lia|reflexivity|lia].
    + apply (H 2%nat); [lia|reflexivity|lia].
  - cbn -[lang]. repeat match goal with |- _ /\ _ => split | |- True => exact I end.
    + intros w Hw. apply lang_Plus_Chr in Hw. destruct Hw as [Hne Hall].
      split; [exact Hne|]. eapply Forall_impl; [|exact Hall].
      intros c Hc. unfold cls_S in Hc. now apply negb_true_iff in Hc.
    + intros w Hw. apply lang_Plus_Chr in Hw. destruct Hw as [Hne Hall].
      split; [exact Hne|]. intros Hin. rewrite Forall_forall in Hall.
      apply Hall in Hin. discriminate Hin.
Qed.

(** Every record read from an ASCII Gemfile.lock, in either mode: it is
    a ruby record of production scope; its name is not empty and has no white
    space; its version is not empty and has no closing parenthesis; it
    carries no source file; and its metadata are the source and the
    directness of the record. *)
Theorem ParseGemfileLock_record_shape : forall content options d,
  is_ascii content ->
  In d (ParseGemfileLockWithOptions content options) ->
  Type_ d = DependencyTypeRuby /\ Scope d = ScopeProd /\ SourceFile d = []
  /\ Name d <> [] /\ Forall (fun c => cls_s c = false) (Name d)
  /\ Version d <> [] /\ ~ In ")"%char (Version d)
  /\ Metadata d = [("source" : gostring, MStr MetadataSourceGemfileLock);
                   ("direct" : gostring, MBool (Direct d))].
Proof.
  intros content options d _ H. unfold ParseGemfileLockWithOptions in H.
  apply gemSpecsLoop_origin in H. destruct H as [[]|[line [m [_ [Hm ->]]]]].
  apply gemLockSpecRegex_groups in Hm. destruct Hm as [[Hn1 Hn2] [Hv1 Hv2]].
  cbn [gemLockDependency Type_ Scope SourceFile Name Version Metadata Direct].
  repeat split; auto.
Qed.

Lemma ParseGemfileLock_record_shape_witness :
  let d := gemLockDependency "actionpack" "7.1.0" false in
  Type_ d = DependencyTypeRuby /\ Scope d = ScopeProd /\ SourceFile d = []
  /\ Name d <> [] /\ Forall (fun c => cls_s c = false) (Name d)
  /\ Version d <> [] /\ ~ In ")"%char (Version d)
  /\ Metadata d = [("source" : gostring, MStr MetadataSourceGemfileLock);
                   ("direct" : gostring, MBool (Direct d))].
Proof.
  apply (ParseGemfileLock_record_shape gemLockListed (mkGemfileLockOptions true)).
  - apply is_ascii_check. reflexivity.
  - vm_compute. right. left. reflexivity.
Defined.

(** *** Gemfile.lock: the readers of the other sections *)

Lemma directDepsLoop_outside : forall before rest0 acc,
  Forall (fun l => eqs (TrimSpace l) "DEPENDENCIES" = false) before ->
  directDepsLoop (before ++ rest0) acc false = directDepsLoop rest0 acc false.
Proof.
  induction before as [|l before IH]; intros rest0 acc H; [reflexivity|].
  inversion H as [|? ? Hl Hbefore]; subst. cbn [app directDepsLoop].
  rewrite Hl. cbn. now apply IH.
Qed.

Lemma directDepsLoop_inside : forall body rest0 acc,
  Forall (fun l => isSectionHeader l = false) body ->
  directDepsLoop (body ++ rest0) acc true
  = directDepsLoop rest0 (acc ++ firstFields body) true.
Proof.
  induction body as [|l body IH]; intros rest0 acc H.
  - cbn. now rewrite app_nil_r.
  - inversion H as [|? ? Hl Hbody]; subst. cbn [app directDepsLoop firstFields flat_map].
    unfold isSectionHeader in Hl.
    apply orb_false_elim in Hl. destruct Hl as [Hl Hp].
    apply orb_false_elim in Hl. destruct Hl as [Hd Hb].
    rewrite Hd, Hb, Hp. cbn [orb andb negb].
    destruct (eqs (TrimSpace l) []) eqn:He.
    + apply eqs_eq in He. rewrite He. cbn. rewrite IH by exact Hbody. reflexivity.
    + cbn [negb]. destruct (Fields (TrimSpace l)) as [|f fs].
      * cbn. rewrite IH by exact Hbody. reflexivity.
      * rewrite IH by exact Hbody. unfold firstFields. cbn.
        now rewrite <- app_assoc.
Qed.

Lemma directDepsLoop_closed : forall h after acc,
  TrimSpace h = "BUNDLED WITH" \/ TrimSpace h = "PLATFORMS" ->
  Forall (fun l => eqs (TrimSpace l) "DEPENDENCIES" = false) after ->
  directDepsLoop (h :: after) acc true = acc.
Proof.
  intros h after acc Hh Hafter. cbn [directDepsLoop].
  assert (E : eqs (TrimSpace h) "DEPENDENCIES" = false
              /\ (eqs (TrimSpace h) "BUNDLED WITH" || eqs (TrimSpace h) "PLATFORMS"
                  || eqs (TrimSpace h) []) = true
              /\ negb (eqs (TrimSpace h) []) = true).
  { destruct Hh as [-> | ->]; repeat split. }
  destruct E as [-> [-> ->]]. cbn.
  rewrite <- (app_nil_r after). now rewrite directDepsLoop_outside.
Qed.

(** In an ASCII file the direct set is made of the first field of every
    non-blank line between the DEPENDENCIES line and the next BUNDLED WITH or PLATFORMS
    line (or the end of the file): a line of any other section placed
    there, such as RUBY VERSION or CHECKSUMS and their entries, is read
    as a direct dependency. *)
Theorem parseDirectDependencies_section : forall before header body,
  Forall is_ascii (before ++ header :: body) ->
  Forall (fun l => eqs (TrimSpace l) "DEPENDENCIES" = false) before ->
  TrimSpace header = "DEPENDENCIES" ->
  Forall (fun l => isSectionHeader l = false) body ->
  parseDirectDependencies (before ++ header :: body) = firstFields body
  /\ forall closing after,
       Forall is_ascii (closing :: after) ->
       TrimSpace closing = "BUNDLED WITH" \/ TrimSpace closing = "PLATFORMS" ->
       Forall (fun l => eqs (TrimSpace l) "DEPENDENCIES" = false) after ->
       parseDirectDependencies (before ++ header :: body ++ closing :: after)
       = firstFields body.
Proof.
  intros before header body _ Hbefore Hh Hbody. unfold parseDirectDependencies.
  split; [|intros closing after _ Hc Hafter];
    rewrite directDepsLoop_outside by exact Hbefore;
    cbn [directDepsLoop]; rewrite Hh; cbn.
  - pose proof (directDepsLoop_inside body [] [] Hbody) as E.
    rewrite app_nil_r in E. rewrite E. reflexivity.
  - rewrite directDepsLoop_inside by exact Hbody.
    now rewrite directDepsLoop_closed.
Qed.

Lemma parseDirectDependencies_section_witness :
  parseDirectDependencies
    (textLines ["GEM"; "    rails (7.1.0)"; "DEPENDENCIES"; "  rails"; "";
                "RUBY VERSION"; "   ruby 3.2.2p53"; ""; "BUNDLED WITH"; "   2.4.10"])
  = textLines ["rails"; "RUBY"; "ruby"].
Proof.
  refine (proj2 (parseDirectDependencies_section
            (textLines ["GEM"; "    rails (7.1.0)"]) "DEPENDENCIES"
            (textLines ["  rails"; ""; "RUBY VERSION"; "   ruby 3.2.2p53"; ""])
            _ _ _ _)
          "BUNDLED WITH" (textLines ["   2.4.10"]) _ _ _).
  - apply is_ascii_lines_check. reflexivity.
  - repeat constructor.
  - reflexivity.
  - repeat constructor.
  - apply is_ascii_lines_check. reflexivity.
  - now left.
  - repeat constructor.
Defined.

Lemma platformsLoop_outside : forall before rest0 acc,
  Forall (fun l => eqs (TrimSpace l) "PLATFORMS" = false) before ->
  platformsLoop (before ++ rest0) acc false = platformsLoop rest0 acc false.
Proof.
  intros before. induction before as [|l before IH]; intros rest0 acc H; [reflexivity|].
  inversion H as [|? ? Hl Hbefore]; subst. cbn [app platformsLoop].
  rewrite Hl. cbn. now apply IH.
Qed.

Lemma platformsLoop_inside : forall body rest0 acc,
  Forall (fun l => isSectionHeader l = false) body ->
  platformsLoop (body ++ rest0) acc true
  = platformsLoop rest0 (acc ++ nonBlank body) true.
Proof.
  induction body as [|l body IH]; intros rest0 acc H.
  - cbn. now rewrite app_nil_r.
  - inversion H as [|? ? Hl Hbody]; subst.
    cbn [app platformsLoop nonBlank map filter].
    unfold isSectionHeader in Hl.
    apply orb_false_elim in Hl. destruct Hl as [Hl Hp].
    apply orb_false_elim in Hl. destruct Hl as [Hd Hb].
    rewrite Hd, Hb, Hp. cbn [orb andb negb].
    destruct (eqs (TrimSpace l) []) eqn:He; cbn [negb].
    + rewrite IH by exact Hbody. reflexivity.
    + rewrite IH by exact Hbody. unfold nonBlank. now rewrite <- app_assoc.
Qed.

Lemma platformsLoop_closed : forall h after acc,
  TrimSpace h = "DEPENDENCIES" \/ TrimSpace h = "BUNDLED WITH" ->
  Forall (fun l => eqs (TrimSpace l) "PLATFORMS" = false) after ->
  platformsLoop (h :: after) acc true = acc.
Proof.
  intros h after acc Hh Hafter. cbn [platformsLoop].
  assert (E : eqs (TrimSpace h) "PLATFORMS" = false
              /\ (eqs (TrimSpace h) "DEPENDENCIES" || eqs (TrimSpace h) "BUNDLED WITH"
                  || eqs (TrimSpace h) []) = true
              /\ negb (eqs (TrimSpace h) []) = true).
  { destruct Hh as [-> | ->]; repeat split. }
  destruct E as [-> [-> ->]]. cbn.
  rewrite <- (app_nil_r after). now rewrite platformsLoop_outside.
Qed.

Lemma setMeta_In : forall k v m, In (k, v) (setMeta k v m).
Proof.
  intros k v. induction m as [|[k' v'] m IH]; cbn; [now left|].
  destruct (eqs k k'); [now left|now right].
Qed.

Lemma setMeta_keeps : forall k v k' v' m,
  k <> k' -> In (k, v) m -> In (k, v) (setMeta k' v' m).
Proof.
  intros k v k' v'. induction m as [|[k0 v0] m IH]; intros Hk H; cbn; [destruct H|].
  destruct H as [H|H].
  - injection H as -> ->. destruct (eqs k' k) eqn:E; [|now left].
    apply eqs_eq in E. congruence.
  - destruct (eqs k' k0); [now right|]. right. now apply IH.
Qed.

(** In an ASCII file the platforms are the non-blank lines, trimmed, between the
    PLATFORMS line and the next DEPENDENCIES or BUNDLED WITH line; a
    blank line does not end the section.  When there is one, the list
    is the [platforms] entry of the metadata, in either mode. *)
Theorem parsePlatforms_section : forall before header body closing after,
  Forall is_ascii (before ++ header :: body ++ closing :: after) ->
  Forall (fun l => eqs (TrimSpace l) "PLATFORMS" = false) before ->
  TrimSpace header = "PLATFORMS" ->
  Forall (fun l => isSectionHeader l = false) body ->
  TrimSpace closing = "DEPENDENCIES" \/ TrimSpace closing = "BUNDLED WITH" ->
  Forall (fun l => eqs (TrimSpace l) "PLATFORMS" = false) after ->
  parsePlatforms (before ++ header :: body ++ closing :: after) = nonBlank body
  /\ forall content options,
       Split content [nl] = before ++ header :: body ++ closing :: after ->
       nonBlank body <> [] ->
       In ("platforms" : gostring, MList (nonBlank body))
          (snd (ParseGemfileLockWithMetadataAndOptions content options)).
Proof.
  intros before header body closing after _ Hbefore Hh Hbody Hc Hafter.
  assert (E : parsePlatforms (before ++ header :: body ++ closing :: after)
              = nonBlank body).
  { unfold parsePlatforms. rewrite platformsLoop_outside by exact Hbefore.
    cbn [platformsLoop]. rewrite Hh. cbn.
    rewrite platformsLoop_inside by exact Hbody.
    now rewrite platformsLoop_closed. }
  split; [exact E|].
  intros content options Hs Hne.
  unfold ParseGemfileLockWithMetadataAndOptions. cbn [snd]. rewrite Hs, E.
  destruct (nonBlank body) as [|p ps] eqn:Ep; [contradiction|].
  change (0 <? length (p :: ps))%nat with true. cbn iota.
  destruct (negb (eqs (parseBundlerVersion _) [])).
  - apply setMeta_keeps; [discriminate|]. apply setMeta_In.
  - apply setMeta_In.
Qed.

Lemma parsePlatforms_section_witness :
  parsePlatforms
    (textLines ["GEM"; "PLATFORMS"; "  ruby"; ""; "  x86_64-linux"; "";
                "DEPENDENCIES"; "  rails"])
  = textLines ["ruby"; "x86_64-linux"].
Proof.
  refine (proj1 (parsePlatforms_section
            (textLines ["GEM"]) "PLATFORMS"
            (textLines ["  ruby"; ""; "  x86_64-linux"; ""])
            "DEPENDENCIES" (textLines ["  rails"]) _ _ _ _ _ _)).
  - apply is_ascii_lines_check. reflexivity.
  - repeat constructor.
  - reflexivity.
  - repeat constructor.
  - now left.
  - repeat constructor.
Defined.

Lemma bundlerLoop_outside : forall before rest0,
  Forall (fun l => eqs (TrimSpace l) "BUNDLED WITH" = false) before ->
  bundlerLoop (before ++ rest0) false = bundlerLoop rest0 false.
Proof.
  intros before. induction before as [|l before IH]; intros rest0 H; [reflexivity|].
  inversion H as [|? ? Hl Hbefore]; subst. cbn [app bundlerLoop].
  rewrite Hl. cbn. now apply IH.
Qed.

Lemma bundlerLoop_blank : forall blank rest0,
  Forall (fun l => TrimSpace l = [] \/ TrimSpace l = "BUNDLED WITH") blank ->
  bundlerLoop (blank ++ rest0) true = bundlerLoop rest0 true.
Proof.
  induction blank as [|l blank IH]; intros rest0 H; [reflexivity|].
  inversion H as [|? ? Hl Hblank]; subst. cbn [app bundlerLoop].
  destruct Hl as [-> | ->]; cbn; now apply IH.
Qed.

(** In an ASCII file the bundler version is the first non-blank line
    after the first BUNDLED WITH line, trimmed, and it is the [bundler_version] entry of
    the metadata; a file without a BUNDLED WITH line, or with nothing
    but blank lines after it, has none. *)
Theorem parseBundlerVersion_section : forall before header blank line after,
  Forall is_ascii (before ++ header :: blank ++ line :: after) ->
  Forall (fun l => eqs (TrimSpace l) "BUNDLED WITH" = false) before ->
  TrimSpace header = "BUNDLED WITH" ->
  Forall (fun l => TrimSpace l = [] \/ TrimSpace l = "BUNDLED WITH") blank ->
  TrimSpace line <> [] -> TrimSpace line <> "BUNDLED WITH" ->
  parseBundlerVersion (before ++ header :: blank ++ line :: after) = TrimSpace line
  /\ parseBundlerVersion (before ++ header :: blank) = []
  /\ parseBundlerVersion before = []
  /\ forall content options,
       Split content [nl] = before ++ header :: blank ++ line :: after ->
       In ("bundler_version" : gostring, MStr (TrimSpace line))
          (snd (ParseGemfileLockWithMetadataAndOptions content options)).
Proof.
  intros before header blank line after _ Hbefore Hh Hblank Hne Hnh.
  assert (E : parseBundlerVersion (before ++ header :: blank ++ line :: after)
              = TrimSpace line).
  { unfold parseBundlerVersion. rewrite bundlerLoop_outside by exact Hbefore.
    cbn [bundlerLoop]. rewrite Hh. cbn.
    rewrite bundlerLoop_blank by exact Hblank. cbn [bundlerLoop].
    rewrite (eqs_neq _ _ Hnh), (eqs_neq _ _ Hne). reflexivity. }
  split; [exact E|]. split; [|split].
  - unfold parseBundlerVersion. rewrite bundlerLoop_outside by exact Hbefore.
    cbn [bundlerLoop]. rewrite Hh. cbn.
    rewrite <- (app_nil_r blank). now rewrite bundlerLoop_blank.
  - unfold parseBundlerVersion. rewrite <- (app_nil_r before).
    now rewrite bundlerLoop_outside.
  - intros content options Hs.
    unfold ParseGemfileLockWithMetadataAndOptions. cbn [snd]. rewrite Hs, E.
    rewrite (eqs_neq _ _ Hne). cbn [negb]. apply setMeta_In.
Qed.

Lemma parseBundlerVersion_section_witness :
  parseBundlerVersion
    (textLines ["DEPENDENCIES"; "  rails"; ""; "BUNDLED WITH"; ""; "   2.4.10"; ""])
  = "2.4.10".
Proof.
  refine (proj1 (parseBundlerVersion_section
            (textLines ["DEPENDENCIES"; "  rails"; ""]) "BUNDLED WITH"
            (textLines [""]) "   2.4.10" (textLines [""]) _ _ _ _ _ _)).
  - apply is_ascii_lines_check. reflexivity.
  - repeat constructor.
  - reflexivity.
  - repeat constructor.
  - discriminate.
  - discriminate.
Defined.

(** *** Gemfile: the shape of a record *)

Lemma gemOfLine_groups : forall line gemName version,
  gemOfLine line = Some (gemName, version) ->
  quoteFree 1 gemName /\ quoteFree 2 version.
Proof.
  intros line gemName version H. unfold gemOfLine in H.
  destruct (FindStringSubmatch rubyDepRegexWithVersion 2 line) as [m|] eqn:E2.
  - injection H as <- <-.
    apply (FindStringSubmatch_sound quoteFree) in E2.
    + destruct E2 as [_ [_ H]]. split.
      * apply (H 1%nat); [lia|reflexivity|lia].
      * apply (H 2%nat); [lia|reflexivity|lia].
    + cbn -[lang]. repeat match goal with |- _ /\ _ => split | |- True => exact I end;
        intros w Hw; now apply lang_Plus_Chr in Hw.
  - destruct (FindStringSubmatch rubyDepRegexNoVersion 1 line) as [m|] eqn:E1;
      [|discriminate].
    injection H as <- <-.
    apply (FindStringSubmatch_sound quoteFree) in E1.
    + destruct E1 as [_ [_ H]]. split.
      * apply (H 1%nat); [lia|reflexivity|lia].
      * split; [discriminate|]. repeat constructor.
    + cbn -[lang]. repeat match goal with |- _ /\ _ => split | |- True => exact I end;
        intros w Hw; now apply lang_Plus_Chr in Hw.
Qed.

Lemma gemfileLoop_origin : forall lines groups depth acc d,
  In d (gemfileLoop lines groups depth acc) ->
  In d acc
  \/ exists line gemName version currentGroups,
       In line lines
       /\ gemOfLine (TrimSpace line) = Some (gemName, version)
       /\ d = mkDependency DependencyTypeRuby gemName version
                (mapGemfileGroupToScope currentGroups) true []
                (buildRubyMetadata (TrimSpace line) currentGroups).
Proof.
  induction lines as [|line lines IH]; intros groups depth acc d H;
    cbn [gemfileLoop] in H; [now left|].
  assert (Hskip : forall g n, In d (gemfileLoop lines g n acc) ->
     In d acc \/ exists line0 gemName version currentGroups,
       In line0 (line :: lines)
       /\ gemOfLine (TrimSpace line0) = Some (gemName, version)
       /\ d = mkDependency DependencyTypeRuby gemName version
                (mapGemfileGroupToScope currentGroups) true []
                (buildRubyMetadata (TrimSpace line0) currentGroups)).
  { intros g n H'. apply IH in H'.
    destruct H' as [H'|[l0 [a [b [c [Hin Hm]]]]]]; [now left|].
    right. exists l0, a, b, c. split; [now right|exact Hm]. }
  destruct (FindStringSubmatch rubyGroupRegex 2 (TrimSpace line)); [now apply Hskip in H|].
  destruct (eqs (TrimSpace line) "end" && (0 <? depth)); [now apply Hskip in H|].
  destruct (eqs (TrimSpace line) [] || HasPrefix (TrimSpace line) "#");
    [now apply Hskip in H|].
  destruct (gemOfLine (TrimSpace line)) as [[gemName version]|] eqn:Eg;
    [|now apply Hskip in H].
  destruct (eqs gemName []); [now apply Hskip in H|].
  apply IH in H. destruct H as [H|[l0 [a [b [c [Hin Hm]]]]]].
  - apply in_app_or in H. destruct H as [H|[<-|[]]]; [now left|].
    right. exists line, gemName, version, groups. split; [now left|]. now split.
  - right. exists l0, a, b, c. split; [now right|exact Hm].
Qed.

Lemma mapGemfileGroupToScope_cases : forall groups,
  mapGemfileGroupToScope groups = ScopeProd \/ mapGemfileGroupToScope groups = ScopeDev.
Proof.
  intros groups. unfold mapGemfileGroupToScope.
  destruct (length groups =? 0)%nat; [now left|].
  destruct (existsb _ groups); [now right|].
  destruct (existsb _ groups); [now right|now left].
Qed.

Lemma buildRubyMetadata_source : forall line groups,
  In ("source" : gostring, MStr MetadataSourceGemfile) (buildRubyMetadata line groups).
Proof.
  intros line groups. unfold buildRubyMetadata.
  unfold addPlatformsToMetadata, addRequireFlagToMetadata, addCaptureToMetadata,
    addGroupsToMetadata.
  repeat match goal with
  | |- In _ (match ?x with _ => _ end) => destruct x
  | |- In _ (if ?x then _ else _) => destruct x
  | |- In _ (setMeta _ _ _) => apply setMeta_keeps; [discriminate|]
  end; now left.
Qed.

(** Every record read from an ASCII Gemfile: it is a direct ruby record of
    production or development scope; its name and its version are not
    empty and hold no quote character (so the check for an empty name
    never fires); it carries no source file; its metadata name the
    Gemfile as the source. *)
Theorem ParseGemfile_record_shape : forall content d,
  is_ascii content ->
  In d (ParseGemfile content) ->
  Type_ d = DependencyTypeRuby /\ Direct d = true /\ SourceFile d = []
  /\ (Scope d = ScopeProd \/ Scope d = ScopeDev)
  /\ Name d <> [] /\ Forall (fun c => noneOf quotes c = true) (Name d)
  /\ Version d <> [] /\ Forall (fun c => noneOf quotes c = true) (Version d)
  /\ In ("source" : gostring, MStr MetadataSourceGemfile) (Metadata d).
Proof.
  intros content d _ H. unfold ParseGemfile in H.
  apply gemfileLoop_origin in H.
  destruct H as [[]|[line [gemName [version [groups [_ [Hg ->]]]]]]].
  apply gemOfLine_groups in Hg. destruct Hg as [[Hn1 Hn2] [Hv1 Hv2]].
  cbn [Type_ Direct SourceFile Scope Name Version Metadata].
  repeat split; auto.
  - apply mapGemfileGroupToScope_cases.
  - apply buildRubyMetadata_source.
Qed.

Lemma ParseGemfile_record_shape_witness :
  let d := nth 0 (ParseGemfile gemfileNestedGroups)
             (mkDependency [] [] [] [] false [] []) in
  Type_ d = DependencyTypeRuby /\ Direct d = true /\ SourceFile d = []
  /\ (Scope d = ScopeProd \/ Scope d = ScopeDev)
  /\ Name d <> [] /\ Forall (fun c => noneOf quotes c = true) (Name d)
  /\ Version d <> [] /\ Forall (fun c => noneOf quotes c = true) (Version d)
  /\ In ("source" : gostring, MStr MetadataSourceGemfile) (Metadata d).
Proof.
  apply (ParseGemfile_record_shape gemfileNestedGroups).
  - apply is_ascii_check. reflexivity.
  - vm_compute. left. reflexivity.
Defined.

(** *** yarn.lock: what the two parsers recognise *)

Lemma anchored_None : forall R n s,
  matchAt (Seq Bol R) n 0 s = None -> FindStringSubmatch (Seq Bol R) n s = None.
Proof.
  intros R n s H. unfold FindStringSubmatch.
  destruct (length s); cbn [searchFrom]; rewrite H; [reflexivity|apply anchored_later].
Qed.

Lemma run_Lit_mismatch : forall lit k st,
  HasPrefix (rest st) lit = false -> run (Lit lit) k st = None.
Proof.
  induction lit as [|a lit IH]; intros k st H.
  - destruct (rest st); discriminate H.
  - cbn [Lit]. rewrite run_Seq, run_Chr.
    destruct st as [p [|c s'] cs]; cbn [rest pos caps] in *; [reflexivity|].
    cbn [HasPrefix] in H. destruct (Ascii.eqb a c) eqn:E; [|reflexivity].
    apply IH. cbn [rest]. exact H.
Qed.

Lemma classicPackagePattern_quoted : forall t,
  HasPrefix t [dquote] = false ->
  FindStringSubmatch classicPackagePattern 1 t = None.
Proof.
  intros t H. unfold classicPackagePattern. cbn [Cat].
  apply anchored_None. unfold matchAt.
  rewrite run_Grp, run_Seq, run_Bol. cbn [pos Nat.eqb skipn].
  rewrite run_Seq, run_Chr. cbn [rest].
  destruct t as [|c t]; [reflexivity|].
  cbn [HasPrefix] in H. destruct (Ascii.eqb dquote c); [|reflexivity].
  destruct t; discriminate H.
Qed.

Lemma classicVersionPattern_prefix : forall t,
  HasPrefix t "version:" = false ->
  FindStringSubmatch classicVersionPattern 1 t = None.
Proof.
  intros t H. unfold classicVersionPattern. cbn [Cat].
  apply anchored_None. unfold matchAt.
  rewrite run_Grp, run_Seq, run_Bol. cbn [pos Nat.eqb skipn].
  rewrite run_Seq. rewrite run_Lit_mismatch; [reflexivity|exact H].
Qed.

Lemma berry_line_patterns : forall line,
  FindStringSubmatch berryVersionPattern 1 (TrimSpace line) = None
  /\ FindStringSubmatch berryResolutionPattern 1 (TrimSpace line) = None.
Proof.
  intros line. split.
  - change berryVersionPattern
      with (Seq Bol (Seq spaces1
              (Cat [Lit "version:"; spaces1; Opt (Chr (Ascii.eqb dquote));
                    Grp 1 (Plus (Chr notQuoteNorSpace)); Opt (Chr (Ascii.eqb dquote))]))).
    apply leading_space_pattern_on_trimmed.
  - change berryResolutionPattern
      with (Seq Bol (Seq spaces1
              (Cat [Lit "resolution:"; spaces1; Chr (Ascii.eqb dquote);
                    Grp 1 (Plus (Chr (noneOf [dquote]))); Chr (Ascii.eqb dquote)]))).
    apply leading_space_pattern_on_trimmed.
Qed.

Lemma Contains_metadata_berry : forall text,
  Contains text "__metadata:" = true -> DetectYarnVersion text = "berry".
Proof.
  intros text H. unfold DetectYarnVersion. rewrite H. cbn [negb andb orb].
  now rewrite andb_false_r.
Qed.

(** A yarn.lock of the Berry format yields no dependency, whatever the
    manifest, the options and the filter: [DetectYarnVersion] answers
    berry or classic, and berry for every text that contains the
    metadata marker; the Berry parser then returns its initial empty
    slice.  Without a manifest the result is empty for both formats. *)
Theorem ParseYarnLock_berry_empty :
  forall (NPMLockFileOptions : Type)
         (newFilter : NPMLockFileOptions -> DeclaredSets -> Appender)
         (lockContent : YarnLockContent) (packageJSON : option PackageJSON)
         (options : NPMLockFileOptions),
  (DetectYarnVersion (yarnText lockContent) = "berry"
   \/ DetectYarnVersion (yarnText lockContent) = "classic")
  /\ (Contains (yarnText lockContent) "__metadata:" = true ->
      DetectYarnVersion (yarnText lockContent) = "berry")
  /\ (DetectYarnVersion (yarnText lockContent) = "berry" ->
      ParseYarnLockWithOptions newFilter lockContent packageJSON options = [])
  /\ ParseYarnLockWithOptions newFilter lockContent None options = [].
Proof.
  intros O newFilter lockContent packageJSON options.
  split; [|split; [|split]].
  - unfold DetectYarnVersion.
    destruct (_ && _); [now right|]. destruct (_ || _); [now left|now right].
  - apply Contains_metadata_berry.
  - intros Hb. unfold ParseYarnLockWithOptions.
    destruct packageJSON as [pj|]; [|reflexivity].
    rewrite Hb. cbn [eqs]. change (eqs "berry" "berry") with true. cbn iota.
    unfold parseYarnLockBerryWithOptions.
    assert (G : forall f lines p q r deps, berryLoop f lines p q r deps = deps).
    { intros f. induction lines as [|line lines IH]; intros p q r deps;
        cbn [berryLoop]; [reflexivity|].
      destruct (FindStringSubmatch berryPackagePattern 3 (TrimSpace line)); [apply IH|].
      destruct (berry_line_patterns line) as [-> ->].
      destruct (negb (eqs p [])); apply IH. }
    apply G.
  - reflexivity.
Qed.

Lemma lang_nonempty_Seq_r : forall r1 r2 w,
  (forall v, lang r2 v -> v <> []) -> lang (Seq r1 r2) w -> w <> [].
Proof.
  intros r1 r2 w H [u [v [-> [_ Hv]]]] E. apply app_eq_nil in E. destruct E as [_ E].
  now apply H in Hv.
Qed.

Lemma classicPackagePattern_group : forall line m,
  FindStringSubmatch classicPackagePattern 1 line = Some m -> sub m 1 <> [].
Proof.
  intros line m H. apply (FindStringSubmatch_sound classicGroups) in H.
  - destruct H as [_ [_ H]]. apply (H 1%nat); [lia|reflexivity|lia].
  - cbn -[lang]. repeat match goal with |- _ /\ _ => split | |- True => exact I end.
    intros w Hw. unfold classicGroups. revert Hw. apply lang_nonempty_Seq_r.
    intros v Hv. now apply lang_Plus_Chr in Hv.
Qed.

Lemma classicVersionPattern_group : forall line m,
  FindStringSubmatch classicVersionPattern 1 line = Some m -> versionGroup 1 (sub m 1).
Proof.
  intros line m H. apply (FindStringSubmatch_sound versionGroup) in H.
  - destruct H as [_ [_ H]]. apply (H 1%nat); [lia|reflexivity|lia].
  - cbn -[lang]. repeat match goal with |- _ /\ _ => split | |- True => exact I end.
    intros w Hw. now apply lang_Plus_Chr in Hw.
Qed.

Lemma classicLoop_calls : forall (createAndAppend : Appender) (Inv : list Dependency -> Prop),
  (forall name version deps,
     Inv deps -> name <> [] -> version <> [] ->
     Forall (fun c => notQuoteNorSpace c = true) version ->
     Inv (createAndAppend "npm" name version "yarn.lock" deps)) ->
  forall lines currentPackage deps,
    Inv deps -> Inv (classicLoop createAndAppend lines currentPackage deps).
Proof.
  intros f Inv Hstep. induction lines as [|line lines IH]; intros p deps Hd;
    cbn [classicLoop]; [exact Hd|].
  destruct (FindStringSubmatch classicPackagePattern 1 (TrimSpace line)); [now apply IH|].
  destruct (eqs p []) eqn:Ep; cbn [negb]; [now apply IH|].
  destruct (FindStringSubmatch classicVersionPattern 1 (TrimSpace line)) as [m|] eqn:Ev;
    [|now apply IH].
  apply IH. apply classicVersionPattern_group in Ev. destruct Ev as [Hv1 Hv2].
  apply Hstep; auto. intros ->. discriminate Ep.
Qed.

(** On ASCII text the classic parser hands the filter only npm entries of yarn.lock
    whose name is not empty and whose version is not empty and holds
    neither a double quote nor white space: a property of the slice
    that every such call preserves holds of the result. *)
Theorem parseYarnLockClassic_calls :
  forall (NPMLockFileOptions : Type)
         (newFilter : NPMLockFileOptions -> DeclaredSets -> Appender)
         (Inv : list Dependency -> Prop)
         (lockContent : YarnLockContent) (packageJSON : option PackageJSON)
         (options : NPMLockFileOptions),
  is_ascii (yarnText lockContent) ->
  Inv [] ->
  (forall sets name version deps,
     Inv deps -> name <> [] -> version <> [] ->
     Forall (fun c => notQuoteNorSpace c = true) version ->
     Inv (newFilter options sets "npm" name version "yarn.lock" deps)) ->
  Inv (parseYarnLockClassicWithOptions newFilter lockContent packageJSON options).
Proof.
  intros O newFilter Inv lockContent packageJSON options _ H0 Hstep.
  unfold parseYarnLockClassicWithOptions.
  destruct packageJSON as [pj|]; [|exact H0].
  apply classicLoop_calls; [|exact H0].
  intros name version deps. apply Hstep.
Qed.

Lemma parseYarnLockClassic_calls_witness :
  Forall (fun d => Type_ d = "npm" /\ Name d <> [] /\ ~ In dquote (Version d))
    (parseYarnLockClassicWithOptions (fun (_ : unit) _ => keepAll)
       yarnQuotedLock (Some someManifest) tt)
  /\ map (fun d => (Name d, Version d))
       (parseYarnLockClassicWithOptions (fun (_ : unit) _ => keepAll)
          yarnQuotedLock (Some someManifest) tt)
     = [("express" : gostring, "4.18.2" : gostring)].
Proof.
  split; [|reflexivity].
  apply (parseYarnLockClassic_calls unit (fun _ _ => keepAll)
           (Forall (fun d => Type_ d = "npm" /\ Name d <> [] /\ ~ In dquote (Version d)))).
  - apply is_ascii_check. reflexivity.
  - constructor.
  - intros sets name version deps Hd Hn Hv Hq. unfold keepAll.
    apply Forall_app. split; [exact Hd|]. constructor; [|constructor].
    cbn [Type_ Name Version]. split; [reflexivity|]. split; [exact Hn|].
    intros Hin. rewrite Forall_forall in Hq. apply Hq in Hin.
    discriminate Hin.
Defined.

Lemma classicLoop_no_header : forall (createAndAppend : Appender) lines deps,
  (forall line, In line lines -> HasPrefix (TrimSpace line) [dquote] = false) ->
  classicLoop createAndAppend lines [] deps = deps.
Proof.
  intros f. induction lines as [|line lines IH]; intros deps H; cbn [classicLoop];
    [reflexivity|].
  rewrite classicPackagePattern_quoted by (apply H; now left).
  change (eqs [] []) with true. cbn [negb]. apply IH.
  intros l Hl. apply H. now right.
Qed.

Lemma classicLoop_no_version : forall (createAndAppend : Appender) lines currentPackage deps,
  (forall line, In line lines -> HasPrefix (TrimSpace line) "version:" = false) ->
  classicLoop createAndAppend lines currentPackage deps = deps.
Proof.
  intros f. induction lines as [|line lines IH]; intros p deps H; cbn [classicLoop];
    [reflexivity|].
  assert (Hrest : forall l, In l lines -> HasPrefix (TrimSpace l) "version:" = false)
    by (intros l Hl; apply H; now right).
  destruct (FindStringSubmatch classicPackagePattern 1 (TrimSpace line)); [now apply IH|].
  rewrite classicVersionPattern_prefix by (apply H; now left).
  destruct (negb (eqs p [])); now apply IH.
Qed.

(** On ASCII text the classic parser recognises a package header only on a line whose
    trimmed text starts with a double quote, and a version only on a
    line whose trimmed text starts with [version:]; a lockfile without
    lines of one of the two kinds, such as one written by Yarn 1
    ([name@range:] and [version "x"]), yields no dependency, whatever
    the manifest, the options and the filter. *)
Theorem parseYarnLockClassic_unrecognised :
  forall (NPMLockFileOptions : Type)
         (newFilter : NPMLockFileOptions -> DeclaredSets -> Appender)
         (lockContent : YarnLockContent) (packageJSON : option PackageJSON)
         (options : NPMLockFileOptions),
  is_ascii (yarnText lockContent) ->
  (forall line, In line (Split (yarnText lockContent) [nl]) ->
                HasPrefix (TrimSpace line) [dquote] = false)
  \/ (forall line, In line (Split (yarnText lockContent) [nl]) ->
                   HasPrefix (TrimSpace line) "version:" = false) ->
  parseYarnLockClassicWithOptions newFilter lockContent packageJSON options = []
  /\ (DetectYarnVersion (yarnText lockContent) = "classic" ->
      ParseYarnLockWithOptions newFilter lockContent packageJSON options = []).
Proof.
  intros O newFilter lockContent packageJSON options _ H.
  assert (E : parseYarnLockClassicWithOptions newFilter lockContent packageJSON options
              = []).
  { unfold parseYarnLockClassicWithOptions. destruct packageJSON as [pj|]; [|reflexivity].
    destruct H as [H|H].
    - now apply classicLoop_no_header.
    - now apply classicLoop_no_version. }
  split; [exact E|]. intros Hc. unfold ParseYarnLockWithOptions.
  destruct packageJSON as [pj|]; [|reflexivity].
  rewrite Hc. change (eqs "classic" "berry") with false. cbn iota. exact E.
Qed.

Lemma parseYarnLockClassic_unrecognised_witness :
  parseYarnLockClassicWithOptions (fun (_ : unit) _ => keepAll)
    yarnV1Lock (Some someManifest) tt = []
  /\ (DetectYarnVersion (yarnText yarnV1Lock) = "classic" ->
      ParseYarnLockWithOptions (fun (_ : unit) _ => keepAll)
        yarnV1Lock (Some someManifest) tt = []).
Proof.
  apply (parseYarnLockClassic_unrecognised unit (fun _ _ => keepAll)).
  { apply is_ascii_check. reflexivity. }
  right. intros line Hin. vm_compute in Hin.
  repeat (destruct Hin as [<-|Hin]; [reflexivity|]). destruct Hin.
Defined.

(** *** Splitting at a single byte *)

Lemma SplitFrom_byte_absent : forall c A cur,
  ~ In c A -> SplitFrom [c] 0 cur A = [cur ++ A].
Proof.
  intros c. induction A as [|a A IH]; intros cur H; cbn [SplitFrom].
  - now rewrite app_nil_r.
  - cbn [HasPrefix]. destruct (Ascii.eqb c a) eqn:E.
    + apply Ascii.eqb_eq in E. subst. exfalso. apply H. now left.
    + cbn [andb]. rewrite IH; [now rewrite <- app_assoc|].
      intros Hin. apply H. now right.
Qed.

Lemma SplitFrom_byte_found : forall c A B cur,
  ~ In c A -> SplitFrom [c] 0 cur (A ++ c :: B) = (cur ++ A) :: SplitFrom [c] 0 [] B.
Proof.
  intros c. induction A as [|a A IH]; intros B cur H; cbn [SplitFrom app].
  - cbn [HasPrefix]. rewrite Ascii.eqb_refl. destruct B; cbn; now rewrite app_nil_r.
  - cbn [HasPrefix]. destruct (Ascii.eqb c a) eqn:E.
    + apply Ascii.eqb_eq in E. subst. exfalso. apply H. now left.
    + cbn [andb]. rewrite IH; [now rewrite <- app_assoc|].
      intros Hin. apply H. now right.
Qed.

Lemma Split_byte_absent : forall c A, ~ In c A -> Split A [c] = [A].
Proof. intros c A H. unfold Split. now rewrite SplitFrom_byte_absent. Qed.

Lemma Split_byte_found : forall c A B,
  ~ In c A -> Split (A ++ c :: B) [c] = A :: Split B [c].
Proof. intros c A B H. unfold Split. now rewrite SplitFrom_byte_found. Qed.

Lemma Split_nonempty : forall sep skip cur s, SplitFrom sep skip cur s <> [].
Proof.
  intros sep skip cur s. revert skip cur.
  induction s as [|c s IH]; intros skip cur; cbn [SplitFrom]; [discriminate|].
  destruct skip; [|apply IH]. destruct (HasPrefix (c :: s) sep); [discriminate|apply IH].
Qed.

Lemma HasPrefix_nil : forall s, HasPrefix s [] = true.
Proof. now destruct s. Qed.

Lemma Split_slash_absent : forall A, ~ In "/"%char A -> Split A "/" = [A].
Proof. intros A H. apply (Split_byte_absent "/"%char A H). Qed.

Lemma Split_slash_found : forall A B,
  ~ In "/"%char A -> Split (A ++ "/" ++ B) "/" = A :: Split B "/".
Proof. intros A B H. apply (Split_byte_found "/"%char A B H). Qed.

(** *** pnpm: the name read from a package key *)

(** The name [extractPackageNameFromPnpmPath] reads from a key of the
    packages map: nothing for a key that starts with a slash (so the
    caller skips such an entry); the key itself, version suffix
    included, for a key without slash that does not start with a dot;
    the first segment of a key with slashes, and the first two segments
    joined when the first starts with an at sign; the segment after
    [packages] for a workspace path. *)
Theorem extractPackageNameFromPnpmPath_shapes :
  (forall p, extractPackageNameFromPnpmPath ("/" ++ p) = [])
  /\ (forall key, ~ In "/"%char key -> HasPrefix key "." = false ->
        extractPackageNameFromPnpmPath key = key)
  /\ (forall first more, ~ In "/"%char first -> HasPrefix first "." = false ->
        HasPrefix first "@" = false ->
        extractPackageNameFromPnpmPath (first ++ "/" ++ more) = first)
  /\ (forall scope name,
        ~ In "/"%char scope -> ~ In "/"%char name ->
        extractPackageNameFromPnpmPath ("@" ++ scope ++ "/" ++ name)
        = "@" ++ scope ++ "/" ++ name
        /\ forall more,
             extractPackageNameFromPnpmPath ("@" ++ scope ++ "/" ++ name ++ "/" ++ more)
             = "@" ++ scope ++ "/" ++ name)
  /\ (forall name, ~ In "/"%char name ->
        extractPackageNameFromPnpmPath ("./packages/" ++ name) = name).
Proof.
  split; [|split; [|split; [|split]]].
  - intros p. unfold extractPackageNameFromPnpmPath.
    change (HasPrefix ("/" ++ p) ".") with false. cbn iota.
    change ("/" ++ p) with ([] ++ "/" ++ p).
    rewrite (Split_slash_found [] p) by (intros []).
    reflexivity.
  - intros key Hk Hd. unfold extractPackageNameFromPnpmPath. rewrite Hd.
    rewrite (Split_slash_absent key Hk). cbn.
    now rewrite andb_false_r.
  - intros first more Hf Hd Ha. unfold extractPackageNameFromPnpmPath.
    assert (Hd' : HasPrefix (first ++ "/" ++ more) "." = false).
    { destruct first as [|c first]; [reflexivity|].
      change (list_ascii_of_string ".") with ["."%char] in *.
      cbn [HasPrefix app] in *. now rewrite HasPrefix_nil in *. }
    rewrite Hd'. rewrite (Split_slash_found first more Hf).
    cbn [length Nat.ltb Nat.leb nth]. rewrite Ha. reflexivity.
  - intros scope name Hs Hn.
    assert (Hat : ~ In "/"%char ("@" ++ scope)).
    { cbn. intros [H|H]; [discriminate H|now apply Hs]. }
    split; [|intros more]; unfold extractPackageNameFromPnpmPath.
    + change (HasPrefix ("@" ++ scope ++ "/" ++ name) ".") with false. cbn iota.
      change ("@" ++ scope ++ "/" ++ name) with (("@" ++ scope) ++ "/" ++ name).
      rewrite (Split_slash_found ("@" ++ scope) name Hat).
      rewrite (Split_slash_absent name Hn).
      cbn [length nth Nat.ltb Nat.leb].
      change (HasPrefix ("@" ++ scope) "@") with (true && HasPrefix scope []).
      rewrite HasPrefix_nil. reflexivity.
    + change (HasPrefix ("@" ++ scope ++ "/" ++ name ++ "/" ++ more) ".") with false.
      cbn iota.
      change ("@" ++ scope ++ "/" ++ name ++ "/" ++ more)
        with (("@" ++ scope) ++ "/" ++ (name ++ "/" ++ more)).
      rewrite (Split_slash_found ("@" ++ scope) _ Hat).
      rewrite (Split_slash_found name more Hn).
      cbn [length nth Nat.ltb Nat.leb].
      change (HasPrefix ("@" ++ scope) "@") with (true && HasPrefix scope []).
      rewrite HasPrefix_nil. reflexivity.
  - intros name Hn. unfold extractPackageNameFromPnpmPath.
    change (HasPrefix ("./packages/" ++ name) ".") with true. cbn iota.
    change ("./packages/" ++ name) with ("." ++ "/" ++ ("packages" ++ "/" ++ name)).
    rewrite (Split_slash_found "." _) by (cbn; intros [H|[]]; discriminate H).
    rewrite (Split_slash_found "packages" name) by (cbn; intuition discriminate).
    rewrite (Split_slash_absent name Hn). reflexivity.
Qed.

(** *** The matcher on text of a known shape *)

Lemma run_Lit_match : forall lit k n rest0 cs,
  run (Lit lit) k (MState n (lit ++ rest0) cs)
  = k (MState (n + length lit) rest0 cs).
Proof.
  induction lit as [|a lit IH]; intros k n rest0 cs.
  - cbn [Lit app length]. rewrite run_Eps. now rewrite Nat.add_0_r.
  - cbn [Lit app length]. rewrite run_Seq, run_Chr. cbn [rest pos caps].
    rewrite Ascii.eqb_refl. rewrite IH. f_equal. f_equal. lia.
Qed.

Lemma run_plus_chr_greedy : forall p k l1 rest0 res n cs,
  l1 <> [] ->
  Forall (fun c => p c = true) l1 ->
  match rest0 with [] => True | c :: _ => p c = false end ->
  k (MState (n + length l1) rest0 cs) = Some res ->
  run (Plus (Chr p)) k (MState n (l1 ++ rest0) cs) = Some res.
Proof.
  intros p k l1 rest0 res n cs Hne Hall Hrest Hk.
  destruct l1 as [|c l1]; [contradiction|].
  inversion Hall as [|? ? Hc Hl1]; subst.
  unfold Plus. rewrite run_Seq, run_Chr. cbn [app rest pos caps]. rewrite Hc.
  apply run_star_chr_greedy; [exact Hl1|exact Hrest|].
  cbn [length] in Hk. now replace (S n + length l1)%nat with (n + S (length l1))%nat by lia.
Qed.

Lemma capture_app : forall i n w rest0 cs cs',
  capture i (MState n (w ++ rest0) cs) (MState (n + length w) rest0 cs')
  = MState (n + length w) rest0 (setCap i w cs').
Proof.
  intros. unfold capture. cbn [pos rest caps].
  replace (n + length w - n)%nat with (length w) by lia.
  now rewrite firstn_length_app.
Qed.

Lemma matchAt_found : forall r n s m,
  matchAt r n 0 s = Some m -> FindStringSubmatch r n s = Some m.
Proof.
  intros r n s m H. unfold FindStringSubmatch.
  destruct (length s); cbn [searchFrom]; now rewrite H.
Qed.

(** *** Maven dependency list *)

Lemma depPattern_match : forall ws g a t v s trailer,
  ws <> [] -> Forall (fun c => cls_s c = true) ws ->
  g <> [] -> Forall (fun c => noneOf ":" c = true) g ->
  match g with [] => True | c :: _ => cls_s c = false end ->
  a <> [] -> Forall (fun c => noneOf ":" c = true) a ->
  t <> [] -> Forall (fun c => noneOf ":" c = true) t ->
  v <> [] -> Forall (fun c => noneOf ":" c = true) v ->
  s <> [] -> Forall (fun c => notSpaceNorBracket c = true) s ->
  match trailer with [] => True | c :: _ => notSpaceNorBracket c = false end ->
  FindStringSubmatch depPattern 5
    (ws ++ g ++ ":" ++ a ++ ":" ++ t ++ ":" ++ v ++ ":" ++ s ++ trailer)
  = Some [ws ++ g ++ ":" ++ a ++ ":" ++ t ++ ":" ++ v ++ ":" ++ s; g; a; t; v; s].
Proof.
  intros ws g a t v s trailer Hws1 Hws2 Hg1 Hg2 Hg3 Ha1 Ha2 Ht1 Ht2 Hv1 Hv2 Hs1 Hs2 Htr.
  apply matchAt_found. unfold matchAt. cbn [skipn repeat].
  set (line := ws ++ g ++ ":" ++ a ++ ":" ++ t ++ ":" ++ v ++ ":" ++ s ++ trailer).
  set (whole := ws ++ g ++ ":" ++ a ++ ":" ++ t ++ ":" ++ v ++ ":" ++ s).
  assert (Hline : line = whole ++ trailer).
  { unfold line, whole. now rewrite <- !app_assoc. }
  assert (E : run (Grp 0 depPattern) Some (MState 0 line [[]; []; []; []; []; []])
              = Some (MState (length whole) trailer [whole; g; a; t; v; s])).
  { unfold depPattern, field. cbn [Cat].
    rewrite run_Grp, run_Seq, run_Bol. cbn [pos Nat.eqb].
    rewrite run_Seq. unfold spaces1, line.
    apply run_plus_chr_greedy; [exact Hws1|exact Hws2| |].
    { destruct g; [contradiction|exact Hg3]. }
    rewrite run_Seq, run_Grp.
    apply run_plus_chr_greedy; [exact Hg1|exact Hg2|reflexivity|].
    cbv beta. rewrite capture_app. rewrite run_Seq, run_Lit_match.
    rewrite run_Seq, run_Grp.
    apply run_plus_chr_greedy; [exact Ha1|exact Ha2|reflexivity|].
    cbv beta. rewrite capture_app. rewrite run_Seq, run_Lit_match.
    rewrite run_Seq, run_Grp.
    apply run_plus_chr_greedy; [exact Ht1|exact Ht2|reflexivity|].
    cbv beta. rewrite capture_app. rewrite run_Seq, run_Lit_match.
    rewrite run_Seq, run_Grp.
    apply run_plus_chr_greedy; [exact Hv1|exact Hv2|reflexivity|].
    cbv beta. rewrite capture_app. rewrite run_Seq, run_Lit_match.
    rewrite run_Grp.
    apply run_plus_chr_greedy; [exact Hs1|exact Hs2|exact Htr|].
    cbv beta. rewrite capture_app.
    fold line. rewrite Hline.
    assert (Hlen : (0 + length ws + length g + length (list_ascii_of_string ":")
                    + length a + length (list_ascii_of_string ":") + length t
                    + length (list_ascii_of_string ":") + length v
                    + length (list_ascii_of_string ":") + length s)%nat
                   = (0 + length whole)%nat).
    { unfold whole. rewrite !length_app. cbn [length list_ascii_of_string]. lia. }
    rewrite Hlen. rewrite capture_app. cbn [setCap Nat.add]. reflexivity. }
  rewrite E. reflexivity.
Qed.

Lemma dropWhile_In : forall f s c, In c (dropWhile f s) -> In c s.
Proof.
  intros f. induction s as [|a s IH]; intros c H; cbn in H; [exact H|].
  destruct (f a); [right; now apply IH|exact H].
Qed.

Lemma TrimSpace_In : forall s c, In c (TrimSpace s) -> In c s.
Proof.
  intros s c H. unfold TrimSpace, dropWhileEnd in H.
  apply in_rev in H. apply dropWhile_In in H. apply in_rev in H.
  now apply dropWhile_In in H.
Qed.

Lemma dropWhile_keeps : forall f s c, In c s -> f c = false -> In c (dropWhile f s).
Proof.
  intros f. induction s as [|a s IH]; intros c H Hc; [destruct H|].
  cbn. destruct (f a) eqn:E; [|exact H].
  destruct H as [->|H]; [congruence|]. now apply IH.
Qed.

Lemma TrimSpace_keeps : forall s c, In c s -> isSpace c = false -> In c (TrimSpace s).
Proof.
  intros s c H Hc. unfold TrimSpace, dropWhileEnd.
  apply in_rev. rewrite rev_involutive. apply dropWhile_keeps; [|exact Hc].
  apply in_rev. rewrite rev_involutive. now apply dropWhile_keeps.
Qed.

Lemma dropWhile_none : forall f s,
  Forall (fun c => f c = false) s -> dropWhile f s = s.
Proof.
  intros f s H. destruct H as [|c s Hc Hs]; [reflexivity|]. cbn. now rewrite Hc.
Qed.

Lemma TrimSpace_plain : forall s,
  Forall (fun c => isSpace c = false) s -> TrimSpace s = s.
Proof.
  intros s H. unfold TrimSpace, dropWhileEnd.
  rewrite (dropWhile_none _ s H).
  rewrite dropWhile_none; [apply rev_involutive|].
  apply Forall_rev. exact H.
Qed.

Lemma dependencyListLoop_flat_map : forall lines acc,
  dependencyListLoop lines acc = acc ++ flat_map listLineRecords lines.
Proof.
  induction lines as [|line lines IH]; intros acc; cbn [flat_map].
  - cbn. now rewrite app_nil_r.
  - unfold listLineRecords. cbn [dependencyListLoop].
    destruct (eqs (TrimSpace line) [] || Contains line _); [apply IH|].
    destruct (FindStringSubmatch depPattern 5 line) as [m|]; [|apply IH].
    destruct (dependencyOfMatch m) as [dep|]; [|apply IH].
    rewrite IH. cbn. now rewrite <- app_assoc.
Qed.

Lemma depPattern_unindented : forall line,
  match line with [] => True | c :: _ => cls_s c = false end ->
  FindStringSubmatch depPattern 5 line = None.
Proof.
  intros line H. unfold depPattern. cbn [Cat]. apply anchored_None.
  unfold matchAt. rewrite run_Grp, run_Seq, run_Bol. cbn [pos Nat.eqb skipn].
  unfold spaces1, Plus. rewrite !run_Seq, run_Chr. cbn [rest].
  destruct line as [|c line]; [reflexivity|]. now rewrite H.
Qed.

Lemma plainField_trim : forall stop x, plainField stop x -> TrimSpace x = x.
Proof.
  intros stop x [_ H]. apply TrimSpace_plain. eapply Forall_impl; [|exact H].
  now intros c [Hc _].
Qed.

Lemma plainField_colon : forall x,
  plainField ":"%char x -> Forall (fun c => noneOf ":" c = true) x.
Proof.
  intros x [_ H]. eapply Forall_impl; [|exact H]. intros c [_ Hc].
  unfold noneOf, oneOf. cbn. rewrite orb_false_r.
  destruct (Ascii.eqb c ":") eqn:E; [|reflexivity].
  apply Ascii.eqb_eq in E. contradiction.
Qed.

Lemma isSpace_cls_s : forall c, isSpace c = false -> cls_s c = false.
Proof.
  intros c H. destruct (cls_s c) eqn:E; [|reflexivity].
  apply cls_s_isSpace in E. congruence.
Qed.

(** An ASCII Maven list is read line by line, each line on its own: a line
    that does not start with white space contributes nothing (nor does
    a blank line or the header line), and a line of white space and
    five colon-separated fields without white space, followed by
    nothing or by white space or an opening bracket, contributes the
    record of its group, artifact, version and mapped scope, never
    direct, with the type kept in the metadata unless it is jar.  The
    [includeTransitive] argument has no effect. *)
Theorem ParseDependencyList_by_line : forall content includeTransitive,
  is_ascii content ->
  ParseDependencyList content includeTransitive
  = flat_map listLineRecords (Split content [nl])
  /\ ParseDependencyList content true = ParseDependencyList content false
  /\ (forall line,
        match line with [] => True | c :: _ => cls_s c = false end ->
        listLineRecords line = [])
  /\ (forall line, is_ascii line ->
        TrimSpace line = [] \/ Contains line listHeader = true ->
        listLineRecords line = [])
  /\ (forall ws g a t v s trailer,
        is_ascii (ws ++ g ++ ":" ++ a ++ ":" ++ t ++ ":" ++ v ++ ":" ++ s ++ trailer) ->
        ws <> [] -> Forall (fun c => cls_s c = true) ws ->
        plainField ":"%char g -> plainField ":"%char a -> plainField ":"%char t ->
        plainField ":"%char v -> plainField "["%char s ->
        match trailer with [] => True | c :: _ => notSpaceNorBracket c = false end ->
        Contains (ws ++ g ++ ":" ++ a ++ ":" ++ t ++ ":" ++ v ++ ":" ++ s ++ trailer)
          listHeader = false ->
        listLineRecords
          (ws ++ g ++ ":" ++ a ++ ":" ++ t ++ ":" ++ v ++ ":" ++ s ++ trailer)
        = [mkDependency DependencyTypeMaven (g ++ ":" ++ a) v (mapMavenListScope s)
             false [] (listMetadata t)]).
Proof.
  intros content flag _. split; [|split; [|split; [|split]]].
  - unfold ParseDependencyList. now rewrite dependencyListLoop_flat_map.
  - reflexivity.
  - intros line H. unfold listLineRecords. cbn [dependencyListLoop].
    destruct (eqs (TrimSpace line) [] || Contains line _); [reflexivity|].
    now rewrite depPattern_unindented.
  - intros line _ H. unfold listLineRecords. cbn [dependencyListLoop].
    destruct H as [->|H]; [reflexivity|].
    fold listHeader. rewrite H. now rewrite orb_true_r.
  - intros ws g a t v s trailer _ Hws1 Hws2 Hg Ha Ht Hv Hs Htr Hc.
    unfold listLineRecords. cbn [dependencyListLoop]. fold listHeader. rewrite Hc.
    assert (Hne : eqs (TrimSpace
              (ws ++ g ++ ":" ++ a ++ ":" ++ t ++ ":" ++ v ++ ":" ++ s ++ trailer)) []
            = false).
    { apply eqs_neq. destruct Hg as [Hg1 Hg2].
      destruct g as [|c g]; [contradiction|]. inversion Hg2 as [|? ? [Hc1 _] _]; subst.
      intros E.
      assert (Hin : In c (TrimSpace
                (ws ++ (c :: g) ++ ":" ++ a ++ ":" ++ t ++ ":" ++ v ++ ":" ++ s ++ trailer))).
      { apply TrimSpace_keeps; [|exact Hc1]. apply in_or_app. right. now left. }
      rewrite E in Hin. destruct Hin. }
    rewrite Hne. cbn [orb].
    rewrite depPattern_match.
    + unfold dependencyOfMatch, sub. cbn [nth].
      rewrite (plainField_trim _ _ Hg), (plainField_trim _ _ Ha),
        (plainField_trim _ _ Ht), (plainField_trim _ _ Hv), (plainField_trim _ _ Hs).
      destruct Hg as [Hg1 Hg2]. destruct Ha as [Ha1 Ha2]. destruct Ht as [Ht1 Ht2].
      rewrite (eqs_neq _ _ Hg1), (eqs_neq _ _ Ha1), (eqs_neq _ _ Ht1).
      cbn [orb negb andb app]. unfold listMetadata.
      destruct (eqs t "jar"); reflexivity.
    + exact Hws1.
    + exact Hws2.
    + apply Hg.
    + now apply plainField_colon.
    + destruct Hg as [Hg1 Hg2]. destruct g as [|c g]; [exact I|].
      inversion Hg2 as [|? ? [Hc1 _] _]; subst. now apply isSpace_cls_s.
    + apply Ha.
    + now apply plainField_colon.
    + apply Ht.
    + now apply plainField_colon.
    + apply Hv.
    + now apply plainField_colon.
    + apply Hs.
    + destruct Hs as [_ Hs]. eapply Forall_impl; [|exact Hs]. intros c [Hc1 Hc2].
      unfold notSpaceNorBracket. rewrite (isSpace_cls_s c Hc1).
      destruct (Ascii.eqb c "[") eqn:E; [|reflexivity].
      apply Ascii.eqb_eq in E. contradiction.
    + exact Htr.
Qed.

Lemma ParseDependencyList_by_line_witness :
  listLineRecords "   org.example:war-dep:war:1.0.0:compile -- module war.dep [auto]"
  = [mkDependency DependencyTypeMaven "org.example:war-dep" "1.0.0" ScopeProd false []
       [("type" : gostring, MStr "war"); ("source" : gostring, MStr "dependency-list")]].
Proof.
  refine (proj2 (proj2 (proj2 (proj2 (ParseDependencyList_by_line [] false
                                        (Forall_nil _)))))
            "   " "org.example" "war-dep" "war" "1.0.0" "compile"
            " -- module war.dep [auto]" _ _ _ _ _ _ _ _ _ _).
  - apply is_ascii_check. reflexivity.
  - discriminate.
  - repeat constructor.
  - split; [discriminate|]. repeat constructor; discriminate.
  - split; [discriminate|]. repeat constructor; discriminate.
  - split; [discriminate|]. repeat constructor; discriminate.
  - split; [discriminate|]. repeat constructor; discriminate.
  - split; [discriminate|]. repeat constructor; discriminate.
  - reflexivity.
  - reflexivity.
Defined.

Lemma dependencyListLoop_origin : forall lines acc d,
  In d (dependencyListLoop lines acc) ->
  In d acc
  \/ exists line m, In line lines
       /\ FindStringSubmatch depPattern 5 line = Some m
       /\ dependencyOfMatch m = Some d.
Proof.
  induction lines as [|line lines IH]; intros acc d H; cbn [dependencyListLoop] in H;
    [now left|].
  assert (Hskip : In d (dependencyListLoop lines acc) ->
     In d acc \/ exists line0 m, In line0 (line :: lines)
       /\ FindStringSubmatch depPattern 5 line0 = Some m
       /\ dependencyOfMatch m = Some d).
  { intros H'. apply IH in H'. destruct H' as [H'|[l0 [m [Hin Hm]]]]; [now left|].
    right. exists l0, m. split; [now right|exact Hm]. }
  destruct (eqs (TrimSpace line) [] || Contains line _); [now apply Hskip|].
  destruct (FindStringSubmatch depPattern 5 line) as [m|] eqn:Em; [|now apply Hskip].
  destruct (dependencyOfMatch m) as [dep|] eqn:Ed; [|now apply Hskip].
  apply IH in H. destruct H as [H|[l0 [m0 [Hin Hm]]]].
  - apply in_app_or in H. destruct H as [H|[<-|[]]]; [now left|].
    right. exists line, m. split; [now left|]. now split.
  - right. exists l0, m0. split; [now right|exact Hm].
Qed.

Lemma depPattern_groups : forall line m,
  FindStringSubmatch depPattern 5 line = Some m ->
  forall i, (1 <= i <= 4)%nat -> ~ In ":"%char (sub m i).
Proof.
  intros line m H i Hi. apply (FindStringSubmatch_sound depGroups) in H.
  - destruct H as [_ [_ H]]. destruct (H i) as [Hor _]; [lia|].
    destruct Hor as [->|Hor]; [intros []|].
    destruct i as [|[|[|[|[|i]]]]]; try lia; apply Hor.
  - cbn -[lang]. repeat match goal with |- _ /\ _ => split | |- True => exact I end;
      intros w Hw; apply lang_Plus_Chr in Hw; destruct Hw as [Hne Hall];
      (split; [exact Hne|]); try exact Hall;
      intros Hin; rewrite Forall_forall in Hall; apply Hall in Hin; discriminate Hin.
Qed.

Lemma mapMavenListScope_cases : forall scope,
  mapMavenListScope scope = ScopeProd \/ mapMavenListScope scope = ScopeDev
  \/ mapMavenListScope scope = ScopeSystem \/ mapMavenListScope scope = ScopeImport.
Proof.
  intros scope. unfold mapMavenListScope.
  destruct (eqs scope "test"); [tauto|].
  destruct (_ || _); [tauto|].
  destruct (eqs scope "system"); [tauto|].
  destruct (eqs scope "import"); tauto.
Qed.

(** Every record read from a Maven dependency list: it is a maven
    record, never direct, without source file, of scope prod, dev,
    system or import; its name is a group and an artifact joined by a
    colon, both not empty and free of colons, and its version holds no
    colon; its metadata name the dependency list as the source. *)
Theorem ParseDependencyList_record_shape : forall content includeTransitive d,
  is_ascii content ->
  In d (ParseDependencyList content includeTransitive) ->
  Type_ d = DependencyTypeMaven /\ Direct d = false /\ SourceFile d = []
  /\ (Scope d = ScopeProd \/ Scope d = ScopeDev \/ Scope d = ScopeSystem
      \/ Scope d = ScopeImport)
  /\ (exists groupId artifactId,
        Name d = groupId ++ ":" ++ artifactId
        /\ groupId <> [] /\ artifactId <> []
        /\ ~ In ":"%char groupId /\ ~ In ":"%char artifactId)
  /\ ~ In ":"%char (Version d)
  /\ In ("source" : gostring, MStr "dependency-list") (Metadata d).
Proof.
  intros content flag d _ H. unfold ParseDependencyList in H.
  apply dependencyListLoop_origin in H. destruct H as [[]|[line [m [_ [Hm Hd]]]]].
  pose proof (depPattern_groups line m Hm) as Hg.
  unfold dependencyOfMatch in Hd.
  destruct (eqs (TrimSpace (sub m 1)) []) eqn:E1; [discriminate|].
  destruct (eqs (TrimSpace (sub m 2)) []) eqn:E2; [discriminate|].
  cbn [orb] in Hd. injection Hd as <-.
  cbn [Type_ Direct SourceFile Scope Name Version Metadata].
  repeat split.
  - apply mapMavenListScope_cases.
  - exists (TrimSpace (sub m 1)), (TrimSpace (sub m 2)). repeat split.
    + intros E. rewrite E in E1. discriminate.
    + intros E. rewrite E in E2. discriminate.
    + intros Hin. apply TrimSpace_In in Hin. revert Hin. apply Hg. lia.
    + intros Hin. apply TrimSpace_In in Hin. revert Hin. apply Hg. lia.
  - intros Hin. apply TrimSpace_In in Hin. revert Hin. apply Hg. lia.
  - apply setMeta_In.
Qed.

Lemma ParseDependencyList_record_shape_witness :
  exists groupId artifactId,
    ("org.example:war-dep" : gostring) = groupId ++ ":" ++ artifactId
    /\ groupId <> [] /\ artifactId <> []
    /\ ~ In ":"%char groupId /\ ~ In ":"%char artifactId.
Proof.
  refine (proj1 (proj2 (proj2 (proj2 (proj2
    (ParseDependencyList_record_shape
       "The following files have been resolved:
   org.example:war-dep:war:1.0.0:compile
" true
       (mkDependency DependencyTypeMaven "org.example:war-dep" "1.0.0" ScopeProd false []
          [("type" : gostring, MStr "war"); ("source" : gostring, MStr "dependency-list")])
       _ _)))))).
  - apply is_ascii_check. reflexivity.
  - vm_compute. now left.
Defined.

(** *** pnpm and yarn: the reported version *)

Lemma eqs_false : forall a b, eqs a b = false -> a <> b.
Proof. intros a b H ->. rewrite eqs_refl in H. discriminate. Qed.

(** [parsePnpmVersion] is [parseYarnVersion] at the kind of entry the
    resolution stands for (a directory is a workspace, then git, then
    tarball, else a plain version), and neither ever reports an empty
    version: an empty or blank one becomes latest. *)
Theorem parsePnpmVersion_as_yarn : forall version specType resolutionText resolution,
  is_ascii version ->
  parsePnpmVersion version resolution
  = parseYarnVersion version (pnpmSpecType resolution) (pnpmResolutionText resolution)
  /\ parsePnpmVersion version resolution <> []
  /\ parseYarnVersion version specType resolutionText <> [].
Proof.
  intros version specType resolutionText [d t g] _. split; [|split].
  - unfold parsePnpmVersion, pnpmSpecType, pnpmResolutionText, parseYarnVersion.
    cbn [Directory Tarball Git].
    destruct (eqs d []) eqn:Ed; cbn [negb].
    + destruct (eqs g []) eqn:Eg; cbn [negb].
      * destruct (eqs t []) eqn:Et; cbn [negb]; reflexivity.
      * change (eqs "git" "workspace") with false.
        change (eqs "git" "patch") with false.
        change (eqs "git" "npm") with false.
        change (eqs "git" "git") with true. cbn iota. now rewrite Eg.
    + destruct (Contains d "workspace:"); reflexivity.
  - unfold parsePnpmVersion.
    destruct (negb (eqs (Directory (mkPnpmResolution d t g)) [])); [discriminate|].
    destruct (negb (eqs (Git (mkPnpmResolution d t g)) [])); [discriminate|].
    destruct (negb (eqs (Tarball (mkPnpmResolution d t g)) [])).
    + destruct (HasPrefix _ "file:"); discriminate.
    + destruct (eqs (TrimSpace version) []) eqn:E; cbn [orb]; [discriminate|].
      destruct (eqs (TrimSpace version) "*"); [discriminate|]. now apply eqs_false.
  - unfold parseYarnVersion.
    destruct (eqs specType "workspace");
      [destruct (Contains resolutionText "workspace:"); discriminate|].
    destruct (eqs specType "patch"); [discriminate|].
    assert (Hv : (if eqs (TrimSpace version) [] || eqs (TrimSpace version) "*"
                  then "latest" : gostring else TrimSpace version) <> []).
    { destruct (eqs (TrimSpace version) []) eqn:E; cbn [orb]; [discriminate|].
      destruct (eqs (TrimSpace version) "*"); [discriminate|]. now apply eqs_false. }
    destruct (eqs specType "npm"); [exact Hv|].
    destruct (eqs specType "git");
      [destruct (negb (eqs resolutionText [])); discriminate|].
    destruct (eqs specType "file"); [discriminate|].
    destruct (eqs specType "tarball");
      [destruct (HasPrefix resolutionText "file:"); discriminate|].
    exact Hv.
Qed.

Lemma parsePnpmVersion_as_yarn_witness :
  parsePnpmVersion "  " (mkPnpmResolution [] [] []) = "latest"
  /\ parsePnpmVersion "1.0.0" (mkPnpmResolution [] "file:../x.tgz" []) = "local"
  /\ parsePnpmVersion "1.0.0" (mkPnpmResolution [] [] []) <> [].
Proof.
  split; [reflexivity|]. split; [reflexivity|].
  refine (proj1 (proj2 (parsePnpmVersion_as_yarn "1.0.0" [] []
                          (mkPnpmResolution [] [] []) _))).
  apply is_ascii_check. reflexivity.
Defined.

(** *** Orders *)

Lemma compareInt_order : isOrder compareInt.
Proof.
  unfold isOrder, compareInt. repeat split; intros;
    repeat match goal with
    | |- context [?x <? ?y] => destruct (Z.ltb_spec x y)
    | H : context [?x <? ?y] |- _ => destruct (Z.ltb_spec x y)
    end; lia.
Qed.

Lemma on_order : forall (A B : Type) (p : A -> B) (f : B -> B -> Z),
  isOrder f -> isOrder (fun a b => f (p a) (p b)).
Proof.
  intros A B p f (Hr & Hx & Ha & Ht). repeat split; intros; auto.
  eapply Ht; eauto.
Qed.

Lemma lex_order : forall (A : Type) (f g : A -> A -> Z),
  isOrder f -> isOrder g -> isOrder (lexCmp f g).
Proof.
  intros A f g (Fr & Fx & Fa & Ft) (Gr & Gx & Ga & Gt). unfold lexCmp.
  split; [|split; [|split]].
  - intros a b. destruct (Z.eqb_spec (f a b) 0); cbn [negb]; [apply Gr|apply Fr].
  - intros a. rewrite Fx. cbn. apply Gx.
  - intros a b. rewrite (Fa a b).
    destruct (Z.eqb_spec (f a b) 0) as [E|E]; destruct (Z.eqb_spec (- f a b) 0);
      cbn [negb]; try lia. apply Ga.
  - intros a b c.
    pose proof (Fr a b). pose proof (Fr b c). pose proof (Fr a c).
    pose proof (Fa a b). pose proof (Fa b c). pose proof (Fa a c).
    pose proof (Ft a b c). pose proof (Ft c a b). pose proof (Ft b c a).
    pose proof (Ft c b a). pose proof (Ft b a c). pose proof (Ft a c b).
    pose proof (Gt a b c).
    destruct (Z.eqb_spec (f a b) 0); destruct (Z.eqb_spec (f b c) 0);
      destruct (Z.eqb_spec (f a c) 0); cbn [negb]; lia.
Qed.

Lemma list_order : forall (A : Type) (f : A -> A -> Z),
  isOrder f -> isOrder (listCmp f).
Proof.
  intros A f (Fr & Fx & Fa & Ft). split; [|split; [|split]].
  - induction a as [|x a IH]; intros [|y b]; cbn; auto.
    destruct (Z.eqb_spec (f x y) 0); cbn [negb]; [apply IH|apply Fr].
  - induction a as [|x a IH]; cbn; [reflexivity|]. now rewrite Fx.
  - induction a as [|x a IH]; intros [|y b]; cbn; auto.
    rewrite (Fa x y).
    destruct (Z.eqb_spec (f x y) 0); destruct (Z.eqb_spec (- f x y) 0);
      cbn [negb]; try lia. apply IH.
  - induction a as [|x a IH]; intros [|y b] [|z c]; cbn; try lia.
    pose proof (Fr x y). pose proof (Fr y z). pose proof (Fr x z).
    pose proof (Fa x y). pose proof (Fa y z). pose proof (Fa x z).
    pose proof (Ft x y z). pose proof (Ft z x y). pose proof (Ft y z x).
    pose proof (Ft z y x). pose proof (Ft y x z). pose proof (Ft x z y).
    pose proof (IH b c).
    destruct (Z.eqb_spec (f x y) 0); destruct (Z.eqb_spec (f y z) 0);
      destruct (Z.eqb_spec (f x z) 0); cbn [negb]; lia.
Qed.

Lemma opt_order : forall (A : Type) (h : bool) (f : A -> A -> Z),
  isOrder f -> isOrder (optCmp h f).
Proof.
  intros A h f (Fr & Fx & Fa & Ft). split; [|split; [|split]].
  - intros [x|] [y|]; cbn; auto; destruct h; auto.
  - intros [x|]; cbn; auto.
  - intros [x|] [y|]; cbn; auto; destruct h; reflexivity.
  - intros [x|] [y|] [z|]; cbn; try (destruct h; lia). apply Ft.
Qed.

Lemma order_ext : forall (A : Type) (f g : A -> A -> Z),
  (forall a b, f a b = g a b) -> isOrder g -> isOrder f.
Proof.
  intros A f g E (Gr & Gx & Ga & Gt). repeat split; intros; rewrite ?E in *; auto.
  eapply Gt; eauto.
Qed.

Lemma sum_order : forall (A B : Type) (f : A -> A -> Z) (g : B -> B -> Z),
  isOrder f -> isOrder g -> isOrder (sumCmp f g).
Proof.
  intros A B f g (Fr & Fx & Fa & Ft) (Gr & Gx & Ga & Gt). split; [|split; [|split]].
  - intros [x|x] [y|y]; cbn; auto.
  - intros [x|x]; cbn; auto.
  - intros [x|x] [y|y]; cbn; auto.
  - intros [x|x] [y|y] [z|z]; cbn; try lia; [apply Ft|apply Gt].
Qed.

Lemma byteCmp_order : isOrder byteCmp.
Proof.
  apply (on_order ascii Z (fun c => Z.of_nat (nat_of_ascii c)) compareInt).
  apply compareInt_order.
Qed.

Lemma strCmp_order : isOrder strCmp.
Proof. apply list_order, byteCmp_order. Qed.

Lemma byteCmp_cases : forall x y,
  ((nat_of_ascii x < nat_of_ascii y)%nat /\ byteCmp x y = -1)
  \/ ((nat_of_ascii y < nat_of_ascii x)%nat /\ byteCmp x y = 1)
  \/ (nat_of_ascii x = nat_of_ascii y /\ byteCmp x y = 0).
Proof.
  intros x y. unfold byteCmp, compareInt.
  destruct (Z.ltb_spec (Z.of_nat (nat_of_ascii x)) (Z.of_nat (nat_of_ascii y)));
    [left; split; [lia|reflexivity]|].
  destruct (Z.ltb_spec (Z.of_nat (nat_of_ascii y)) (Z.of_nat (nat_of_ascii x)));
    [right; left; split; [lia|reflexivity]|].
  right. right. split; [lia|reflexivity].
Qed.

Lemma strLt_strCmp : forall a b,
  (if strLt a b then -1 else if strLt b a then 1 else 0) = strCmp a b.
Proof.
  unfold strCmp. induction a as [|x a IH]; intros [|y b]; cbn [strLt listCmp];
    try reflexivity.
  destruct (byteCmp_cases x y) as [[H ->]|[[H ->]|[H ->]]]; cbn [Z.eqb negb].
  - apply Nat.ltb_lt in H. now rewrite H.
  - assert (H' : (nat_of_ascii x <? nat_of_ascii y)%nat = false)
      by (apply Nat.ltb_ge; lia).
    apply Nat.ltb_lt in H. now rewrite H', H.
  - assert (H1 : (nat_of_ascii x <? nat_of_ascii y)%nat = false)
      by (apply Nat.ltb_ge; lia).
    assert (H2 : (nat_of_ascii y <? nat_of_ascii x)%nat = false)
      by (apply Nat.ltb_ge; lia).
    rewrite H1, H2. apply IH.
Qed.

Lemma strCmp_eq : forall a b, strCmp a b = 0 -> a = b.
Proof.
  unfold strCmp. induction a as [|x a IH]; intros [|y b]; cbn [listCmp];
    try discriminate; [reflexivity|].
  destruct (byteCmp_cases x y) as [[H ->]|[[H ->]|[H ->]]]; cbn [Z.eqb negb];
    try discriminate.
  intros E. apply IH in E. subst. f_equal.
  rewrite <- (ascii_nat_embedding x), <- (ascii_nat_embedding y). now rewrite H.
Qed.

Lemma stringsCompare_strCmp : forall a b, stringsCompare a b = strCmp a b.
Proof.
  intros a b. unfold stringsCompare. pose proof (strLt_strCmp a b) as H.
  destruct (eqs a b) eqn:E.
  - apply eqs_eq in E. subst. symmetry.
    destruct strCmp_order as (_ & Hx & _). apply Hx.
  - destruct (strLt a b) eqn:E1; [exact H|].
    destruct (strLt b a) eqn:E2; [exact H|].
    exfalso. apply eqs_false in E. apply E. apply strCmp_eq. now symmetry.
Qed.

Lemma identifier_order : isOrder comparePrereleaseIdentifier.
Proof.
  apply (order_ext _ _ (fun a b => sumCmp compareInt strCmp (identifierKey a) (identifierKey b))).
  - intros a b. unfold comparePrereleaseIdentifier, identifierKey.
    destruct (Atoi a), (Atoi b); cbn [sumCmp]; try reflexivity. apply strLt_strCmp.
  - apply (on_order _ _ identifierKey). apply sum_order.
    + apply compareInt_order.
    + apply strCmp_order.
Qed.

Lemma compareInt_lengths : forall a b : nat,
  compareInt (Z.of_nat 0) (Z.of_nat (S b)) = -1
  /\ compareInt (Z.of_nat (S a)) (Z.of_nat 0) = 1
  /\ compareInt (Z.of_nat (S a)) (Z.of_nat (S b)) = compareInt (Z.of_nat a) (Z.of_nat b).
Proof.
  intros a b. unfold compareInt.
  repeat match goal with
  | |- context [?x <? ?y] => destruct (Z.ltb_spec x y)
  end; repeat split; lia.
Qed.

Lemma prereleaseLoop_listCmp : forall l1 l2,
  (let cmp := comparePrereleaseLoop l1 l2 in
   if negb (cmp =? 0) then cmp
   else compareInt (Z.of_nat (length l1)) (Z.of_nat (length l2)))
  = listCmp comparePrereleaseIdentifier l1 l2.
Proof.
  cbv zeta. induction l1 as [|x l1 IH]; intros [|y l2];
    cbn [comparePrereleaseLoop listCmp length Z.eqb negb].
  - reflexivity.
  - apply (compareInt_lengths 0 (length l2)).
  - apply (compareInt_lengths (length l1) 0).
  - destruct (Z.eqb_spec (comparePrereleaseIdentifier x y) 0) as [E|E]; cbn [negb].
    + rewrite <- IH.
      now rewrite (proj2 (proj2 (compareInt_lengths (length l1) (length l2)))).
    + destruct (Z.eqb_spec (comparePrereleaseIdentifier x y) 0); [contradiction|].
      reflexivity.
Qed.

Lemma prereleaseCmp_order : isOrder prereleaseCmp.
Proof.
  destruct (list_order _ _ identifier_order) as (Lr & Lx & La & Lt).
  split; [|split; [|split]].
  - intros [|x a] [|y b]; cbn [prereleaseCmp]; try tauto. apply Lr.
  - intros [|x a]; cbn [prereleaseCmp]; [reflexivity|apply Lx].
  - intros [|x a] [|y b]; cbn [prereleaseCmp]; try reflexivity. apply La.
  - intros [|x a] [|y b] [|z c]; cbn [prereleaseCmp]; try lia. apply Lt.
Qed.

Lemma comparePrerelease_prereleaseCmp : forall v o,
  comparePrerelease v o = prereleaseCmp (prerelease v) (prerelease o).
Proof.
  intros v o. unfold comparePrerelease, comparePrereleaseIdentifiers.
  rewrite prereleaseLoop_listCmp.
  destruct (prerelease v) as [|x a], (prerelease o) as [|y b]; reflexivity.
Qed.

(** [Compare] on npm versions is a total preorder: its value is -1, 0 or
    1; a version compares as equal to itself; swapping the arguments
    negates the result; and the relation [Compare v o <= 0] is
    transitive.  This holds for all versions, also with the signed and
    overflowing identifiers that [Atoi] decides.  A version of another
    system compares as equal. *)
Theorem npmCompare_total_preorder :
  (forall v o, npmCompare v o = -1 \/ npmCompare v o = 0 \/ npmCompare v o = 1)
  /\ (forall v, npmCompare v v = 0)
  /\ (forall v o, npmCompare o v = - npmCompare v o)
  /\ (forall a b c, npmCompare a b <= 0 -> npmCompare b c <= 0 -> npmCompare a c <= 0)
  /\ (forall v o p m, Compare (VNPM v) (VNPM o) = npmCompare v o
                      /\ Compare (VNPM v) (VPyPI p) = 0
                      /\ Compare (VNPM v) (VMaven m) = 0).
Proof.
  assert (H : isOrder npmCompare).
  { apply (order_ext _ _
      (lexCmp (lexCmp (fun v o => compareInt (major v) (major o))
                 (lexCmp (fun v o => compareInt (minor v) (minor o))
                         (fun v o => compareInt (patch v) (patch o))))
              (fun v o => prereleaseCmp (prerelease v) (prerelease o)))).
    - intros v o. unfold npmCompare. rewrite comparePrerelease_prereleaseCmp. reflexivity.
    - repeat apply lex_order;
        try (apply (on_order NPMVersion Z); apply compareInt_order).
      apply (on_order NPMVersion (list gostring) prerelease). apply prereleaseCmp_order. }
  destruct H as (Hr & Hx & Ha & Ht).
  repeat split; auto.
Qed.

(** *** PyPI *)

Lemma releaseLoop_listCmp : forall l1 l2,
  (let cmp := compareReleaseLoop l1 l2 in
   if negb (cmp =? 0) then cmp
   else compareInt (Z.of_nat (length l1)) (Z.of_nat (length l2)))
  = listCmp compareInt l1 l2.
Proof.
  cbv zeta. induction l1 as [|x l1 IH]; intros [|y l2];
    cbn [compareReleaseLoop listCmp length Z.eqb negb].
  - reflexivity.
  - apply (compareInt_lengths 0 (length l2)).
  - apply (compareInt_lengths (length l1) 0).
  - destruct (Z.eqb_spec (compareInt x y) 0) as [E|E]; cbn [negb].
    + rewrite <- IH.
      now rewrite (proj2 (proj2 (compareInt_lengths (length l1) (length l2)))).
    + destruct (Z.eqb_spec (compareInt x y) 0); [contradiction|].
      reflexivity.
Qed.

Lemma comparePreRelease_order : isOrder comparePreRelease.
Proof.
  apply (order_ext _ _
    (lexCmp (fun v o => compareInt (phaseOrder (phase v)) (phaseOrder (phase o)))
            (fun v o => compareInt (number v) (number o)))).
  - reflexivity.
  - apply lex_order; apply (on_order preRelease Z); apply compareInt_order.
Qed.

Lemma pypiCompare_order : isOrder pypiCompare.
Proof.
  apply (order_ext _ _
    (lexCmp (fun v o => compareInt (epoch v) (epoch o))
      (lexCmp (fun v o => listCmp compareInt (release v) (release o))
        (lexCmp (fun v o => optCmp true comparePreRelease (pre v) (pre o))
          (lexCmp (fun v o => optCmp false compareInt (post v) (post o))
                  (fun v o => optCmp true compareInt (dev v) (dev o))))))).
  - intros v o. unfold pypiCompare, lexCmp, compareRelease.
    rewrite releaseLoop_listCmp.
    unfold comparePreReleasePart, comparePostRelease, compareDevRelease, optCmp.
    destruct (pre v), (pre o), (post v), (post o), (dev v), (dev o); reflexivity.
  - repeat apply lex_order.
    + apply (on_order PyPIVersion Z). apply compareInt_order.
    + apply (on_order PyPIVersion (list Z) release). apply list_order, compareInt_order.
    + apply (on_order PyPIVersion (option preRelease) pre).
      apply opt_order, comparePreRelease_order.
    + apply (on_order PyPIVersion (option Z) post). apply opt_order, compareInt_order.
    + apply (on_order PyPIVersion (option Z) dev). apply opt_order, compareInt_order.
Qed.

(** [Compare] on PyPI versions is a total preorder: its value is -1, 0
    or 1; a version compares as equal to itself; swapping the arguments
    negates the result; and the relation [Compare v o <= 0] is
    transitive.  The local part takes no part in it.  A version of
    another system compares as equal. *)
Theorem pypiCompare_total_preorder :
  (forall v o, pypiCompare v o = -1 \/ pypiCompare v o = 0 \/ pypiCompare v o = 1)
  /\ (forall v, pypiCompare v v = 0)
  /\ (forall v o, pypiCompare o v = - pypiCompare v o)
  /\ (forall a b c, pypiCompare a b <= 0 -> pypiCompare b c <= 0 -> pypiCompare a c <= 0)
  /\ (forall v l1 l2 s1 s2,
        pypiCompare (mkPyPI s1 (epoch v) (release v) (pre v) (post v) (dev v) l1)
                    (mkPyPI s2 (epoch v) (release v) (pre v) (post v) (dev v) l2) = 0)
  /\ (forall v o n m, Compare (VPyPI v) (VPyPI o) = pypiCompare v o
                      /\ Compare (VPyPI v) (VNPM n) = 0
                      /\ Compare (VPyPI v) (VMaven m) = 0).
Proof.
  destruct pypiCompare_order as (Hr & Hx & Ha & Ht).
  split; [exact Hr|]. split; [exact Hx|]. split; [exact Ha|]. split; [exact Ht|].
  split.
  - intros v l1 l2 s1 s2.
    rewrite <- (Hx (mkPyPI s1 (epoch v) (release v) (pre v) (post v) (dev v) l1)).
    reflexivity.
  - intros v o n m. repeat split.
Qed.

(** *** Maven *)

(** [Compare] on Maven versions compares the canonical strings byte by
    byte: it is a total preorder, and two versions compare as equal
    exactly when their canonical forms are the same string.  Numbers
    are not read: 1.10 comes before 1.9.  A version of another system
    compares as equal. *)
Theorem mavenCompare_total_preorder :
  (forall v o, mavenCompare v o = -1 \/ mavenCompare v o = 0 \/ mavenCompare v o = 1)
  /\ (forall v o, mavenCompare v o = 0 <-> mavenCanon v true = mavenCanon o true)
  /\ (forall v o, mavenCompare o v = - mavenCompare v o)
  /\ (forall a b c, mavenCompare a b <= 0 -> mavenCompare b c <= 0 ->
                    mavenCompare a c <= 0)
  /\ (exists a b, parseMavenVersion "1.10" = Ok a /\ parseMavenVersion "1.9" = Ok b
                  /\ mavenCompare a b = -1)
  /\ (forall v o n p, Compare (VMaven v) (VMaven o) = mavenCompare v o
                      /\ Compare (VMaven v) (VNPM n) = 0
                      /\ Compare (VMaven v) (VPyPI p) = 0).
Proof.
  assert (H : isOrder mavenCompare).
  { apply (order_ext _ _ (fun v o => strCmp (maven_version v) (maven_version o))).
    - intros v o. apply stringsCompare_strCmp.
    - apply (on_order MavenVersion gostring maven_version). apply strCmp_order. }
  destruct H as (Hr & Hx & Ha & Ht).
  split; [exact Hr|]. split; [|split; [exact Ha|split; [exact Ht|split]]].
  - intros v o. unfold mavenCompare, mavenCanon. rewrite stringsCompare_strCmp. split.
    + apply strCmp_eq.
    + intros ->. destruct strCmp_order as (_ & Sx & _). apply Sx.
  - eexists. eexists. split; [reflexivity|]. split; [reflexivity|]. reflexivity.
  - repeat split.
Qed.

(** *** Splitting and joining at a single byte *)

Lemma Join_SplitFrom : forall c s cur, Join (SplitFrom [c] 0 cur s) [c] = cur ++ s.
Proof.
  intros c. induction s as [|a s IH]; intros cur; cbn [SplitFrom].
  - cbn. now rewrite app_nil_r.
  - cbn [HasPrefix]. destruct (Ascii.eqb c a) eqn:E.
    + rewrite HasPrefix_nil. cbn [andb length Nat.sub].
      apply Ascii.eqb_eq in E. subst a.
      pose proof (Split_nonempty [c] 0 [] s) as Hne.
      destruct (SplitFrom [c] 0 [] s) as [|y l] eqn:Es; [contradiction|].
      rewrite Join_cons2. rewrite <- Es, IH. reflexivity.
    + cbn [andb]. rewrite IH. now rewrite <- app_assoc.
Qed.

Lemma Join_Split : forall c s, Join (Split s [c]) [c] = s.
Proof. intros c s. unfold Split. now rewrite Join_SplitFrom. Qed.

Lemma Split_Join : forall c parts,
  parts <> [] -> Forall (fun p => ~ In c p) parts -> Split (Join parts [c]) [c] = parts.
Proof.
  intros c. induction parts as [|p parts IH]; intros Hne H; [contradiction|].
  inversion H as [|? ? Hp Hparts]; subst.
  destruct parts as [|q parts].
  - cbn [Join]. now apply Split_byte_absent.
  - rewrite Join_cons2. cbn [app]. rewrite Split_byte_found by exact Hp.
    f_equal. apply IH; [discriminate|exact Hparts].
Qed.

Lemma Split_Join_dot : forall parts,
  parts <> [] -> Forall (fun p => ~ In "."%char p) parts ->
  Split (Join parts ".") "." = parts.
Proof. intros parts. apply (Split_Join "."%char). Qed.

Lemma Join_Split_dot : forall s, Join (Split s ".") "." = s.
Proof. intros s. apply (Join_Split "."%char). Qed.

Lemma first_occurrence : forall (c : ascii) s,
  ~ In c s \/ exists A B, s = A ++ c :: B /\ ~ In c A.
Proof.
  intros c. induction s as [|a s IH]; [left; intros []|].
  destruct (ascii_dec a c) as [->|Hne].
  - right. exists [], s. split; [reflexivity|intros []].
  - destruct IH as [IH|[A [B [-> HA]]]].
    + left. intros [H|H]; [contradiction|now apply IH].
    + right. exists (a :: A), B. split; [reflexivity|].
      intros [H|H]; [contradiction|now apply HA].
Qed.

Lemma IndexByte_absent : forall s c, ~ In c s -> IndexByte s c = -1.
Proof.
  intros s c H. unfold IndexByte. apply (Index_absent [c] 0 c s); [reflexivity|exact H].
Qed.

Lemma IndexByte_found : forall A B c, ~ In c A -> IndexByte (A ++ c :: B) c = len A.
Proof.
  intros A B c H. unfold IndexByte.
  apply (Index_app_found [c] 0 c A B); [reflexivity|exact H|intros []].
Qed.

Lemma cutDotted_absent : forall s c, ~ In c s -> cutDotted s c = ([], s).
Proof.
  intros s c H. unfold cutDotted. rewrite IndexByte_absent by exact H. reflexivity.
Qed.

Lemma cutDotted_found : forall A B c,
  ~ In c A -> cutDotted (A ++ c :: B) c = (dotted B, A).
Proof.
  intros A B c H. unfold cutDotted. rewrite IndexByte_found by exact H.
  rewrite len_pos_leb.
  change (A ++ c :: B) with (A ++ [c] ++ B).
  rewrite (from_app A ([c] ++ B) 1) by lia. rewrite upto_app.
  reflexivity.
Qed.

(** *** npm: parsing a version of a known shape *)

Lemma Itoa_no : forall n c, 0 <= n -> isDigit c = false -> ~ In c (Itoa n).
Proof.
  intros n c Hn Hc Hin. pose proof (Itoa_digits n Hn) as H.
  unfold allIn in H. rewrite Forall_forall in H. apply H in Hin. congruence.
Qed.

Lemma Join_Itoa_no : forall nums c,
  Forall (fun n => 0 <= n /\ inInt n = true) nums ->
  isDigit c = false -> c <> "."%char -> ~ In c (Join (map Itoa nums) ".").
Proof.
  intros nums c H Hc Hd. induction H as [|n nums [Hn _] Hnums IH]; [intros []|].
  destruct nums as [|m nums].
  - cbn [map Join]. now apply Itoa_no.
  - cbn [map]. rewrite Join_cons2. intros Hin.
    apply in_app_or in Hin. destruct Hin as [Hin|Hin]; [now apply Itoa_no in Hin|].
    cbn [list_ascii_of_string app] in Hin. destruct Hin as [Hin|Hin]; [congruence|].
    now apply IH.
Qed.

Lemma Join_Itoa_head_digit : forall nums,
  nums <> [] -> Forall (fun n => 0 <= n /\ inInt n = true) nums ->
  exists c s, Join (map Itoa nums) "." = c :: s /\ isDigit c = true.
Proof.
  intros [|n nums] Hne H; [contradiction|]. inversion H as [|? ? [Hn _] _]; subst.
  now apply Join_Itoa_head.
Qed.

Lemma TrimPrefix_other : forall c s p,
  isDigit c = true -> match p with [] => False | a :: _ => isDigit a = false end ->
  TrimPrefix (c :: s) p = c :: s.
Proof.
  intros c s [|a p] Hc Hp; [contradiction|]. unfold TrimPrefix. cbn [HasPrefix].
  destruct (Ascii.eqb a c) eqn:E; [|reflexivity].
  apply Ascii.eqb_eq in E. congruence.
Qed.

Lemma npmSuffix_no : forall mark text c,
  c <> mark -> ~ In c text -> ~ In c (npmSuffix mark text).
Proof.
  intros mark [|a text] c Hm Ht; cbn; [tauto|].
  intros [H|H]; [congruence|now apply Ht].
Qed.

Lemma cutDotted_suffix : forall A mark text,
  ~ In mark A -> cutDotted (A ++ npmSuffix mark text) mark = (dotted text, A).
Proof.
  intros A mark [|a text] H.
  - cbn [npmSuffix]. rewrite app_nil_r. now apply cutDotted_absent.
  - cbn [npmSuffix]. now apply cutDotted_found.
Qed.

Lemma parse_written : forall input nums preT buildT,
  nums <> [] ->
  Forall (fun n => 0 <= n /\ inInt n = true) nums ->
  ~ In "+"%char preT ->
  eqs input [] = false ->
  TrimPrefix (TrimPrefix (TrimPrefix (TrimSpace input) "v") "V") "="
  = Join (map Itoa nums) "." ++ npmSuffix "-" preT ++ npmSuffix "+" buildT ->
  parseNPMVersion input
  = if (3 <? length nums)%nat
    then Err (parseError "npm" input "invalid version format")
    else Ok (mkNPM input (nth 0 nums 0) (nth 1 nums 0) (nth 2 nums 0)
               (dotted preT) (dotted buildT)).
Proof.
  intros input nums preT buildT Hne Hnums Hplus He Hp.
  unfold parseNPMVersion. rewrite He, Hp. rewrite app_assoc.
  rewrite cutDotted_suffix.
  2:{ intros Hin. apply in_app_or in Hin. destruct Hin as [Hin|Hin].
      - revert Hin. apply Join_Itoa_no; [exact Hnums|reflexivity|discriminate].
      - revert Hin. apply npmSuffix_no; [discriminate|exact Hplus]. }
  rewrite cutDotted_suffix
    by (apply Join_Itoa_no; [exact Hnums|reflexivity|discriminate]).
  rewrite Split_Join_dot.
  2:{ destruct nums; [contradiction|discriminate]. }
  2:{ apply Forall_map. eapply Forall_impl; [|exact Hnums].
      intros n [Hn _]. now apply Itoa_no. }
  rewrite length_map.
  destruct nums as [|a [|b [|d [|e nums]]]]; [contradiction| | | |reflexivity];
    repeat match goal with
    | H : Forall _ (_ :: _) |- _ => inversion H; subst; clear H
    end;
    repeat match goal with H : _ /\ _ |- _ => destruct H end;
    cbn [map nth length Nat.leb Nat.ltb orb]; rewrite ?Atoi_Itoa by assumption;
    reflexivity.
Qed.

Lemma noSpace_TrimSpace : forall s, noSpace s -> TrimSpace s = s.
Proof. intros s H. now apply TrimSpace_plain. Qed.

Lemma digits_noSpace : forall nums,
  Forall (fun n => 0 <= n /\ inInt n = true) nums -> noSpace (Join (map Itoa nums) ".").
Proof.
  intros nums H. unfold noSpace. apply Forall_forall. intros c Hin.
  destruct (isSpace c) eqn:E; [|reflexivity]. exfalso. revert Hin.
  apply Join_Itoa_no; [exact H| |].
  - destruct (isDigit c) eqn:D; [|reflexivity]. apply isDigit_not_space in D. congruence.
  - intros ->. discriminate E.
Qed.

Lemma written_prefixes : forall text c s,
  text = c :: s -> isDigit c = true ->
  TrimPrefix (TrimPrefix (TrimPrefix text "v") "V") "=" = text.
Proof.
  intros text c s -> Hc. repeat (rewrite TrimPrefix_other; [|exact Hc|reflexivity]).
  reflexivity.
Qed.

Lemma Join_padded : forall nums,
  Join (map Itoa (padded nums)) "."
  = Itoa (nth 0 nums 0) ++ "." ++ Itoa (nth 1 nums 0) ++ "." ++ Itoa (nth 2 nums 0).
Proof. reflexivity. Qed.

(** A version written as one to three decimal numbers is normalized to
    three numbers, the missing ones being 0, also behind a leading [v];
    written as four or more numbers it is not an npm version and
    [Normalize] returns the text as it is. *)
Theorem Normalize_NPM_pads : forall nums,
  nums <> [] ->
  Forall (fun n => 0 <= n /\ inInt n = true) nums ->
  Normalize NPM (Join (map Itoa nums) ".")
  = (if (3 <? length nums)%nat then Join (map Itoa nums) "."
     else Join (map Itoa (padded nums)) ".")
  /\ Normalize NPM ("v" ++ Join (map Itoa nums) ".")
     = (if (3 <? length nums)%nat then "v" ++ Join (map Itoa nums) "."
        else Join (map Itoa (padded nums)) ".").
Proof.
  intros nums Hne Hnums.
  destruct (Join_Itoa_head_digit nums Hne Hnums) as [c [s [Hj Hc]]].
  pose proof (noSpace_TrimSpace _ (digits_noSpace nums Hnums)) as Ht.
  assert (Hw : Join (map Itoa nums) "."
               = Join (map Itoa nums) "." ++ npmSuffix "-" [] ++ npmSuffix "+" []).
  { cbn [npmSuffix app]. now rewrite app_nil_r. }
  split.
  - unfold Normalize, Parse.
    rewrite (parse_written (Join (map Itoa nums) ".") nums [] [] Hne Hnums).
    + destruct (3 <? length nums)%nat; [reflexivity|].
      cbn [mapResult Canon]. unfold npmCanon.
      cbn [major minor patch prerelease build dotted]. rewrite Join_padded.
      change (dotted []) with (@nil gostring). cbn iota.
      cbn [app]. now rewrite !app_nil_r.
    + intros [].
    + rewrite Hj. reflexivity.
    + rewrite Ht, <- Hw. now apply (written_prefixes _ c s).
  - unfold Normalize, Parse.
    rewrite (parse_written ("v" ++ Join (map Itoa nums) ".") nums [] [] Hne Hnums).
    + destruct (3 <? length nums)%nat; [reflexivity|].
      cbn [mapResult Canon]. unfold npmCanon.
      cbn [major minor patch prerelease build dotted]. rewrite Join_padded.
      change (dotted []) with (@nil gostring). cbn iota.
      cbn [app]. now rewrite !app_nil_r.
    + intros [].
    + reflexivity.
    + assert (Hv : TrimSpace ("v" ++ Join (map Itoa nums) ".")
                   = "v" ++ Join (map Itoa nums) ".").
      { apply TrimSpace_plain. constructor; [reflexivity|].
        apply (digits_noSpace nums Hnums). }
      rewrite Hv, <- Hw.
      change (TrimPrefix ("v" ++ Join (map Itoa nums) ".") "v")
        with (TrimPrefix ("v"%char :: Join (map Itoa nums) ".") ["v"%char]).
      unfold TrimPrefix at 3. cbn [HasPrefix]. rewrite Ascii.eqb_refl, HasPrefix_nil.
      cbn [andb length skipn].
      rewrite Hj. repeat (rewrite TrimPrefix_other; [|exact Hc|reflexivity]).
      reflexivity.
Qed.

Lemma Normalize_NPM_pads_witness :
  Normalize NPM "1" = "1.0.0" /\ Normalize NPM "v1.2" = "1.2.0"
  /\ Normalize NPM "1.2.3.4" = "1.2.3.4".
Proof.
  split; [|split].
  - refine (proj1 (Normalize_NPM_pads [1] _ _)); [discriminate|].
    repeat constructor; discriminate.
  - refine (proj2 (Normalize_NPM_pads [1; 2] _ _)); [discriminate|].
    repeat constructor; discriminate.
  - refine (proj1 (Normalize_NPM_pads [1; 2; 3; 4] _ _)); [discriminate|].
    repeat constructor; discriminate.
Defined.

(** *** npm: what a successful parse has read *)

Lemma TrimPrefix_In : forall s p c, In c (TrimPrefix s p) -> In c s.
Proof.
  intros s p c H. unfold TrimPrefix in H. destruct (HasPrefix s p); [|exact H].
  rewrite <- (firstn_skipn (length p) s). apply in_or_app. now right.
Qed.

Lemma Join_In : forall parts p c sep, In p parts -> In c p -> In c (Join parts sep).
Proof.
  induction parts as [|q parts IH]; intros p c sep Hp Hc; [destruct Hp|].
  destruct parts as [|r parts].
  - destruct Hp as [->|[]]. exact Hc.
  - rewrite Join_cons2. destruct Hp as [->|Hp].
    + apply in_or_app. now left.
    + apply in_or_app. right. apply in_or_app. right. now apply (IH p).
Qed.

Lemma Split_dot_In : forall s p c, In p (Split s ".") -> In c p -> In c s.
Proof.
  intros s p c Hp Hc. rewrite <- (Join_Split_dot s). now apply (Join_In _ p).
Qed.

Lemma suffix_dotted : forall mark text,
  match dotted text with
  | [] => []
  | l => list_ascii_of_string (String mark EmptyString) ++ Join l "."
  end = npmSuffix mark text.
Proof.
  intros mark [|a text]; [reflexivity|]. unfold dotted.
  change (eqs (a :: text) []) with false. cbn iota.
  pose proof (Join_Split_dot (a :: text)) as H.
  pose proof (Split_nonempty "." 0 [] (a :: text)) as Hne. fold (Split (a :: text) ".") in Hne.
  destruct (Split (a :: text) ".") as [|y l]; [contradiction|].
  rewrite H. reflexivity.
Qed.

Lemma parse_shape : forall x v,
  parseNPMVersion x = Ok v ->
  exists nums preT buildT,
    nums <> [] /\ (length nums <= 3)%nat
    /\ Forall (fun n => 0 <= n /\ inInt n = true) nums
    /\ ~ In "+"%char preT
    /\ major v = nth 0 nums 0 /\ minor v = nth 1 nums 0 /\ patch v = nth 2 nums 0
    /\ prerelease v = dotted preT /\ build v = dotted buildT
    /\ (forall c, In c preT \/ In c buildT -> In c x).
Proof.
  intros x v H. unfold parseNPMVersion in H.
  destruct (eqs x []); [discriminate|].
  set (s1 := TrimPrefix (TrimPrefix (TrimPrefix (TrimSpace x) "v") "V") "=") in H.
  assert (Hs1 : forall c, In c s1 -> In c x).
  { intros c Hc. unfold s1 in Hc. repeat apply TrimPrefix_In in Hc.
    now apply TrimSpace_In in Hc. }
  assert (Hcut : forall s mark,
            exists text s', cutDotted s mark = (dotted text, s')
                            /\ ~ In mark s'
                            /\ (forall c, In c text \/ In c s' -> In c s)).
  { intros s mark. destruct (first_occurrence mark s) as [Ha|[A [B [-> HA]]]].
    - exists [], s. split; [now apply cutDotted_absent|]. split; [exact Ha|].
      intros c [[]|Hc]. exact Hc.
    - exists B, A. split; [now apply cutDotted_found|]. split; [exact HA|].
      intros c [Hc|Hc]; apply in_or_app; [right; now right|now left]. }
  destruct (Hcut s1 "+"%char) as [buildT [s2 [E2 [Hp2 Hin2]]]]. rewrite E2 in H.
  destruct (Hcut s2 "-"%char) as [preT [s3 [E3 [Hp3 Hin3]]]]. rewrite E3 in H.
  assert (Hparts : forall p n, In p (Split s3 ".") -> Atoi p = Some n ->
                               0 <= n /\ inInt n = true).
  { intros p n Hp Ha. split; [|now apply Atoi_inInt in Ha].
    apply (Atoi_nonneg p n Ha). intros Hm. apply Hp3. now apply (Split_dot_In s3 p). }
  assert (Hpre : ~ In "+"%char preT).
  { intros Hc. apply Hp2. apply Hin3. now left. }
  assert (Hchars : forall c, In c preT \/ In c buildT -> In c x).
  { intros c [Hc|Hc]; apply Hs1; apply Hin2.
    - right. apply Hin3. now left.
    - now left. }
  destruct (Split s3 ".") as [|p0 [|p1 [|p2 [|p3 parts]]]] eqn:Es;
    cbn [length Nat.ltb Nat.leb orb nth] in H; try discriminate.
  - destruct (Atoi p0) as [n0|] eqn:E0; [|discriminate]. cbn in H. injection H as <-.
    exists [n0], preT, buildT. cbn [major minor patch prerelease build nth length].
    repeat split; auto; try discriminate; try lia.
    constructor; [|constructor]. apply (Hparts p0); [now left|exact E0].
  - destruct (Atoi p0) as [n0|] eqn:E0; [|discriminate].
    destruct (Atoi p1) as [n1|] eqn:E1; [|discriminate]. cbn in H. injection H as <-.
    exists [n0; n1], preT, buildT. cbn [major minor patch prerelease build nth length].
    repeat split; auto; try discriminate; try lia.
    constructor; [|constructor; [|constructor]].
    + apply (Hparts p0); [now left|exact E0].
    + apply (Hparts p1); [right; now left|exact E1].
  - destruct (Atoi p0) as [n0|] eqn:E0; [|discriminate].
    destruct (Atoi p1) as [n1|] eqn:E1; [|discriminate].
    destruct (Atoi p2) as [n2|] eqn:E2'; [|discriminate]. cbn in H. injection H as <-.
    exists [n0; n1; n2], preT, buildT.
    cbn [major minor patch prerelease build nth length].
    repeat split; auto; try discriminate; try lia.
    constructor; [|constructor; [|constructor; [|constructor]]].
    + apply (Hparts p0); [now left|exact E0].
    + apply (Hparts p1); [right; now left|exact E1].
    + apply (Hparts p2); [right; right; now left|exact E2'].
Qed.

(** On ASCII text without white space [Normalize] for npm is idempotent:
    a canonical form parses again, to the numbers, pre-release and
    build identifiers it was written from, and text that does not parse
    is returned as it is.  White space is needed in the hypothesis: the
    pre-release text keeps a trailing blank that stands before an empty
    build part, and parsing the canonical form then trims it. *)
Theorem Normalize_NPM_idempotent : forall x,
  is_ascii x -> noSpace x ->
  Normalize NPM (Normalize NPM x) = Normalize NPM x.
Proof.
  intros x _ Hx. unfold Normalize at 2 3. unfold Parse.
  destruct (parseNPMVersion x) as [v|e] eqn:E; cbn [mapResult Canon].
  2:{ unfold Normalize, Parse. now rewrite E. }
  destruct (parse_shape x v E)
    as (nums & preT & buildT & Hne & Hlen & Hnums & Hplus & HM & Hm & Hp & Hpre & Hbuild
        & Hchars).
  assert (Hcanon : npmCanon v true
                   = Join (map Itoa (padded nums)) "." ++ npmSuffix "-" preT
                     ++ npmSuffix "+" buildT).
  { unfold npmCanon. rewrite HM, Hm, Hp, Hpre, Hbuild.
    rewrite Join_padded.
    rewrite (suffix_dotted "-"%char preT), (suffix_dotted "+"%char buildT).
    now rewrite <- !app_assoc. }
  assert (Hpadded : Forall (fun n => 0 <= n /\ inInt n = true) (padded nums)).
  { unfold padded.
    assert (Hn : forall i, 0 <= nth i nums 0 /\ inInt (nth i nums 0) = true).
    { intros i. destruct (Nat.lt_ge_cases i (length nums)) as [Hi|Hi].
      - rewrite Forall_forall in Hnums. apply Hnums. now apply nth_In.
      - rewrite nth_overflow by exact Hi. split; [lia|reflexivity]. }
    repeat constructor; apply Hn. }
  assert (Hsp : noSpace (npmCanon v true)).
  { rewrite Hcanon. unfold noSpace. apply Forall_app. split.
    - apply (digits_noSpace _ Hpadded).
    - unfold noSpace in Hx. rewrite Forall_forall in Hx.
      apply Forall_app. split; apply Forall_forall; intros c Hc.
      + destruct preT as [|a preT]; [destruct Hc|]. cbn [npmSuffix] in Hc.
        destruct Hc as [<-|Hc]; [reflexivity|]. apply Hx, Hchars. left. exact Hc.
      + destruct buildT as [|a buildT]; [destruct Hc|]. cbn [npmSuffix] in Hc.
        destruct Hc as [<-|Hc]; [reflexivity|]. apply Hx, Hchars. right. exact Hc. }
  destruct (Join_Itoa_head_digit (padded nums)) as [c [s [Hj Hc]]];
    [discriminate|exact Hpadded|].
  unfold Normalize, Parse.
  rewrite (parse_written (npmCanon v true) (padded nums) preT buildT).
  - cbn [padded length Nat.ltb Nat.leb mapResult Canon].
    rewrite Hcanon at 2. unfold npmCanon.
    cbn [major minor patch prerelease build nth].
    rewrite (suffix_dotted "-"%char preT), (suffix_dotted "+"%char buildT).
    rewrite Join_padded. now rewrite <- !app_assoc.
  - discriminate.
  - exact Hpadded.
  - exact Hplus.
  - rewrite Hcanon, Hj. reflexivity.
  - rewrite (noSpace_TrimSpace _ Hsp). rewrite Hcanon at 1.
    rewrite (written_prefixes _ c (s ++ npmSuffix "-" preT ++ npmSuffix "+" buildT)).
    + reflexivity.
    + now rewrite Hj.
    + exact Hc.
Qed.

Lemma Normalize_NPM_idempotent_witness :
  Normalize NPM (Normalize NPM "v1.2-rc.1+build.5") = Normalize NPM "v1.2-rc.1+build.5"
  /\ Normalize NPM "v1.2-rc.1+build.5" = "1.2.0-rc.1+build.5"
  /\ Normalize NPM "1.0.0-a +" = "1.0.0-a "
  /\ Normalize NPM "1.0.0-a " = "1.0.0-a".
Proof.
  split; [|repeat split].
  apply Normalize_NPM_idempotent.
  - apply is_ascii_check. reflexivity.
  - repeat constructor.
Defined.

(** *** NormalizeNPMVersion *)

Lemma HasPrefix_split : forall p s, HasPrefix s p = true -> s = p ++ skipn (length p) s.
Proof.
  induction p as [|a p IH]; intros s H; [reflexivity|].
  destruct s as [|b s]; [discriminate H|]. cbn [HasPrefix] in H.
  apply andb_prop in H. destruct H as [Hab H]. apply Ascii.eqb_eq in Hab. subst b.
  cbn [length skipn app]. f_equal. now apply IH.
Qed.

Lemma TrimSpace_idem : forall s, TrimSpace (TrimSpace s) = TrimSpace s.
Proof.
  intros s. destruct (TrimSpace_head s) as [E|[c [t [E Hc]]]]; [now rewrite E|].
  assert (Hl : exists l d, TrimSpace s = l ++ [d]).
  { rewrite E. destruct (exists_last (l := c :: t)) as [l [d Hd]]; [discriminate|].
    exists l, d. exact Hd. }
  destruct Hl as [l [d Hd]].
  assert (Hdsp : isSpace d = false).
  { unfold TrimSpace in Hd. now apply dropWhileEnd_last_inv in Hd. }
  unfold TrimSpace at 1. rewrite E at 1. rewrite dropWhile_head by exact Hc.
  rewrite <- E, Hd. now apply dropWhileEnd_last.
Qed.

Lemma npmCanon_nonempty : forall v, npmCanon v true <> [].
Proof.
  intros v H. unfold npmCanon in H. apply app_eq_nil in H. destruct H as [H _].
  now apply Itoa_nonempty in H.
Qed.

(** [NormalizeNPMVersion] reads its argument trimmed, so surrounding
    white space never changes the result; it returns the empty string
    for exactly one input, the bare [npm:] protocol; and on text that
    starts with none of the protocol prefixes and is not empty, a star
    or [latest], it is [Normalize] for npm on the trimmed text. *)
Theorem NormalizeNPMVersion_cases : forall x,
  is_ascii x ->
  NormalizeNPMVersion (TrimSpace x) = NormalizeNPMVersion x
  /\ (NormalizeNPMVersion x = [] <-> TrimSpace x = "npm:")
  /\ ((forall p, In p npmProtocols -> HasPrefix (TrimSpace x) p = false) ->
      TrimSpace x <> [] -> TrimSpace x <> "*" -> TrimSpace x <> "latest" ->
      NormalizeNPMVersion x = Normalize NPM (TrimSpace x)).
Proof.
  intros x _. split; [|split].
  - unfold NormalizeNPMVersion. now rewrite TrimSpace_idem.
  - split.
    + unfold NormalizeNPMVersion. set (version := TrimSpace x).
      destruct (HasPrefix version "workspace:"); [discriminate|].
      destruct (HasPrefix version "file:"); [discriminate|].
      destruct (HasPrefix version "npm:") eqn:En.
      { intros H. unfold TrimPrefix in H. rewrite En in H.
        rewrite (HasPrefix_split _ _ En). rewrite H. reflexivity. }
      destruct (HasPrefix version "git:") eqn:E1;
        [cbn [orb]; intros H; rewrite H in E1; discriminate E1|].
      cbn [orb].
      destruct (HasPrefix version "git+") eqn:E2;
        [intros H; rewrite H in E2; discriminate E2|].
      destruct (HasPrefix version "github:") eqn:E3;
        [intros H; rewrite H in E3; discriminate E3|].
      destruct (HasPrefix version "http:") eqn:E4;
        [cbn [orb]; intros H; rewrite H in E4; discriminate E4|].
      cbn [orb].
      destruct (HasPrefix version "https:") eqn:E5;
        [intros H; rewrite H in E5; discriminate E5|].
      destruct (HasPrefix version "link:"); [discriminate|].
      destruct (eqs version []) eqn:E6; [discriminate|]. cbn [orb].
      destruct (eqs version "*" || eqs version "latest"); [discriminate|].
      unfold Parse. destruct (parseNPMVersion version) as [v|e]; cbn [mapResult Canon].
      * intros H. now apply npmCanon_nonempty in H.
      * intros H. rewrite H in E6. discriminate E6.
    + intros H. unfold NormalizeNPMVersion. rewrite H. reflexivity.
  - intros Hp H1 H2 H3. unfold NormalizeNPMVersion, Normalize.
    assert (P : forall p, In p npmProtocols -> HasPrefix (TrimSpace x) p = false)
      by exact Hp.
    rewrite (P "workspace:") by (cbn; tauto).
    rewrite (P "file:") by (cbn; tauto).
    rewrite (P "npm:") by (cbn; tauto).
    rewrite (P "git:") by (cbn; tauto).
    rewrite (P "git+") by (cbn; tauto).
    rewrite (P "github:") by (cbn; tauto).
    rewrite (P "http:") by (cbn; tauto).
    rewrite (P "https:") by (cbn; tauto).
    rewrite (P "link:") by (cbn; tauto).
    rewrite (eqs_neq _ _ H1), (eqs_neq _ _ H2), (eqs_neq _ _ H3). reflexivity.
Qed.

Lemma NormalizeNPMVersion_cases_witness :
  NormalizeNPMVersion " npm: " = []
  /\ NormalizeNPMVersion " v1.2 " = "1.2.0"
  /\ NormalizeNPMVersion "npm:file:x" = "file:x"
  /\ (NormalizeNPMVersion " 1.2.3 " = [] <-> TrimSpace " 1.2.3 " = "npm:").
Proof.
  repeat split; try reflexivity;
    apply (proj1 (proj2 (NormalizeNPMVersion_cases " 1.2.3 "
                           (is_ascii_check " 1.2.3 " eq_refl)))).
Defined.

(** *** PyPI: a canonical form compares as equal to what it was made from *)

(** A version parsed from ASCII text with an epoch that is not negative
    compares as equal, in both directions, to the version parsed from
    its canonical form (which parses when the epoch is positive or the
    local part has no exclamation mark).  A negative epoch, as in
    [-1!1.0], is not written by [Canon] and reads back as 0, so that
    version comes before its own canonical form. *)
Theorem pypiCanon_compares_equal : forall (x : gostring) (v : PyPIVersion),
  is_ascii x ->
  parsePyPIVersion x = Ok v ->
  0 <= epoch v ->
  0 < epoch v \/ ~ In "!"%char (local v) ->
  exists v', parsePyPIVersion (pypiCanon v true) = Ok v'
             /\ pypiCompare v v' = 0 /\ pypiCompare v' v = 0.
Proof.
  intros x v _ Hparse He Hl.
  pose proof (parse_wellFormed x v Hparse) as Hwf.
  eexists. split; [apply (reparse_canon v Hwf Hl)|].
  assert (En : normalEpoch v = epoch v).
  { unfold normalEpoch. destruct (Z.ltb_spec 0 (epoch v)); lia. }
  rewrite En.
  destruct pypiCompare_order as (_ & Hx & _).
  split; rewrite <- (Hx v); reflexivity.
Qed.

Lemma pypiCanon_compares_equal_witness :
  (exists v', parsePyPIVersion "2!1.0rc1" = Ok v'
              /\ pypiCompare (mkPyPI "2!1.0.RC1" 2 [1; 0] (Some (mkPre "rc" 1)) None None [])
                             v' = 0
              /\ pypiCompare v'
                   (mkPyPI "2!1.0.RC1" 2 [1; 0] (Some (mkPre "rc" 1)) None None []) = 0)
  /\ (exists v v', parsePyPIVersion "-1!1.0" = Ok v
                   /\ parsePyPIVersion (pypiCanon v true) = Ok v'
                   /\ pypiCompare v v' = -1).
Proof.
  split.
  - refine (pypiCanon_compares_equal "2!1.0.RC1"
              (mkPyPI "2!1.0.RC1" 2 [1; 0] (Some (mkPre "rc" 1)) None None []) _ _ _ _).
    + apply is_ascii_check. reflexivity.
    + reflexivity.
    + discriminate.
    + left. reflexivity.
  - eexists. eexists. split; [reflexivity|]. split; reflexivity.
Defined.

(** *** The helpers [parseInt] and [splitSegments] *)

Lemma wrapInt_step : forall a d, wrapInt (wrapInt a * 10 + d) = wrapInt (a * 10 + d).
Proof.
  intros a d. unfold wrapInt.
  f_equal.
  replace (((a + 2 ^ 63) mod 2 ^ 64 - 2 ^ 63) * 10 + d + 2 ^ 63)
    with ((a + 2 ^ 63) mod 2 ^ 64 * 10 + (d + 2 ^ 63 - 2 ^ 63 * 10)) by ring.
  replace (a * 10 + d + 2 ^ 63)
    with ((a + 2 ^ 63) * 10 + (d + 2 ^ 63 - 2 ^ 63 * 10)) by ring.
  rewrite (Z.add_mod ((a + 2 ^ 63) mod 2 ^ 64 * 10)) by (cbv; discriminate).
  rewrite (Z.add_mod ((a + 2 ^ 63) * 10)) by (cbv; discriminate).
  f_equal. f_equal.
  rewrite Z.mul_mod_idemp_l by (cbv; discriminate). reflexivity.
Qed.

Lemma wrapInt_small : forall n, inInt n = true -> wrapInt n = n.
Proof.
  intros n H. unfold inInt, minInt, maxInt in H. apply andb_prop in H.
  destruct H as [H1 H2]. apply Z.leb_le in H1, H2. unfold wrapInt.
  rewrite Z.mod_small; lia.
Qed.

Lemma parseIntLoop_digits : forall ds after acc m pos0 val,
  digitsVal acc ds = Some m ->
  match after with [] => True | c :: _ => isDigit c = false end ->
  val = wrapInt acc ->
  parseIntLoop (ds ++ after) val pos0 = (wrapInt m, (pos0 + length ds)%nat).
Proof.
  induction ds as [|c ds IH]; intros after acc m pos0 val Hd Ha Hv.
  - cbn [digitsVal] in Hd. injection Hd as <-. cbn [app length].
    rewrite Nat.add_0_r, Hv.
    destruct after as [|c after]; [reflexivity|]. cbn [parseIntLoop]. now rewrite Ha.
  - cbn [digitsVal] in Hd. destruct (isDigit c) eqn:Hc; [|discriminate].
    cbn [app parseIntLoop length]. rewrite Hc.
    rewrite (IH after (acc * 10 + digitVal c) m (S pos0) _ Hd Ha).
    + f_equal. lia.
    + rewrite Hv. apply wrapInt_step.
Qed.

(** [parseInt] reads the run of digits at the start index and returns
    its value, wrapped to 64 bits, with the index after the run; where
    [Atoi] accepts the run it returns the same number, and where [Atoi]
    fails with an overflow it still returns a number.  Without a digit
    at the start index the result is 0 and the index itself.
    [splitSegments] is undone by joining with a dot. *)
Theorem parseInt_reads_digits : forall before ds after m,
  digitsVal 0 ds = Some m ->
  match after with [] => True | c :: _ => isDigit c = false end ->
  parseInt (before ++ ds ++ after) (length before)
  = (wrapInt m, (length before + length ds)%nat)
  /\ (forall n, Atoi ds = Some n ->
        parseInt (before ++ ds ++ after) (length before)
        = (n, (length before + length ds)%nat))
  /\ (forall s, Join (splitSegments s) "." = s).
Proof.
  intros before ds after m Hd Ha.
  assert (E : parseInt (before ++ ds ++ after) (length before)
              = (wrapInt m, (length before + length ds)%nat)).
  { unfold parseInt. rewrite skipn_app, skipn_all, Nat.sub_diag. cbn [skipn app].
    destruct ds as [|c ds].
    - cbn [digitsVal] in Hd. injection Hd as <-. cbn [app length].
      rewrite Nat.add_0_r. destruct after as [|c after]; [reflexivity|]. now rewrite Ha.
    - pose proof Hd as Hd'. cbn [digitsVal] in Hd'.
      destruct (isDigit c) eqn:Hc; [|discriminate]. cbn [app]. rewrite Hc.
      change (c :: ds ++ after) with ((c :: ds) ++ after).
      rewrite (parseIntLoop_digits (c :: ds) after 0 m (length before) 0 Hd Ha eq_refl).
      reflexivity. }
  split; [exact E|]. split.
  - intros n Hn. rewrite E. f_equal.
    assert (Hall : allIn isDigit ds) by (now apply digitsVal_digits in Hd).
    assert (Hne : ds <> []) by (intros ->; discriminate Hn).
    rewrite (Atoi_digits ds Hall Hne), Hd in Hn.
    destruct (inInt m) eqn:Hi; [|discriminate]. injection Hn as <-.
    now apply wrapInt_small.
  - intros s. unfold splitSegments. destruct (eqs s []) eqn:Es.
    + apply eqs_eq in Es. now subst.
    + apply Join_Split_dot.
Qed.

Lemma parseInt_reads_digits_witness :
  parseInt "1.20.3" 2 = (20, 4%nat)
  /\ parseInt "x9223372036854775808" 1 = (minInt, 20%nat)
  /\ Atoi "9223372036854775808" = None.
Proof.
  split; [|split; [|reflexivity]].
  - refine (proj1 (parseInt_reads_digits "1." "20" ".3" 20 _ _)); reflexivity.
  - refine (proj1 (parseInt_reads_digits "x" "9223372036854775808" []
                     9223372036854775808 _ _)); [reflexivity|exact I].
Defined.

(** *** Gemfile.lock: the records of a lockfile as Bundler writes it *)

Lemma not_specIndented_no_spec : forall line,
  specIndented line = false -> FindStringSubmatch gemLockSpecRegex 2 line = None.
Proof.
  intros line H. unfold gemLockSpecRegex. cbn [Cat]. apply anchored_None.
  unfold matchAt. rewrite run_Grp, run_Seq, run_Bol. cbn [pos Nat.eqb skipn Rep].
  destruct line as [|a line]; [reflexivity|].
  rewrite ?run_Seq, run_Chr. cbn [rest pos caps].
  destruct (cls_s a) eqn:Ha; [|reflexivity].
  destruct line as [|b line]; [reflexivity|].
  rewrite ?run_Seq, run_Chr. cbn [rest pos caps].
  destruct (cls_s b) eqn:Hb; [|reflexivity].
  destruct line as [|c line]; [reflexivity|].
  rewrite ?run_Seq, run_Chr. cbn [rest pos caps].
  destruct (cls_s c) eqn:Hc; [|reflexivity].
  destruct line as [|d line]; [reflexivity|].
  rewrite ?run_Seq, run_Chr. cbn [rest pos caps].
  destruct (cls_s d) eqn:Hd; [|reflexivity].
  rewrite ?run_Seq, run_Eps, ?run_Seq, run_Grp. unfold Plus.
  rewrite ?run_Seq, run_Chr. cbn [rest].
  destruct line as [|e line]; [reflexivity|].
  cbn [specIndented] in H. rewrite Ha, Hb, Hc, Hd in H. cbn [andb] in H.
  unfold cls_S. now rewrite H.
Qed.

Lemma specLine_match : forall name version,
  name <> [] -> Forall (fun c => cls_s c = false) name ->
  version <> [] -> ~ In ")"%char version ->
  FindStringSubmatch gemLockSpecRegex 2 (gemLineText (SpecLine name version))
  = Some [gemLineText (SpecLine name version); name; version].
Proof.
  intros name version Hn1 Hn2 Hv1 Hv2.
  apply matchAt_found. unfold matchAt. cbn [skipn repeat gemLineText].
  assert (Hn3 : Forall (fun c => cls_S c = true) name).
  { eapply Forall_impl; [|exact Hn2]. intros c Hc. unfold cls_S. now rewrite Hc. }
  assert (Hv3 : Forall (fun c => noneOf ")" c = true) version).
  { apply Forall_forall. intros c Hc. unfold noneOf, oneOf. cbn [existsb list_ascii_of_string].
    destruct (Ascii.eqb c ")") eqn:E; [|reflexivity].
    apply Ascii.eqb_eq in E. subst. contradiction. }
  set (line := "    " ++ name ++ " (" ++ version ++ ")").
  assert (E : run (Grp 0 gemLockSpecRegex) Some (MState 0 line [[]; []; []])
              = Some (MState (length line) [] [line; name; version])).
  { unfold gemLockSpecRegex. cbn [Cat Rep].
    rewrite run_Grp, run_Seq, run_Bol. cbn [pos Nat.eqb].
    unfold line. cbn [list_ascii_of_string app].
    rewrite ?run_Seq, run_Chr. cbn [rest pos caps]. change (cls_s " ") with true. cbv iota.
    rewrite ?run_Seq, run_Chr. cbn [rest pos caps]. change (cls_s " ") with true. cbv iota.
    rewrite ?run_Seq, run_Chr. cbn [rest pos caps]. change (cls_s " ") with true. cbv iota.
    rewrite ?run_Seq, run_Chr. cbn [rest pos caps]. change (cls_s " ") with true. cbv iota.
    rewrite run_Eps, run_Seq, run_Grp.
    apply run_plus_chr_greedy; [exact Hn1|exact Hn3|reflexivity|].
    cbv beta. rewrite capture_app. rewrite run_Seq.
    change (" "%char :: "("%char :: version ++ [")"%char])
      with ([" "%char] ++ "("%char :: version ++ [")"%char]).
    apply run_plus_chr_greedy; [discriminate|repeat constructor|reflexivity|].
    change ("("%char :: version ++ [")"%char])
      with (list_ascii_of_string "(" ++ version ++ [")"%char]).
    rewrite run_Seq, run_Lit_match. rewrite run_Seq, run_Grp.
    apply run_plus_chr_greedy; [exact Hv1|exact Hv3|reflexivity|].
    cbv beta. rewrite capture_app.
    change [")"%char] with (list_ascii_of_string ")" ++ []).
    rewrite run_Lit_match. unfold capture. cbn [pos rest caps setCap].
    match goal with
    | |- Some {| pos := ?n; rest := _; caps := [firstn (?n - 0) ?w; _; _] |} = _ =>
        assert (Hlen : n = length w)
          by (cbn [length list_ascii_of_string app]; repeat rewrite length_app;
              cbn [length list_ascii_of_string]; repeat rewrite length_app;
              cbn [length]; lia);
        rewrite Hlen, Nat.sub_0_r, firstn_all; reflexivity
    end. }
  fold line. rewrite E. reflexivity.
Qed.

Lemma gemSpecsLoop_outside : forall options direct lines rest0 acc,
  Forall (fun l => TrimSpace l <> "GEM") lines ->
  gemSpecsLoop options direct (lines ++ rest0) false acc
  = gemSpecsLoop options direct rest0 false acc.
Proof.
  intros options direct. induction lines as [|l lines IH]; intros rest0 acc H;
    [reflexivity|].
  inversion H as [|? ? Hl Hlines]; subst. cbn [app gemSpecsLoop].
  rewrite (eqs_neq _ _ Hl).
  destruct (eqs (TrimSpace l) "PLATFORMS" || eqs (TrimSpace l) "DEPENDENCIES");
    cbn [negb]; now apply IH.
Qed.

Lemma specLine_trimmed : forall name version keyword,
  ~ In ")"%char keyword ->
  TrimSpace (gemLineText (SpecLine name version)) <> keyword.
Proof.
  intros name version keyword Hk E. apply Hk. rewrite <- E.
  apply TrimSpace_keeps; [|reflexivity].
  cbn [gemLineText]. rewrite !in_app_iff. do 4 right. cbn. now left.
Qed.

Lemma gemSpecsLoop_body : forall options direct body rest0 acc,
  Forall gemLineOK body ->
  gemSpecsLoop options direct (map gemLineText body ++ rest0) true acc
  = gemSpecsLoop options direct rest0 true
      (acc ++ gemRecords options direct (gemSpecs body)).
Proof.
  intros options direct. induction body as [|l body IH]; intros rest0 acc H.
  - cbn. unfold gemRecords. cbn. now rewrite app_nil_r.
  - inversion H as [|? ? Hl Hbody]; subst. cbn [map app gemSpecsLoop].
    destruct l as [name version|text]; cbn [gemLineOK] in Hl.
    + destruct Hl as (Hn1 & Hn2 & Hv1 & Hv2).
      assert (K : forall keyword, ~ In ")"%char keyword ->
                    eqs (TrimSpace (gemLineText (SpecLine name version))) keyword = false)
        by (intros keyword Hk; apply eqs_neq; now apply specLine_trimmed).
      rewrite (K "GEM"), (K "PLATFORMS"), (K "DEPENDENCIES"), (K []), (K "specs:")
        by (cbn; intuition discriminate).
      cbn [orb negb]. rewrite (specLine_match name version Hn1 Hn2 Hv1 Hv2).
      change (HasPrefix (gemLineText (SpecLine name version)) "  remote:") with false.
      cbn [orb]. unfold sub. cbn [nth].
      assert (G : gemRecords options direct (gemSpecs (SpecLine name version :: body))
                  = (if gemIncludeTransitive options || has direct name
                     then [gemLockDependency name version (has direct name)] else [])
                    ++ gemRecords options direct (gemSpecs body)).
      { unfold gemRecords. cbn [gemSpecs flat_map app map filter fst snd].
        cbn [gemLockDependency Direct].
        destruct (gemIncludeTransitive options || has direct name); reflexivity. }
      rewrite G.
      destruct (gemIncludeTransitive options), (has direct name); cbn [negb andb orb];
        rewrite (IH rest0 _ Hbody); rewrite <- ?app_assoc; reflexivity.
    + destruct Hl as (Hi & Hp & Hd). cbn [gemLineText gemSpecs flat_map app].
      destruct (eqs (TrimSpace text) "GEM"); [now apply IH|].
      rewrite (eqs_neq _ _ Hp), (eqs_neq _ _ Hd). cbn [orb negb].
      destruct (HasPrefix text "  remote:" || eqs (TrimSpace text) []
                || eqs (TrimSpace text) "specs:"); [now apply IH|].
      rewrite (not_specIndented_no_spec text Hi). now apply IH.
Qed.

Lemma Permutation_filter_same : forall (A : Type) (f : A -> bool) (l l' : list A),
  Permutation l l' -> Permutation (filter f l) (filter f l').
Proof.
  intros A f l l' H. induction H as [|x l l' H IH|x y l|l l' l'' H1 IH1 H2 IH2].
  - constructor.
  - cbn. destruct (f x); [now constructor|exact IH].
  - cbn. destruct (f x), (f y); try apply Permutation_refl. apply perm_swap.
  - eapply Permutation_trans; eassumption.
Qed.

Lemma gemRecords_names : forall options direct specs,
  map nameDirect (gemRecords options direct specs)
  = filter (fun p => gemIncludeTransitive options || snd p)
      (map (fun name => (name, has direct name)) (map fst specs)).
Proof.
  intros options direct specs. unfold gemRecords.
  induction specs as [|[name version] specs IH]; [reflexivity|].
  cbn [map filter fst snd gemLockDependency Direct].
  destruct (gemIncludeTransitive options || has direct name); cbn [map]; now rewrite IH.
Qed.

(** C3, amended.  For every ASCII Gemfile.lock made of a GEM section
    (resolved gems on four spaces, each followed by any nested or other
    lines), a PLATFORMS section and a DEPENDENCIES section: the result
    holds, in file order, one record per resolved gem, marked direct
    exactly when the DEPENDENCIES section names the gem, and the
    default mode keeps the direct ones only; a gem that occurs on a
    nested line only has no record in either mode.  So with rails and
    pg named under DEPENDENCIES: when the resolved gems are rails and
    pg, both modes return exactly rails and pg, both direct; when
    actionpack is a resolved gem as well, the default mode returns
    rails and pg and the transitive mode adds actionpack, not direct. *)
Theorem ParseGemfileLock_rails_pg :
  forall content options before gemHeader body platformsHeader middle depsHeader
         depBody ending,
  is_ascii content ->
  Split content [nl]
  = before ++ gemHeader :: map gemLineText body
    ++ platformsHeader :: middle ++ depsHeader :: depBody ++ ending ->
  Forall plainLine before ->
  TrimSpace gemHeader = "GEM" ->
  Forall gemLineOK body ->
  TrimSpace platformsHeader = "PLATFORMS" ->
  Forall plainLine middle ->
  TrimSpace depsHeader = "DEPENDENCIES" ->
  Forall (fun l => isSectionHeader l = false /\ TrimSpace l <> "GEM") depBody ->
  sectionEnd ending ->
  ParseGemfileLockWithOptions content options
  = gemRecords options (firstFields depBody) (gemSpecs body)
  /\ (has (firstFields depBody) "rails" = true ->
      has (firstFields depBody) "pg" = true ->
      has (firstFields depBody) "actionpack" = false ->
      (Permutation (map fst (gemSpecs body)) (textLines ["rails"; "pg"]) ->
       Permutation (map nameDirect (ParseGemfileLockWithOptions content options))
         [("rails" : gostring, true); ("pg" : gostring, true)])
      /\ (Permutation (map fst (gemSpecs body)) (textLines ["rails"; "pg"; "actionpack"]) ->
          Permutation (map nameDirect (ParseGemfileLockWithOptions content options))
            (if gemIncludeTransitive options
             then [("rails" : gostring, true); ("pg" : gostring, true);
                   ("actionpack" : gostring, false)]
             else [("rails" : gostring, true); ("pg" : gostring, true)]))).
Proof.
  intros content options before gemHeader body platformsHeader middle depsHeader
    depBody ending _ Hlines Hbefore Hgem Hbody Hplat Hmiddle Hdeps HdepBody Hend.
  assert (Hdirect : parseDirectDependencies (Split content [nl]) = firstFields depBody).
  { rewrite Hlines. unfold parseDirectDependencies.
    replace (before ++ gemHeader :: map gemLineText body
             ++ platformsHeader :: middle ++ depsHeader :: depBody ++ ending)
      with ((before ++ gemHeader :: map gemLineText body ++ platformsHeader :: middle)
            ++ depsHeader :: depBody ++ ending)
      by (rewrite <- !app_assoc; cbn [app]; rewrite <- !app_assoc; reflexivity).
    rewrite directDepsLoop_outside.
    - cbn [directDepsLoop]. rewrite Hdeps. cbn.
      rewrite directDepsLoop_inside
        by (eapply Forall_impl; [|exact HdepBody]; intros l Hl; apply Hl).
      cbn [app]. destruct ending as [|closing after]; [reflexivity|].
      destruct Hend as [Hc Hafter]. apply directDepsLoop_closed; [exact Hc|].
      eapply Forall_impl; [|exact Hafter]. intros l [_ Hl]. now apply eqs_neq.
    - apply Forall_app. split.
      + eapply Forall_impl; [|exact Hbefore]. intros l [_ Hl]. now apply eqs_neq.
      + constructor; [now rewrite Hgem|]. apply Forall_app. split.
        * apply Forall_forall. intros l Hl. apply in_map_iff in Hl.
          destruct Hl as [[name version|text] [<- Hin]].
          -- apply eqs_neq. apply specLine_trimmed. cbn. intuition discriminate.
          -- rewrite Forall_forall in Hbody. apply Hbody in Hin.
             apply eqs_neq. apply Hin.
        * constructor; [now rewrite Hplat|].
          eapply Forall_impl; [|exact Hmiddle]. intros l [_ Hl]. now apply eqs_neq. }
  assert (E : ParseGemfileLockWithOptions content options
              = gemRecords options (firstFields depBody) (gemSpecs body)).
  { unfold ParseGemfileLockWithOptions. rewrite Hdirect, Hlines.
    rewrite gemSpecsLoop_outside
      by (eapply Forall_impl; [|exact Hbefore]; intros l Hl; apply Hl).
    cbn [gemSpecsLoop]. rewrite Hgem. cbn.
    rewrite gemSpecsLoop_body by exact Hbody. cbn [app gemSpecsLoop].
    rewrite Hplat. cbn.
    rewrite <- (app_nil_r (middle ++ depsHeader :: depBody ++ ending)).
    rewrite gemSpecsLoop_outside; [reflexivity|].
    apply Forall_app. split.
    - eapply Forall_impl; [|exact Hmiddle]. intros l Hl. apply Hl.
    - constructor; [rewrite Hdeps; discriminate|]. apply Forall_app. split.
      + eapply Forall_impl; [|exact HdepBody]. intros l Hl. apply Hl.
      + destruct ending as [|closing after]; [constructor|].
        destruct Hend as [Hc Hafter]. constructor.
        * destruct Hc as [-> | ->]; discriminate.
        * eapply Forall_impl; [|exact Hafter]. intros l Hl. apply Hl. }
  split; [exact E|]. intros Hr Hp Ha. rewrite E, gemRecords_names. split.
  - intros HP.
    eapply Permutation_trans;
      [apply Permutation_filter_same, Permutation_map; exact HP|].
    cbn [textLines map filter snd]. rewrite Hr, Hp.
    rewrite !orb_true_r. apply Permutation_refl.
  - intros HP.
    eapply Permutation_trans;
      [apply Permutation_filter_same, Permutation_map; exact HP|].
    cbn [textLines map filter snd]. rewrite Hr, Hp, Ha.
    rewrite !orb_true_r, orb_false_r.
    destruct (gemIncludeTransitive options); apply Permutation_refl.
Qed.

Lemma ParseGemfileLock_rails_pg_witness :
  map nameDirect (ParseGemfileLock gemLockListed)
  = [("rails" : gostring, true); ("pg" : gostring, true)]
  /\ map nameDirect (ParseGemfileLockWithOptions gemLockListed (mkGemfileLockOptions true))
     = [("rails" : gostring, true); ("actionpack" : gostring, false);
        ("pg" : gostring, true)].
Proof.
  assert (H : forall options,
            ParseGemfileLockWithOptions gemLockListed options
            = gemRecords options (textLines ["rails"; "pg"])
                [("rails" : gostring, "7.1.0" : gostring);
                 ("actionpack" : gostring, "7.1.0" : gostring);
                 ("pg" : gostring, "1.5.4" : gostring)]).
  { intros options.
    refine (proj1 (ParseGemfileLock_rails_pg gemLockListed options
              [] "GEM"
              [OtherLine "  remote: https://rubygems.org/"; OtherLine "  specs:";
               SpecLine "rails" "7.1.0"; OtherLine "      actionpack (= 7.1.0)";
               SpecLine "actionpack" "7.1.0"; SpecLine "pg" "1.5.4"; OtherLine []]
              "PLATFORMS" (textLines ["  ruby"; ""])
              "DEPENDENCIES" (textLines ["  rails (= 7.1.0)"; "  pg (~> 1.5)"; ""])
              (textLines ["BUNDLED WITH"; "   2.4.10"; ""])
              _ _ _ _ _ _ _ _ _ _)).
    - apply is_ascii_check. reflexivity.
    - vm_compute. reflexivity.
    - constructor.
    - reflexivity.
    - repeat constructor; try discriminate; cbn; intuition discriminate.
    - reflexivity.
    - repeat constructor; discriminate.
    - reflexivity.
    - repeat constructor; discriminate.
    - split; [now left|]. repeat constructor; discriminate. }
  split.
  - unfold ParseGemfileLock. rewrite H. vm_compute. reflexivity.
  - rewrite H. vm_compute. reflexivity.
Defined.

(** *** Maven: what the patterns read *)

Lemma run_Alt : forall r1 r2 k st,
  run (Alt r1 r2) k st
  = match run r1 k st with Some res => Some res | None => run r2 k st end.
Proof. reflexivity. Qed.

Lemma lang_classes : forall Q r w,
  classesIn Q r -> lang r w -> Forall (fun c => Q c = true) w.
Proof.
  intros Q. induction r as [|p|r1 IH1 r2 IH2|r1 IH1 r2 IH2|r1 IH1|n r1 IH1| |];
    intros w HC HL; cbn [classesIn lang] in *.
  - subst. constructor.
  - destruct HL as [c [-> Hp]]. constructor; [now apply HC|constructor].
  - destruct HC as [HC1 HC2]. destruct HL as [u [v [-> [Hu Hv]]]].
    apply Forall_app. split; [now apply IH1|now apply IH2].
  - destruct HC as [HC1 HC2]. destruct HL as [HL|HL]; [now apply IH1|now apply IH2].
  - destruct HL as [ws [-> Hws]]. induction Hws as [|u ws Hu _ IH]; cbn [concat].
    + constructor.
    + apply Forall_app. split; [now apply IH1|exact IH].
  - now apply IH1.
  - subst. constructor.
  - subst. constructor.
Qed.

Lemma groupsOK_True : forall r, groupsOK (fun _ _ => True) r.
Proof.
  induction r; cbn [groupsOK]; auto.
Qed.

(** A pattern anchored at both ends reads the whole text. *)
Lemma anchored_whole : forall r1 r2 n s m,
  FindStringSubmatch (Seq Bol (Seq r1 (Seq r2 Eol))) n s = Some m ->
  lang (Seq r1 r2) s.
Proof.
  intros r1 r2 n s m H. unfold FindStringSubmatch in H.
  apply searchFrom_Some in H. destruct H as [q H]. unfold matchAt in H.
  destruct (run _ Some _) as [st|] eqn:E; [|discriminate]. clear H.
  rewrite run_Grp, run_Seq, run_Bol in E. cbn [pos] in E.
  destruct q as [|q]; [|discriminate E]. cbn [Nat.eqb skipn] in E.
  change (run (Seq r1 (Seq r2 Eol))) with (fun k => run (Seq r1 r2) (run Eol k)) in E.
  cbv beta in E.
  apply (run_sound (fun _ _ => True) (Seq r1 r2) (groupsOK_True _)) in E.
  destruct E as [st1 [Hk [[w [Hw [_ Hl]]] _]]].
  rewrite run_Eol in Hk. destruct (rest st1); [|discriminate].
  cbn [rest] in Hw. rewrite app_nil_r in Hw. now subst.
Qed.

Lemma mavenBuildRegex_bytes : forall s m,
  FindStringSubmatch mavenBuildRegex 3 s = Some m ->
  Forall (fun c => buildByte c = true) s.
Proof.
  intros s m H. unfold mavenBuildRegex in H. cbn [Cat] in H.
  apply anchored_whole in H. revert H. apply lang_classes.
  unfold buildByte, dottedNumber, digits1, Plus, Opt, cls_d.
  cbn [classesIn Cat Rep Lit list_ascii_of_string].
  repeat split; intros c Hc; try (now rewrite Hc);
    try (apply Ascii.eqb_eq in Hc; subst; reflexivity);
    unfold oneOf in Hc; cbn [existsb list_ascii_of_string] in Hc;
    repeat (apply orb_true_iff in Hc; destruct Hc as [Hc|Hc]);
    try discriminate Hc; apply Ascii.eqb_eq in Hc; subst; reflexivity.
Qed.

Lemma Join_furtherNumbers : forall n nums, Join (n :: nums) "." = n ++ furtherNumbers nums.
Proof.
  intros n nums. revert n. induction nums as [|m nums IH]; intros n.
  - cbn. now rewrite app_nil_r.
  - rewrite Join_cons2, IH. unfold furtherNumbers. cbn [map concat].
    now rewrite <- !app_assoc.
Qed.

Lemma endsNumber_head : forall rest0,
  endsNumber rest0 -> match rest0 with [] => True | c :: _ => cls_d c = false end.
Proof. intros [|c r] H; [exact I|apply H]. Qed.

Lemma furtherNumbers_head : forall nums rest0,
  endsNumber rest0 ->
  match furtherNumbers nums ++ rest0 with [] => True | c :: _ => cls_d c = false end.
Proof.
  intros [|n nums] rest0 H; [now apply endsNumber_head|]. reflexivity.
Qed.

Lemma furtherNumbers_length : forall nums, (length nums <= length (furtherNumbers nums))%nat.
Proof.
  induction nums as [|m nums IH]; [apply Nat.le_refl|].
  change (furtherNumbers (m :: nums)) with (("." ++ m) ++ furtherNumbers nums).
  rewrite length_app. cbn [length list_ascii_of_string app]. lia.
Qed.

(** The repetition of dot-and-digits reads every further number. *)
Lemma starLoop_furtherNumbers : forall nums rest0 k res fuel n cs,
  Forall isNumber nums -> endsNumber rest0 ->
  (length nums <= fuel)%nat ->
  k (MState (n + length (furtherNumbers nums)) rest0 cs) = Some res ->
  starLoop (run (Seq (Lit ".") digits1)) k fuel (MState n (furtherNumbers nums ++ rest0) cs)
  = Some res.
Proof.
  induction nums as [|x nums IH]; intros rest0 k res fuel n cs Hnums Hend Hfuel Hk.
  - cbn [furtherNumbers map concat app length] in *. rewrite Nat.add_0_r in Hk.
    destruct fuel as [|fuel]; [exact Hk|]. cbn [starLoop].
    assert (E : forall k', run (Seq (Lit ".") digits1) k' (MState n rest0 cs) = None).
    { intros k'. rewrite run_Seq. cbn [Lit list_ascii_of_string].
      rewrite run_Seq, run_Chr. cbn [rest pos caps].
      destruct rest0 as [|c r]; [reflexivity|].
      destruct (Ascii.eqb "." c) eqn:Ec; [|reflexivity].
      apply Ascii.eqb_eq in Ec. subst c. rewrite run_Eps.
      unfold digits1, Plus. rewrite run_Seq, run_Chr. cbn [rest pos caps].
      destruct r as [|d r]; [reflexivity|].
      destruct Hend as [_ Hd]. unfold cls_d. now rewrite (Hd eq_refl). }
    rewrite E. exact Hk.
  - inversion Hnums as [|? ? [Hx1 Hx2] Hnums']; subst.
    destruct fuel as [|fuel]; [cbn in Hfuel; lia|]. cbn [starLoop].
    assert (E : run (Seq (Lit ".") digits1)
                  (fun st1 => if (pos (MState n (furtherNumbers (x :: nums) ++ rest0) cs)
                                  <? pos st1)%nat
                              then starLoop (run (Seq (Lit ".") digits1)) k fuel st1
                              else None)
                  (MState n (furtherNumbers (x :: nums) ++ rest0) cs) = Some res).
    { rewrite run_Seq. unfold furtherNumbers. cbn [map concat]. fold (furtherNumbers nums).
      rewrite <- !app_assoc. rewrite run_Lit_match.
      unfold digits1. apply run_plus_chr_greedy; [exact Hx1|exact Hx2| |].
      - now apply furtherNumbers_head.
      - cbn [pos length list_ascii_of_string].
        replace (n <? n + 1 + length x)%nat with true
          by (symmetry; apply Nat.ltb_lt; lia).
        apply IH; [exact Hnums'|exact Hend|cbn in Hfuel; lia|].
        rewrite <- Hk. f_equal. f_equal. unfold furtherNumbers. cbn [map concat length].
        rewrite !length_app. cbn [length list_ascii_of_string]. lia. }
    rewrite E. reflexivity.
Qed.

(** A dotted number is read to its end when what follows cannot
    continue it and the rest of the pattern matches from there. *)
Lemma run_dotted_greedy : forall x nums rest0 k res n cs,
  Forall isNumber (x :: nums) -> endsNumber rest0 ->
  k (MState (n + length (Join (x :: nums) ".")) rest0 cs) = Some res ->
  run dottedNumber k (MState n (Join (x :: nums) "." ++ rest0) cs) = Some res.
Proof.
  intros x nums rest0 k res n cs Hnums Hend Hk.
  inversion Hnums as [|? ? [Hx1 Hx2] Hnums']; subst.
  rewrite Join_furtherNumbers in *. unfold dottedNumber. rewrite run_Seq, <- app_assoc.
  unfold digits1 at 1. apply run_plus_chr_greedy; [exact Hx1|exact Hx2| |].
  - now apply furtherNumbers_head.
  - cbn [run rest]. apply starLoop_furtherNumbers; [exact Hnums'|exact Hend| |].
    + rewrite length_app. pose proof (furtherNumbers_length nums). lia.
    + rewrite <- Hk. f_equal. f_equal. rewrite length_app. lia.
Qed.

Lemma run_Lit_exact : forall lit k n cs s,
  s = lit -> run (Lit lit) k (MState n s cs) = k (MState (n + length lit) [] cs).
Proof.
  intros lit k n cs s ->. pose proof (run_Lit_match lit k n [] cs) as H.
  now rewrite app_nil_r in H.
Qed.

Lemma capture_exact : forall i n w cs cs',
  capture i (MState n w cs) (MState (n + length w) [] cs')
  = MState (n + length w) [] (setCap i w cs').
Proof.
  intros i n w cs cs'. pose proof (capture_app i n w [] cs cs') as H.
  now rewrite app_nil_r in H.
Qed.

Ltac word_mismatch :=
  rewrite run_Alt;
  first [ rewrite run_Lit_mismatch by reflexivity
        | rewrite (run_Seq (Lit "M") digits1), run_Lit_mismatch by reflexivity ];
  cbv iota.

(** The alternatives read a qualifier as a whole. *)
Lemma qualifierWord_match : forall q k n cs res,
  isQualifier q ->
  k (MState (n + length q) [] cs) = Some res ->
  run qualifierWord k (MState n q cs) = Some res.
Proof.
  intros q k n cs res [[suffix H]|[ds [[Hd1 Hd2] ->]]] Hk.
  - unfold mavenQualifiers in H. cbn [map In fst snd] in H. unfold qualifierWord.
    destruct H as [H|[H|[H|[H|[H|[H|[H|[H|[]]]]]]]]]; injection H as <- <-;
      repeat word_mismatch; try rewrite run_Alt;
      erewrite run_Lit_exact by reflexivity;
      first [ exact Hk
            | match goal with
              | |- match ?X with _ => _ end = _ =>
                  replace X with (Some res) by (symmetry; exact Hk)
              end; reflexivity ].
  - unfold qualifierWord. repeat word_mismatch.
    try rewrite run_Alt. rewrite (run_Seq (Lit "M") digits1), run_Lit_match.
    assert (E : run digits1 k (MState (n + length (list_ascii_of_string "M")) (ds ++ []) cs)
                = Some res).
    { unfold digits1. apply run_plus_chr_greedy; [exact Hd1|exact Hd2|exact I|].
      rewrite <- Hk. f_equal. f_equal. rewrite length_app. lia. }
    rewrite app_nil_r in E. rewrite E. reflexivity.
Qed.

Lemma qualifier_head : forall q,
  isQualifier q ->
  exists c r, q = c :: r /\ isDigit c = false /\ oneOf "-." c = false.
Proof.
  intros q [[suffix H]|[ds [_ ->]]].
  - unfold mavenQualifiers in H. cbn [map In fst snd] in H.
    destruct H as [H|[H|[H|[H|[H|[H|[H|[H|[]]]]]]]]]; injection H as <- <-;
      eexists; eexists; (split; [reflexivity|split; reflexivity]).
  - eexists. eexists. split; [reflexivity|]. split; reflexivity.
Qed.

Lemma qualifier_endsNumber : forall sep q,
  In sep mavenSeparators -> isQualifier q -> endsNumber (sep ++ q).
Proof.
  intros sep q Hsep Hq. destruct (qualifier_head q Hq) as [c [r [-> [Hc Ho]]]].
  cbn in Hsep. destruct Hsep as [<-|[<-|[<-|[]]]]; cbn [app list_ascii_of_string endsNumber].
  - split; [reflexivity|discriminate].
  - split; [reflexivity|]. intros _. exact Hc.
  - split; [exact Hc|]. intros ->. discriminate Ho.
Qed.

(** The qualifier pattern on a dotted number, a separator and a
    qualifier: group 1 is the number and group 2 the qualifier. *)
Lemma mavenQualifierRegex_match : forall x nums sep q,
  Forall isNumber (x :: nums) -> In sep mavenSeparators -> isQualifier q ->
  FindStringSubmatch mavenQualifierRegex 2 (Join (x :: nums) "." ++ sep ++ q)
  = Some [Join (x :: nums) "." ++ sep ++ q; Join (x :: nums) "."; q].
Proof.
  intros x nums sep q Hnums Hsep Hq.
  apply matchAt_found. unfold matchAt. cbn [skipn repeat].
  set (base := Join (x :: nums) "."). set (line := base ++ sep ++ q).
  assert (E : run (Grp 0 mavenQualifierRegex) Some (MState 0 line [[]; []; []])
              = Some (MState (length line) [] [line; base; q])).
  { change mavenQualifierRegex
      with (Cat [Bol; Grp 1 dottedNumber;
                 Opt (Seq (Opt (Chr (oneOf "-."))) (Grp 2 qualifierWord)); Eol]).
    cbn [Cat]. rewrite run_Grp, run_Seq, run_Bol. cbn [pos Nat.eqb].
    rewrite run_Seq, run_Grp. unfold line, base.
    apply run_dotted_greedy; [exact Hnums|now apply qualifier_endsNumber|].
    fold base. cbv beta. rewrite capture_app. cbn [setCap].
    rewrite run_Seq. unfold Opt at 1. rewrite run_Alt.
    set (K := run Eol (fun st1 => Some (capture 0 (MState 0 (base ++ sep ++ q)
                                                   [[]; []; []]) st1))).
    assert (G : forall n,
              (n = length base + length sep)%nat ->
              run (Grp 2 qualifierWord) K (MState n q [[]; base; []])
              = Some (MState (length line) [] [line; base; q])).
    { intros n Hn. rewrite run_Grp. apply qualifierWord_match; [exact Hq|].
      cbv beta. rewrite capture_exact. unfold K. rewrite run_Eol. cbn [rest setCap].
      unfold capture. cbn [pos rest caps setCap]. fold line.
      assert (Hlen : (n + length q)%nat = length line).
      { unfold line. rewrite !length_app. lia. }
      rewrite Hlen, Nat.sub_0_r, firstn_all. reflexivity. }
    assert (F : run (Seq (Opt (Chr (oneOf "-."))) (Grp 2 qualifierWord)) K
                  (MState (0 + length base) (sep ++ q) [[]; base; []])
                = Some (MState (length line) [] [line; base; q])).
    { rewrite run_Seq. unfold Opt. rewrite run_Alt, run_Chr. cbn [rest pos caps].
      destruct (qualifier_head q Hq) as [c [r [Eq [Hc Ho]]]].
      clearbody K line. cbn in Hsep. destruct Hsep as [<-|[<-|[<-|[]]]].
      - cbn [app].
        change (oneOf "-." "-") with true. cbv iota.
        rewrite G by (cbn [length list_ascii_of_string]; lia). reflexivity.
      - cbn [app].
        change (oneOf "-." ".") with true. cbv iota.
        rewrite G by (cbn [length list_ascii_of_string]; lia). reflexivity.
      - cbn [app].
        rewrite Eq. rewrite Ho. rewrite run_Eps. rewrite <- Eq.
        rewrite G by (cbn [length list_ascii_of_string]; lia). reflexivity. }
    match goal with
    | |- match ?X with _ => _ end = _ =>
        replace X with (Some (MState (length line) [] [line; base; q]))
          by (symmetry; exact F)
    end. reflexivity. }
  rewrite E. reflexivity.
Qed.

Lemma capture_at : forall i n m w s rest0 cs cs',
  s = w ++ rest0 -> m = (n + length w)%nat ->
  capture i (MState n s cs) (MState m rest0 cs') = MState m rest0 (setCap i w cs').
Proof. intros i n m w s rest0 cs cs' -> ->. apply capture_app. Qed.

Lemma run_Rep_chr : forall p l k n rest0 cs,
  Forall (fun c => p c = true) l ->
  run (Rep (length l) (Chr p)) k (MState n (l ++ rest0) cs)
  = k (MState (n + length l) rest0 cs).
Proof.
  intros p. induction l as [|c l IH]; intros k n rest0 cs H.
  - cbn [length Rep app]. rewrite run_Eps. now rewrite Nat.add_0_r.
  - inversion H as [|? ? Hc Hl]; subst. cbn [length Rep app].
    rewrite run_Seq, run_Chr. cbn [rest pos caps]. rewrite Hc.
    rewrite IH by exact Hl. f_equal. f_equal. lia.
Qed.

(** The build pattern on a dotted number alone: group 1 is the number,
    the other groups are empty. *)
Lemma mavenBuildRegex_base : forall x nums,
  Forall isNumber (x :: nums) ->
  FindStringSubmatch mavenBuildRegex 3 (Join (x :: nums) ".")
  = Some [Join (x :: nums) "."; Join (x :: nums) "."; []; []].
Proof.
  intros x nums Hnums. apply matchAt_found. unfold matchAt. cbn [skipn repeat].
  set (base := Join (x :: nums) ".").
  assert (E : run (Grp 0 mavenBuildRegex) Some (MState 0 (base ++ []) [[]; []; []; []])
              = Some (MState (length base) [] [base; base; []; []])).
  { unfold mavenBuildRegex. cbn [Cat].
    rewrite run_Grp, run_Seq, run_Bol. cbn [pos Nat.eqb].
    rewrite run_Seq, run_Grp. unfold base.
    apply run_dotted_greedy; [exact Hnums|exact I|].
    fold base. cbv beta. rewrite capture_app. cbn [setCap].
    rewrite run_Seq. unfold Opt at 1. rewrite run_Alt.
    match goal with
    | |- match ?X with _ => _ end = _ => replace X with (@None mstate) by reflexivity
    end.
    rewrite run_Eps, run_Eol. cbn [rest].
    unfold capture. cbn [pos rest caps setCap].
    rewrite app_nil_r, Nat.sub_0_r, Nat.add_0_l, firstn_all. reflexivity. }
  rewrite app_nil_r in E. rewrite E. reflexivity.
Qed.

(** The build pattern on a dotted number, a dash, a time stamp of
    eight and six digits, a dash and a build number. *)
Lemma mavenBuildRegex_timestamp : forall x nums d8 d6 buildNum,
  Forall isNumber (x :: nums) ->
  length d8 = 8%nat -> Forall (fun c => isDigit c = true) d8 ->
  length d6 = 6%nat -> Forall (fun c => isDigit c = true) d6 ->
  isNumber buildNum ->
  FindStringSubmatch mavenBuildRegex 3
    (Join (x :: nums) "." ++ "-" ++ d8 ++ "." ++ d6 ++ "-" ++ buildNum)
  = Some [Join (x :: nums) "." ++ "-" ++ d8 ++ "." ++ d6 ++ "-" ++ buildNum;
          Join (x :: nums) "."; d8 ++ "." ++ d6; buildNum].
Proof.
  intros x nums d8 d6 buildNum Hnums H8 Hd8 H6 Hd6 [Hb1 Hb2].
  apply matchAt_found. unfold matchAt. cbn [skipn repeat].
  set (base := Join (x :: nums) ".").
  set (line := base ++ "-" ++ d8 ++ "." ++ d6 ++ "-" ++ buildNum).
  assert (E : run (Grp 0 mavenBuildRegex) Some (MState 0 line [[]; []; []; []])
              = Some (MState (length line) [] [line; base; d8 ++ "." ++ d6; buildNum])).
  { unfold mavenBuildRegex. cbn [Cat].
    rewrite run_Grp, run_Seq, run_Bol. cbn [pos Nat.eqb].
    rewrite run_Seq, run_Grp. unfold line, base.
    apply run_dotted_greedy; [exact Hnums|split; [reflexivity|discriminate]|].
    fold base. cbv beta. rewrite capture_app. cbn [setCap].
    set (K := fun st1 => Some (capture 0 (MState 0 (base ++ "-" ++ d8 ++ "." ++ d6
                                                    ++ "-" ++ buildNum)
                                           [[]; []; []; []]) st1)).
    rewrite run_Seq. unfold Opt at 1. rewrite run_Alt.
    match goal with
    | |- match ?X with _ => _ end = _ =>
        assert (F : X = Some (MState (length line) []
                                [line; base; d8 ++ "." ++ d6; buildNum]))
    end.
    { rewrite !run_Seq. unfold Opt. rewrite run_Alt, run_Chr. cbn [rest pos caps].

      match goal with
      | |- match ?Y with _ => _ end = _ =>
          assert (G : Y = Some (MState (length line) []
                                  [line; base; d8 ++ "." ++ d6; buildNum]))
      end.
      { change (list_ascii_of_string "-" ++ d8 ++ "." ++ d6 ++ "-" ++ buildNum)
          with ("-"%char :: d8 ++ "." ++ d6 ++ "-" ++ buildNum).
        cbv iota.
        match goal with
        | |- (if ?b then _ else _) = _ => change b with true
        end.
        cbv iota.
        rewrite (run_Seq (Grp 2 _)), run_Grp, (run_Seq (Rep 8 _)).
        replace (Rep 8 (Chr cls_d)) with (Rep (length d8) (Chr cls_d))
          by (now rewrite H8).
        rewrite run_Rep_chr by exact Hd8.
        rewrite (run_Seq (Lit ".")), run_Lit_match.
        replace (Rep 6 (Chr cls_d)) with (Rep (length d6) (Chr cls_d))
          by (now rewrite H6).
        rewrite run_Rep_chr by exact Hd6.
        rewrite (capture_at 2 _ _ (d8 ++ "." ++ d6))
          by (rewrite <- ?app_assoc; try reflexivity;
              rewrite !length_app; cbn [length list_ascii_of_string]; lia).
        cbn [setCap]. rewrite (run_Seq (Lit "-")), run_Lit_match, run_Grp.
        assert (D : forall k n cs res,
                  k (MState (n + length buildNum) [] cs) = Some res ->
                  run digits1 k (MState n buildNum cs) = Some res).
        { intros k n cs res Hk.
          pose proof (run_plus_chr_greedy cls_d k buildNum [] res n cs Hb1 Hb2 I Hk) as R.
          now rewrite app_nil_r in R. }
        apply D. rewrite capture_exact. cbn [setCap].
        rewrite run_Eol. cbn [rest]. unfold K, capture. cbn [pos rest caps setCap].
        fold line.
        match goal with
        | |- Some {| pos := ?n; rest := _; caps := _ |} = _ =>
            assert (Hlen : n = length line)
              by (unfold line; rewrite !length_app; cbn [length list_ascii_of_string];
                  lia)
        end.
        rewrite Hlen, Nat.sub_0_r, firstn_all. reflexivity. }
      rewrite G. reflexivity. }
    rewrite F. reflexivity. }
  rewrite E. reflexivity.
Qed.

Lemma mavenRangeRegex_digit : forall c s,
  isDigit c = true -> isMavenVersionRange (c :: s) = false.
Proof.
  intros c s H. unfold isMavenVersionRange, MatchString, mavenRangeRegex.
  cbn [Cat]. rewrite (anchored_None _ 2 (c :: s)); [reflexivity|].
  unfold matchAt. rewrite run_Grp, run_Seq, run_Bol. cbn [pos Nat.eqb skipn].
  rewrite run_Seq, run_Chr. cbn [rest].
  assert (E : oneOf "[(" c = false).
  { unfold oneOf. cbn [existsb list_ascii_of_string].
    assert (Ascii.eqb c "[" = false) as -> by (apply Ascii.eqb_neq; intros ->; discriminate).
    assert (Ascii.eqb c "(" = false) as -> by (apply Ascii.eqb_neq; intros ->; discriminate).
    reflexivity. }
  now rewrite E.
Qed.

Lemma dottedNumber_head : forall x nums,
  Forall isNumber (x :: nums) ->
  exists c r, Join (x :: nums) "." = c :: r /\ isDigit c = true.
Proof.
  intros x nums H. inversion H as [|? ? [Hx1 Hx2] _]; subst.
  rewrite Join_furtherNumbers. destruct x as [|c x]; [contradiction|].
  inversion Hx2; subst. now exists c, (x ++ furtherNumbers nums).
Qed.

(** A text that holds a qualifier is no build version. *)
Lemma mavenBuildRegex_qualified : forall base sep q,
  isQualifier q -> FindStringSubmatch mavenBuildRegex 3 (base ++ sep ++ q) = None.
Proof.
  intros base sep q Hq.
  destruct (FindStringSubmatch mavenBuildRegex 3 (base ++ sep ++ q)) as [m|] eqn:E;
    [|reflexivity].
  apply mavenBuildRegex_bytes in E.
  destruct (qualifier_head q Hq) as [c [r [-> [Hc Ho]]]].
  rewrite Forall_forall in E.
  assert (Hin : In c (base ++ sep ++ c :: r)).
  { rewrite !in_app_iff. right. right. now left. }
  apply E in Hin. unfold buildByte in Hin. rewrite Hc in Hin.
  unfold oneOf in Ho. cbn [existsb list_ascii_of_string] in Ho.
  apply orb_false_elim in Ho. destruct Ho as [H1 H2].
  apply orb_false_elim in H2. destruct H2 as [H2 _].
  rewrite H1, H2 in Hin. discriminate Hin.
Qed.

Lemma qualified_word : forall whole base q suffix,
  In (q, suffix) mavenQualifiers ->
  qualifiedMavenVersion [whole; base; q] = base ++ suffix.
Proof.
  intros whole base q suffix H. unfold mavenQualifiers in H. cbn [map In fst snd] in H.
  destruct H as [H|[H|[H|[H|[H|[H|[H|[H|[]]]]]]]]]; injection H as <- <-;
    unfold qualifiedMavenVersion, sub; cbn [nth];
    repeat match goal with
           | |- context [eqs ?a ?b] =>
               let v := eval vm_compute in (eqs a b) in change (eqs a b) with v
           end;
    cbn [orb]; cbv iota; rewrite ?app_nil_r; reflexivity.
Qed.

Lemma qualified_milestone : forall whole base ds,
  isNumber ds ->
  qualifiedMavenVersion [whole; base; "M" ++ ds] = base ++ "-m" ++ ds.
Proof.
  intros whole base ds [_ Hds]. unfold qualifiedMavenVersion, sub. cbn [nth].
  rewrite !(eqs_neq ("M" ++ ds)) by discriminate. cbn [orb].
  unfold ToLower. cbn [map app list_ascii_of_string].
  rewrite (map_fixed lowerByte ds); [reflexivity|].
  eapply Forall_impl; [|exact Hds]. intros c Hc. now apply isDigit_lower.
Qed.

Lemma plainCanon_intro : forall text canonical,
  (exists c r, text = c :: r /\ isDigit c = true) ->
  canonicalizeMavenVersion text = canonical ->
  plainCanon text canonical.
Proof.
  intros text canonical [c [r [-> Hc]]] E. unfold plainCanon, parseMavenVersion.
  rewrite (eqs_neq (c :: r) []) by discriminate.
  rewrite (mavenRangeRegex_digit c r Hc).
  eexists. split; [reflexivity|]. split; [reflexivity|exact E].
Qed.

Lemma dottedNumber_prefix_head : forall x nums tail,
  Forall isNumber (x :: nums) ->
  exists c r, Join (x :: nums) "." ++ tail = c :: r /\ isDigit c = true.
Proof.
  intros x nums tail H. destruct (dottedNumber_head x nums H) as [c [r [-> Hc]]].
  now exists c, (r ++ tail).
Qed.

Lemma canonicalize_qualified : forall x nums sep q,
  Forall isNumber (x :: nums) -> In sep mavenSeparators -> isQualifier q ->
  canonicalizeMavenVersion (Join (x :: nums) "." ++ sep ++ q)
  = qualifiedMavenVersion [Join (x :: nums) "." ++ sep ++ q; Join (x :: nums) "."; q].
Proof.
  intros x nums sep q Hnums Hsep Hq. unfold canonicalizeMavenVersion.
  rewrite (mavenBuildRegex_qualified _ sep q Hq).
  now rewrite (mavenQualifierRegex_match x nums sep q Hnums Hsep Hq).
Qed.

(** C6.  A plain version made of a dotted number alone is its own
    canonical form.  Followed by a dash, a dot or nothing and a
    qualifier, its canonical form is the number alone for RELEASE,
    FINAL and GA, the number with [-snapshot] for SNAPSHOT and with
    [-build] for BUILD, and the number, a dash and the qualifier in
    lower case for SP, RC, PRE and M with a number; 1.0.0-RELEASE has
    the canonical form 1.0.0.  Followed by a dash and a time stamp with
    a build number it is the number with [-build.] and the build
    number.  A range, written with either bracket on either side around
    two ASCII bounds separated by a comma, is parsed as a range whose
    canonical form renders the two trimmed bounds, each canonicalized
    on its own: both empty as a star, an empty lower bound as
    [<=upper], an empty upper bound as [>=lower], and otherwise
    [lower-upper]. *)
Theorem mavenCanon_versions_and_ranges : forall (x : gostring) (nums : list gostring),
  Forall isNumber (x :: nums) ->
  plainCanon (Join (x :: nums) ".") (Join (x :: nums) ".")
  /\ (forall sep q suffix,
        In sep mavenSeparators -> In (q, suffix) mavenQualifiers ->
        plainCanon (Join (x :: nums) "." ++ sep ++ q) (Join (x :: nums) "." ++ suffix))
  /\ (forall sep ds,
        In sep mavenSeparators -> isNumber ds ->
        plainCanon (Join (x :: nums) "." ++ sep ++ "M" ++ ds)
                   (Join (x :: nums) "." ++ "-m" ++ ds))
  /\ (forall d8 d6 buildNum,
        length d8 = 8%nat -> Forall (fun c => isDigit c = true) d8 ->
        length d6 = 6%nat -> Forall (fun c => isDigit c = true) d6 ->
        isNumber buildNum ->
        plainCanon (Join (x :: nums) "." ++ "-" ++ d8 ++ "." ++ d6 ++ "-" ++ buildNum)
                   (Join (x :: nums) "." ++ "-build." ++ buildNum))
  /\ (forall (o c : ascii) (lo up : gostring),
        isOpen o -> isClose c -> is_ascii lo -> is_ascii up ->
        Forall (fun b => noneOf ",]" b = true) lo ->
        Forall (fun b => noneOf "])" b = true) up ->
        exists v, parseMavenVersion (o :: lo ++ "," ++ up ++ [c]) = Ok v
                  /\ isRange v = true
                  /\ mavenCanon v false
                     = renderMavenRange (TrimSpace lo) (TrimSpace up)).
Proof.
  intros x nums Hnums. split; [|split; [|split; [|split]]].
  - apply plainCanon_intro; [now apply dottedNumber_head|].
    unfold canonicalizeMavenVersion. rewrite (mavenBuildRegex_base x nums Hnums).
    reflexivity.
  - intros sep q suffix Hsep Hq.
    apply plainCanon_intro; [now apply dottedNumber_prefix_head|].
    rewrite canonicalize_qualified; [|exact Hnums|exact Hsep|left; now exists suffix].
    now apply qualified_word.
  - intros sep ds Hsep Hds.
    apply plainCanon_intro; [now apply dottedNumber_prefix_head|].
    rewrite canonicalize_qualified; [|exact Hnums|exact Hsep|right; now exists ds].
    now apply qualified_milestone.
  - intros d8 d6 buildNum H8 Hd8 H6 Hd6 Hb.
    apply plainCanon_intro; [now apply dottedNumber_prefix_head|].
    unfold canonicalizeMavenVersion.
    rewrite (mavenBuildRegex_timestamp x nums d8 d6 buildNum Hnums H8 Hd8 H6 Hd6 Hb).
    unfold sub. cbn [nth].
    rewrite (eqs_neq (d8 ++ "." ++ d6) []), (eqs_neq buildNum []); [reflexivity| |].
    + apply Hb.
    + destruct d8; [discriminate H8|discriminate].
  - intros o c lo up Ho Hc _ _ Hlo Hup.
    pose proof (mavenRangeRegex_match o c lo up Ho Hc Hlo Hup) as Hm.
    unfold parseMavenVersion, isMavenVersionRange, MatchString.
    rewrite Hm. change (eqs (o :: lo ++ "," ++ up ++ [c]) []) with false. cbv iota.
    eexists. repeat split. cbn [mavenCanon maven_version].
    unfold canonicalizeMavenRange. rewrite Hm. unfold sub. cbn [nth].
    unfold renderMavenRange.
    pose proof (canonicalizeMavenVersion_nonempty (TrimSpace lo)) as Hl.
    pose proof (canonicalizeMavenVersion_nonempty (TrimSpace up)) as Hu.
    destruct (TrimSpace lo) as [|a l]; destruct (TrimSpace up) as [|b u];
      rewrite ?eqs_refl, ?(eqs_neq (a :: l) []), ?(eqs_neq (b :: u) []) by discriminate;
      rewrite ?(eqs_neq _ [] (Hl ltac:(discriminate))),
              ?(eqs_neq _ [] (Hu ltac:(discriminate)));
      reflexivity.
Qed.

Lemma mavenCanon_versions_and_ranges_witness :
  plainCanon "1.0.0-RELEASE" "1.0.0"
  /\ plainCanon "1.0.0.SNAPSHOT" "1.0.0-snapshot"
  /\ plainCanon "1.0.0-M1" "1.0.0-m1"
  /\ plainCanon "1.0.0-20131201.121010-1" "1.0.0-build.1"
  /\ (exists v, parseMavenVersion "[1.0,2.0)" = Ok v
                /\ isRange v = true
                /\ mavenCanon v false = "1.0-2.0").
Proof.
  assert (Hnums : Forall isNumber (textLines ["1"; "0"; "0"])).
  { repeat constructor; discriminate. }
  pose proof (mavenCanon_versions_and_ranges "1" (textLines ["0"; "0"]) Hnums)
    as (_ & Hq & Hm & Ht & Hr).
  split; [|split; [|split; [|split]]].
  - apply (Hq ("-" : gostring) ("RELEASE" : gostring) []); cbn; tauto.
  - apply (Hq ("." : gostring) ("SNAPSHOT" : gostring) ("-snapshot" : gostring));
      cbn; tauto.
  - apply (Hm ("-" : gostring) ("1" : gostring)); [cbn; tauto|].
    split; [discriminate|repeat constructor].
  - apply (Ht ("20131201" : gostring) ("121010" : gostring) ("1" : gostring));
      try reflexivity; try (repeat constructor). discriminate.
  - refine (Hr "["%char ")"%char ("1.0" : gostring) ("2.0" : gostring) _ _ _ _ _ _).
    + now left.
    + now right.
    + apply is_ascii_check. reflexivity.
    + apply is_ascii_check. reflexivity.
    + repeat constructor.
    + repeat constructor.
Defined.

(** *** yarn.lock: a Berry entry *)

(** C8 fails on every Berry lockfile, here on one with a single npm
    entry: the format is detected as Berry, and whatever the options
    and the filter no record is produced, where the claim has the entry
    emitted with the version 4.18.2.  The version pattern asks for
    leading white space and finds the version on the line as it stands
    in the file, but the loop applies it to the trimmed line, on which
    it finds nothing; [parseYarnVersion] is never reached. *)
Theorem ParseYarnLock_berry_entry_not_emitted :
  forall (NPMLockFileOptions : Type)
         (newFilter : NPMLockFileOptions -> DeclaredSets -> Appender)
         (options : NPMLockFileOptions),
  DetectYarnVersion (yarnText yarnBerryExpress) = "berry"
  /\ ParseYarnLockWithOptions newFilter yarnBerryExpress (Some someManifest) options = []
  /\ specYarnVersion "4.18.2" "npm" "express@npm:4.18.2" = "4.18.2"
  /\ FindStringSubmatch berryVersionPattern 1 "  version: 4.18.2"
     = Some ["  version: 4.18.2" : gostring; "4.18.2" : gostring]
  /\ FindStringSubmatch berryVersionPattern 1 (TrimSpace "  version: 4.18.2") = None.
Proof.
  intros O newFilter options.
  split; [vm_compute; reflexivity|]. split; [|repeat split; vm_compute; reflexivity].
  unfold ParseYarnLockWithOptions.
  change (eqs (DetectYarnVersion (yarnText yarnBerryExpress)) "berry") with true.
  cbv iota. unfold parseYarnLockBerryWithOptions.
  generalize (berryFilter newFilter yarnBerryExpress someManifest options).
  intros f. vm_compute. reflexivity.
Qed.

Import License.

(** *** License normalization *)

Lemma lookup_In : forall m k v, lookup m k = Some v -> In (k, v) m.
Proof.
  induction m as [|[k' v'] m IH]; intros k v H; [discriminate|].
  cbn [lookup] in H. destruct (eqs k' k) eqn:E.
  - apply eqs_eq in E. injection H as <-. subst. now left.
  - right. now apply IH.
Qed.

(** The table reads the same in lower case: the lower-case form of
    every key is a key, with the same identifier. *)
Lemma mappings_lower : forall k v,
  In (k, v) mappings -> lookup mappings (ToLower k) = Some v.
Proof.
  assert (H : forallb (fun kv => match lookup mappings (ToLower (fst kv)) with
                                 | Some v => eqs v (snd kv)
                                 | None => false
                                 end) mappings = true) by (vm_compute; reflexivity).
  rewrite forallb_forall in H. intros k v Hin. specialize (H _ Hin).
  cbn [fst snd] in H. destruct (lookup mappings (ToLower k)) as [v'|]; [|discriminate].
  apply eqs_eq in H. now subst.
Qed.

Lemma identifiers_fixed : forall v, In v spdxIdentifiers -> Normalize v = v /\ v <> [].
Proof.
  assert (H : forallb (fun v => eqs (Normalize v) v && negb (eqs v [])) spdxIdentifiers
              = true) by (vm_compute; reflexivity).
  rewrite forallb_forall in H. intros v Hin. specialize (H _ Hin).
  apply andb_prop in H. destruct H as [H1 H2]. split; [now apply eqs_eq|].
  intros ->. discriminate H2.
Qed.

Lemma lookup_identifier : forall k v, lookup mappings k = Some v -> In v spdxIdentifiers.
Proof.
  intros k v H. apply lookup_In in H. unfold spdxIdentifiers.
  change v with (snd (k, v)). now apply in_map.
Qed.

Lemma Normalize_eq : forall x,
  Normalize x
  = match lookup mappings (cleaned x) with
    | Some spdx => spdx
    | None => match lookup mappings (ToLower (cleaned x)) with
              | Some spdx => spdx
              | None => cleaned x
              end
    end.
Proof.
  intros [|c s]; [vm_compute; reflexivity|]. reflexivity.
Qed.

Lemma ToLower_nil : forall s, ToLower s = [] -> s = [].
Proof. intros [|c s] H; [reflexivity|discriminate H]. Qed.

Lemma known_lookup : forall x,
  known x -> exists v, lookup mappings (ToLower (cleaned x)) = Some v /\ Normalize x = v.
Proof.
  intros x Hk. rewrite Normalize_eq.
  destruct (lookup mappings (cleaned x)) as [v|] eqn:E1.
  - exists v. split; [|reflexivity]. apply mappings_lower. now apply lookup_In.
  - destruct Hk as [Hk|Hk]; [contradiction|].
    destruct (lookup mappings (ToLower (cleaned x))) as [v|]; [|contradiction].
    now exists v.
Qed.

Lemma Normalize_nil : forall x, Normalize x = [] <-> cleaned x = [].
Proof.
  intros x. rewrite Normalize_eq. split.
  - destruct (lookup mappings (cleaned x)) as [v|] eqn:E1.
    + intros ->. apply lookup_identifier, identifiers_fixed in E1. now destruct E1.
    + destruct (lookup mappings (ToLower (cleaned x))) as [v|] eqn:E2; [|auto].
      intros ->. apply lookup_identifier, identifiers_fixed in E2. now destruct E2.
  - intros ->. reflexivity.
Qed.

(** [Normalize] on ASCII text.  The result is empty exactly when the
    text is empty once trimmed of white space and then of quotes.  It
    is an identifier of the table or the trimmed text, unchanged.
    Every identifier of the table is returned for itself, so a result
    that is one is stable.  A text the table knows gives the same
    identifier in any spelling of its letters' case and with any
    quoting.  A text the table
    does not know may change when normalized again, since white space
    inside the quotes is only seen the second time. *)
Theorem Normalize_known : forall x y,
  is_ascii x -> is_ascii y ->
  (Normalize x = [] <-> cleaned x = [])
  /\ (In (Normalize x) spdxIdentifiers \/ Normalize x = cleaned x)
  /\ (In (Normalize x) spdxIdentifiers -> Normalize (Normalize x) = Normalize x)
  /\ (known x -> In (Normalize x) spdxIdentifiers)
  /\ (known x -> ToLower (cleaned y) = ToLower (cleaned x) ->
      Normalize y = Normalize x).
Proof.
  intros x y _ _. split; [apply Normalize_nil|]. split; [|split; [|split]].
  - rewrite Normalize_eq.
    destruct (lookup mappings (cleaned x)) as [v|] eqn:E1;
      [left; eapply lookup_identifier; exact E1|].
    destruct (lookup mappings (ToLower (cleaned x))) as [v|] eqn:E2;
      [left; eapply lookup_identifier; exact E2|now right].
  - intros H. now apply identifiers_fixed.
  - intros Hk. destruct (known_lookup x Hk) as [v [Hv ->]].
    eapply lookup_identifier. exact Hv.
  - intros Hk Hy'. destruct (known_lookup x Hk) as [v [Hv ->]].
    rewrite Normalize_eq, Hy', Hv.
    destruct (lookup mappings (cleaned y)) as [v'|] eqn:E1; [|reflexivity].
    apply lookup_In, mappings_lower in E1. rewrite Hy', Hv in E1. now injection E1.
Qed.

Lemma Normalize_known_witness :
  Normalize " 'apache-2.0' " = "Apache-2.0"
  /\ Normalize "APACHE-2.0" = Normalize " 'apache-2.0' "
  /\ Normalize "' MIT '" = " MIT "
  /\ Normalize " MIT " = "MIT".
Proof.
  split; [reflexivity|]. split; [|split; reflexivity].
  refine (proj2 (proj2 (proj2 (proj2
            (Normalize_known " 'apache-2.0' " "APACHE-2.0" _ _)))) _ _).
  - apply is_ascii_check. reflexivity.
  - apply is_ascii_check. reflexivity.
  - left. vm_compute. discriminate.
  - reflexivity.
Defined.

(** [IsSPDXValid] on ASCII text: every text the table knows is valid,
    in any spelling and quoting [Normalize] accepts, and so is every
    identifier of the table ([Proprietary] included); a text that is
    empty once trimmed is not. *)
Theorem IsSPDXValid_known : forall x,
  is_ascii x ->
  (known x -> IsSPDXValid x = true)
  /\ (cleaned x = [] -> IsSPDXValid x = false)
  /\ (forall v, In v spdxIdentifiers -> IsSPDXValid v = true).
Proof.
  assert (K : forall x, x <> [] -> In (Normalize x) spdxIdentifiers ->
                        IsSPDXValid x = true).
  { intros x Hne Hin. unfold IsSPDXValid. rewrite (eqs_neq _ _ Hne).
    assert (E : existsb (fun kv => eqs (snd kv) (Normalize x)) mappings = true).
    { apply existsb_exists. unfold spdxIdentifiers in Hin. apply in_map_iff in Hin.
      destruct Hin as [kv [Hkv Hin]]. exists kv. split; [exact Hin|].
      rewrite Hkv. apply eqs_refl. }
    now rewrite E. }
  intros x _. split; [|split].
  - intros Hk. apply K.
    + intros ->. destruct Hk as [Hk|Hk]; apply Hk; reflexivity.
    + destruct (known_lookup x Hk) as [v [Hv ->]]. eapply lookup_identifier. exact Hv.
  - intros Hc. unfold IsSPDXValid. destruct (eqs x []); [reflexivity|].
    apply Normalize_nil in Hc. rewrite Hc. reflexivity.
  - intros v Hv. destruct (identifiers_fixed v Hv) as [Hf Hne].
    apply K; [exact Hne|]. now rewrite Hf.
Qed.

Lemma IsSPDXValid_known_witness :
  IsSPDXValid " 'Closed Source' " = true
  /\ IsSPDXValid "  " = false
  /\ IsSPDXValid "Proprietary" = true
  /\ IsSPDXValid "Foo-1.0" = true
  /\ IsSPDXValid "Custom-1.0" = false.
Proof.
  pose proof (IsSPDXValid_known " 'Closed Source' "
                (is_ascii_check " 'Closed Source' " eq_refl)) as H1.
  pose proof (IsSPDXValid_known "  " (is_ascii_check "  " eq_refl)) as H2.
  split; [apply (proj1 H1); right; vm_compute; discriminate|].
  split; [apply (proj1 (proj2 H2)); reflexivity|].
  split; [|split; reflexivity].
  apply (proj2 (proj2 H1)). unfold spdxIdentifiers.
  apply (in_map snd mappings ("proprietary" : gostring, "Proprietary" : gostring)).
  vm_compute. tauto.
Defined.

Lemma has_In : forall set name, has set name = true <-> In name set.
Proof.
  intros set name. unfold has. rewrite existsb_exists. split.
  - intros [y [Hy E]]. apply eqs_eq in E. now subst.
  - intros H. exists name. split; [exact H|apply eqs_refl].
Qed.

Lemma normalizeLoop_spec : forall jsonText licenses seen acc,
  (forall y, In y seen <-> In y acc) -> NoDup acc -> ~ In [] acc ->
  NoDup (normalizeLoop jsonText licenses seen acc)
  /\ ~ In [] (normalizeLoop jsonText licenses seen acc)
  /\ (forall y, In y (normalizeLoop jsonText licenses seen acc)
        <-> In y acc
            \/ (y <> [] /\ exists l, In l licenses /\ normalizedEntry jsonText l = y))
  /\ exists more, normalizeLoop jsonText licenses seen acc = acc ++ more.
Proof.
  intros jsonText. induction licenses as [|l licenses IH]; intros seen acc Hs Hd Hn.
  - cbn [normalizeLoop]. split; [exact Hd|]. split; [exact Hn|]. split.
    + intros y. split; [now left|]. intros [H|[_ [l [[] _]]]]. exact H.
    + exists []. now rewrite app_nil_r.
  - cbn [normalizeLoop]. fold (normalizedEntry jsonText l).
    set (n := normalizedEntry jsonText l).
    destruct (eqs n []) eqn:En; cbn [negb andb].
    + apply eqs_eq in En.
      destruct (IH seen acc Hs Hd Hn) as (I1 & I2 & I3 & I4).
      split; [exact I1|]. split; [exact I2|]. split; [|exact I4].
      intros y. rewrite I3. split.
      * intros [H|[Hy [l' [Hl' E]]]]; [now left|].
        right. split; [exact Hy|]. exists l'. split; [now right|exact E].
      * intros [H|[Hy [l' [[<-|Hl'] E]]]]; [now left| |].
        -- exfalso. apply Hy. rewrite <- E. exact En.
        -- right. split; [exact Hy|]. now exists l'.
    + assert (Hne : n <> []) by (intros E; rewrite E in En; discriminate En).
      destruct (has seen n) eqn:Eh; cbn [negb].
      * apply has_In in Eh. apply Hs in Eh.
        destruct (IH seen acc Hs Hd Hn) as (I1 & I2 & I3 & I4).
        split; [exact I1|]. split; [exact I2|]. split; [|exact I4].
        intros y. rewrite I3. split.
        -- intros [H|[Hy [l' [Hl' E]]]]; [now left|].
           right. split; [exact Hy|]. exists l'. split; [now right|exact E].
        -- intros [H|[Hy [l' [[<-|Hl'] E]]]]; [now left| |].
           ++ left. fold n in E. now rewrite <- E.
           ++ right. split; [exact Hy|]. now exists l'.
      * assert (Hnot : ~ In n acc).
        { intros H. apply Hs in H. apply has_In in H. rewrite H in Eh. discriminate Eh. }
        destruct (IH (n :: seen) (acc ++ [n])) as (I1 & I2 & I3 & I4).
        -- intros y. cbn [In]. rewrite in_app_iff, Hs. cbn [In]. tauto.
        -- apply NoDup_app; [exact Hd|repeat constructor; intros []|].
           intros y Hy [<-|[]]. contradiction.
        -- rewrite in_app_iff. cbn [In]. intros [H|[H|[]]]; [now apply Hn|].
           now apply Hne.
        -- split; [exact I1|]. split; [exact I2|]. split.
           ++ intros y. rewrite I3, in_app_iff. cbn [In]. split.
              ** intros [[H|[<-|[]]]|[Hy [l' [Hl' E]]]]; [now left| |].
                 --- right. split; [exact Hne|]. exists l. split; [now left|reflexivity].
                 --- right. split; [exact Hy|]. exists l'. split; [now right|exact E].
              ** intros [H|[Hy [l' [[<-|Hl'] E]]]]; [now left; left| |].
                 --- left. right. left. exact E.
                 --- right. split; [exact Hy|]. now exists l'.
           ++ destruct I4 as [more I4]. exists (n :: more).
              etransitivity; [exact I4|]. now rewrite <- app_assoc.
Qed.

(** [NormalizeMultiple] on ASCII entries, whatever the JSON decoder
    answers: the result has no duplicate and no empty string, and it
    holds exactly the non-empty texts its entries normalize to (the
    TOML reading of an entry, or [Normalize] of the entry when that
    reading is empty). *)
Theorem NormalizeMultiple_distinct : forall jsonText licenses,
  Forall is_ascii licenses ->
  NoDup (NormalizeMultiple jsonText licenses)
  /\ ~ In [] (NormalizeMultiple jsonText licenses)
  /\ (forall y, In y (NormalizeMultiple jsonText licenses)
        <-> y <> [] /\ exists l, In l licenses /\ normalizedEntry jsonText l = y).
Proof.
  intros jsonText licenses _. unfold NormalizeMultiple.
  destruct licenses as [|l licenses].
  - cbn. split; [constructor|]. split; [tauto|].
    intros y. split; [intros []|]. intros [_ [l [[] _]]].
  - change (length (l :: licenses) =? 0)%nat with false. cbn iota.
    destruct (normalizeLoop_spec jsonText (l :: licenses) [] [])
      as (I1 & I2 & I3 & _); [tauto|constructor|tauto|].
    split; [exact I1|]. split; [exact I2|].
    intros y. rewrite I3. cbn [In]. tauto.
Qed.

Lemma NormalizeMultiple_distinct_witness :
  NoDup (NormalizeMultiple (fun _ => None)
           (textLines ["mit"; " 'MIT' "; "{text = 'Apache 2.0'}"; ""; "Expat"]))
  /\ NormalizeMultiple (fun _ => None)
       (textLines ["mit"; " 'MIT' "; "{text = 'Apache 2.0'}"; ""; "Expat"])
     = textLines ["MIT"; "Apache-2.0"].
Proof.
  split; [|vm_compute; reflexivity].
  refine (proj1 (NormalizeMultiple_distinct (fun _ => None)
           (textLines ["mit"; " 'MIT' "; "{text = 'Apache 2.0'}"; ""; "Expat"]) _)).
  apply is_ascii_lines_check. vm_compute. reflexivity.
Defined.

Lemma appendNormalized_filter : forall parts licenses,
  appendNormalized parts licenses
  = licenses ++ filter (fun n => negb (eqs n []))
                  (map (fun part => Normalize (TrimSpace part)) parts).
Proof.
  induction parts as [|part parts IH]; intros licenses; cbn [appendNormalized map filter].
  - now rewrite app_nil_r.
  - rewrite IH. destruct (negb (eqs (Normalize (TrimSpace part)) []));
      [now rewrite <- app_assoc|reflexivity].
Qed.

Lemma upperByte_letter : forall a c,
  upperByte a = c -> a = c \/ a = lowerByte c.
Proof.
  intros [b0 b1 b2 b3 b4 b5 b6 b7] c <-.
  destruct b0, b1, b2, b3, b4, b5, b6, b7; vm_compute; tauto.
Qed.

Lemma ToUpper_cons : forall t c r,
  c :: r = ToUpper t ->
  exists a t', t = a :: t' /\ (a = c \/ a = lowerByte c) /\ r = ToUpper t'.
Proof.
  intros [|a t] c r H; [discriminate H|]. cbn [ToUpper map] in H.
  injection H as Hc Hr. exists a, t. split; [reflexivity|]. split; [|exact Hr].
  apply upperByte_letter. now symmetry.
Qed.

Lemma ToUpper_nil : forall t, [] = ToUpper t -> t = [].
Proof. intros [|c t] H; [reflexivity|discriminate H]. Qed.

Lemma ToUpper_token : forall t,
  In (ToUpper t) operatorTokens ->
  In t (map list_ascii_of_string
          ["OR"; "Or"; "oR"; "or"; "AND"; "ANd"; "AnD"; "And"; "aND"; "aNd"; "anD";
           "and"; "||"; "&&"]%string).
Proof.
  intros t H. cbn in H.
  destruct H as [H|[H|[H|[H|[]]]]];
    repeat (apply ToUpper_cons in H; destruct H as [? [? [? [? H]]]]; subst);
    apply ToUpper_nil in H; subst;
    repeat match goal with
    | H : _ \/ _ |- _ => destruct H as [H|H]; rewrite H
    end; vm_compute; tauto.
Qed.

(** [ParseLicenseExpression] on ASCII text.  No license of the result
    is empty.  The expression is split at one operator only, the first
    of [ OR ], [ AND ], [ or ], [ and ], [||], [&&] (in that order) to
    occur in it, and the result holds what [Normalize] makes of each
    trimmed piece, empty ones left out: in an expression that mixes OR
    and AND, a piece with AND is kept as one license.  A bare operator
    word, in any case, gives no license.  Without operator the result
    is what [Normalize] makes of the expression, if not empty. *)
Theorem ParseLicenseExpression_pieces : forall expr,
  is_ascii expr ->
  ~ In [] (ParseLicenseExpression expr)
  /\ (forall op, expr <> [] ->
        find (fun op => Contains (TrimSpace expr) op) operators = Some op ->
        ParseLicenseExpression expr
        = filter (fun n => negb (eqs n []))
            (map (fun part => Normalize (TrimSpace part)) (Split (TrimSpace expr) op)))
  /\ (In (ToUpper (TrimSpace expr)) operatorTokens -> ParseLicenseExpression expr = [])
  /\ ((forall op, In op operators -> Contains (TrimSpace expr) op = false) ->
      ~ In (ToUpper (TrimSpace expr)) operatorTokens ->
      ParseLicenseExpression expr
      = if eqs (Normalize expr) [] then [] else [Normalize expr]).
Proof.
  intros expr _.
  assert (Hop : forall op, expr <> [] ->
            find (fun op => Contains (TrimSpace expr) op) operators = Some op ->
            ParseLicenseExpression expr
            = filter (fun n => negb (eqs n []))
                (map (fun part => Normalize (TrimSpace part)) (Split (TrimSpace expr) op))).
  { intros op Hne Hf. unfold ParseLicenseExpression. rewrite (eqs_neq _ _ Hne), Hf.
    now rewrite appendNormalized_filter. }
  assert (Htrim : Normalize (TrimSpace expr) = Normalize expr).
  { rewrite !Normalize_eq. unfold cleaned. now rewrite TrimSpace_idem. }
  split; [|split; [exact Hop|split]].
  - destruct (eqs expr []) eqn:Ee; [unfold ParseLicenseExpression; now rewrite Ee|].
    assert (Hne : expr <> []) by (intros ->; discriminate Ee).
    destruct (find (fun op => Contains (TrimSpace expr) op) operators) as [op|] eqn:Ef.
    + rewrite (Hop op Hne eq_refl). intros Hin. apply filter_In in Hin.
      destruct Hin as [_ Hin]. discriminate Hin.
    + unfold ParseLicenseExpression. rewrite Ee, Ef.
      destruct (existsb _ operatorTokens); [tauto|].
      destruct (eqs (Normalize (TrimSpace expr)) []) eqn:En; cbn [negb]; [tauto|].
      intros [H|[]]. rewrite H in En. discriminate En.
  - intros Ht. unfold ParseLicenseExpression.
    destruct (eqs expr []); [reflexivity|].
    apply ToUpper_token in Ht. cbn [map In] in Ht.
    repeat (destruct Ht as [<-|Ht]; [vm_compute; reflexivity|]). destruct Ht.
  - intros Hnone Hnt. unfold ParseLicenseExpression.
    destruct (eqs expr []) eqn:Ee; [apply eqs_eq in Ee; now subst|].
    assert (Ef : find (fun op => Contains (TrimSpace expr) op) operators = None).
    { destruct (find (fun op => Contains (TrimSpace expr) op) operators) as [op|] eqn:Ef;
        [|reflexivity].
      apply find_some in Ef. destruct Ef as [Hin Hc]. rewrite (Hnone op Hin) in Hc.
      discriminate Hc. }
    rewrite Ef.
    assert (Ex : existsb (fun token => eqs (ToUpper (TrimSpace expr)) token) operatorTokens
                 = false).
    { destruct (existsb _ operatorTokens) eqn:Ex; [|reflexivity].
      apply existsb_exists in Ex. destruct Ex as [t [Ht E]]. apply eqs_eq in E.
      exfalso. apply Hnt. now rewrite E. }
    rewrite Ex, Htrim. now destruct (eqs (Normalize expr) []).
Qed.

Lemma ParseLicenseExpression_pieces_witness :
  ParseLicenseExpression "MIT AND ISC OR gpl" = textLines ["MIT AND ISC"; "GPL-3.0"]
  /\ ParseLicenseExpression " and " = []
  /\ ParseLicenseExpression "MIT OR " = textLines ["MIT OR"].
Proof.
  pose proof (ParseLicenseExpression_pieces "MIT AND ISC OR gpl"
                (is_ascii_check "MIT AND ISC OR gpl" eq_refl)) as H1.
  pose proof (ParseLicenseExpression_pieces " and "
                (is_ascii_check " and " eq_refl)) as H2.
  split; [|split; [|vm_compute; reflexivity]].
  - etransitivity;
      [apply (proj1 (proj2 H1) (" OR " : gostring));
         [discriminate|vm_compute; reflexivity]|].
    vm_compute. reflexivity.
  - apply (proj1 (proj2 (proj2 H2))). vm_compute. tauto.
Defined.

(** *** Scopes *)

(** The scope [determineScopeFromLockfile] gives is peer, optional, dev
    or prod, and the set of production names has no effect on it: a
    name found nowhere is prod as well.  [determineYarnScope] gives the
    empty scope exactly to a name that is in none of the four sets, and
    otherwise the scope [determineScopeFromLockfile] gives to a package
    of that name whose lockfile entry is neither optional nor dev. *)
Theorem determineScopeFromLockfile_cases : forall name pkg sets,
  In (determineScopeFromLockfile name pkg sets)
     (map list_ascii_of_string ["peer"; "optional"; "dev"; "prod"]%string)
  /\ (forall prod',
        determineScopeFromLockfile name pkg
          (mkSets prod' (devDeps sets) (peerDeps sets) (optionalDeps sets))
        = determineScopeFromLockfile name pkg sets)
  /\ (determineYarnScope name sets = []
      <-> ~ In name (prodDeps sets ++ devDeps sets ++ peerDeps sets ++ optionalDeps sets))
  /\ (Optional pkg = false -> Dev pkg = false ->
      determineYarnScope name sets <> [] ->
      determineYarnScope name sets = determineScopeFromLockfile name pkg sets).
Proof.
  intros name pkg sets. unfold determineScopeFromLockfile, determineYarnScope.
  cbn [prodDeps devDeps peerDeps optionalDeps map In].
  rewrite !in_app_iff.
  assert (H : forall set, has set name = true <-> In name set).
  { intros set. unfold has. rewrite existsb_exists. split.
    - intros [y [Hy E]]. apply eqs_eq in E. now subst.
    - intros Hin. exists name. split; [exact Hin|apply eqs_refl]. }
  pose proof (H (prodDeps sets)) as Hp. pose proof (H (devDeps sets)) as Hd.
  pose proof (H (peerDeps sets)) as He. pose proof (H (optionalDeps sets)) as Ho.
  assert (T : true = true) by reflexivity.
  destruct (has (peerDeps sets) name), (has (optionalDeps sets) name),
    (has (devDeps sets) name), (has (prodDeps sets) name),
    (Optional pkg), (Dev pkg); cbn [orb];
    (split; [tauto|]);
    (split; [intros prod'; destruct (has prod' name); reflexivity|]);
    (split; [split; [try discriminate; intros _; intuition discriminate
                    |intros Hn; try reflexivity; exfalso; tauto]|]);
    intros; try reflexivity; try discriminate; try congruence.
Qed.
